(* ===== verification/_CoqProject ===== *)
-Q . S2P
Prelude.v
PyDict.v
PyNum.v
PyStruct.v
Resources.v
InstanceManager.v
InstancePool.v
CircuitBreaker.v
RateLimiter.v
WorkloadShm.v
Policies.v
Precision.v
Scheduler.v
