(* ===== verification/Prelude.v ===== *)
(** * MindIE-PyMotor: a verification library (header written below) *)

From stdpp Require Export base list option numbers strings sets gmap.

#[global] Open Scope Z_scope.

(** ** Outcomes and the state-and-exception monad

    A Python method that reads and writes an object and may raise is a
    function from the state before to an outcome and the state after.  The
    state is kept when an exception is raised: a Python method does not roll
    back the assignments it made before the exception. *)

Inductive outcome (E A : Type) : Type :=
  | Ret (a : A)
  | Raise (e : E).
Arguments Ret {E A} a.
Arguments Raise {E A} e.

Definition ST (S E A : Type) : Type := S -> outcome E A * S.

#[global] Instance ST_ret {S E} : MRet (ST S E) := fun A a s => (Ret a, s).
#[global] Instance ST_bind {S E} : MBind (ST S E) := fun A B k m s =>
  match m s with
  | (Ret a, s') => k a s'
  | (Raise e, s') => (Raise e, s')
  end.

Definition st_get {S E} : ST S E S := fun s => (Ret s, s).
Definition st_put {S E} (s : S) : ST S E unit := fun _ => (Ret tt, s).
Definition st_modify {S E} (f : S -> S) : ST S E unit := fun s => (Ret tt, f s).
Definition st_raise {S E A} (e : E) : ST S E A := fun s => (Raise e, s).

(** A [for] loop whose body may raise: the iterations before the exception
    keep their effect. *)
Fixpoint st_for {S E A} (l : list A) (body : A -> ST S E unit) : ST S E unit :=
  match l with
  | [] => mret tt
  | x :: l' => body x ≫= fun _ => st_for l' body
  end.

(** The same with an accumulator the body updates. *)
Fixpoint st_fold {S E A B} (body : B -> A -> ST S E B) (acc : B) (l : list A) : ST S E B :=
  match l with
  | [] => mret acc
  | x :: l' => body acc x ≫= fun acc' => st_fold body acc' l'
  end.

(** [try: m except Exception: h] *)
Definition st_catch {S E A} (m : ST S E A) (h : E -> ST S E A) : ST S E A := fun s =>
  match m s with
  | (Ret a, s') => (Ret a, s')
  | (Raise e, s') => h e s'
  end.

(** Invariants of a monadic operation: [m] preserves [I] whatever it returns
    or raises. *)
Definition st_preserves {S E A} (I : S -> Prop) (m : ST S E A) : Prop :=
  forall s, I s -> I (m s).2.

Section Preservation.
Context {S E : Type} (I : S -> Prop).

Lemma st_preserves_ret {A} (a : A) : st_preserves (E:=E) I (mret a).
Proof. by intros s Hs. Qed.

Lemma st_preserves_bind {A B} (m : ST S E A) (k : A -> ST S E B) :
  st_preserves I m -> (forall a, st_preserves I (k a)) -> st_preserves I (m ≫= k).
Proof.
  intros Hm Hk s Hs. unfold mbind, ST_bind. specialize (Hm s Hs).
  destruct (m s) as [[a|e] s']; cbn in *; [by apply Hk | done].
Qed.

Lemma st_preserves_for {A} (l : list A) (body : A -> ST S E unit) :
  (forall a, st_preserves I (body a)) -> st_preserves I (st_for l body).
Proof.
  intros Hb. induction l as [|x l IH]; cbn; [apply st_preserves_ret|].
  apply st_preserves_bind; [apply Hb | by intros _].
Qed.

Lemma st_preserves_fold {A B} (body : B -> A -> ST S E B) (l : list A) : forall acc,
  (forall b a, st_preserves I (body b a)) -> st_preserves I (st_fold body acc l).
Proof.
  induction l as [|x l IH]; cbn; intros acc Hb; [apply st_preserves_ret|].
  apply st_preserves_bind; [apply Hb | intros b; by apply IH].
Qed.

Lemma st_preserves_catch {A} (m : ST S E A) (h : E -> ST S E A) :
  st_preserves I m -> (forall e, st_preserves I (h e)) -> st_preserves I (st_catch m h).
Proof.
  intros Hm Hh s Hs. unfold st_catch. specialize (Hm s Hs).
  destruct (m s) as [[a|e] s']; cbn in *; [done | by apply Hh].
Qed.
End Preservation.

Create HintDb motor.
#[export] Hint Resolve st_preserves_ret st_preserves_bind st_preserves_for st_preserves_fold
  st_preserves_catch : motor.

(** ** Tactics *)

(** Case analysis on the next [match]/[if] of the goal or of a hypothesis,
    keeping the equation, and clean-up of the contradictory branches. *)
Ltac split_match :=
  match goal with
  | |- context [match ?x with _ => _ end] =>
      lazymatch x with context [match _ with _ => _ end] => fail | _ => idtac end;
      let E := fresh "E" in destruct x eqn:E
  end.
Ltac split_match_in H :=
  match type of H with
  | context [match ?x with _ => _ end] =>
      lazymatch x with context [match _ with _ => _ end] => fail | _ => idtac end;
      let E := fresh "E" in destruct x eqn:E
  end.
(** A decidable closed goal, by evaluation. *)
Ltac decide_now := apply (bool_decide_unpack _); vm_compute; exact I.

Ltac split_matches := repeat (split_match; simplify_eq/=; try done).

(** ** Generic lemmas *)

Section ListLemmas.
Context {A B : Type}.

(** [existsb]/[forallb] in the shape the models use them. *)
Lemma existsb_True (f : A -> bool) (l : list A) :
  existsb f l = true <-> exists x, x ∈ l /\ f x = true.
Proof. rewrite existsb_exists. by setoid_rewrite <- list_elem_of_In. Qed.

Lemma existsb_False (f : A -> bool) (l : list A) :
  existsb f l = false <-> forall x, x ∈ l -> f x = false.
Proof.
  rewrite <- not_true_iff_false, existsb_True. split.
  - intros H x Hx. destruct (f x) eqn:E; [|done]. destruct H. eauto.
  - intros H (x & Hx & E). rewrite (H x Hx) in E. done.
Qed.

Lemma forallb_True' (f : A -> bool) (l : list A) :
  forallb f l = true <-> forall x, x ∈ l -> f x = true.
Proof. rewrite forallb_forall. by setoid_rewrite <- list_elem_of_In. Qed.

Lemma sum_list_app (l k : list nat) : sum_list (l ++ k) = (sum_list l + sum_list k)%nat.
Proof. induction l; cbn; lia. Qed.
End ListLemmas.
