(* ===== verification/PyDict.v ===== *)
(** * Python dictionaries

    A [dict] of the source is an association list in insertion order: the
    code iterates over dictionaries (endpoints of a pod, instances of the
    manager, slots of a table) and the order of the iteration is observable.
    Assignment to an existing key keeps its position, assignment to a new key
    appends, deletion removes the key.  [dict_wf] (no key twice) is the type
    invariant; every operation preserves it. *)

From S2P Require Import Prelude.

Abbreviation dict K V := (list (K * V)).

Section Dict.
Context {K V : Type} `{!EqDecision K}.
Implicit Types (d : dict K V) (k : K) (v : V).

(** [d.get(k)] *)
Fixpoint dget (k : K) (d : dict K V) : option V :=
  match d with
  | [] => None
  | (k', v) :: d' => if decide (k' = k) then Some v else dget k d'
  end.

(** [d[k] = v] *)
Fixpoint dset (k : K) (v : V) (d : dict K V) : dict K V :=
  match d with
  | [] => [(k, v)]
  | (k', v') :: d' => if decide (k' = k) then (k', v) :: d' else (k', v') :: dset k v d'
  end.

(** [del d[k]] / [d.pop(k, None)] *)
Fixpoint ddel (k : K) (d : dict K V) : dict K V :=
  match d with
  | [] => []
  | (k', v') :: d' => if decide (k' = k) then d' else (k', v') :: ddel k d'
  end.

(** [k in d] *)
Definition dmem (k : K) (d : dict K V) : bool :=
  match dget k d with Some _ => true | None => false end.

(** [d.keys()], [d.values()] *)
Definition dkeys (d : dict K V) : list K := d.*1.
Definition dvalues (d : dict K V) : list V := d.*2.

Definition dict_wf (d : dict K V) : Prop := NoDup (dkeys d).

Lemma dget_dset_eq k v d : dget k (dset k v d) = Some v.
Proof. induction d as [|[k' v'] d IH]; cbn; repeat (case_decide; cbn); congruence. Qed.

Lemma dget_dset_ne k k' v d : k <> k' -> dget k' (dset k v d) = dget k' d.
Proof.
  intros Hne. induction d as [|[k'' v'] d IH]; cbn; repeat (case_decide; cbn); congruence.
Qed.

Lemma dget_dset k k' v d :
  dget k' (dset k v d) = if decide (k = k') then Some v else dget k' d.
Proof. case_decide; subst; [apply dget_dset_eq | by apply dget_dset_ne]. Qed.

Lemma dget_None k d : dget k d = None <-> k ∉ dkeys d.
Proof.
  induction d as [|[k' v'] d IH]; cbn; [set_solver|].
  case_decide; subst; [split; [done|set_solver]|].
  rewrite IH, not_elem_of_cons. naive_solver.
Qed.

Lemma dget_Some_key k v d : dget k d = Some v -> k ∈ dkeys d.
Proof.
  intros H. destruct (decide (k ∈ dkeys d)) as [|Hn]; [done|].
  apply dget_None in Hn. congruence.
Qed.

Lemma dget_elem k v d : dget k d = Some v -> (k, v) ∈ d.
Proof.
  induction d as [|[k' v'] d IH]; cbn; [done|].
  case_decide; intros; simplify_eq; set_solver.
Qed.

Lemma elem_dget k v d : dict_wf d -> (k, v) ∈ d -> dget k d = Some v.
Proof.
  unfold dict_wf. induction d as [|[k' v'] d IH]; cbn; [set_solver|].
  rewrite NoDup_cons. intros [Hn Hd] [Heq|Hin]%elem_of_cons; case_decide; simplify_eq; try done.
  - destruct Hn. apply list_elem_of_fmap. by exists (k, v).
  - by apply IH.
Qed.

Lemma dget_ddel_ne k k' d : k <> k' -> dget k' (ddel k d) = dget k' d.
Proof.
  intros Hne. induction d as [|[k'' v'] d IH]; cbn; repeat (case_decide; cbn); congruence.
Qed.

Lemma dget_ddel_eq k d : dict_wf d -> dget k (ddel k d) = None.
Proof.
  unfold dict_wf. induction d as [|[k' v'] d IH]; cbn; [done|].
  rewrite NoDup_cons. intros [Hn Hd]. case_decide; subst; cbn.
  - by apply dget_None.
  - case_decide; [congruence|]. by apply IH.
Qed.

Lemma dkeys_dset_old k v d : k ∈ dkeys d -> dkeys (dset k v d) = dkeys d.
Proof.
  unfold dkeys. induction d as [|[k' v'] d IH]; cbn; [set_solver|].
  intros Hin. case_decide; cbn; [done|]. f_equal. apply IH. set_solver.
Qed.

Lemma dkeys_dset_fresh k v d : k ∉ dkeys d -> dkeys (dset k v d) = dkeys d ++ [k].
Proof.
  unfold dkeys. induction d as [|[k' v'] d IH]; cbn; [done|].
  intros Hn. case_decide; [set_solver|]. cbn. f_equal. apply IH. set_solver.
Qed.

Lemma dkeys_ddel_incl k k' d : k' ∈ dkeys (ddel k d) -> k' ∈ dkeys d.
Proof.
  unfold dkeys. induction d as [|[k'' v'] d IH]; cbn; [done|].
  case_decide; cbn; set_solver.
Qed.

Lemma dset_wf k v d : dict_wf d -> dict_wf (dset k v d).
Proof.
  unfold dict_wf. intros Hd. destruct (decide (k ∈ dkeys d)).
  { by rewrite dkeys_dset_old. }
  rewrite dkeys_dset_fresh by done. apply NoDup_app. repeat split; [done|set_solver|apply NoDup_singleton].
Qed.

Lemma ddel_wf k d : dict_wf d -> dict_wf (ddel k d).
Proof.
  unfold dict_wf. induction d as [|[k' v'] d IH]; cbn; [done|].
  rewrite NoDup_cons. intros [Hn Hd]. case_decide; [done|].
  cbn. rewrite NoDup_cons. split; [|by apply IH].
  intros Hin. by apply Hn, (dkeys_ddel_incl k).
Qed.

Lemma dict_wf_nil : dict_wf [].
Proof. apply NoDup_nil_2. Qed.

Lemma ddel_fresh k d : k ∉ dkeys d -> ddel k d = d.
Proof.
  unfold dkeys. induction d as [|[k' v'] d IH]; cbn; [done|].
  intros Hn. case_decide; [set_solver|]. f_equal. apply IH. set_solver.
Qed.

Lemma ddel_dset k v d : k ∉ dkeys d -> ddel k (dset k v d) = d.
Proof.
  unfold dkeys. induction d as [|[k' v'] d IH]; cbn; intros Hn.
  - by rewrite decide_True.
  - rewrite (decide_False (P:=k' = k)) by set_solver. cbn.
    rewrite decide_False by set_solver. f_equal. apply IH. set_solver.
Qed.

Lemma dset_dget_id k v d : dget k d = Some v -> dset k v d = d.
Proof.
  induction d as [|[k' v'] d IH]; cbn; [done|]. case_decide; intros; simplify_eq; [done|].
  f_equal. by apply IH.
Qed.

Lemma length_dset_fresh k v d : k ∉ dkeys d -> length (dset k v d) = S (length d).
Proof.
  unfold dkeys. induction d as [|[k' v'] d IH]; cbn; [done|]. intros Hn.
  case_decide; [set_solver|]. cbn. rewrite IH; set_solver.
Qed.

Lemma length_dset_old k v d : k ∈ dkeys d -> length (dset k v d) = length d.
Proof.
  unfold dkeys. induction d as [|[k' v'] d IH]; cbn; [set_solver|]. intros Hin.
  case_decide; cbn; [done|]. rewrite IH; set_solver.
Qed.

Lemma dmem_spec k d : dmem k d = true <-> k ∈ dkeys d.
Proof.
  unfold dmem. destruct (dget k d) eqn:E.
  - split; [|done]. intros _. by eapply dget_Some_key.
  - apply dget_None in E. split; [done|]. intros; done.
Qed.

Lemma elem_of_dvalues v d : v ∈ dvalues d <-> exists k, (k, v) ∈ d.
Proof.
  unfold dvalues. rewrite list_elem_of_fmap. split.
  - intros ([k v'] & -> & Hin). eauto.
  - intros [k Hin]. by exists (k, v).
Qed.

(** Two dictionaries with the same lookups: the observation of a client
    that only indexes. *)
Definition dict_equiv (d1 d2 : dict K V) : Prop := forall k, dget k d1 = dget k d2.

#[export] Instance dict_equiv_equivalence : Equivalence dict_equiv.
Proof. split; [by intros d k | by intros d1 d2 H k | by intros d1 d2 d3 H1 H2 k; rewrite H1]. Qed.

#[export] Instance dget_proper k : Proper (dict_equiv ==> eq) (dget k).
Proof. intros d1 d2 H. apply H. Qed.

#[export] Instance dset_proper k v : Proper (dict_equiv ==> dict_equiv) (dset k v).
Proof. intros d1 d2 H k'. rewrite !dget_dset. by case_decide. Qed.

#[export] Instance dmem_proper k : Proper (dict_equiv ==> eq) (dmem k).
Proof. intros d1 d2 H. unfold dmem. by rewrite H. Qed.

Lemma dset_commute k1 k2 v1 v2 d :
  k1 <> k2 -> dict_equiv (dset k1 v1 (dset k2 v2 d)) (dset k2 v2 (dset k1 v1 d)).
Proof. intros Hne k. rewrite !dget_dset. repeat case_decide; congruence. Qed.
End Dict.

(** Updating the values in place, keys and order kept. *)
Definition dmap {K V} (f : V -> V) (d : dict K V) : dict K V := prod_map id f <$> d.

Section DictMap.
Context {K V : Type} `{!EqDecision K}.
Implicit Types (d : dict K V).

Lemma dkeys_dmap f d : dkeys (dmap f d) = dkeys d.
Proof. unfold dkeys, dmap. rewrite <- list_fmap_compose. by apply list_fmap_ext. Qed.

Lemma dvalues_dmap f d : dvalues (dmap f d) = f <$> dvalues d.
Proof. unfold dvalues, dmap. by rewrite <- !list_fmap_compose. Qed.

Lemma dmap_wf f d : dict_wf d -> dict_wf (dmap f d).
Proof. unfold dict_wf. by rewrite dkeys_dmap. Qed.

Lemma dget_dmap f k d : dget k (dmap f d) = f <$> dget k d.
Proof. induction d as [|[k' v] d IH]; cbn; [done|]. by case_decide. Qed.
End DictMap.

Create HintDb dict.
#[export] Hint Resolve dset_wf ddel_wf dict_wf_nil dmap_wf : dict.
#[export] Hint Rewrite @dget_dset_eq @dkeys_dmap @dvalues_dmap @dget_dmap : dict.
