(* ===== verification/PyNum.v ===== *)
(** * Python numbers

    Python [int] is [Z]; Python [float] is an IEEE-754 binary64 datum, the
    Standard Library's executable [spec_float] with its round-to-nearest-even
    operations at precision 53 and maximal exponent 1024.  A variable that
    holds now an [int] and now a [float] (a token count that starts as an
    integer capacity) has type [pynum].

    Arithmetic that mixes the two converts the [int] first, and the conversion
    raises [OverflowError] outside the range of a [float].  Comparison never
    converts: Python compares an [int] and a [float] exactly.  Both are
    comparisons of the exact dyadic values [m * 2 ^ e], which is how they are
    defined here. *)

From Stdlib Require Import Floats.SpecFloat.
From S2P Require Import Prelude.

Abbreviation pyfloat := spec_float.

#[export] Instance pyfloat_eq_dec : EqDecision pyfloat.
Proof. solve_decision. Defined.

Definition prec : Z := 53.
Definition emax : Z := 1024.

(** ** Conversions *)

(** [float(z)]; [None] is [OverflowError]. *)
Definition float_of_Z (z : Z) : option pyfloat :=
  match binary_normalize prec emax z 0 false with
  | S754_infinity _ => None
  | f => Some f
  end.

(** A float literal of the source written as an integer multiple of a power of
    two, e.g. [30.0 = 15 * 2]. *)
Definition float_lit (m e : Z) : pyfloat := binary_normalize prec emax m e false.

(** ** Arithmetic on floats *)

Definition fadd : pyfloat -> pyfloat -> pyfloat := SFadd prec emax.
Definition fsub : pyfloat -> pyfloat -> pyfloat := SFsub prec emax.
Definition fmul : pyfloat -> pyfloat -> pyfloat := SFmul prec emax.

(** ** Exact values and comparison *)

Inductive xval : Type :=
  | XNaN
  | XInf (neg : bool)
  | XFin (m e : Z).

Definition float_val (f : pyfloat) : xval :=
  match f with
  | S754_zero _ => XFin 0 0
  | S754_infinity s => XInf s
  | S754_nan => XNaN
  | S754_finite s m e => XFin (cond_Zopp s (Zpos m)) e
  end.

Definition dyadic_compare (m1 e1 m2 e2 : Z) : comparison :=
  let e := Z.min e1 e2 in
  (m1 * 2 ^ (e1 - e) ?= m2 * 2 ^ (e2 - e)).

Definition xcompare (x y : xval) : option comparison :=
  match x, y with
  | XNaN, _ | _, XNaN => None
  | XInf s1, XInf s2 =>
      Some (match s1, s2 with true, false => Lt | false, true => Gt | _, _ => Eq end)
  | XInf s, XFin _ _ => Some (if s then Lt else Gt)
  | XFin _ _, XInf s => Some (if s then Gt else Lt)
  | XFin m1 e1, XFin m2 e2 => Some (dyadic_compare m1 e1 m2 e2)
  end.

Definition xltb (x y : xval) : bool :=
  match xcompare x y with Some Lt => true | _ => false end.
Definition xleb (x y : xval) : bool :=
  match xcompare x y with Some Lt | Some Eq => true | _ => false end.

(** [x < y] and [x <= y] on floats. *)
Definition fltb (x y : pyfloat) : bool := xltb (float_val x) (float_val y).
Definition fleb (x y : pyfloat) : bool := xleb (float_val x) (float_val y).

(** ** Numbers that are [int] or [float] *)

Inductive pynum : Type :=
  | PInt (z : Z)
  | PFloat (f : pyfloat).

Definition num_val (x : pynum) : xval :=
  match x with PInt z => XFin z 0 | PFloat f => float_val f end.

Definition num_ltb (x y : pynum) : bool := xltb (num_val x) (num_val y).
Definition num_leb (x y : pynum) : bool := xleb (num_val x) (num_val y).

(** [min(x, y)]: the first argument unless the second is smaller. *)
Definition num_min (x y : pynum) : pynum := if num_ltb y x then y else x.

Definition num_to_float (x : pynum) : option pyfloat :=
  match x with PInt z => float_of_Z z | PFloat f => Some f end.

Definition num_op (fz : Z -> Z -> Z) (ff : pyfloat -> pyfloat -> pyfloat) (x y : pynum)
    : option pynum :=
  match x, y with
  | PInt a, PInt b => Some (PInt (fz a b))
  | _, _ => fx ← num_to_float x; fy ← num_to_float y; Some (PFloat (ff fx fy))
  end.

(** [x + y], [x - y], [x * y]; [None] is [OverflowError]. *)
Definition num_add : pynum -> pynum -> option pynum := num_op Z.add fadd.
Definition num_sub : pynum -> pynum -> option pynum := num_op Z.sub fsub.
Definition num_mul : pynum -> pynum -> option pynum := num_op Z.mul fmul.

(** [int(x)]: truncation; [None] on a NaN or an infinity. *)
Definition num_trunc (x : pynum) : option Z :=
  match num_val x with
  | XFin m e => Some (if 0 <=? e then m * 2 ^ e else Z.quot m (2 ^ (- e)))
  | _ => None
  end.

(** [a / b] on integers: the correctly rounded quotient; [None] when [b] is
    zero or the quotient overflows. *)
Definition int_truediv (a b : Z) : option pyfloat :=
  if b =? 0 then None else
  let s := xorb (a <? 0) (b <? 0) in
  if a =? 0 then Some (S754_zero s) else
  let '(mz, ez, lz) := SFdiv_core_binary prec emax (Z.abs a) 0 (Z.abs b) 0 in
  match binary_round_aux prec emax s mz ez lz with
  | S754_infinity _ => None
  | f => Some f
  end.

Example truediv_third :
  (q ← int_truediv 100 60; num_trunc (PFloat q)) = Some 1.
Proof. reflexivity. Qed.

(** ** The order of values *)

(** Scaling both sides to a smaller common exponent does not change the
    comparison. *)
Lemma dyadic_compare_scale m1 e1 m2 e2 e :
  e <= e1 -> e <= e2 ->
  dyadic_compare m1 e1 m2 e2 = (m1 * 2 ^ (e1 - e) ?= m2 * 2 ^ (e2 - e)).
Proof.
  intros H1 H2. unfold dyadic_compare. set (em := Z.min e1 e2).
  assert (e <= em /\ em <= e1 /\ em <= e2) as (? & ? & ?) by (unfold em; lia).
  replace (e1 - e) with ((e1 - em) + (em - e)) by lia.
  replace (e2 - e) with ((e2 - em) + (em - e)) by lia.
  rewrite !Z.pow_add_r, !Z.mul_assoc by lia.
  assert (0 < 2 ^ (em - e)) by (apply Z.pow_pos_nonneg; lia).
  generalize (m1 * 2 ^ (e1 - em)) as a, (m2 * 2 ^ (e2 - em)) as b. intros a b.
  destruct (Z.compare_spec a b), (Z.compare_spec (a * 2 ^ (em - e)) (b * 2 ^ (em - e)));
    try done; exfalso; nia.
Qed.

Lemma dyadic_compare_refl m e : dyadic_compare m e m e = Eq.
Proof. unfold dyadic_compare. by rewrite Z.compare_refl. Qed.

Lemma dyadic_compare_antisym m1 e1 m2 e2 :
  dyadic_compare m2 e2 m1 e1 = CompOpp (dyadic_compare m1 e1 m2 e2).
Proof. unfold dyadic_compare. rewrite Z.min_comm. apply Z.compare_antisym. Qed.

Definition is_nan (x : xval) : bool := match x with XNaN => true | _ => false end.

Lemma xleb_refl x : is_nan x = false -> xleb x x = true.
Proof. destruct x as [|[]|]; cbn; try done. intros _. unfold xleb; cbn. by rewrite dyadic_compare_refl. Qed.

Lemma xltb_leb x y : xltb x y = true -> xleb x y = true.
Proof. unfold xltb, xleb. by destruct (xcompare x y) as [[]|]. Qed.

Lemma xcompare_antisym x y :
  xcompare y x = (fun c => CompOpp c) <$> xcompare x y.
Proof.
  destruct x as [|[]|], y as [|[]|]; cbn; try done. f_equal. apply dyadic_compare_antisym.
Qed.

Lemma xltb_false_leb x y :
  is_nan x = false -> is_nan y = false -> xltb x y = false -> xleb y x = true.
Proof.
  unfold xltb, xleb. intros Hx Hy. rewrite (xcompare_antisym x y).
  destruct x, y; try done; cbn; destruct neg || idtac; try destruct neg0; try done;
    destruct (dyadic_compare _ _ _ _); done.
Qed.

Lemma xleb_not_nan x y : xleb x y = true -> is_nan x = false /\ is_nan y = false.
Proof. destruct x as [|[]|], y as [|[]|]; done. Qed.

Lemma xleb_trans x y z : xleb x y = true -> xleb y z = true -> xleb x z = true.
Proof.
  destruct x as [|[]|m1 e1], y as [|[]|m2 e2], z as [|[]|m3 e3]; try done.
  unfold xleb; cbn. set (e := Z.min e1 (Z.min e2 e3)).
  rewrite (dyadic_compare_scale m1 e1 m2 e2 e), (dyadic_compare_scale m2 e2 m3 e3 e),
    (dyadic_compare_scale m1 e1 m3 e3 e) by (unfold e; lia).
  generalize (m1 * 2 ^ (e1 - e)) as a, (m2 * 2 ^ (e2 - e)) as b, (m3 * 2 ^ (e3 - e)) as c.
  intros a b c. destruct (Z.compare_spec a b), (Z.compare_spec b c), (Z.compare_spec a c);
    (done || (exfalso; lia)).
Qed.

Lemma xleb_total x y : is_nan x = false -> is_nan y = false ->
  xleb x y = true \/ xltb y x = true.
Proof.
  intros Hx Hy. destruct (xltb y x) eqn:E; [by right|left]. by apply xltb_false_leb.
Qed.

Lemma xltb_asym x y : xltb x y = true -> xleb y x = false.
Proof.
  unfold xltb, xleb. rewrite (xcompare_antisym x y).
  by destruct (xcompare x y) as [[]|].
Qed.

(** ** Signs of results

    Rounding keeps the sign: the sum and product of non-negative finite floats
    are non-negative, and so is [x - y] when [y <= x]. *)

Definition xnonneg (x : xval) : bool := xleb (XFin 0 0) x.

Lemma xnonneg_fin m e : xnonneg (XFin m e) = (0 <=? m).
Proof.
  unfold xnonneg, xleb; cbn. unfold dyadic_compare. rewrite Z.mul_0_l.
  assert (0 < 2 ^ (e - Z.min 0 e)) by (apply Z.pow_pos_nonneg; lia).
  generalize dependent (2 ^ (e - Z.min 0 e)). intros p Hp.
  destruct (Z.compare_spec 0 (m * p)); symmetry;
    [apply Z.leb_le | apply Z.leb_le | apply Z.leb_gt]; nia.
Qed.

Lemma shr_1_nonneg r : 0 <= shr_m r -> 0 <= shr_m (shr_1 r).
Proof. destruct r as [[|[p|p|]|p] r' s]; cbn; lia. Qed.

Lemma iter_shr_nonneg p : forall (r : shr_record), 0 <= shr_m r -> 0 <= shr_m (@SpecFloat.iter_pos shr_record shr_1 p r).
Proof. induction p; cbn; intros r Hr; auto using shr_1_nonneg. Qed.

Lemma shr_fexp_nonneg m e l : 0 <= m -> 0 <= shr_m (shr_fexp prec emax m e l).1.
Proof.
  intros Hm. unfold shr_fexp, shr.
  assert (0 <= shr_m (shr_record_of_loc m l)) by (destruct l as [|[]]; done).
  destruct (_ - _); cbn; auto using iter_shr_nonneg.
Qed.

Lemma round_nearest_even_nonneg m l : 0 <= m -> 0 <= round_nearest_even m l.
Proof. intros Hm. destruct l as [|[]]; cbn; try destruct (Z.even m); lia. Qed.

Lemma round_aux_sign s m e l : 0 <= m ->
  let f := binary_round_aux prec emax s m e l in
  f = S754_zero s \/ f = S754_infinity s \/ exists m' e', f = S754_finite s m' e'.
Proof.
  intros Hm f. unfold f, binary_round_aux.
  pose proof (shr_fexp_nonneg m e l Hm) as H1.
  destruct (shr_fexp prec emax m e l) as [r1 e1]; cbn [fst] in H1.
  pose proof (shr_fexp_nonneg (round_nearest_even (shr_m r1) (loc_of_shr_record r1)) e1 loc_Exact
    (round_nearest_even_nonneg _ _ H1)) as H2.
  destruct (shr_fexp _ _ _ _ _) as [r2 e2]; cbn [fst] in H2.
  destruct (shr_m r2) as [|p|p]; [by left | | lia].
  right. destruct (_ <=? _); eauto.
Qed.

Lemma normalize_nonneg m e : 0 <= m -> xnonneg (float_val (binary_normalize prec emax m e false)) = true.
Proof.
  intros Hm. unfold binary_normalize. destruct m as [|p|p]; [done| |lia].
  unfold binary_round. destruct (shl_align _ _ _) as [mz ez].
  destruct (round_aux_sign false (Zpos mz) ez loc_Exact) as [-> | [-> | (m' & e' & ->)]];
    [lia | done | done |]. cbn [float_val]. by rewrite xnonneg_fin.
Qed.

Lemma shl_align_val m e ez : ez <= e -> Zpos (fst (shl_align m e ez)) = Zpos m * 2 ^ (e - ez).
Proof.
  intros He. unfold shl_align. destruct (ez - e) as [|d|d] eqn:E.
  - replace (e - ez) with 0 by lia. cbn. lia.
  - lia.
  - replace (e - ez) with (Zpos d) by lia. cbn [fst].
    clear E He. induction d as [|d IH] using Pos.peano_ind; [cbn; lia|].
    rewrite Pos.iter_succ, Pos2Z.inj_succ, Z.pow_succ_r by lia.
    change (Zpos (xO (Pos.iter xO m d))) with (2 * Zpos (Pos.iter xO m d)).
    rewrite IH. lia.
Qed.

Lemma fadd_nonneg x y :
  xnonneg (float_val x) = true -> xnonneg (float_val y) = true ->
  xnonneg (float_val (fadd x y)) = true.
Proof.
  destruct x as [[]|[]| |sx mx ex], y as [[]|[]| |sy my ey]; cbn [float_val]; try done;
    rewrite ?xnonneg_fin; intros Hx Hy; cbn; rewrite ?xnonneg_fin; try done.
  apply normalize_nonneg. destruct sx, sy; cbn in *; lia || done.
Qed.

Lemma fmul_nonneg x y :
  xnonneg (float_val x) = true -> xnonneg (float_val y) = true ->
  (forall s, x <> S754_infinity s) -> (forall s, y <> S754_infinity s) ->
  xnonneg (float_val (fmul x y)) = true.
Proof.
  intros Hx Hy Hfx Hfy.
  destruct x as [sx|sx| |sx mx ex], y as [sy|sy| |sy my ey]; cbn [float_val] in *;
    try done; try (by destruct (Hfx sx)); try (by destruct (Hfy sy)).
  rewrite xnonneg_fin in Hx, Hy. destruct sx, sy; cbn in Hx, Hy; try done.
  cbn. destruct (round_aux_sign false (Zpos (mx * my)) (ex + ey) loc_Exact)
    as [-> | [-> | (m' & e' & ->)]]; [lia | done | done |].
  cbn [float_val]. by rewrite xnonneg_fin.
Qed.

Lemma cond_shl_align_val s p e ez : ez <= e ->
  cond_Zopp s (Zpos (fst (shl_align p e ez))) = cond_Zopp s (Zpos p) * 2 ^ (e - ez).
Proof.
  intros He. destruct s; unfold cond_Zopp; rewrite shl_align_val by done; [|done]. by rewrite Z.mul_opp_l.
Qed.

Lemma fsub_nonneg x y :
  xleb (float_val y) (float_val x) = true ->
  (forall s, y <> S754_infinity s) ->
  xnonneg (float_val (fsub x y)) = true.
Proof.
  intros Hle Hfy.
  destruct x as [sx|sx| |sx mx ex], y as [sy|sy| |sy my ey]; cbn [float_val] in *;
    try done; try (by destruct (Hfy sy)); try (by destruct sx).
  - by destruct sx, sy.
  - change (xnonneg (XFin (cond_Zopp (negb sy) (Zpos my)) ey) = true).
    rewrite xnonneg_fin. unfold xleb in Hle; cbn in Hle. unfold dyadic_compare in Hle.
    rewrite Z.mul_0_l in Hle.
    assert (0 < 2 ^ (ey - Z.min ey 0)) by (apply Z.pow_pos_nonneg; lia).
    destruct sy; cbn in *; [done|].
    destruct (Z.compare_spec (Zpos my * 2 ^ (ey - Z.min ey 0)) 0); try done; nia.
  - cbn. unfold xleb, xcompare, dyadic_compare in Hle. apply normalize_nonneg.
    rewrite Z.min_comm in Hle. set (ez := Z.min ex ey) in *.
    rewrite !cond_shl_align_val by (unfold ez; lia).
    match type of Hle with context [(?a ?= ?b)] => destruct (Z.compare_spec a b) end; try done; lia.
Qed.

(** The difference of equal finite values is a zero. *)
Lemma fsub_eq_zero s1 m1 e1 s2 m2 e2 :
  xcompare (float_val (S754_finite s1 m1 e1)) (float_val (S754_finite s2 m2 e2)) = Some Eq ->
  exists s, fsub (S754_finite s1 m1 e1) (S754_finite s2 m2 e2) = S754_zero s.
Proof.
  cbn [float_val xcompare]. unfold dyadic_compare. intros [=H%Z.compare_eq]. unfold fsub. cbn [SFsub].
  rewrite !cond_shl_align_val by lia. rewrite H, Z.sub_diag. by eexists.
Qed.

Lemma num_min_leb_l x y :
  is_nan (num_val x) = false -> num_leb (num_min x y) x = true.
Proof.
  intros Hx. unfold num_min. destruct (num_ltb y x) eqn:E.
  - by apply xltb_leb.
  - by apply xleb_refl.
Qed.

Lemma num_min_nonneg x y :
  xnonneg (num_val x) = true -> xnonneg (num_val y) = true ->
  xnonneg (num_val (num_min x y)) = true.
Proof. unfold num_min. by destruct (num_ltb y x). Qed.

(** ** Digits *)

Lemma digits2_pos_size p : Zpos (digits2_pos p) = Z.log2 (Zpos p) + 1.
Proof.
  induction p as [p IH|p IH|]; cbn [digits2_pos]; [| |done];
    rewrite Pos2Z.inj_succ, IH.
  - rewrite (Pos2Z.inj_xI p), Z.log2_succ_double by lia. lia.
  - rewrite (Pos2Z.inj_xO p), Z.log2_double by lia. lia.
Qed.

(** ** Integers as floats

    Integers of at most 53 bits are floats, and sums and differences of such
    integers that stay in the range are exact. *)

Lemma shr_1_even m : 0 < m -> shr_1 {| shr_m := 2 * m; shr_r := false; shr_s := false |} =
  {| shr_m := m; shr_r := false; shr_s := false |}.
Proof. destruct m as [|p|p]; [lia| |lia]. by intros _. Qed.

Lemma iter_pos_nat {A} (f : A -> A) n : forall x, @SpecFloat.iter_pos A f n x = Nat.iter (Pos.to_nat n) f x.
Proof.
  pose proof (fun a b => Nat.iter_add a b f) as Hadd.
  induction n as [n IH|n IH|]; intros x; cbn [SpecFloat.iter_pos]; [| |done].
  - rewrite !IH, Pos2Nat.inj_xI. replace (S (2 * Pos.to_nat n)) with (Pos.to_nat n + (Pos.to_nat n + 1))%nat by lia.
    by rewrite !Hadd.
  - rewrite !IH, Pos2Nat.inj_xO. replace (2 * Pos.to_nat n)%nat with (Pos.to_nat n + Pos.to_nat n)%nat by lia. by rewrite Hadd.
Qed.

(** Shifting right loses nothing when the low bits are zero. *)
Lemma shr_exact m d : 0 < m -> 0 <= d -> forall e,
  shr {| shr_m := m * 2 ^ d; shr_r := false; shr_s := false |} e d = ({| shr_m := m; shr_r := false; shr_s := false |}, e + d).
Proof.
  intros Hm Hd e. destruct d as [|p|p]; [by rewrite Z.mul_1_r, Z.add_0_r| |lia]. cbn [shr]. f_equal. rewrite iter_pos_nat.
  replace (Zpos p) with (Z.of_nat (Pos.to_nat p)) by lia. generalize (Pos.to_nat p) as k. clear p Hd.
  intros k. induction k as [|k IH]; [cbn; by rewrite Z.mul_1_r|]. rewrite Nat.iter_succ_r.
  rewrite Nat2Z.inj_succ, Z.pow_succ_r by lia. replace (m * (2 * 2 ^ Z.of_nat k)) with (2 * (m * 2 ^ Z.of_nat k)) by lia.
  assert (0 < 2 ^ Z.of_nat k) by (apply Z.pow_pos_nonneg; lia). rewrite shr_1_even by nia. exact IH.
Qed.

Lemma Zdigits2_pos m : 0 < m -> Zdigits2 m = Z.log2 m + 1.
Proof. destruct m as [|p|p]; [lia| |lia]. intros _. cbn [Zdigits2]. apply digits2_pos_size. Qed.

(** A mantissa of 53 digits with a small exponent is canonical. *)
Lemma fexp_canonical m e : 2 ^ 52 <= m < 2 ^ 53 -> -60 <= e -> fexp prec emax (Z.log2 m + 1 + e) = e.
Proof.
  intros Hm He. assert (Z.log2 m = 52) as -> by (apply Z.log2_unique; lia). unfold fexp, emin, prec, emax. lia.
Qed.

Lemma round_aux_canonical s m e d : 2 ^ 52 <= m < 2 ^ 53 -> -60 <= e <= 900 -> 0 <= d ->
  binary_round_aux prec emax s (m * 2 ^ d) (e - d) loc_Exact = S754_finite s (Z.to_pos m) e.
Proof.
  intros Hm He Hd. assert (Hp : 0 < 2 ^ d) by (apply Z.pow_pos_nonneg; lia). unfold binary_round_aux, shr_fexp. cbn [shr_record_of_loc].
  rewrite Zdigits2_pos, Z.log2_mul_pow2 by nia.
  replace (d + Z.log2 m + 1 + (e - d)) with (Z.log2 m + 1 + e) by lia. rewrite fexp_canonical by lia.
  replace (e - (e - d)) with d by lia. rewrite shr_exact by lia. cbn [loc_of_shr_record shr_m round_nearest_even].
  rewrite Zdigits2_pos by lia. replace (e - d + d) with e by lia. rewrite fexp_canonical, Z.sub_diag by lia.
  cbn [shr shr_m]. destruct m as [|p|p]; [lia| |lia]. assert ((e <=? emax - prec) = true) as -> by (apply Z.leb_le; unfold emax, prec; lia).
  done.
Qed.

(** Rounding of a value that has a canonical representation. *)
Lemma binary_round_exact s p e m ec : 2 ^ 52 <= m < 2 ^ 53 -> -60 <= e -> -60 <= ec <= 900 ->
  Zpos p * 2 ^ (e + 60) = m * 2 ^ (ec + 60) -> binary_round prec emax s p e = S754_finite s (Z.to_pos m) ec.
Proof.
  intros Hm He Hec Hv.
  assert (Hlog : Z.log2 (Zpos p) + e = Z.log2 m + ec).
  { apply (f_equal Z.log2) in Hv. rewrite !Z.log2_mul_pow2 in Hv by lia. lia. }
  unfold binary_round. rewrite digits2_pos_size. replace (Z.log2 (Zpos p) + 1 + e) with (Z.log2 m + 1 + ec) by lia.
  rewrite fexp_canonical by lia. destruct (Z_le_gt_dec e ec) as [Hle|Hgt].
  - assert (Hp : Zpos p = m * 2 ^ (ec - e)).
    { replace (ec + 60) with ((ec - e) + (e + 60)) in Hv by lia. rewrite (Z.pow_add_r 2 (ec - e)), Z.mul_assoc in Hv by lia.
      apply Z.mul_reg_r in Hv; [done|]. apply Z.pow_nonzero; lia. }
    assert (Ha : shl_align p e ec = (p, e)) by (unfold shl_align; destruct (ec - e) eqn:E; [done|done|lia]).
    rewrite Ha, Hp. replace e with (ec - (ec - e)) at 2 by lia. by apply round_aux_canonical; lia.
  - assert (Hp : m = Zpos p * 2 ^ (e - ec)).
    { replace (e + 60) with ((e - ec) + (ec + 60)) in Hv by lia. rewrite (Z.pow_add_r 2 (e - ec)), Z.mul_assoc in Hv by lia.
      apply Z.mul_reg_r in Hv; [done|]. apply Z.pow_nonzero; lia. }
    pose proof (shl_align_val p e ec ltac:(lia)) as Ha. rewrite <- Hp in Ha.
    assert (He' : snd (shl_align p e ec) = ec) by (unfold shl_align; destruct (ec - e) eqn:E; [exfalso; lia|exfalso; lia|done]).
    destruct (shl_align p e ec) as [mz ez]. cbn [fst snd] in *. subst ez. rewrite Ha.
    replace m with (m * 2 ^ 0) by lia. replace ec with (ec - 0) at 1 by lia.
    rewrite round_aux_canonical by lia. f_equal. f_equal. lia.
Qed.

(** The float of an integer. *)
Definition int_float (z : Z) : pyfloat :=
  if z =? 0 then S754_zero false
  else
    let e := Z.log2 (Z.abs z) - 52 in
    S754_finite (z <? 0) (Z.to_pos (if e <=? 0 then Z.abs z * 2 ^ (- e) else 2 ^ 52)) e.

Definition small (z : Z) : Prop := Z.abs z <= 2 ^ 53.

Lemma int_float_canonical z : small z -> z <> 0 -> exists m e,
  int_float z = S754_finite (z <? 0) (Z.to_pos m) e /\ 2 ^ 52 <= m < 2 ^ 53 /\ -52 <= e <= 1 /\
  m * 2 ^ (e + 60) = Z.abs z * 2 ^ 60.
Proof.
  intros Hs Hz. unfold small in Hs. unfold int_float. destruct (Z.eqb_spec z 0) as [|_]; [done|].
  set (a := Z.abs z) in *. assert (Ha : 0 < a) by lia. pose proof (Z.log2_spec a Ha) as Hl.
  pose proof (Z.log2_nonneg a) as Hn. assert (Hle : Z.log2 a <= 53) by (rewrite <- (Z.log2_pow2 53) by lia; by apply Z.log2_le_mono).
  destruct (Z.leb_spec (Z.log2 a - 52) 0) as [He|He].
  - exists (a * 2 ^ (- (Z.log2 a - 52))), (Z.log2 a - 52). split; [done|].
    assert (Hp : 0 < 2 ^ (- (Z.log2 a - 52))) by (apply Z.pow_pos_nonneg; lia).
    assert (H1 : 2 ^ Z.log2 a * 2 ^ (- (Z.log2 a - 52)) = 2 ^ 52) by (rewrite <- Z.pow_add_r by lia; f_equal; lia).
    assert (H2 : 2 ^ Z.succ (Z.log2 a) * 2 ^ (- (Z.log2 a - 52)) = 2 ^ 53) by (rewrite <- Z.pow_add_r by lia; f_equal; lia).
    split; [nia|]. split; [lia|]. rewrite <- Z.mul_assoc, <- Z.pow_add_r by lia. f_equal. f_equal. lia.
  - assert (Z.log2 a = 53) as E by lia. rewrite E in *. assert (a = 2 ^ 53) as -> by lia.
    exists (2 ^ 52), 1. repeat split; lia.
Qed.

(** [binary_normalize] of a representation of a small integer. *)
Lemma normalize_int M e z : small z -> -60 <= e -> M * 2 ^ (e + 60) = z * 2 ^ 60 ->
  binary_normalize prec emax M e false = int_float z.
Proof.
  intros Hs He Hv. assert (Hp : 0 < 2 ^ (e + 60)) by (apply Z.pow_pos_nonneg; lia).
  destruct (Z.eq_dec z 0) as [->|Hz]; [assert (M = 0) as -> by nia; done|].
  destruct (int_float_canonical z Hs Hz) as (m & ec & -> & Hm & Hec & Hmv). unfold binary_normalize.
  destruct M as [|p|p]; [nia| |].
  - assert (z > 0) by nia. destruct (Z.ltb_spec z 0); [lia|]. apply binary_round_exact; [done|done|lia|]. rewrite Hmv. lia.
  - assert (z < 0) by nia. destruct (Z.ltb_spec z 0); [|lia]. apply binary_round_exact; [done|done|lia|]. rewrite Hmv. lia.
Qed.

Lemma float_of_small z : small z -> float_of_Z z = Some (int_float z).
Proof.
  intros Hs. unfold float_of_Z. rewrite (normalize_int z 0 z Hs) by lia.
  unfold int_float. by destruct (z =? 0).
Qed.

Lemma fadd_int a b : small a -> small b -> small (a + b) -> fadd (int_float a) (int_float b) = int_float (a + b).
Proof.
  intros Ha Hb Hab. destruct (Z.eq_dec a 0) as [->|Ha0]; [|destruct (Z.eq_dec b 0) as [->|Hb0]].
  - cbn [int_float Z.eqb]. unfold fadd, int_float. rewrite Z.add_0_l. by destruct (b =? 0).
  - unfold fadd, int_float. rewrite Z.add_0_r. destruct (Z.eqb_spec a 0); done.
  - destruct (int_float_canonical a Ha Ha0) as (ma & ea & -> & Hma & Hea & Hva).
    destruct (int_float_canonical b Hb Hb0) as (mb & eb & -> & Hmb & Heb & Hvb).
    unfold fadd. cbn [SFadd]. rewrite !cond_shl_align_val by lia. set (ez := Z.min ea eb).
    apply normalize_int; [done|unfold ez; lia|]. rewrite Z.mul_add_distr_r, !Z2Pos.id by lia.
    rewrite <- !Z.mul_assoc, <- !Z.pow_add_r by (unfold ez; lia).
    replace (ea - ez + (ez + 60)) with (ea + 60) by lia. replace (eb - ez + (ez + 60)) with (eb + 60) by lia.
    destruct (Z.ltb_spec a 0), (Z.ltb_spec b 0); cbn [cond_Zopp]; lia.
Qed.
