(* ===== verification/PyStruct.v ===== *)
(** * The struct module

    Packing and unpacking of the little-endian formats the shared-memory
    layout uses: unsigned and signed integers of 1, 2, 4 and 8 bytes and the
    8-byte float.  A byte is a [Z] in [0, 256).  A value out of the range of
    its format makes [struct.pack] raise [struct.error]: [None]. *)

From Stdlib Require Import Floats.SpecFloat.
From S2P Require Import Prelude PyNum.

Abbreviation bytes := (list Z).

(** ** Integers *)

Fixpoint le_bytes (n : nat) (z : Z) : bytes :=
  match n with
  | O => []
  | S n => (z mod 256) :: le_bytes n (z / 256)
  end.

Fixpoint le_val (l : bytes) : Z :=
  match l with
  | [] => 0
  | b :: l => b + 256 * le_val l
  end.

(** Formats B, H, I, Q and b, h, i, q by their number of bytes. *)
Definition pack_u (n : nat) (z : Z) : option bytes :=
  if (0 <=? z) && (z <? 256 ^ Z.of_nat n) then Some (le_bytes n z) else None.
Definition pack_i (n : nat) (z : Z) : option bytes :=
  let h := 256 ^ Z.of_nat n / 2 in
  if (- h <=? z) && (z <? h) then Some (le_bytes n (z mod 256 ^ Z.of_nat n)) else None.

Definition unpack_u (l : bytes) : Z := le_val l.
Definition unpack_i (l : bytes) : Z :=
  let m := 256 ^ Z.of_nat (length l) in
  if le_val l <? m / 2 then le_val l else le_val l - m.

Lemma length_le_bytes n : forall z, length (le_bytes n z) = n.
Proof. induction n; intros z; cbn; [done|by rewrite IHn]. Qed.

Lemma le_val_bytes n : forall z, 0 <= z < 256 ^ Z.of_nat n -> le_val (le_bytes n z) = z.
Proof.
  induction n as [|n IH]; intros z Hz; cbn; [cbn in Hz; lia|].
  rewrite Nat2Z.inj_succ, Z.pow_succ_r in Hz by lia. rewrite IH.
  - pose proof (Z.div_mod z 256). lia.
  - split; [apply Z.div_pos; lia|apply Z.div_lt_upper_bound; lia].
Qed.

Lemma pack_u_spec n z l : pack_u n z = Some l ->
  l = le_bytes n z /\ length l = n /\ 0 <= z < 256 ^ Z.of_nat n /\ unpack_u l = z.
Proof.
  unfold pack_u. destruct ((0 <=? z) && (z <? 256 ^ Z.of_nat n)) eqn:E; [|done]. intros [= <-].
  apply andb_true_iff in E as [H1%Z.leb_le H2%Z.ltb_lt]. split; [done|]. split; [apply length_le_bytes|].
  split; [done|]. by apply le_val_bytes.
Qed.

Lemma pack_i_spec n z l : (0 < n)%nat -> pack_i n z = Some l -> length l = n /\ unpack_i l = z.
Proof.
  intros Hn. unfold pack_i. set (m := 256 ^ Z.of_nat n).
  assert (Hm : m = 2 * (m / 2)).
  { unfold m. destruct n as [|n]; [lia|]. rewrite Nat2Z.inj_succ, Z.pow_succ_r by lia.
    replace (256 * 256 ^ Z.of_nat n) with ((128 * 256 ^ Z.of_nat n) * 2) by lia. rewrite Z.div_mul; lia. }
  assert (Hp : 0 < m) by (apply Z.pow_pos_nonneg; lia).
  destruct ((- (m / 2) <=? z) && (z <? m / 2)) eqn:E; [|done]. intros [= <-].
  apply andb_true_iff in E as [H1%Z.leb_le H2%Z.ltb_lt].
  split; [apply length_le_bytes|]. unfold unpack_i. rewrite length_le_bytes. fold m.
  rewrite le_val_bytes by (fold m; apply Z.mod_pos_bound; lia).
  destruct (decide (0 <= z)).
  - rewrite Z.mod_small by lia. destruct (Z.ltb_spec z (m / 2)); lia.
  - replace (z mod m) with (z + m) by (rewrite <- (Z.mod_small (z + m) m) by lia;
      rewrite <- (Z_mod_plus_full z 1 m); f_equal; lia).
    destruct (Z.ltb_spec (z + m) (m / 2)); lia.
Qed.

(** ** Floats: format d

    Sign bit, 11 bits of biased exponent, 52 bits of fraction. *)

Definition sign_bit (s : bool) : Z := if s then 2 ^ 63 else 0.

Definition float_bits (f : pyfloat) : Z :=
  match f with
  | S754_zero s => sign_bit s
  | S754_infinity s => sign_bit s + 2047 * 2 ^ 52
  | S754_nan => 2047 * 2 ^ 52 + 2 ^ 51
  | S754_finite s m e =>
      if Zpos m <? 2 ^ 52 then sign_bit s + Zpos m
      else sign_bit s + (e + 1075) * 2 ^ 52 + (Zpos m - 2 ^ 52)
  end.

Definition float_of_bits (z : Z) : pyfloat :=
  let s := 2 ^ 63 <=? z in
  let r := z mod 2 ^ 63 in
  let ex := r / 2 ^ 52 in
  let fr := r mod 2 ^ 52 in
  if ex =? 2047 then (if fr =? 0 then S754_infinity s else S754_nan)
  else if ex =? 0 then (match fr with Zpos m => S754_finite s m (-1074) | _ => S754_zero s end)
  else match fr + 2 ^ 52 with Zpos m => S754_finite s m (ex - 1075) | _ => S754_zero s end.

Definition pack_d (f : pyfloat) : bytes := le_bytes 8 (float_bits f).
Definition unpack_d (l : bytes) : pyfloat := float_of_bits (le_val l).

(** A datum of binary64 (every Python float is one). *)
Definition is_float64 (f : pyfloat) : bool := valid_binary prec emax f.

Lemma finite_cases m e : is_float64 (S754_finite false m e) = true ->
  (Zpos m < 2 ^ 52 /\ e = -1074) \/ (2 ^ 52 <= Zpos m < 2 ^ 53 /\ -1074 <= e <= 971).
Proof.
  unfold is_float64, valid_binary, bounded, canonical_mantissa, fexp, emin, prec, emax.
  rewrite andb_true_iff, Z.eqb_eq, Z.leb_le, digits2_pos_size. intros [H1 H2].
  pose proof (Z.log2_spec (Zpos m) ltac:(lia)) as [L1 L2].
  destruct (Z_lt_le_dec (Z.log2 (Zpos m)) 52) as [Hl|Hl].
  - left. split; [|lia]. eapply Z.lt_le_trans; [exact L2|]. apply Z.pow_le_mono_r; lia.
  - right. assert (Hl' : Z.log2 (Zpos m) = 52) by lia. rewrite Hl' in L1, L2. split; [done|lia].
Qed.

Lemma is_float64_sign s m e : is_float64 (S754_finite s m e) = is_float64 (S754_finite false m e).
Proof. done. Qed.

Lemma float_bits_range f : is_float64 f = true -> 0 <= float_bits f < 2 ^ 64.
Proof.
  destruct f as [s|s| |s m e]; [by destruct s|by destruct s|done|]. rewrite is_float64_sign.
  intros [[H1 ->]|[[H1 H2] H3]]%finite_cases; unfold float_bits, sign_bit; destruct (Z.ltb_spec (Zpos m) (2 ^ 52));
    destruct s; lia.
Qed.

(** Decoding a sign, an exponent and a fraction. *)
Lemma of_bits_parts s ex fr : 0 <= ex < 2048 -> 0 <= fr < 2 ^ 52 ->
  let z := sign_bit s + ex * 2 ^ 52 + fr in
  (2 ^ 63 <=? z) = s /\ (z mod 2 ^ 63) / 2 ^ 52 = ex /\ (z mod 2 ^ 63) mod 2 ^ 52 = fr.
Proof.
  intros He Hf z. assert (Hr : z mod 2 ^ 63 = ex * 2 ^ 52 + fr).
  { unfold z, sign_bit. destruct s.
    - replace (2 ^ 63 + ex * 2 ^ 52 + fr) with (ex * 2 ^ 52 + fr + 1 * 2 ^ 63) by lia.
      rewrite Z_mod_plus_full. apply Z.mod_small. lia.
    - rewrite Z.add_0_l. apply Z.mod_small. lia. }
  rewrite Hr. split; [|split].
  - unfold z, sign_bit. destruct s; [apply Z.leb_le|apply Z.leb_gt]; lia.
  - rewrite Z.div_add_l by lia. rewrite (Z.div_small fr) by lia. lia.
  - rewrite Z.add_comm, Z_mod_plus_full. by apply Z.mod_small.
Qed.

Lemma float_bits_roundtrip f : is_float64 f = true -> float_of_bits (float_bits f) = f.
Proof.
  destruct f as [s|s| |s m e]; [by destruct s|by destruct s|done|]. rewrite is_float64_sign.
  intros [[H1 ->]|[[H1 H2] H3]]%finite_cases; unfold float_bits, float_of_bits.
  - destruct (Z.ltb_spec (Zpos m) (2 ^ 52)); [|lia].
    destruct (of_bits_parts s 0 (Zpos m)) as (E1 & E2 & E3); [lia|lia|].
    rewrite Z.mul_0_l, Z.add_0_r in E1, E2, E3. by rewrite E1, E2, E3.
  - destruct (Z.ltb_spec (Zpos m) (2 ^ 52)); [lia|].
    destruct (of_bits_parts s (e + 1075) (Zpos m - 2 ^ 52)) as (E1 & E2 & E3); [lia|lia|].
    rewrite E1, E2, E3. destruct (Z.eqb_spec (e + 1075) 2047); [lia|]. destruct (Z.eqb_spec (e + 1075) 0); [lia|].
    replace (Zpos m - 2 ^ 52 + 2 ^ 52) with (Zpos m) by lia. f_equal. lia.
Qed.

Lemma pack_d_roundtrip f : is_float64 f = true -> unpack_d (pack_d f) = f.
Proof.
  intros Hf. unfold unpack_d, pack_d. rewrite le_val_bytes; [by apply float_bits_roundtrip|].
  apply (float_bits_range f Hf).
Qed.

Lemma length_pack_d f : length (pack_d f) = 8%nat.
Proof. apply length_le_bytes. Qed.

(** ** Slices of a buffer *)

Definition slice (off n : nat) (b : bytes) : bytes := take n (drop off b).

(** [buf[off : off + len(data)] = data] for a slice inside the buffer. *)
Definition splice (off : nat) (data b : bytes) : bytes := take off b ++ data ++ drop (off + length data) b.

Lemma length_splice off data b : (off + length data <= length b)%nat -> length (splice off data b) = length b.
Proof. intros H. unfold splice. rewrite !length_app, length_take, length_drop. lia. Qed.

Lemma slice_splice_same off data b : (off + length data <= length b)%nat ->
  slice off (length data) (splice off data b) = data.
Proof.
  intros H. unfold slice, splice. rewrite drop_app_length' by (rewrite length_take; lia). by rewrite take_app_length.
Qed.

(** A part of what was written. *)
Lemma slice_splice_in off data b k n : (off + length data <= length b)%nat -> (k + n <= length data)%nat ->
  slice (off + k) n (splice off data b) = slice k n data.
Proof.
  intros H Hk. unfold slice, splice. rewrite <- drop_drop. rewrite drop_app_length' by (rewrite length_take; lia).
  rewrite drop_app_le by lia. rewrite take_app_le; [done|]. rewrite length_drop. lia.
Qed.

Lemma slice_splice_before off data b k n : (off + length data <= length b)%nat -> (k + n <= off)%nat ->
  slice k n (splice off data b) = slice k n b.
Proof.
  intros H Hk. unfold slice, splice. rewrite drop_app_le by (rewrite length_take; lia).
  rewrite take_app_le by (rewrite length_drop, length_take; lia).
  rewrite !take_drop_commute, take_take. do 2 f_equal. lia.
Qed.

Lemma slice_splice_after off data b k n : (off + length data <= length b)%nat -> (off + length data <= k)%nat ->
  slice k n (splice off data b) = slice k n b.
Proof.
  intros H Hk. unfold slice, splice. f_equal. rewrite drop_app_ge by (rewrite length_take; lia).
  rewrite length_take, drop_app_ge by lia. rewrite drop_drop. f_equal. lia.
Qed.

Lemma length_slice off n b : (off + n <= length b)%nat -> length (slice off n b) = n.
Proof. intros H. unfold slice. rewrite length_take, length_drop. lia. Qed.

(** Slices of a concatenation. *)
Lemma slice_app_skip a b k n : slice (length a + k) n (a ++ b) = slice k n b.
Proof. unfold slice. rewrite <- drop_drop. by rewrite drop_app_length. Qed.

Lemma slice_app_head a b n : length a = n -> slice 0 n (a ++ b) = a.
Proof. intros <-. unfold slice. rewrite drop_0. apply take_app_length. Qed.

Lemma slice_app_skip' a b m k n : length a = m -> slice (m + k) n (a ++ b) = slice k n b.
Proof. intros <-. apply slice_app_skip. Qed.

Lemma slice_slice off n k m b : (k + m <= n)%nat -> (off + n <= length b)%nat ->
  slice k m (slice off n b) = slice (off + k) m b.
Proof.
  intros H1 H2. unfold slice. replace n with (k + (n - k))%nat by lia.
  rewrite <- take_drop_commute, take_take, drop_drop. f_equal. lia.
Qed.

Lemma slice_app_ge a b m k n : length a = m -> (m <= k)%nat -> slice k n (a ++ b) = slice (k - m) n b.
Proof. intros H1 H2. rewrite <- (slice_app_skip' a b m (k - m) n H1). f_equal. lia. Qed.

Lemma slice_all a n : length a = n -> slice 0 n a = a.
Proof. intros <-. unfold slice. rewrite drop_0. by rewrite take_ge. Qed.

(** A slice at a known place of a concatenation of blocks of known lengths. *)
Ltac slice_simpl :=
  repeat match goal with
  | H : length ?a = ?m |- context [slice ?k ?n (?a ++ ?b)] =>
      first [ rewrite (slice_app_ge a b m k n H) by lia; cbn [Nat.sub]
            | rewrite (slice_app_head a b n H) ]
  | H : length ?a = ?n |- context [slice 0 ?n ?a] => rewrite (slice_all a n H)
  end.
