(* ===== verification/Resources.v ===== *)
(** * Endpoints and instances

    The data model shared by the controller and the coordinator:
    [motor/common/resources/endpoint.py] and [motor/common/resources/instance.py].

    An [Instance] is a Python object that several holders reference; its
    methods read and write it under its own re-entrant lock, so each is one
    atomic function from the record before to the record after.  What a method
    reports to the observability component (server-exception alarms) is part
    of its result.  [time.time()] is an argument. *)

From S2P Require Import Prelude PyDict PyNum.

(** ** Enumerations *)

Inductive InsStatus := Ins_INITIAL | Ins_INACTIVE | Ins_ACTIVE | Ins_PAUSED | Ins_DELETED.
#[export] Instance InsStatus_eq_dec : EqDecision InsStatus.
Proof. solve_decision. Defined.

Inductive PDRole := ROLE_E | ROLE_P | ROLE_D | ROLE_U.
#[export] Instance PDRole_eq_dec : EqDecision PDRole.
Proof. solve_decision. Defined.

Definition PDRole_value (r : PDRole) : string :=
  match r with
  | ROLE_E => "encode" | ROLE_P => "prefill" | ROLE_D => "decode" | ROLE_U => "union"
  end.

(** [PDRole(value)]: the member with that value; [_missing_] accepts the
    historical literal "both"; [None] is [ValueError]. *)
Definition PDRole_of_value (v : string) : option PDRole :=
  if decide (v = "encode"%string) then Some ROLE_E
  else if decide (v = "prefill"%string) then Some ROLE_P
  else if decide (v = "decode"%string) then Some ROLE_D
  else if decide (v = "union"%string) then Some ROLE_U
  else if decide (v = "both"%string) then Some ROLE_U
  else None.

Inductive InsConditionEvent :=
  | INSTANCE_INIT | INSTANCE_HEARTBEAT_TIMEOUT | INSTANCE_NORMAL
  | INSTANCE_ABNORMAL | INSTANCE_PAUSED | INSTANCE_RESUMED.
#[export] Instance InsConditionEvent_eq_dec : EqDecision InsConditionEvent.
Proof. solve_decision. Defined.

Inductive EndpointStatus := Ep_INITIAL | Ep_NORMAL | Ep_ABNORMAL | Ep_PAUSED | Ep_WAIT2START.
#[export] Instance EndpointStatus_eq_dec : EqDecision EndpointStatus.
Proof. solve_decision. Defined.

Inductive WorkloadAction := ALLOCATION | RELEASE_TOKENS.
#[export] Instance WorkloadAction_eq_dec : EqDecision WorkloadAction.
Proof. solve_decision. Defined.

(** ** Workload *)

Record Workload := { active_tokens : pyfloat }.
#[export] Instance Workload_eq_dec : EqDecision Workload.
Proof. solve_decision. Defined.

Definition Workload_default : Workload := {| active_tokens := SpecFloat.S754_zero false |}.

(** [self += other] *)
Definition Workload_iadd (self other : Workload) : Workload :=
  {| active_tokens := fadd (active_tokens self) (active_tokens other) |}.

(** The role only has to be present: the score is [active_tokens] for every
    role; [None] is [ValueError]. *)
Definition calculate_workload_score (w : Workload) (role : option string) : option pyfloat :=
  match role with
  | None => None
  | Some _ => Some (active_tokens w)
  end.

(** ** Endpoint *)

Record DeviceInfo := {
  device_ip : option string;
  device_id : string;
  rank_id : string;
  super_device_id : option string }.
#[export] Instance DeviceInfo_eq_dec : EqDecision DeviceInfo.
Proof. solve_decision. Defined.

Record Endpoint := {
  ep_id : Z;
  ep_ip : string;
  business_port : string;
  mgmt_port : string;
  bootstrap_port : option Z;
  ep_status : EndpointStatus;
  device_infos : list DeviceInfo;
  hb_timestamp : pyfloat;
  workload : Workload;
  headless : bool }.

#[export] Instance Endpoint_eq_dec : EqDecision Endpoint.
Proof. solve_decision. Defined.

(** [Endpoint(...)]: absent arguments take their defaults, the heartbeat starts
    at the current time, and the model validation refuses a bootstrap port
    outside 1..65535 ([None] is [ValidationError]). *)
Definition Endpoint_init (now : pyfloat) (id : Z) (ip bport mport : string)
    (boot : option Z) (st : option EndpointStatus) (devs : option (list DeviceInfo))
    (hb : option pyfloat) (wl : option Workload) (hl : bool) : option Endpoint :=
  let boot_ok := match boot with None => true | Some p => (1 <=? p) && (p <=? 65535) end in
  if boot_ok then
    Some {| ep_id := id; ep_ip := ip; business_port := bport; mgmt_port := mport;
            bootstrap_port := boot; ep_status := default Ep_INITIAL st;
            device_infos := default [] devs; hb_timestamp := default now hb;
            workload := default Workload_default wl; headless := hl |}
  else None.

Definition ep_set_hb (t : pyfloat) (e : Endpoint) : Endpoint :=
  {| ep_id := ep_id e; ep_ip := ep_ip e; business_port := business_port e;
     mgmt_port := mgmt_port e; bootstrap_port := bootstrap_port e; ep_status := ep_status e;
     device_infos := device_infos e; hb_timestamp := t; workload := workload e;
     headless := headless e |}.
Definition ep_set_status (s : EndpointStatus) (e : Endpoint) : Endpoint :=
  {| ep_id := ep_id e; ep_ip := ep_ip e; business_port := business_port e;
     mgmt_port := mgmt_port e; bootstrap_port := bootstrap_port e; ep_status := s;
     device_infos := device_infos e; hb_timestamp := hb_timestamp e; workload := workload e;
     headless := headless e |}.
Definition ep_set_devices (l : list DeviceInfo) (e : Endpoint) : Endpoint :=
  {| ep_id := ep_id e; ep_ip := ep_ip e; business_port := business_port e;
     mgmt_port := mgmt_port e; bootstrap_port := bootstrap_port e; ep_status := ep_status e;
     device_infos := l; hb_timestamp := hb_timestamp e; workload := workload e;
     headless := headless e |}.
Definition ep_set_workload (w : Workload) (e : Endpoint) : Endpoint :=
  {| ep_id := ep_id e; ep_ip := ep_ip e; business_port := business_port e;
     mgmt_port := mgmt_port e; bootstrap_port := bootstrap_port e; ep_status := ep_status e;
     device_infos := device_infos e; hb_timestamp := hb_timestamp e; workload := w;
     headless := headless e |}.
Definition ep_set_headless (b : bool) (e : Endpoint) : Endpoint :=
  {| ep_id := ep_id e; ep_ip := ep_ip e; business_port := business_port e;
     mgmt_port := mgmt_port e; bootstrap_port := bootstrap_port e; ep_status := ep_status e;
     device_infos := device_infos e; hb_timestamp := hb_timestamp e; workload := workload e;
     headless := b |}.

Definition add_device (d : DeviceInfo) (e : Endpoint) : Endpoint :=
  if decide (d ∈ device_infos e) then e else ep_set_devices (device_infos e ++ [d]) e.

Fixpoint list_remove_first {A} `{EqDecision A} (x : A) (l : list A) : list A :=
  match l with
  | [] => []
  | y :: l' => if decide (y = x) then l' else y :: list_remove_first x l'
  end.

Definition del_device (d : DeviceInfo) (e : Endpoint) : Endpoint :=
  if decide (d ∈ device_infos e) then ep_set_devices (list_remove_first d (device_infos e)) e else e.

Definition is_alive (e : Endpoint) (timestamp heartbeat_timeout : pyfloat) : bool :=
  fleb (fsub timestamp (hb_timestamp e)) heartbeat_timeout.

(** ** Parallel configuration *)

Record ParallelConfig := {
  dp_size : Z; pcp_size : Z; tp_size : Z; ep_size : Z; pp_size : Z;
  world_size : Z; local_world_size : Z }.
#[export] Instance ParallelConfig_eq_dec : EqDecision ParallelConfig.
Proof. solve_decision. Defined.

Definition ParallelConfig_init (dp pcp tp ep pp world local_world : option Z) (enable_ep : bool)
    : ParallelConfig :=
  let dp_val := default 1 dp in
  let pcp_val := default 1 pcp in
  let tp_val := default 1 tp in
  let pp_val := default 1 pp in
  let world_size_val := default 0 world in
  let local_world_size_val := default 0 local_world in
  let world_size_val :=
    if world_size_val =? 0 then dp_val * pcp_val * tp_val * pp_val else world_size_val in
  let local_world_size_val :=
    if local_world_size_val =? 0 then pcp_val * tp_val * pp_val else local_world_size_val in
  let ep_val := if enable_ep then world_size_val else default 1 ep in
  {| dp_size := dp_val; pcp_size := pcp_val; tp_size := tp_val; ep_size := ep_val;
     pp_size := pp_val; world_size := world_size_val; local_world_size := local_world_size_val |}.

Record NodeManagerInfo := { nm_pod_ip : string; nm_port : string; nm_device_num : Z }.
#[export] Instance NodeManagerInfo_eq_dec : EqDecision NodeManagerInfo.
Proof. solve_decision. Defined.

(** ** Instance *)

Definition CLEAR_INSTANCE_TIMEOUT : Z := 300.
Definition DEFAULT_ACTIVE_HEARTBEAT_TIMEOUT : Z := 10.

(** [ins_cached] is the cached tuple of endpoints.  The tuple holds references
    to [Endpoint] objects; here an object is named by its pod address and its
    key in that pod's dictionary, and read at the time of use.  Its two
    companions are the structure version and the version at caching time. *)
Record Instance_ := {
  job_name : string;
  model_name : string;
  engine_type : option string;
  dispatch_capabilities : list string;
  ins_id : Z;
  ins_role : string;
  ins_status : InsStatus;
  parallel_config : option ParallelConfig;
  enable_multi_endpoints : bool;
  node_managers : list NodeManagerInfo;
  endpoints : dict string (dict Z Endpoint);
  gathered_workload : Workload;
  ins_endpoints_version : Z;
  ins_cached : option (list (string * Z));
  ins_cached_version : option Z }.

Definition ins_set_status (s : InsStatus) (i : Instance_) : Instance_ :=
  {| job_name := job_name i; model_name := model_name i; engine_type := engine_type i;
     dispatch_capabilities := dispatch_capabilities i; ins_id := ins_id i;
     ins_role := ins_role i; ins_status := s; parallel_config := parallel_config i;
     enable_multi_endpoints := enable_multi_endpoints i; node_managers := node_managers i;
     endpoints := endpoints i; gathered_workload := gathered_workload i;
     ins_endpoints_version := ins_endpoints_version i; ins_cached := ins_cached i;
     ins_cached_version := ins_cached_version i |}.
Definition ins_set_node_managers (l : list NodeManagerInfo) (i : Instance_) : Instance_ :=
  {| job_name := job_name i; model_name := model_name i; engine_type := engine_type i;
     dispatch_capabilities := dispatch_capabilities i; ins_id := ins_id i;
     ins_role := ins_role i; ins_status := ins_status i;
     parallel_config := parallel_config i;
     enable_multi_endpoints := enable_multi_endpoints i; node_managers := l;
     endpoints := endpoints i; gathered_workload := gathered_workload i;
     ins_endpoints_version := ins_endpoints_version i; ins_cached := ins_cached i;
     ins_cached_version := ins_cached_version i |}.
Definition ins_set_endpoints (e : dict string (dict Z Endpoint)) (i : Instance_) : Instance_ :=
  {| job_name := job_name i; model_name := model_name i; engine_type := engine_type i;
     dispatch_capabilities := dispatch_capabilities i; ins_id := ins_id i;
     ins_role := ins_role i; ins_status := ins_status i;
     parallel_config := parallel_config i;
     enable_multi_endpoints := enable_multi_endpoints i; node_managers := node_managers i;
     endpoints := e; gathered_workload := gathered_workload i;
     ins_endpoints_version := ins_endpoints_version i; ins_cached := ins_cached i;
     ins_cached_version := ins_cached_version i |}.
Definition ins_set_version (v : Z) (i : Instance_) : Instance_ :=
  {| job_name := job_name i; model_name := model_name i; engine_type := engine_type i;
     dispatch_capabilities := dispatch_capabilities i; ins_id := ins_id i;
     ins_role := ins_role i; ins_status := ins_status i;
     parallel_config := parallel_config i;
     enable_multi_endpoints := enable_multi_endpoints i; node_managers := node_managers i;
     endpoints := endpoints i; gathered_workload := gathered_workload i;
     ins_endpoints_version := v; ins_cached := ins_cached i;
     ins_cached_version := ins_cached_version i |}.
Definition ins_set_cache (c : option (list (string * Z))) (v : option Z) (i : Instance_) : Instance_ :=
  {| job_name := job_name i; model_name := model_name i; engine_type := engine_type i;
     dispatch_capabilities := dispatch_capabilities i; ins_id := ins_id i;
     ins_role := ins_role i; ins_status := ins_status i;
     parallel_config := parallel_config i;
     enable_multi_endpoints := enable_multi_endpoints i; node_managers := node_managers i;
     endpoints := endpoints i; gathered_workload := gathered_workload i;
     ins_endpoints_version := ins_endpoints_version i; ins_cached := c;
     ins_cached_version := v |}.
Definition ins_set_gathered (w : Workload) (i : Instance_) : Instance_ :=
  {| job_name := job_name i; model_name := model_name i; engine_type := engine_type i;
     dispatch_capabilities := dispatch_capabilities i; ins_id := ins_id i;
     ins_role := ins_role i; ins_status := ins_status i;
     parallel_config := parallel_config i;
     enable_multi_endpoints := enable_multi_endpoints i; node_managers := node_managers i;
     endpoints := endpoints i; gathered_workload := w;
     ins_endpoints_version := ins_endpoints_version i; ins_cached := ins_cached i;
     ins_cached_version := ins_cached_version i |}.

(** [Instance( job_name=..., ... )] with the fields the callers pass. *)
Definition Instance_new (job model : string) (engine : option string) (caps : list string)
    (id : Z) (role : string) (multi : bool) : Instance_ :=
  {| job_name := job; model_name := model; engine_type := engine;
     dispatch_capabilities := caps; ins_id := id; ins_role := role; ins_status := Ins_INITIAL;
     parallel_config := None; enable_multi_endpoints := multi; node_managers := [];
     endpoints := []; gathered_workload := Workload_default; ins_endpoints_version := 0;
     ins_cached := None; ins_cached_version := None |}.

(** *** Node managers *)

Definition add_node_mgr (pod_ip port : option string) (device_num : Z) (i : Instance_) : Instance_ :=
  match pod_ip, port with
  | Some ip, Some p =>
      let nm := {| nm_pod_ip := ip; nm_port := p; nm_device_num := device_num |} in
      if decide (nm ∈ node_managers i) then i
      else ins_set_node_managers (node_managers i ++ [nm]) i
  | _, _ => i
  end.

Fixpoint pop_node_mgr (ip p : string) (l : list NodeManagerInfo) : list NodeManagerInfo :=
  match l with
  | [] => []
  | nm :: l' =>
      if decide (nm_pod_ip nm = ip /\ nm_port nm = p) then l' else nm :: pop_node_mgr ip p l'
  end.

Definition del_node_mgr (pod_ip port : option string) (i : Instance_) : Instance_ :=
  match pod_ip, port with
  | Some ip, Some p => ins_set_node_managers (pop_node_mgr ip p (node_managers i)) i
  | _, _ => i
  end.

Definition has_node_mgr (pod_ip : option string) (i : Instance_) : bool :=
  match pod_ip with
  | None => false
  | Some ip => existsb (fun nm => bool_decide (nm_pod_ip nm = ip)) (node_managers i)
  end.

Definition get_node_managers_num (i : Instance_) : nat := length (node_managers i).
Definition get_node_managers (i : Instance_) : list NodeManagerInfo := node_managers i.

(** *** Structure of the endpoint table *)

Definition bump_version (i : Instance_) : Instance_ := ins_set_version (ins_endpoints_version i + 1) i.

(** [eps = None] stands for an argument that is [None] or not a dict. *)
Definition add_endpoints (pod_ip : string) (eps : option (dict Z Endpoint)) (i : Instance_) : Instance_ :=
  match eps with
  | None => i
  | Some d => bump_version (ins_set_endpoints (dset pod_ip d (endpoints i)) i)
  end.

Definition del_endpoints (pod_ip : string) (i : Instance_) : Instance_ :=
  if dmem pod_ip (endpoints i)
  then bump_version (ins_set_endpoints (ddel pod_ip (endpoints i)) i)
  else i.

Definition get_endpoints_num (i : Instance_) : nat := sum_list (length <$> dvalues (endpoints i)).

Definition get_endpoints (ip : string) (i : Instance_) : dict Z Endpoint :=
  default [] (dget ip (endpoints i)).

Definition is_ip_in_endpoints (ip : string) (i : Instance_) : bool := dmem ip (endpoints i).

Definition invalidate_endpoints_cache (i : Instance_) : Instance_ := bump_version i.

Definition update_instance_status (s : InsStatus) (i : Instance_) : Instance_ := ins_set_status s i.

Definition get_expected_endpoint_count (i : Instance_) : Z :=
  match parallel_config i with
  | None => 0
  | Some pc =>
      if enable_multi_endpoints i then dp_size pc
      else match node_managers i with
           | [] => 0
           | nm :: _ =>
               let device_num_per_node := nm_device_num nm in
               if device_num_per_node <=? 0 then 0
               else (world_size pc + device_num_per_node - 1) / device_num_per_node
           end
  end.

Definition is_endpoints_enough (i : Instance_) : bool :=
  match parallel_config i with
  | None => false
  | Some pc =>
      if enable_multi_endpoints i then Z.of_nat (get_endpoints_num i) =? dp_size pc
      else
        let expected_node_count := get_expected_endpoint_count i in
        if expected_node_count <=? 0 then false
        else Z.of_nat (length (node_managers i)) =? expected_node_count
  end.

(** *** Status of the endpoints *)

(** The endpoints in the order of the two nested loops. *)
Definition all_eps (i : Instance_) : list Endpoint := concat (dvalues <$> dvalues (endpoints i)).

Inductive ServerExceptionReason := HEARTBEAT_TIMEOUT_REASON | ENDPOINT_ABNORMAL_REASON.

(** [ServerExceptionEvent(endpoint_ip, endpoint_ids, reason_id)], one alarm
    handed to the observability component. *)
Record ServerExceptionEvent := {
  see_endpoint_ip : string; see_endpoint_ids : list Z; see_reason : ServerExceptionReason }.

(** [d.setdefault(ep.ip, []).append(ep.id)] *)
Definition group_add (d : dict string (list Z)) (e : Endpoint) : dict string (list Z) :=
  dset (ep_ip e) (default [] (dget (ep_ip e) d) ++ [ep_id e]) d.

Definition group_by_ip (l : list Endpoint) : dict string (list Z) := foldl group_add [] l.

Definition server_alarms (reason : ServerExceptionReason) (g : dict string (list Z))
    : list ServerExceptionEvent :=
  (fun '(ip, ids) => {| see_endpoint_ip := ip; see_endpoint_ids := ids; see_reason := reason |}) <$> g.

(** The heartbeat limit in force: short for an ACTIVE instance, long for the
    others. *)
Definition heartbeat_limit (active_timeout : option pyfloat) (i : Instance_) : pyfloat :=
  if decide (ins_status i = Ins_ACTIVE)
  then default (float_lit DEFAULT_ACTIVE_HEARTBEAT_TIMEOUT 0) active_timeout
  else float_lit CLEAR_INSTANCE_TIMEOUT 0.

Definition is_all_endpoints_alive (active_timeout : option pyfloat) (now : pyfloat) (i : Instance_)
    : bool * list ServerExceptionEvent :=
  let timeout := heartbeat_limit active_timeout i in
  let dead_endpoints :=
    group_by_ip (base.filter (fun e => is_alive e now timeout = false) (all_eps i)) in
  match dead_endpoints with
  | [] => (true, [])
  | _ => (false, server_alarms HEARTBEAT_TIMEOUT_REASON dead_endpoints)
  end.

(** The nested loops with their early returns; the accumulator is
    [has_routable_endpoint]. *)
Fixpoint eps_ready (has_routable : bool) (l : list Endpoint) : bool :=
  match l with
  | [] => has_routable
  | e :: l' =>
      if headless e then
        match ep_status e with
        | Ep_NORMAL | Ep_WAIT2START => eps_ready has_routable l'
        | _ => false
        end
      else if decide (ep_status e = Ep_NORMAL) then eps_ready true l' else false
  end.

Definition is_all_endpoints_ready (i : Instance_) : bool := eps_ready false (all_eps i).

Definition is_have_one_endpoint_abnormal (i : Instance_) : bool * list ServerExceptionEvent :=
  let abnormal_endpoints :=
    group_by_ip (base.filter (fun e => ep_status e = Ep_ABNORMAL) (all_eps i)) in
  match abnormal_endpoints with
  | [] => (false, [])
  | _ => (true, server_alarms ENDPOINT_ABNORMAL_REASON abnormal_endpoints)
  end.

Definition is_all_endpoints_paused (i : Instance_) : bool :=
  match endpoints i with
  | [] => false
  | _ => forallb (fun e => bool_decide (ep_status e = Ep_PAUSED)) (all_eps i)
  end.

Definition is_any_endpoint_paused (i : Instance_) : bool :=
  existsb (fun e => bool_decide (ep_status e = Ep_PAUSED)) (all_eps i).

(** *** Heartbeat *)

(** [status[endpoint.id]] on a missing id raises [KeyError]. *)
Inductive KeyError := key_error (k : Z).

(** The loop over one pod's endpoints: the timestamp is written before the
    status is looked up, so an unknown id leaves the earlier endpoints fully
    updated and the offending one with a fresh timestamp. *)
Fixpoint heartbeat_loop (timestamp : pyfloat) (status : dict Z EndpointStatus)
    (eps : dict Z Endpoint) : outcome KeyError unit * dict Z Endpoint :=
  match eps with
  | [] => (Ret tt, [])
  | (k, e) :: eps' =>
      let e := ep_set_hb timestamp e in
      match dget (ep_id e) status with
      | None => (Raise (key_error (ep_id e)), (k, e) :: eps')
      | Some s =>
          let '(o, r) := heartbeat_loop timestamp status eps' in
          (o, (k, ep_set_status s e) :: r)
      end
  end.

Definition update_heartbeat (ip : string) (timestamp : pyfloat) (status : dict Z EndpointStatus)
    : ST Instance_ KeyError bool := fun i =>
  match dget ip (endpoints i) with
  | Some eps =>
      if decide (length eps = length status) then
        let '(o, eps') := heartbeat_loop timestamp status eps in
        let i' := ins_set_endpoints (dset ip eps' (endpoints i)) i in
        match o with
        | Ret _ => (Ret true, i')
        | Raise e => (Raise e, i')
        end
      else (Ret false, i)
  | None => (Ret false, i)
  end.

(** [for endpoints in ...: for endpoint in ...: endpoint.hb_timestamp = t] *)
Definition refresh_hb (t : pyfloat) (i : Instance_) : Instance_ :=
  ins_set_endpoints (dmap (dmap (ep_set_hb t)) (endpoints i)) i.

(** *** The cached endpoint tuple *)

(** The names of the endpoints the loop of [get_all_endpoints] collects. *)
Definition ep_selected (include_headless multi : bool) (e : Endpoint) : bool :=
  if negb include_headless && headless e then false
  else if multi then true else ep_id e =? 0.

Definition pod_paths (include_headless multi : bool) (p : string * dict Z Endpoint)
    : list (string * Z) :=
  (fun kv : Z * Endpoint => (p.1, kv.1)) <$>
    base.filter (fun kv : Z * Endpoint => ep_selected include_headless multi kv.2 = true) p.2.

Definition endpoint_paths (include_headless : bool) (i : Instance_) : list (string * Z) :=
  concat (pod_paths include_headless (enable_multi_endpoints i) <$> endpoints i).

(** The object a name denotes. *)
Definition resolve (i : Instance_) (p : string * Z) : option Endpoint :=
  eps ← dget p.1 (endpoints i); dget p.2 eps.

Definition cache_valid (i : Instance_) : option (list (string * Z)) :=
  match ins_cached i, ins_cached_version i with
  | Some t, Some v => if decide (v = ins_endpoints_version i) then Some t else None
  | _, _ => None
  end.

Definition get_all_endpoints (include_headless : bool) (i : Instance_) : list Endpoint * Instance_ :=
  let compute := fun _ : unit =>
    let paths := endpoint_paths include_headless i in
    (omap (resolve i) paths,
     if include_headless then i
     else ins_set_cache (Some paths) (Some (ins_endpoints_version i)) i) in
  if include_headless then compute tt
  else match cache_valid i with
       | Some t => (omap (resolve i) t, i)
       | None => compute tt
       end.

(** ** Read-only wrapper and copies *)

Definition modification_methods : list string :=
  ["add_node_mgr"; "del_node_mgr"; "add_endpoints"; "del_endpoints";
   "update_heartbeat"; "update_instance_status"]%string.

(** [ReadOnlyInstance.__getattr__]: [true] when the access is delegated,
    [false] when it raises [AttributeError]. *)
Definition readonly_getattr (name : string) : bool := negb (bool_decide (name ∈ modification_methods)).

(** [to_instance] (and [__deepcopy__], which wraps the same copy): a new
    object built from the listed fields, its cache empty. *)
Definition to_instance (i : Instance_) : Instance_ :=
  let c := Instance_new (job_name i) (model_name i) (engine_type i) (dispatch_capabilities i)
             (ins_id i) (ins_role i) (enable_multi_endpoints i) in
  {| job_name := job_name c; model_name := model_name c; engine_type := engine_type c;
     dispatch_capabilities := dispatch_capabilities c; ins_id := ins_id c;
     ins_role := ins_role c; ins_status := ins_status i; parallel_config := parallel_config i;
     enable_multi_endpoints := enable_multi_endpoints c; node_managers := node_managers i;
     endpoints := endpoints i; gathered_workload := gathered_workload i;
     ins_endpoints_version := ins_endpoints_version c; ins_cached := ins_cached c;
     ins_cached_version := ins_cached_version c |}.

(** ** Lemmas: alarms *)

Lemma dget_group_foldl ip l : forall d,
  dget ip (foldl group_add d l) =
    match ep_id <$> base.filter (fun e => ep_ip e = ip) l with
    | [] => dget ip d
    | ids => Some (default [] (dget ip d) ++ ids)
    end.
Proof.
  induction l as [|e l IH]; intros d; [done|]. cbn [foldl]. rewrite IH, filter_cons.
  unfold group_add. rewrite dget_dset. destruct (decide (ep_ip e = ip)) as [<-|Hne].
  - cbn. destruct (ep_id <$> _); cbn; [done|]. by rewrite <- (assoc_L (++)).
  - done.
Qed.

Lemma group_by_ip_spec ip l :
  dget ip (group_by_ip l) =
    match ep_id <$> base.filter (fun e => ep_ip e = ip) l with [] => None | ids => Some ids end.
Proof. unfold group_by_ip. rewrite dget_group_foldl. by destruct (ep_id <$> _). Qed.

Lemma group_by_ip_nil l : group_by_ip l = [] <-> l = [].
Proof.
  split; [|by intros ->]. destruct l as [|e l]; [done|]. intros H.
  pose proof (group_by_ip_spec (ep_ip e) (e :: l)) as Hg. rewrite H in Hg.
  rewrite filter_cons, decide_True in Hg by done. done.
Qed.

Lemma group_foldl_wf l : forall d, dict_wf d -> dict_wf (foldl group_add d l).
Proof. induction l; cbn; [done|]. intros d Hd. apply IHl, dset_wf, Hd. Qed.

(** One alarm per address, and its ids are the offending endpoints of that
    address in table order. *)
Lemma server_alarms_spec reason l a :
  a ∈ server_alarms reason (group_by_ip l) <->
  see_reason a = reason /\ see_endpoint_ids a <> [] /\
  see_endpoint_ids a = ep_id <$> base.filter (fun e => ep_ip e = see_endpoint_ip a) l.
Proof.
  unfold server_alarms. rewrite list_elem_of_fmap. split.
  - intros ([ip ids] & -> & Hin). cbn.
    apply elem_dget in Hin; [|apply group_foldl_wf, dict_wf_nil].
    rewrite group_by_ip_spec in Hin. destruct (ep_id <$> _) eqn:E; [done|].
    by simplify_eq.
  - intros (Hr & Hne & Hids). exists (see_endpoint_ip a, see_endpoint_ids a).
    split; [destruct a; cbn in *; by subst|]. apply dget_elem.
    rewrite group_by_ip_spec, <- Hids. by destruct (see_endpoint_ids a).
Qed.

Lemma is_all_endpoints_alive_spec to now i :
  (is_all_endpoints_alive to now i).1 = true <->
  forall e, e ∈ all_eps i -> is_alive e now (heartbeat_limit to i) = true.
Proof.
  unfold is_all_endpoints_alive. destruct (group_by_ip _) eqn:E.
  - split; [|done]. intros _ e He. apply group_by_ip_nil in E.
    destruct (is_alive e now _) eqn:Ea; [done|]. exfalso.
    assert (e ∈ base.filter (fun e => is_alive e now (heartbeat_limit to i) = false) (all_eps i))
      as Hin by by apply list_elem_of_filter.
    rewrite E in Hin. set_solver.
  - split; [done|]. intros H. exfalso.
    assert (base.filter (fun e => is_alive e now (heartbeat_limit to i) = false) (all_eps i) = [])
      as Hnil; [|by rewrite Hnil in E].
    apply elem_of_nil_inv. intros e [Hd He]%list_elem_of_filter. by rewrite H in Hd.
Qed.

Lemma is_have_one_endpoint_abnormal_spec i :
  (is_have_one_endpoint_abnormal i).1 = true <->
  exists e, e ∈ all_eps i /\ ep_status e = Ep_ABNORMAL.
Proof.
  unfold is_have_one_endpoint_abnormal. destruct (group_by_ip _) eqn:E.
  - split; [done|]. intros (e & He & Hs). apply group_by_ip_nil in E.
    assert (e ∈ base.filter (fun e => ep_status e = Ep_ABNORMAL) (all_eps i)) as Hin
      by by apply list_elem_of_filter.
    rewrite E in Hin. set_solver.
  - split; [|done]. intros _.
    destruct (base.filter (fun e => ep_status e = Ep_ABNORMAL) (all_eps i)) as [|e l'] eqn:Ef; [done|].
    exists e. apply and_comm, (list_elem_of_filter (fun e => ep_status e = Ep_ABNORMAL)).
    rewrite Ef. set_solver.
Qed.

(** ** Lemmas: readiness *)

Definition ep_ready_ok (e : Endpoint) : Prop :=
  if headless e then ep_status e = Ep_NORMAL \/ ep_status e = Ep_WAIT2START
  else ep_status e = Ep_NORMAL.

Lemma eps_ready_spec l : forall r,
  eps_ready r l = true <->
  (forall e, e ∈ l -> ep_ready_ok e) /\ (r = true \/ exists e, e ∈ l /\ headless e = false).
Proof.
  induction l as [|e l IH]; intros r; cbn [eps_ready].
  { split; [intros ->; set_solver|]. intros [_ [->|(e & He & _)]]; set_solver. }
  assert (Hall : (forall e', e' ∈ e :: l -> ep_ready_ok e') <->
                 ep_ready_ok e /\ forall e', e' ∈ l -> ep_ready_ok e') by set_solver.
  rewrite Hall. unfold ep_ready_ok at 1.
  destruct (headless e) eqn:Eh.
  - assert (Hex : (exists e', e' ∈ e :: l /\ headless e' = false) <->
                  exists e', e' ∈ l /\ headless e' = false).
    { split; intros (e' & He' & Hh); [|set_solver].
      apply elem_of_cons in He' as [->|]; [congruence|eauto]. }
    rewrite Hex. destruct (ep_status e) eqn:Es; rewrite ?IH; intuition congruence.
  - assert (Hex : exists e', e' ∈ e :: l /\ headless e' = false) by (exists e; set_solver).
    case_decide as Es; rewrite ?IH; intuition congruence.
Qed.

Lemma is_all_endpoints_ready_spec i :
  is_all_endpoints_ready i = true <->
  (forall e, e ∈ all_eps i -> ep_ready_ok e) /\ exists e, e ∈ all_eps i /\ headless e = false.
Proof. unfold is_all_endpoints_ready. rewrite eps_ready_spec. intuition congruence. Qed.

Lemma is_any_endpoint_paused_spec i :
  is_any_endpoint_paused i = true <-> exists e, e ∈ all_eps i /\ ep_status e = Ep_PAUSED.
Proof.
  unfold is_any_endpoint_paused. rewrite existsb_True. by setoid_rewrite bool_decide_eq_true.
Qed.

Lemma is_all_endpoints_paused_spec i :
  is_all_endpoints_paused i = true <->
  endpoints i <> [] /\ forall e, e ∈ all_eps i -> ep_status e = Ep_PAUSED.
Proof.
  unfold is_all_endpoints_paused. destruct (endpoints i) eqn:E; [naive_solver|].
  rewrite forallb_True'. setoid_rewrite bool_decide_eq_true. naive_solver.
Qed.

(** ** Lemmas: heartbeat *)

(** What the heartbeat of a pod leaves unchanged in an endpoint. *)
Definition ep_same_identity (e e' : Endpoint) : Prop :=
  ep_id e' = ep_id e /\ headless e' = headless e /\ ep_ip e' = ep_ip e /\ workload e' = workload e.

Definition pod_same : relation (dict Z Endpoint) :=
  Forall2 (fun x y => y.1 = x.1 /\ ep_same_identity x.2 y.2).

Lemma heartbeat_loop_identity ts st eps : pod_same eps (heartbeat_loop ts st eps).2.
Proof.
  unfold pod_same.
  induction eps as [|[k e] eps IH]; cbn; [constructor|].
  destruct (dget (ep_id e) st).
  - destruct (heartbeat_loop ts st eps) as [o r]; cbn in *. by repeat constructor.
  - repeat constructor; cbn; try done. apply Forall2_same_length_lookup_2; [done|].
    intros j x y Hx Hy. simplify_eq. by repeat split.
Qed.

Lemma heartbeat_loop_ok ts st eps :
  (forall k e, (k, e) ∈ eps -> dget (ep_id e) st <> None) ->
  heartbeat_loop ts st eps =
    (Ret tt, (fun p => (p.1, ep_set_status (default Ep_INITIAL (dget (ep_id p.2) st))
                               (ep_set_hb ts p.2))) <$> eps).
Proof.
  induction eps as [|[k e] eps IH]; cbn; intros H; [done|].
  destruct (dget (ep_id e) st) eqn:E; [|destruct (H k e); [set_solver|done]].
  rewrite IH; [done|]. intros k' e' Hin. apply (H k'). set_solver.
Qed.

Lemma heartbeat_loop_raise ts st eps e r :
  heartbeat_loop ts st eps = (Raise e, r) ->
  exists k ep, (k, ep) ∈ eps /\ e = key_error (ep_id ep) /\ dget (ep_id ep) st = None.
Proof.
  revert r. induction eps as [|[k ep] eps IH]; cbn; intros r H; [done|].
  destruct (dget (ep_id ep) st) eqn:E.
  - destruct (heartbeat_loop ts st eps) as [o r'] eqn:Hl. simplify_eq.
    destruct (IH _ eq_refl) as (k' & ep' & Hin & ? & ?). exists k', ep'. set_solver.
  - simplify_eq. exists k, ep. set_solver.
Qed.

(** ** Lemmas: the cached endpoint tuple *)

(** The type invariant of the endpoint table: no pod and no key twice. *)
Definition table_wf (i : Instance_) : Prop :=
  dict_wf (endpoints i) /\ forall ip eps, (ip, eps) ∈ endpoints i -> dict_wf eps.

(** The cache invariant: a cached version is never ahead of the structure
    version, and when they agree the cached names are the ones a fresh
    computation would collect. *)
Definition cache_coherent (i : Instance_) : Prop :=
  (forall v, ins_cached_version i = Some v -> v <= ins_endpoints_version i) /\
  (forall t, cache_valid i = Some t -> t = endpoint_paths false i).

Definition inst_ok (i : Instance_) : Prop := table_wf i /\ cache_coherent i.

Lemma resolve_pod i b pod :
  dict_wf (endpoints i) -> pod ∈ endpoints i -> dict_wf pod.2 ->
  omap (resolve i) (pod_paths b (enable_multi_endpoints i) pod) =
  base.filter (fun e => ep_selected b (enable_multi_endpoints i) e = true) (dvalues pod.2).
Proof.
  intros Hwf Hin Hpod. destruct pod as [ip eps]. unfold pod_paths. cbn [fst snd] in *.
  assert (Hget : forall k e, (k, e) ∈ eps -> resolve i (ip, k) = Some e).
  { intros k e He. unfold resolve. cbn. rewrite (elem_dget ip eps) by done. by apply elem_dget. }
  clear Hin Hpod. induction eps as [|[k e] eps IH]; [done|].
  unfold dvalues in *. cbn [fmap list_fmap]. rewrite !filter_cons. cbn [snd fst].
  case_decide.
  - cbn [fmap list_fmap omap list_omap fst]. rewrite (Hget k e) by set_solver.
    f_equal. apply IH. set_solver.
  - apply IH. set_solver.
Qed.

Lemma omap_concat {A B} (f : A -> option B) (ls : list (list A)) :
  omap f (concat ls) = concat ((omap f : list A -> list B) <$> ls).
Proof. induction ls as [|l ls IH]; [done|]. cbn [concat]. by rewrite omap_app, IH. Qed.

Lemma filter_concat {A} (P : A -> Prop) `{!forall x, Decision (P x)} (ls : list (list A)) :
  base.filter P (concat ls) = concat ((base.filter P : list A -> list A) <$> ls).
Proof. induction ls as [|l ls IH]; [done|]. cbn [concat]. by rewrite filter_app, IH. Qed.

(** Resolving the collected names gives the selected endpoints in table
    order. *)
Lemma endpoint_paths_resolve b i : table_wf i ->
  omap (resolve i) (endpoint_paths b i) =
  base.filter (fun e => ep_selected b (enable_multi_endpoints i) e = true) (all_eps i).
Proof.
  intros [Hwf Hpods]. unfold endpoint_paths, all_eps.
  rewrite omap_concat, filter_concat. f_equal. unfold dvalues at 2.
  rewrite <- !list_fmap_compose. apply list_fmap_ext. intros n pod Hl.
  apply list_elem_of_lookup_2 in Hl. unfold compose.
  apply resolve_pod; [done|done|]. destruct pod as [ip eps]. by apply (Hpods ip).
Qed.

(** Same names: the tables agree on pods, keys, ids and headless flags. *)
Lemma endpoint_paths_ext b i i' :
  enable_multi_endpoints i' = enable_multi_endpoints i ->
  Forall2 (fun p q => q.1 = p.1 /\
    pod_same p.2 q.2)
    (endpoints i) (endpoints i') ->
  endpoint_paths b i' = endpoint_paths b i.
Proof.
  intros Hm HF. unfold endpoint_paths. rewrite Hm. f_equal.
  induction HF as [|p q l l' [Hk HF2] _ IH]; [done|]. cbn [fmap list_fmap]. f_equal; [|done].
  unfold pod_paths. rewrite Hk. clear IH Hk. induction HF2 as [|x y m m' [Hx (Hi & Hh & _)] _ IH]; [done|].
  rewrite !filter_cons. unfold ep_selected in *. rewrite Hi, Hh.
  case_decide; cbn [fmap list_fmap]; [|done]. rewrite Hx. by f_equal.
Qed.

Lemma Forall2_refl_list {A} (R : relation A) `{!Reflexive R} (l : list A) : Forall2 R l l.
Proof. induction l; by constructor. Qed.

#[export] Instance ep_same_identity_refl : Reflexive ep_same_identity.
Proof. by intros e; repeat split. Qed.

(** A write that bumps the version makes any cache invalid. *)
Lemma inst_ok_bump i i' :
  inst_ok i -> table_wf i' -> ins_endpoints_version i' = ins_endpoints_version i + 1 ->
  ins_cached i' = ins_cached i -> ins_cached_version i' = ins_cached_version i -> inst_ok i'.
Proof.
  intros [_ [Hv _]] Hwf Hver Hc Hcv. split; [done|]. split.
  - intros v. rewrite Hcv, Hver. intros ?%Hv. lia.
  - intros t. unfold cache_valid. rewrite Hcv, Hver.
    destruct (ins_cached i'); [|done]. destruct (ins_cached_version i) as [v|] eqn:E; [|done].
    rewrite decide_False; [done|]. specialize (Hv v eq_refl). lia.
Qed.

(** A write that keeps the structure keeps the cache. *)
Definition same_structure (i i' : Instance_) : Prop :=
  enable_multi_endpoints i' = enable_multi_endpoints i /\
  ins_endpoints_version i' = ins_endpoints_version i /\
  ins_cached i' = ins_cached i /\ ins_cached_version i' = ins_cached_version i /\
  Forall2 (fun p q => q.1 = p.1 /\
    pod_same p.2 q.2)
    (endpoints i) (endpoints i').

Lemma Forall2_fst_eq {K V W} (R : V -> W -> Prop) (l : dict K V) (l' : dict K W) :
  Forall2 (fun p q => q.1 = p.1 /\ R p.2 q.2) l l' -> dkeys l' = dkeys l.
Proof. unfold dkeys. induction 1 as [|p q l l' [Hk _] _ IH]; [done|]. cbn. by rewrite Hk, IH. Qed.

Lemma same_structure_wf i i' : same_structure i i' -> table_wf i -> table_wf i'.
Proof.
  intros (_ & _ & _ & _ & HF) [Hwf Hpods]. split.
  - unfold dict_wf. by erewrite Forall2_fst_eq.
  - intros ip eps Hin. apply list_elem_of_lookup in Hin as [n Hn].
    destruct (Forall2_lookup_r _ _ _ _ _ HF Hn) as ([ip' eps'] & Hn' & Hk & HF2); cbn in *.
    unfold dict_wf. erewrite Forall2_fst_eq by done.
    apply (Hpods ip'), list_elem_of_lookup. eauto.
Qed.

Lemma inst_ok_same i i' : same_structure i i' -> inst_ok i -> inst_ok i'.
Proof.
  intros HS [Hwf [Hv Hc]]. split; [by eapply same_structure_wf|].
  destruct HS as (Hm & Hver & Hca & Hcv & HF). split.
  - intros v. rewrite Hcv, Hver. apply Hv.
  - intros t. unfold cache_valid. rewrite Hca, Hcv, Hver. intros Ht%Hc. subst t.
    symmetry. by apply endpoint_paths_ext.
Qed.

Lemma dset_Forall2 {K V} `{!EqDecision K} (R : V -> V -> Prop) `{!Reflexive R} k v v' (d : dict K V) :
  dget k d = Some v -> R v v' ->
  Forall2 (fun p q => q.1 = p.1 /\ R p.2 q.2) d (dset k v' d).
Proof.
  intros Hg HR. induction d as [|[k' w] d IH]; cbn in *; [done|]. case_decide; simplify_eq.
  - constructor; [done|]. apply Forall2_same_length_lookup_2; [done|].
    intros j x y Hx Hy. by simplify_eq.
  - constructor; [done|]. by apply IH.
Qed.

Lemma dmap_Forall2 {K V} (R : V -> V -> Prop) (f : V -> V) (d : dict K V) :
  (forall v, R v (f v)) -> Forall2 (fun p q => q.1 = p.1 /\ R p.2 q.2) d (dmap f d).
Proof. intros HR. induction d as [|[k v] d IH]; cbn; constructor; auto. Qed.

#[export] Instance pod_same_refl : Reflexive pod_same.
Proof. intros d. unfold pod_same. apply Forall2_refl_list. by intros x. Qed.

Lemma update_heartbeat_same ip ts st i : same_structure i (update_heartbeat ip ts st i).2.
Proof.
  assert (same_structure i i).
  { repeat split. apply Forall2_refl_list. by intros x. }
  unfold update_heartbeat. destruct (dget ip (endpoints i)) as [eps|] eqn:E; [|done].
  case_decide; [|done].
  pose proof (heartbeat_loop_identity ts st eps) as HL.
  destruct (heartbeat_loop ts st eps) as [o r]; cbn in HL.
  assert (same_structure i (ins_set_endpoints (dset ip r (endpoints i)) i)).
  { repeat split. cbn. by eapply (dset_Forall2 pod_same). }
  by destruct o.
Qed.

Lemma refresh_hb_same t i : same_structure i (refresh_hb t i).
Proof.
  repeat split. cbn. apply (dmap_Forall2 pod_same). intros eps. by apply dmap_Forall2.
Qed.

Lemma fields_same_structure i i' :
  enable_multi_endpoints i' = enable_multi_endpoints i ->
  ins_endpoints_version i' = ins_endpoints_version i ->
  ins_cached i' = ins_cached i -> ins_cached_version i' = ins_cached_version i ->
  endpoints i' = endpoints i -> same_structure i i'.
Proof.
  intros ???? He. repeat split; try done. rewrite He. apply Forall2_refl_list. by intros x.
Qed.

Lemma update_instance_status_same s i : same_structure i (update_instance_status s i).
Proof. by apply fields_same_structure. Qed.

Lemma add_node_mgr_same ip p n i : same_structure i (add_node_mgr ip p n i).
Proof. unfold add_node_mgr. destruct ip, p; try case_decide; by apply fields_same_structure. Qed.

Lemma del_node_mgr_same ip p i : same_structure i (del_node_mgr ip p i).
Proof. unfold del_node_mgr. destruct ip, p; by apply fields_same_structure. Qed.

Lemma dset_pods_wf ip d i :
  table_wf i -> dict_wf d -> table_wf (ins_set_endpoints (dset ip d (endpoints i)) i).
Proof.
  intros [Hwf Hpods] Hd. split; cbn; [by apply dset_wf|].
  intros ip' eps Hin. apply elem_dget in Hin; [|by apply dset_wf].
  rewrite dget_dset in Hin. case_decide; simplify_eq; [done|]. by apply (Hpods ip'), dget_elem.
Qed.

Lemma add_endpoints_ok ip d i : inst_ok i -> dict_wf d -> inst_ok (add_endpoints ip (Some d) i).
Proof.
  intros Hi Hd. eapply inst_ok_bump; [done| |done..].
  apply (dset_pods_wf ip d i); [apply Hi|done].
Qed.

Lemma del_endpoints_ok ip i : inst_ok i -> inst_ok (del_endpoints ip i).
Proof.
  intros Hi. unfold del_endpoints. destruct (dmem ip (endpoints i)); [|done].
  eapply inst_ok_bump; [done| |done..]. destruct Hi as [[Hwf Hpods] _].
  split; cbn; [by apply ddel_wf|]. intros ip' eps Hin.
  destruct (decide (ip = ip')) as [->|Hne].
  - apply elem_dget in Hin; [|by apply ddel_wf]. by rewrite dget_ddel_eq in Hin.
  - apply elem_dget in Hin; [|by apply ddel_wf]. rewrite dget_ddel_ne in Hin by done.
    by apply (Hpods ip'), dget_elem.
Qed.

Lemma get_all_endpoints_ok b i : inst_ok i -> inst_ok (get_all_endpoints b i).2.
Proof.
  intros Hi. unfold get_all_endpoints. destruct b; [done|].
  destruct (cache_valid i) eqn:E; [done|]. destruct Hi as [Hwf _]. split; [done|]. split.
  - intros v Hv. cbn in *. simplify_eq. done.
  - intros t. unfold cache_valid; cbn. rewrite decide_True by done. by intros [= <-].
Qed.

(** ** Reachable instances

    Every write an instance goes through after its construction. *)
Inductive inst_step : Instance_ -> Instance_ -> Prop :=
  | step_add_node_mgr ip p n i : inst_step i (add_node_mgr ip p n i)
  | step_del_node_mgr ip p i : inst_step i (del_node_mgr ip p i)
  | step_add_endpoints ip d i : dict_wf d -> inst_step i (add_endpoints ip (Some d) i)
  | step_add_invalid ip i : inst_step i (add_endpoints ip None i)
  | step_del_endpoints ip i : inst_step i (del_endpoints ip i)
  | step_heartbeat ip ts st i : inst_step i (update_heartbeat ip ts st i).2
  | step_refresh t i : inst_step i (refresh_hb t i)
  | step_status s i : inst_step i (update_instance_status s i)
  | step_get_all b i : inst_step i (get_all_endpoints b i).2
  | step_invalidate i : inst_step i (invalidate_endpoints_cache i)
  | step_headless ip d i : dict_wf d ->
      inst_step i (invalidate_endpoints_cache (ins_set_endpoints (dset ip d (endpoints i)) i)).

Lemma inst_step_ok i i' : inst_step i i' -> inst_ok i -> inst_ok i'.
Proof.
  intros HS Hi. destruct HS;
    eauto using inst_ok_same, add_node_mgr_same, del_node_mgr_same, add_endpoints_ok,
      del_endpoints_ok, update_heartbeat_same, refresh_hb_same, update_instance_status_same,
      get_all_endpoints_ok.
  eapply inst_ok_bump; [done | apply Hi | done..].
Qed.

Lemma Instance_new_ok job model eng caps id role multi :
  inst_ok (Instance_new job model eng caps id role multi).
Proof. repeat split; cbn; try done; [apply dict_wf_nil | set_solver]. Qed.

Definition inst_reachable (i : Instance_) : Prop :=
  exists job model eng caps id role multi,
    rtc inst_step (Instance_new job model eng caps id role multi) i.

Lemma inst_reachable_ok i : inst_reachable i -> inst_ok i.
Proof.
  intros (job & model & eng & caps & id & role & multi & HS).
  pose proof (Instance_new_ok job model eng caps id role multi) as H0.
  induction HS as [|x y z Hs _ IH]; [done|]. apply IH. by eapply inst_step_ok.
Qed.

(** ** Liveness of refreshed endpoints *)

Definition finite_time (t : pyfloat) : Prop :=
  match t with SpecFloat.S754_zero _ | SpecFloat.S754_finite _ _ _ => True | _ => False end.

Lemma fsub_diag t : finite_time t -> float_val (fsub t t) = XFin 0 0.
Proof.
  destruct t as [[]|?| |s m e]; cbn; try done. intros _. by rewrite Z.sub_diag.
Qed.

Lemma refresh_is_alive t e limit :
  finite_time t -> xnonneg (float_val limit) = true -> is_alive (ep_set_hb t e) t limit = true.
Proof. intros Ht Hl. unfold is_alive, fleb. cbn. by rewrite fsub_diag. Qed.

Lemma all_eps_refresh t i : all_eps (refresh_hb t i) = ep_set_hb t <$> all_eps i.
Proof.
  unfold all_eps.
  change (endpoints (refresh_hb t i)) with (dmap (dmap (ep_set_hb t)) (endpoints i)).
  rewrite dvalues_dmap. induction (dvalues (endpoints i)) as [|eps l IH]; [done|].
  cbn [fmap list_fmap concat]. by rewrite dvalues_dmap, fmap_app, <- IH.
Qed.

(** ** Properties *)

(** C1: on every instance reachable from its construction through any sequence
    of the methods that write it, [get_all_endpoints] - cached or not - returns
    exactly the endpoints of the table a fresh traversal selects, in table
    order: the versioned cache is never stale. *)
Theorem get_all_endpoints_never_stale b i :
  inst_reachable i ->
  (get_all_endpoints b i).1 =
  base.filter (fun e => ep_selected b (enable_multi_endpoints i) e = true) (all_eps i).
Proof.
  intros [Hwf [_ Hc]]%inst_reachable_ok. rewrite <- endpoint_paths_resolve by done.
  unfold get_all_endpoints. destruct b; [done|].
  destruct (cache_valid i) as [t|] eqn:E; [|done]. cbn. by rewrite (Hc t eq_refl).
Qed.

(** C2: the heartbeat of a pod, branch by branch: an unknown pod or a status
    map of the wrong size is refused without a write; with a status for every
    endpoint the pod's endpoints all get the timestamp and their own status and
    every other pod is untouched; a status map of the right size that lacks
    some endpoint's id raises [KeyError] for such an id. *)
Theorem update_heartbeat_spec ip ts st i :
  match dget ip (endpoints i) with
  | None => update_heartbeat ip ts st i = (Ret false, i)
  | Some eps =>
      (length eps <> length st -> update_heartbeat ip ts st i = (Ret false, i)) /\
      (length eps = length st ->
       ((forall k e, (k, e) ∈ eps -> dget (ep_id e) st <> None) ->
        exists i', update_heartbeat ip ts st i = (Ret true, i') /\
          (forall ip', ip' <> ip -> dget ip' (endpoints i') = dget ip' (endpoints i)) /\
          get_endpoints ip i' =
            (fun p => (p.1, ep_set_status (default Ep_INITIAL (dget (ep_id p.2) st))
                              (ep_set_hb ts p.2))) <$> eps) /\
       ((exists k e, (k, e) ∈ eps /\ dget (ep_id e) st = None) ->
        exists k e i', (k, e) ∈ eps /\ dget (ep_id e) st = None /\
          update_heartbeat ip ts st i = (Raise (key_error (ep_id e)), i')))
  end.
Proof.
  unfold update_heartbeat. destruct (dget ip (endpoints i)) as [eps|]; [|done]. split.
  { intros Hne. by rewrite decide_False. }
  intros Hlen. rewrite decide_True by done. split.
  - intros Hall. rewrite heartbeat_loop_ok by done. eexists. split; [done|]. cbn. split.
    + intros ip' Hne. by rewrite dget_dset_ne.
    + unfold get_endpoints. cbn. by rewrite dget_dset_eq.
  - intros (k & e & Hin & Hn). destruct (heartbeat_loop ts st eps) as [[u|err] r] eqn:E.
    + exfalso. revert r E. clear Hlen. induction eps as [|[k' e'] eps IH]; [set_solver|].
      intros r. cbn. apply elem_of_cons in Hin as [[= <- <-]|Hin]; [by rewrite Hn|].
      destruct (dget (ep_id e') st); [|done].
      destruct (heartbeat_loop ts st eps) as [o r'] eqn:E. intros. simplify_eq. by eapply IH.
    + apply heartbeat_loop_raise in E as (k' & e' & ? & -> & ?). naive_solver.
Qed.

Definition ex_ep (id : Z) (hl : bool) : Endpoint :=
  {| ep_id := id; ep_ip := "10.0.0.1"; business_port := "8000"; mgmt_port := "8001";
     bootstrap_port := None; ep_status := Ep_INITIAL; device_infos := [];
     hb_timestamp := float_lit 100 0; workload := Workload_default; headless := hl |}.

Definition ex_inst : Instance_ :=
  add_endpoints "10.0.0.1" (Some [(0, ex_ep 0 false); (1, ex_ep 1 true)])
    (Instance_new "job" "model" None [] 7 "prefill" true).

Lemma get_all_endpoints_never_stale_witness :
  (get_all_endpoints false (get_all_endpoints false ex_inst).2).1 = [ex_ep 0 false].
Proof.
  rewrite (get_all_endpoints_never_stale false).
  - reflexivity.
  - exists "job"%string, "model"%string, None, [], 7, "prefill"%string, true.
    eapply rtc_l.
    { apply (step_add_endpoints "10.0.0.1" [(0, ex_ep 0 false); (1, ex_ep 1 true)]).
      unfold dict_wf. decide_now. }
    eapply rtc_l; [apply step_get_all|]. apply rtc_refl.
Defined.

(** C3: the liveness test of an instance: it answers [true] exactly when every
    endpoint's last heartbeat is within the limit in force, and when it answers
    [false] it raises one alarm per address that has late endpoints, listing
    exactly those endpoints. *)
Theorem is_all_endpoints_alive_alarms to now i :
  ((is_all_endpoints_alive to now i).1 = true <->
     forall e, e ∈ all_eps i -> is_alive e now (heartbeat_limit to i) = true) /\
  (forall a, a ∈ (is_all_endpoints_alive to now i).2 <->
     see_reason a = HEARTBEAT_TIMEOUT_REASON /\ see_endpoint_ids a <> [] /\
     see_endpoint_ids a = ep_id <$> base.filter (fun e => ep_ip e = see_endpoint_ip a)
       (base.filter (fun e => is_alive e now (heartbeat_limit to i) = false) (all_eps i))).
Proof.
  split; [apply is_all_endpoints_alive_spec|]. intros a. rewrite <- server_alarms_spec.
  unfold is_all_endpoints_alive. by destruct (group_by_ip _).
Qed.
