(* ===== verification/InstanceManager.v ===== *)
(** * The controller's instance manager

    [motor/controller/core/instance_manager.py].  The manager owns the table of
    instances, the set of forcibly separated ids and the version counter of the
    persisted state, and drives the life cycle of every instance from
    heartbeats and from the timeout loop.

    Instances are objects: the table maps an id to a reference and the objects
    live in a store, so that the timeout loop, which walks a snapshot of the
    table, and the heartbeat handler mutate the same object.  Everything the
    manager emits - calls of the observers, alarms, writes to ETCD - is
    appended to a log in program order.

    Not in the store are the things outside this repository's code or this
    process: the answer of a node manager to the status query, the success of
    an ETCD write, the digest function of the checksum.  They are arguments. *)

From S2P Require Import Prelude PyDict PyNum Resources.

(** ** Data *)

Abbreviation ref := nat.

Inductive ObserverEvent :=
  | OE_INITIAL | OE_READY | OE_SEPARATED | OE_REMOVED | OE_PAUSED | OE_RESUMED.
#[export] Instance ObserverEvent_eq_dec : EqDecision ObserverEvent.
Proof. solve_decision. Defined.

(** An attached observer: its identity and whether it is the event pusher. *)
Record Observer := { ob_id : nat; ob_is_event_pusher : bool }.
#[export] Instance Observer_eq_dec : EqDecision Observer.
Proof. solve_decision. Defined.

(** [PersistentState]: an entry of [data] is what [Instance( **entry )] will
    rebuild, [None] when the model validation refuses it. *)
Record PersistentState := {
  ps_data : dict Z (option Instance_);
  ps_version : Z;
  ps_timestamp : pyfloat;
  ps_checksum : string }.

(** What the manager emits, in order. *)
Inductive effect :=
  | ENotify (o : nat) (i : Instance_) (e : ObserverEvent)
  | EServerAlarm (a : ServerExceptionEvent)
  | EInstanceAlarm (job : string) (is_cleared : bool)
  | ECoordinatorAlarm (is_cleared : bool)
  | EPersist (s : PersistentState)
  | EPushSet (o : nat).

Record IM := {
  im_store : gmap ref Instance_;
  im_next : ref;
  im_instances : dict Z ref;
  im_forced : gset Z;
  im_version : Z;
  im_persistence : bool;
  im_observers : list Observer;
  im_log : list effect }.

Definition im_set_store (x : gmap ref Instance_) (m : IM) : IM :=
  {| im_store := x; im_next := im_next m; im_instances := im_instances m;
     im_forced := im_forced m; im_version := im_version m;
     im_persistence := im_persistence m; im_observers := im_observers m; im_log := im_log m |}.
Definition im_set_next (x : ref) (m : IM) : IM :=
  {| im_store := im_store m; im_next := x; im_instances := im_instances m;
     im_forced := im_forced m; im_version := im_version m;
     im_persistence := im_persistence m; im_observers := im_observers m; im_log := im_log m |}.
Definition im_set_instances (x : dict Z ref) (m : IM) : IM :=
  {| im_store := im_store m; im_next := im_next m; im_instances := x;
     im_forced := im_forced m; im_version := im_version m;
     im_persistence := im_persistence m; im_observers := im_observers m; im_log := im_log m |}.
Definition im_set_forced (x : gset Z) (m : IM) : IM :=
  {| im_store := im_store m; im_next := im_next m; im_instances := im_instances m;
     im_forced := x; im_version := im_version m; im_persistence := im_persistence m;
     im_observers := im_observers m; im_log := im_log m |}.
Definition im_set_version (x : Z) (m : IM) : IM :=
  {| im_store := im_store m; im_next := im_next m; im_instances := im_instances m;
     im_forced := im_forced m; im_version := x; im_persistence := im_persistence m;
     im_observers := im_observers m; im_log := im_log m |}.
Definition im_set_observers (x : list Observer) (m : IM) : IM :=
  {| im_store := im_store m; im_next := im_next m; im_instances := im_instances m;
     im_forced := im_forced m; im_version := im_version m;
     im_persistence := im_persistence m; im_observers := x; im_log := im_log m |}.
Definition im_set_log (x : list effect) (m : IM) : IM :=
  {| im_store := im_store m; im_next := im_next m; im_instances := im_instances m;
     im_forced := im_forced m; im_version := im_version m;
     im_persistence := im_persistence m; im_observers := im_observers m; im_log := x |}.

Definition im_emit (l : list effect) (m : IM) : IM := im_set_log (im_log m ++ l) m.

(** The object behind a reference; every reference the code holds is live. *)
Definition deref (m : IM) (r : ref) : option Instance_ := im_store m !! r.
Definition im_update (r : ref) (f : Instance_ -> Instance_) (m : IM) : IM :=
  im_set_store (alter f r (im_store m)) m.
(** A new object, as the assembler or the restore builds it. *)
Definition im_alloc (i : Instance_) (m : IM) : ref * IM :=
  (im_next m, im_set_next (S (im_next m)) (im_set_store (<[im_next m := i]> (im_store m)) m)).

(** [self.instances.values()], as objects. *)
Definition im_values (m : IM) : list Instance_ := omap (deref m) (dvalues (im_instances m)).

Definition im_init (persistence : bool) : IM :=
  {| im_store := ∅; im_next := 0%nat; im_instances := []; im_forced := ∅; im_version := 0;
     im_persistence := persistence; im_observers := []; im_log := [] |}.

(** ** Observers *)

Definition attach (o : Observer) (m : IM) : IM :=
  if decide (o ∈ im_observers m) then m else im_set_observers (im_observers m ++ [o]) m.

Definition notify (i : Instance_) (e : ObserverEvent) (m : IM) : IM :=
  im_emit ((fun o => ENotify (ob_id o) i e) <$> im_observers m) m.

Definition notify_ref (r : ref) (e : ObserverEvent) (m : IM) : IM :=
  match deref m r with Some i => notify i e m | None => m end.

(** ** Queries *)

Definition get_instance_num (m : IM) : nat := length (im_instances m).

Definition get_active_instances (m : IM) : list Instance_ :=
  base.filter (fun i => ins_status i = Ins_ACTIVE) (im_values m).
Definition get_initial_instances (m : IM) : list Instance_ :=
  base.filter (fun i => ins_status i = Ins_INITIAL) (im_values m).
Definition get_inactive_instances (m : IM) : list Instance_ :=
  base.filter (fun i => ins_status i = Ins_INACTIVE) (im_values m).

Definition get_instances (statuses : option (list InsStatus)) (m : IM) : list Instance_ :=
  let statuses := default [Ins_INITIAL; Ins_ACTIVE; Ins_INACTIVE] statuses in
  base.filter (fun i => ins_status i ∈ statuses) (im_values m).

Definition get_instances_by_role (role_value : string) (m : IM) : list Instance_ :=
  base.filter (fun i => ins_role i = role_value) (im_values m).

Definition get_instance (id : Z) (m : IM) : option ref := dget id (im_instances m).

Definition get_instance_by_podip (pod_ip : string) (m : IM) : option Instance_ :=
  head (base.filter (fun i => is_ip_in_endpoints pod_ip i = true) (im_values m)).

Definition find_newer_instance_by_job_name (job : string) (current_id : Z) (m : IM) : option Instance_ :=
  head (base.filter (fun i => job_name i = job /\ current_id < ins_id i) (im_values m)).

(** The loop overwrites [current] at every match: the last match wins. *)
Definition get_instance_by_job_name (job : string) (m : IM) : option Instance_ :=
  last (base.filter (fun i => job_name i = job) (im_values m)).

Definition has_instance_by_job_name (job : string) (m : IM) : bool :=
  existsb (fun i => bool_decide (job_name i = job)) (im_values m).

Definition has_active_instance_by_job_name (job : string) (m : IM) : bool :=
  existsb (fun i => bool_decide (job_name i = job /\ ins_status i = Ins_ACTIVE)) (im_values m).

Definition is_instance_separated (id : Z) (m : IM) : bool :=
  match get_instance id m ≫= deref m with
  | Some i => bool_decide (ins_id i ∈ im_forced m)
  | None => false
  end.

(** ** Alarms *)

Definition report_inst_alarm (i : Instance_) (is_cleared : bool) (m : IM) : IM :=
  im_emit [EInstanceAlarm (job_name i) is_cleared] m.

Definition role_to_partner (role : string) : option string :=
  if decide (role = "prefill"%string) then Some "decode"%string
  else if decide (role = "decode"%string) then Some "prefill"%string
  else None.

Definition report_coordinator_alarm (i : Instance_) (is_cleared : bool) (m : IM) : IM :=
  let active_instances := get_active_instances m in
  let role := if is_cleared then role_to_partner (ins_role i) else Some (ins_role i) in
  match role with
  | None => m
  | Some role =>
      let has_role := existsb (fun i' => bool_decide (ins_role i' = role)) active_instances in
      if decide (has_role = is_cleared) then im_emit [ECoordinatorAlarm is_cleared] m else m
  end.

(** ** Persistence *)

Section Persistence.
(** The digest of [PersistentState.calculate_checksum]: SHA-256 of the
    printed data, version and timestamp. *)
Context (digest : dict Z (option Instance_) -> Z -> pyfloat -> string).

Definition is_valid (s : PersistentState) : bool :=
  bool_decide (ps_checksum s = digest (ps_data s) (ps_version s) (ps_timestamp s)).

Definition get_next_version (m : IM) : Z * IM :=
  (im_version m + 1, im_set_version (im_version m + 1) m).

(** [instance.model_dump(mode='json')] keeps the model's fields and drops the
    private cache. *)
Definition model_dump (i : Instance_) : Instance_ := to_instance i.

Definition persist_data (now : pyfloat) (m : IM) : IM :=
  let '(next_version, m) := get_next_version m in
  let instances_data :=
    omap (fun '(id, r) => i ← deref m r; Some (id, Some (model_dump i))) (im_instances m) in
  im_emit [EPersist {| ps_data := instances_data; ps_version := next_version; ps_timestamp := now;
                       ps_checksum := digest instances_data next_version now |}] m.

(** [if enable_persistence: persist_data()] *)
Definition maybe_persist (now : pyfloat) (m : IM) : IM :=
  if im_persistence m then persist_data now m else m.

(** ** State transitions *)

(** The answer of a node manager to the status query: a dictionary with a
    status, something else, or an exception. *)
Inductive nm_response := NM_status (is_normal : bool) | NM_invalid | NM_failed.

(** [self.transitions] *)
Definition transitions : dict (InsStatus * InsConditionEvent) InsStatus :=
  [ ((Ins_INITIAL, INSTANCE_INIT), Ins_INITIAL);
    ((Ins_INITIAL, INSTANCE_NORMAL), Ins_ACTIVE);
    ((Ins_INITIAL, INSTANCE_ABNORMAL), Ins_INACTIVE);
    ((Ins_INITIAL, INSTANCE_HEARTBEAT_TIMEOUT), Ins_DELETED);
    ((Ins_ACTIVE, INSTANCE_NORMAL), Ins_ACTIVE);
    ((Ins_ACTIVE, INSTANCE_HEARTBEAT_TIMEOUT), Ins_INACTIVE);
    ((Ins_ACTIVE, INSTANCE_ABNORMAL), Ins_INACTIVE);
    ((Ins_INACTIVE, INSTANCE_ABNORMAL), Ins_INACTIVE);
    ((Ins_INACTIVE, INSTANCE_NORMAL), Ins_ACTIVE);
    ((Ins_INACTIVE, INSTANCE_INIT), Ins_INITIAL);
    ((Ins_INACTIVE, INSTANCE_HEARTBEAT_TIMEOUT), Ins_DELETED);
    ((Ins_ACTIVE, INSTANCE_PAUSED), Ins_PAUSED);
    ((Ins_INACTIVE, INSTANCE_PAUSED), Ins_PAUSED);
    ((Ins_INITIAL, INSTANCE_PAUSED), Ins_PAUSED);
    ((Ins_PAUSED, INSTANCE_PAUSED), Ins_PAUSED);
    ((Ins_PAUSED, INSTANCE_RESUMED), Ins_ACTIVE);
    ((Ins_PAUSED, INSTANCE_NORMAL), Ins_ACTIVE);
    ((Ins_PAUSED, INSTANCE_HEARTBEAT_TIMEOUT), Ins_DELETED);
    ((Ins_PAUSED, INSTANCE_ABNORMAL), Ins_INACTIVE) ].

Definition handle_initial (from_state : InsStatus) (ev : InsConditionEvent) (r : ref) (m : IM) : IM :=
  if decide (from_state = Ins_INITIAL) then m
  else if decide (from_state = Ins_INACTIVE /\ ev = INSTANCE_INIT)
  then im_update r (update_instance_status Ins_INITIAL) m
  else m.

Definition handle_active (from_state : InsStatus) (ev : InsConditionEvent) (r : ref) (m : IM) : IM :=
  if decide (from_state = Ins_ACTIVE) then m
  else if decide (ev = INSTANCE_NORMAL \/ ev = INSTANCE_RESUMED) then
    let m := im_update r (update_instance_status Ins_ACTIVE) m in
    let m := notify_ref r (if decide (ev = INSTANCE_RESUMED) then OE_RESUMED else OE_READY) m in
    match deref m r with
    | Some i => report_coordinator_alarm i true (report_inst_alarm i true m)
    | None => m
    end
  else m.

(** [_check_node_managers_status]: [true] means the instance is to be set
    INACTIVE. *)
Definition check_node_managers_status (query_status : NodeManagerInfo -> nm_response)
    (i : Instance_) : bool :=
  match get_node_managers i with
  | [] => true
  | nms => existsb (fun nm => match query_status nm with NM_status true => false | _ => true end) nms
  end.

Definition handle_inactive (query_status : NodeManagerInfo -> nm_response) (now : pyfloat)
    (from_state : InsStatus) (ev : InsConditionEvent) (r : ref) (m : IM) : IM :=
  if decide (from_state = Ins_INACTIVE) then m
  else match ev with
  | INSTANCE_ABNORMAL =>
      notify_ref r OE_SEPARATED (im_update r (update_instance_status Ins_INACTIVE) m)
  | INSTANCE_HEARTBEAT_TIMEOUT =>
      match deref m r with
      | None => m
      | Some i =>
          if check_node_managers_status query_status i then
            let m := im_update r (update_instance_status Ins_INACTIVE) m in
            let m := notify_ref r OE_SEPARATED m in
            report_coordinator_alarm i false (report_inst_alarm i false m)
          else im_update r (refresh_hb now) m
      end
  | _ => m
  end.

Definition handle_paused (from_state : InsStatus) (ev : InsConditionEvent) (r : ref) (m : IM) : IM :=
  if decide (ev = INSTANCE_PAUSED) then
    if decide (from_state = Ins_PAUSED) then m
    else
      let m := im_update r (update_instance_status Ins_PAUSED) m in
      let m := notify_ref r OE_PAUSED m in
      match deref m r with Some i => report_inst_alarm i false m | None => m end
  else m.

Definition del_instance (id : Z) (m : IM) : IM :=
  if dmem id (im_instances m)
  then im_set_forced (im_forced m ∖ {[id]}) (im_set_instances (ddel id (im_instances m)) m)
  else m.

Definition handle_deleted (from_state : InsStatus) (ev : InsConditionEvent) (r : ref) (m : IM) : IM :=
  if decide (from_state = Ins_DELETED) then m
  else if decide (ev = INSTANCE_HEARTBEAT_TIMEOUT \/ ev = INSTANCE_ABNORMAL) then
    let m := im_update r (update_instance_status Ins_DELETED) m in
    let m := notify_ref r OE_REMOVED m in
    match deref m r with Some i => del_instance (ins_id i) m | None => m end
  else m.

(** [self.states[to_state](from_state, event, instance)] *)
Definition state_handler (query_status : NodeManagerInfo -> nm_response) (now : pyfloat)
    (to_state from_state : InsStatus) (ev : InsConditionEvent) (r : ref) (m : IM) : IM :=
  match to_state with
  | Ins_INITIAL => handle_initial from_state ev r m
  | Ins_ACTIVE => handle_active from_state ev r m
  | Ins_INACTIVE => handle_inactive query_status now from_state ev r m
  | Ins_PAUSED => handle_paused from_state ev r m
  | Ins_DELETED => handle_deleted from_state ev r m
  end.

(** The event of a heartbeat, from the statuses of the endpoints; asking for
    an abnormal endpoint raises its alarms. *)
Definition detect_event (i : Instance_) : InsConditionEvent * list ServerExceptionEvent :=
  if is_all_endpoints_paused i then (INSTANCE_PAUSED, [])
  else if is_all_endpoints_ready i then (INSTANCE_NORMAL, [])
  else
    let '(abnormal, alarms) := is_have_one_endpoint_abnormal i in
    if abnormal then (INSTANCE_ABNORMAL, alarms)
    else if is_any_endpoint_paused i then (INSTANCE_PAUSED, alarms)
    else (INSTANCE_INIT, alarms).

Definition handle_state_transition (query_status : NodeManagerInfo -> nm_response) (now : pyfloat)
    (r : ref) (event_override : option InsConditionEvent) (m : IM) : bool * IM :=
  match deref m r with
  | None => (false, m)
  | Some i =>
      let from_state := ins_status i in
      let '(ev, alarms) :=
        match event_override with Some e => (e, []) | None => detect_event i end in
      let m := im_emit (EServerAlarm <$> alarms) m in
      match dget (from_state, ev) transitions with
      | None => (false, m)
      | Some to_state =>
          if decide (ins_id i ∈ im_forced m /\ to_state = Ins_ACTIVE) then (true, m)
          else
            let m := state_handler query_status now to_state from_state ev r m in
            let changed := match deref m r with
                           | Some i' => negb (bool_decide (from_state = ins_status i'))
                           | None => false
                           end in
            let m := if changed then maybe_persist now m else m in
            let m := if decide (to_state = Ins_DELETED /\ ins_id i ∈ im_forced m)
                     then im_set_forced (im_forced m ∖ {[ins_id i]}) m else m in
            (true, m)
      end
  end.

(** ** Heartbeats *)

Record HeartbeatMsg := {
  hm_job_name : string; hm_ins_id : Z; hm_ip : string; hm_status : dict Z EndpointStatus }.

Definition HEARTBEAT_HANDLER_SUCCESS : Z := 200.
Definition HEARTBEAT_HANDLER_ERROR : Z := 500.
Definition HEARTBEAT_HANDLER_RE_REGISTER : Z := 503.

Inductive im_exn := HTTPException (status_code : Z) | HBKeyError (k : Z).

(** [msg = None] stands for an argument that is not a [HeartbeatMsg]. *)
Definition handle_heartbeat (query_status : NodeManagerInfo -> nm_response) (now : pyfloat)
    (msg : option HeartbeatMsg) : ST IM im_exn (bool * Z) := fun m =>
  match msg with
  | None => (Ret (false, HEARTBEAT_HANDLER_ERROR), m)
  | Some h =>
      match dget (hm_ins_id h) (im_instances m) with
      | None => (Raise (HTTPException HEARTBEAT_HANDLER_RE_REGISTER), m)
      | Some r =>
          match deref m r with
          | None => (Raise (HTTPException HEARTBEAT_HANDLER_RE_REGISTER), m)
          | Some i =>
              let '(o, i') := update_heartbeat (hm_ip h) now (hm_status h) i in
              let m := im_set_store (<[r := i']> (im_store m)) m in
              match o with
              | Raise (key_error k) => (Raise (HBKeyError k), m)
              | Ret false => (Raise (HTTPException HEARTBEAT_HANDLER_ERROR), m)
              | Ret true =>
                  let '(ok, m) := handle_state_transition query_status now r None m in
                  if ok then (Ret (true, HEARTBEAT_HANDLER_SUCCESS), m)
                  else (Raise (HTTPException HEARTBEAT_HANDLER_ERROR), m)
              end
          end
      end
  end.

(** One iteration of the [for] of [_instances_management_loop]. *)
Definition manage_one (query_status : NodeManagerInfo -> nm_response) (now : pyfloat)
    (r : ref) (m : IM) : IM :=
  match deref m r with
  | None => m
  | Some i =>
      if decide (ins_status i = Ins_DELETED) then m
      else
        let '(alive, alarms) := is_all_endpoints_alive None now i in
        let m := im_emit (EServerAlarm <$> alarms) m in
        if alive then m
        else (handle_state_transition query_status now r (Some INSTANCE_HEARTBEAT_TIMEOUT) m).2
  end.

(** One pass of the [while] of [_instances_management_loop]: over a copy of
    the table. *)
Definition instances_management_pass (query_status : NodeManagerInfo -> nm_response)
    (now : pyfloat) (m : IM) : IM :=
  foldl (fun m r => manage_one query_status now r m) m (dvalues (im_instances m)).

(** ** Adding, separating, recovering *)

(** The status dictionary of one pod: every endpoint id maps to INITIAL. *)
Definition initial_status (eps : dict Z Endpoint) : dict Z EndpointStatus :=
  foldl (fun d e => dset (ep_id e) Ep_INITIAL d) [] (dvalues eps).

(** [for pod_ip in ins.endpoints.keys(): ins.update_heartbeat(...)] *)
Definition add_instance_heartbeats (now : pyfloat) (i : Instance_) : Instance_ :=
  foldl (fun i pod_ip =>
    (update_heartbeat pod_ip now (initial_status (get_endpoints pod_ip i)) i).2)
    i (dkeys (endpoints i)).

(** [ins = None] stands for an argument that is not an [Instance]. *)
Definition add_instance (now : pyfloat) (ins : option ref) (m : IM) : IM :=
  match ins ≫= (fun r => i ← deref m r; Some (r, i)) with
  | None => m
  | Some (r, i) =>
      if dmem (ins_id i) (im_instances m) then m
      else
        let m := im_set_instances (dset (ins_id i) r (im_instances m)) m in
        let m := im_update r (add_instance_heartbeats now) m in
        notify_ref r OE_INITIAL m
  end.

Definition separate_instance (now : pyfloat) (id : Z) (m : IM) : IM :=
  match get_instance id m ≫= (fun r => i ← deref m r; Some (r, i)) with
  | None => m
  | Some (r, i) =>
      let m := im_set_forced ({[ins_id i]} ∪ im_forced m) m in
      if decide (ins_status i = Ins_ACTIVE) then
        let m := im_update r (update_instance_status Ins_INACTIVE) m in
        let m := notify_ref r OE_SEPARATED m in
        maybe_persist now m
      else m
  end.

Definition recover_instance (id : Z) (m : IM) : IM :=
  match get_instance id m ≫= deref m with
  | None => m
  | Some i =>
      match find_newer_instance_by_job_name (job_name i) (ins_id i) m with
      | Some _ => im_set_forced (im_forced m ∖ {[ins_id i]}) m
      | None =>
          if decide (ins_id i ∈ im_forced m)
          then im_set_forced (im_forced m ∖ {[ins_id i]}) m
          else m
      end
  end.

(** ** Restart *)

Definition maybe_refresh_heartbeat (now : pyfloat) (should_notify : bool) (r : ref) (m : IM) : IM :=
  match deref m r with
  | None => m
  | Some i =>
      if decide (ins_status i = Ins_ACTIVE) then
        let m := im_update r (refresh_hb now) m in
        if should_notify then notify_ref r OE_READY m else m
      else m
  end.

(** What [EtcdClient.restore_data] gives back: an exception, no data, or the
    stored states, [None] for a value that is not a [PersistentState]. *)
Inductive etcd_result :=
  | Etcd_exception
  | Etcd_none
  | Etcd_states (d : dict string (option PersistentState)).

Definition restore_one (now : pyfloat) (m : IM) (entry : Z * option Instance_) : IM :=
  match entry.2 with
  | None => m
  | Some data =>
      let '(r, m) := im_alloc (to_instance data) m in
      let m := maybe_refresh_heartbeat now true r m in
      im_set_instances (dset (ins_id data) r (im_instances m)) m
  end.

(** [for observer in self.observers: if isinstance(observer, EventPusher): ... break] *)
Definition push_set (m : IM) : IM :=
  match base.filter (fun o => ob_is_event_pusher o = true) (im_observers m) with
  | [] => m
  | o :: _ => im_emit [EPushSet (ob_id o)] m
  end.

Definition restore_data (now : pyfloat) (res : etcd_result) (m : IM) : bool * IM :=
  match res with
  | Etcd_exception => (false, m)
  | Etcd_none => (true, m)
  | Etcd_states d =>
      match dget "state"%string d with
      | None | Some None => (false, m)
      | Some (Some ps) =>
          if is_valid ps then
            let m := im_set_version (Z.max (im_version m) (ps_version ps)) m in
            let m := im_set_instances [] m in
            let m := foldl (restore_one now) m (ps_data ps) in
            (true, push_set m)
          else (false, m)
      end
  end.

Definition start (now : pyfloat) (res : etcd_result) (m : IM) : IM :=
  if im_persistence m then (restore_data now res m).2
  else foldl (fun m r => maybe_refresh_heartbeat now false r m) m (dvalues (im_instances m)).
End Persistence.

(** ** What an operation leaves unchanged

    [im_view] is everything but the log, the version counter and the
    configuration; notifications, alarms and persistence do not touch it. *)

Definition im_view (m : IM) : gmap ref Instance_ * ref * dict Z ref * gset Z :=
  (im_store m, im_next m, im_instances m, im_forced m).

Lemma view_emit l m : im_view (im_emit l m) = im_view m.
Proof. done. Qed.
Lemma view_notify i e m : im_view (notify i e m) = im_view m.
Proof. done. Qed.
Lemma view_notify_ref r e m : im_view (notify_ref r e m) = im_view m.
Proof. unfold notify_ref. by destruct (deref m r). Qed.
Lemma view_inst_alarm i b m : im_view (report_inst_alarm i b m) = im_view m.
Proof. done. Qed.
Lemma view_coord_alarm i b m : im_view (report_coordinator_alarm i b m) = im_view m.
Proof.
  unfold report_coordinator_alarm. destruct (if b then _ else _); [|done]. by case_decide.
Qed.
Lemma view_maybe_persist digest now m : im_view (maybe_persist digest now m) = im_view m.
Proof. unfold maybe_persist. by destruct (im_persistence m). Qed.

Lemma view_deref m m' r : im_view m' = im_view m -> deref m' r = deref m r.
Proof. unfold im_view, deref. congruence. Qed.

Lemma view_update m m' r f :
  im_view m' = im_view m -> im_view (im_update r f m') = im_view (im_update r f m).
Proof. unfold im_view, im_update; cbn. congruence. Qed.

Lemma view_del_instance m m' id :
  im_view m' = im_view m -> im_view (del_instance id m') = im_view (del_instance id m).
Proof.
  unfold im_view, del_instance. intros [= Hs Hn Hi Hf]. rewrite Hi.
  destruct (dmem id (im_instances m)); cbn; congruence.
Qed.

Create HintDb im_view.
#[export] Hint Rewrite view_emit view_notify view_notify_ref view_inst_alarm view_coord_alarm
  view_maybe_persist : im_view.

(** ** The invariant

    Ids are unique and each denotes a live object of that id which is not
    DELETED; a forcibly separated id is registered and its instance is not
    ACTIVE. *)

Definition registered (m : IM) (id : Z) (i : Instance_) : Prop :=
  exists r, dget id (im_instances m) = Some r /\ deref m r = Some i.

Definition im_inv (m : IM) : Prop :=
  dict_wf (im_instances m) /\
  (forall r i, im_store m !! r = Some i -> (r < im_next m)%nat) /\
  (forall id r, dget id (im_instances m) = Some r ->
     exists i, im_store m !! r = Some i /\ ins_id i = id /\ ins_status i <> Ins_DELETED /\
       (id ∈ im_forced m -> ins_status i <> Ins_ACTIVE)) /\
  (forall id, id ∈ im_forced m -> id ∈ dkeys (im_instances m)).

Lemma im_inv_view m m' : im_view m' = im_view m -> im_inv m -> im_inv m'.
Proof. unfold im_view, im_inv. intros [= -> -> -> ->]. done. Qed.

(** A write to an object that keeps its id.  The object may be stale, that is,
    no longer in the table: then nothing is asked of it. *)
Lemma im_inv_update m r f :
  im_inv m ->
  (forall i, im_store m !! r = Some i ->
     ins_id (f i) = ins_id i /\
     (dget (ins_id i) (im_instances m) = Some r -> ins_status i <> Ins_DELETED ->
      (ins_id i ∈ im_forced m -> ins_status i <> Ins_ACTIVE) ->
      ins_status (f i) <> Ins_DELETED /\
      (ins_id i ∈ im_forced m -> ins_status (f i) <> Ins_ACTIVE))) ->
  im_inv (im_update r f m).
Proof.
  intros (Hwf & Hn & Hreg & Hf) Hstep. split; [done|]. split; [|split; [|done]]; cbn.
  - intros r' i. rewrite lookup_alter_Some. intros [(-> & i0 & Hi & ->)|[_ Hi]]; eauto.
  - intros id' r' Hr'. destruct (Hreg id' r' Hr') as (i & Hi & <- & Hnd & Hna).
    destruct (decide (r = r')) as [->|Hne].
    + destruct (Hstep i Hi) as [Hid Hst]. destruct (Hst Hr' Hnd Hna) as [Hnd' Hna'].
      exists (f i). rewrite lookup_alter_eq, Hi. by rewrite Hid.
    + exists i. by rewrite lookup_alter_ne.
Qed.

(** Deletion of an object's id, its status written first. *)
Lemma im_inv_delete m r i f :
  im_inv m -> im_store m !! r = Some i -> im_inv (del_instance (ins_id i) (im_update r f m)).
Proof.
  intros (Hwf & Hn & Hreg & Hf) Hi. set (id := ins_id i).
  assert (Hother : forall id' r', id' <> id -> dget id' (im_instances m) = Some r' -> r' <> r).
  { intros id' r' Hne Hr' ->. destruct (Hreg id' r Hr') as (i' & Hi' & Hid & _).
    rewrite Hi in Hi'. by simplify_eq. }
  assert (Hnext : forall r' i', alter f r (im_store m) !! r' = Some i' -> (r' < im_next m)%nat).
  { intros r' i'. rewrite lookup_alter_Some. intros [(-> & i0 & Hi0 & ->)|[_ Hi0]]; eauto. }
  unfold del_instance. cbn [im_instances im_update im_set_store].
  destruct (dmem id (im_instances m)) eqn:Hmem.
  - split; [by apply ddel_wf|]. split; [done|]. split; cbn.
    + intros id' r' Hr'. destruct (decide (id = id')) as [->|Hne];
        [by rewrite dget_ddel_eq in Hr'|]. rewrite dget_ddel_ne in Hr' by done.
      destruct (Hreg id' r' Hr') as (i' & Hi' & Hid & Hnd & Hna).
      exists i'. rewrite lookup_alter_ne by (intros ->; by eapply Hother).
      repeat split; try done. set_solver.
    + intros id' Hid'. apply elem_of_difference in Hid' as [Hin Hne].
      apply dmem_spec. unfold dmem. rewrite dget_ddel_ne by set_solver.
      by apply Hf, dmem_spec in Hin.
  - split; [done|]. split; [done|]. split; [|done]. cbn. intros id' r' Hr'.
    assert (id' <> id).
    { intros ->. unfold dmem in Hmem. by rewrite Hr' in Hmem. }
    destruct (Hreg id' r' Hr') as (i' & Hi' & Hid & Hnd & Hna). exists i'.
    rewrite lookup_alter_ne; [done|]. intros ->. by eapply Hother.
Qed.

Lemma im_inv_unforce m id : im_inv m -> im_inv (im_set_forced (im_forced m ∖ {[id]}) m).
Proof.
  intros (Hwf & Hn & Hreg & Hf). repeat split; cbn; try done.
  - intros id' r Hr. destruct (Hreg id' r Hr) as (i & ? & ? & ? & ?).
    exists i. set_solver.
  - set_solver.
Qed.

(** Strip the operations that only write the log. *)
Ltac drop_log := eapply im_inv_view; [autorewrite with im_view; reflexivity|].

Section Preservation.
Context (digest : dict Z (option Instance_) -> Z -> pyfloat -> string).
Context (query_status : NodeManagerInfo -> nm_response) (now : pyfloat).

Lemma set_status_inv m r i s :
  im_inv m -> im_store m !! r = Some i -> s <> Ins_DELETED ->
  (ins_id i ∈ im_forced m -> s <> Ins_ACTIVE) ->
  im_inv (im_update r (update_instance_status s) m).
Proof. intros Hm Hi Hd Ha. apply im_inv_update; [done|]. intros i' Hi'. by simplify_eq. Qed.

Lemma handle_active_inv from ev m r i :
  im_inv m -> im_store m !! r = Some i -> ins_id i ∉ im_forced m ->
  im_inv (handle_active from ev r m).
Proof.
  intros Hm Hr Hf. unfold handle_active. case_decide; [done|]. case_decide; [|done].
  assert (Hup : im_inv (im_update r (update_instance_status Ins_ACTIVE) m))
    by by eapply set_status_inv.
  match goal with |- context [deref ?x r] => destruct (deref x r) end; by drop_log.
Qed.

Lemma refresh_inv t m r : im_inv m -> im_inv (im_update r (refresh_hb t) m).
Proof. intros Hm. by apply im_inv_update. Qed.

Lemma handle_inactive_inv from ev m r i :
  im_inv m -> im_store m !! r = Some i ->
  im_inv (handle_inactive query_status now from ev r m).
Proof.
  intros Hm Hr. unfold handle_inactive. case_decide; [done|].
  assert (Hup : im_inv (im_update r (update_instance_status Ins_INACTIVE) m))
    by by eapply set_status_inv.
  destruct ev; try done; [|by drop_log].
  destruct (deref m r); [|done].
  destruct (check_node_managers_status _ _); [by drop_log | by apply refresh_inv].
Qed.

Lemma handle_paused_inv from ev m r i :
  im_inv m -> im_store m !! r = Some i -> im_inv (handle_paused from ev r m).
Proof.
  intros Hm Hr. unfold handle_paused. case_decide; [|done]. case_decide; [done|].
  assert (Hup : im_inv (im_update r (update_instance_status Ins_PAUSED) m))
    by by eapply set_status_inv.
  match goal with |- context [deref ?x r] => destruct (deref x r) end; by drop_log.
Qed.

Lemma handle_initial_inv from ev m r i :
  im_inv m -> im_store m !! r = Some i -> im_inv (handle_initial from ev r m).
Proof.
  intros Hm Hr. unfold handle_initial. case_decide; [done|]. case_decide; [|done].
  by eapply set_status_inv.
Qed.

Lemma handle_deleted_inv from ev m r i :
  im_inv m -> im_store m !! r = Some i -> im_inv (handle_deleted from ev r m).
Proof.
  intros Hm Hi. unfold handle_deleted. case_decide; [done|]. case_decide; [|done].
  assert (Hd : deref (notify_ref r OE_REMOVED (im_update r (update_instance_status Ins_DELETED) m)) r
               = Some (update_instance_status Ins_DELETED i)).
  { rewrite (view_deref _ _ r (view_notify_ref _ _ _)).
    unfold deref; cbn. by rewrite lookup_alter_eq, Hi. }
  rewrite Hd. eapply im_inv_view; [|by eapply im_inv_delete].
  apply view_del_instance, view_notify_ref.
Qed.

Lemma handle_state_transition_inv m r ov :
  im_inv m -> im_inv (handle_state_transition digest query_status now r ov m).2.
Proof.
  intros Hm. unfold handle_state_transition. unfold deref at 1.
  destruct (im_store m !! r) as [i|] eqn:Hi; [|done].
  destruct (match ov with Some e => _ | None => _ end) as [ev alarms].
  assert (Hm' : im_inv (im_emit (EServerAlarm <$> alarms) m)) by by drop_log.
  assert (Hr' : im_store (im_emit (EServerAlarm <$> alarms) m) !! r = Some i) by done.
  revert Hm' Hr'. generalize (im_emit (EServerAlarm <$> alarms) m) as m1. intros m1 Hm' Hr'.
  destruct (dget _ transitions) as [to|]; [|done]. case_decide as Hb; [done|]. cbn [snd].
  assert (Hh : im_inv (state_handler query_status now to (ins_status i) ev r m1)).
  { destruct to; cbn [state_handler]; eauto using handle_initial_inv, handle_inactive_inv,
      handle_paused_inv, handle_deleted_inv. eapply handle_active_inv; [done..|tauto]. }
  revert Hh. generalize (state_handler query_status now to (ins_status i) ev r m1) as m2. intros m2 Hh.
  assert (Hp : forall b : bool, im_inv (if b then maybe_persist digest now m2 else m2))
    by (intros []; [by drop_log|done]).
  case_decide; [apply im_inv_unforce|]; apply Hp.
Qed.

(** ** Preservation by the other operations *)

Lemma update_heartbeat_fields ip ts st i :
  let i' := (update_heartbeat ip ts st i).2 in
  ins_id i' = ins_id i /\ ins_status i' = ins_status i /\ job_name i' = job_name i /\
  ins_role i' = ins_role i /\ node_managers i' = node_managers i.
Proof.
  unfold update_heartbeat. destruct (dget ip (endpoints i)); [|done]. case_decide; [|done].
  destruct (heartbeat_loop ts st _) as [[]]; done.
Qed.

Lemma im_update_const m r i (f : Instance_ -> Instance_) :
  im_store m !! r = Some i -> im_set_store (<[r := f i]> (im_store m)) m = im_update r f m.
Proof.
  intros Hi. unfold im_update. f_equal. apply map_eq. intros r'.
  rewrite lookup_insert, lookup_alter. case_decide; simplify_eq; by rewrite ?Hi.
Qed.

Lemma heartbeat_write_inv m r ip ts st :
  im_inv m -> im_inv (im_update r (fun i => (update_heartbeat ip ts st i).2) m).
Proof.
  intros Hm. apply im_inv_update; [done|]. intros i Hi.
  destruct (update_heartbeat_fields ip ts st i) as (-> & -> & _). done.
Qed.

Lemma handle_heartbeat_inv m msg :
  im_inv m -> im_inv (handle_heartbeat digest query_status now msg m).2.
Proof.
  intros Hm. unfold handle_heartbeat. destruct msg as [h|]; [|done].
  destruct (dget _ _) as [r|]; [|done]. destruct (deref m r) as [i|] eqn:Hi; [|done].
  assert (Hu : im_inv (im_set_store (<[r := (update_heartbeat (hm_ip h) now (hm_status h) i).2]>
                                       (im_store m)) m)).
  { rewrite (im_update_const m r i (fun i => (update_heartbeat (hm_ip h) now (hm_status h) i).2))
      by done. by apply heartbeat_write_inv. }
  destruct (update_heartbeat _ _ _ i) as [o i']; cbn [snd] in Hu.
  destruct o as [[]|[k]]; try done.
  pose proof (handle_state_transition_inv _ r None Hu) as Ht.
  destruct (handle_state_transition _ _ _ _ _ _) as [[] m']; done.
Qed.

Lemma manage_one_inv m r : im_inv m -> im_inv (manage_one digest query_status now r m).
Proof.
  intros Hm. unfold manage_one. destruct (deref m r) as [i|]; [|done]. case_decide; [done|].
  destruct (is_all_endpoints_alive None now i) as [alive alarms].
  assert (im_inv (im_emit (EServerAlarm <$> alarms) m)) by by drop_log.
  destruct alive; [done|]. by apply handle_state_transition_inv.
Qed.

Lemma foldl_inv {A} (f : IM -> A -> IM) l : forall m,
  (forall m a, im_inv m -> im_inv (f m a)) -> im_inv m -> im_inv (foldl f m l).
Proof. induction l; cbn; auto. Qed.

Lemma management_pass_inv m :
  im_inv m -> im_inv (instances_management_pass digest query_status now m).
Proof. intros Hm. apply foldl_inv; [|done]. intros. by apply manage_one_inv. Qed.

Lemma add_instance_heartbeats_fields i :
  let i' := add_instance_heartbeats now i in ins_id i' = ins_id i /\ ins_status i' = ins_status i.
Proof.
  unfold add_instance_heartbeats. generalize (dkeys (endpoints i)) as l. intros l. revert i.
  induction l as [|ip l IH]; intros i; [done|]. cbn [foldl].
  edestruct (update_heartbeat_fields ip now (initial_status (get_endpoints ip i)) i) as (Hid & Hst & _).
  rewrite <- Hid, <- Hst. apply IH.
Qed.

Lemma im_inv_register m r i :
  im_inv m -> im_store m !! r = Some i -> ins_status i <> Ins_DELETED -> ins_id i ∉ im_forced m ->
  im_inv (im_set_instances (dset (ins_id i) r (im_instances m)) m).
Proof.
  intros (Hwf & Hn & Hreg & Hf) Hi Hnd Hnf. split; [by apply dset_wf|]. split; [done|]. split; cbn.
  - intros id' r'. rewrite dget_dset. case_decide as Heq.
    + intros [= <-]. exists i. by subst id'.
    + apply Hreg.
  - intros id' Hid'%Hf. apply dmem_spec. unfold dmem. rewrite dget_dset. case_decide; [done|].
    by apply dmem_spec in Hid'.
Qed.

Lemma im_inv_alloc m i : im_inv m -> im_inv (im_alloc i m).2.
Proof.
  intros (Hwf & Hn & Hreg & Hf). split; [done|]. split; [|split; [|done]]; cbn.
  - intros r' i'. rewrite lookup_insert_Some. intros [[<- _]|[_ Hi]]; [lia|].
    apply Hn in Hi. lia.
  - intros id' r' Hr'. destruct (Hreg id' r' Hr') as (i' & Hi' & ? & ? & ?). exists i'.
    rewrite lookup_insert_ne; [done|]. apply Hn in Hi'. lia.
Qed.

Lemma add_instance_inv m ins :
  im_inv m -> (forall r i, ins = Some r -> deref m r = Some i -> ins_status i <> Ins_DELETED) ->
  im_inv (add_instance now ins m).
Proof.
  intros Hm Hnd. unfold add_instance. destruct ins as [r|]; [|done]. cbn.
  destruct (deref m r) as [i|] eqn:Hi; [|done]. cbn. destruct (dmem _ _) eqn:Hmem; [done|].
  drop_log. apply im_inv_update.
  - apply im_inv_register; eauto. intros Hin. destruct Hm as (_ & _ & _ & Hf).
    apply Hf, dmem_spec in Hin. congruence.
  - intros i' Hi'. destruct (add_instance_heartbeats_fields i') as [-> ->]. done.
Qed.

Lemma separate_instance_inv m id : im_inv m -> im_inv (separate_instance digest now id m).
Proof.
  intros Hm. unfold separate_instance, get_instance.
  destruct (dget id (im_instances m)) as [r|] eqn:Hg; [|done]. cbn. destruct (deref m r) as [i|] eqn:Hi; [|done]. cbn.
  pose proof Hm as (Hwf & Hn & Hreg & Hf). destruct (Hreg id r Hg) as (i' & Hi' & Hid & Hnd & Hna).
  assert (i' = i) as -> by (unfold deref in Hi; congruence).
  assert (Hkeys : forall id', id' ∈ {[ins_id i]} ∪ im_forced m -> id' ∈ dkeys (im_instances m)).
  { intros id' [->%elem_of_singleton|Hin]%elem_of_union; [|by apply Hf].
    rewrite Hid. by eapply dget_Some_key. }
  assert (Hoth : forall id' r' j, dget id' (im_instances m) = Some r' -> im_store m !! r' = Some j ->
            ins_id j = id' -> id' ∈ {[ins_id i]} ∪ im_forced m -> id' <> ins_id i ->
            ins_status j <> Ins_ACTIVE).
  { intros id' r' j Hr' Hj Hidj Hin Hne. destruct (Hreg id' r' Hr') as (j' & Hj' & _ & _ & Hna').
    assert (j' = j) as -> by congruence. apply Hna'. set_solver. }
  case_decide as Hact.
  - drop_log. split; [done|]. split; [|split; [|done]]; cbn.
    + intros r' j. rewrite lookup_alter_Some. intros [(-> & j0 & Hj & ->)|[_ Hj]]; eauto.
    + intros id' r' Hr'. destruct (Hreg id' r' Hr') as (j & Hj & Hidj & Hndj & Hnaj).
      destruct (decide (r = r')) as [->|Hne].
      * exists (update_instance_status Ins_INACTIVE j). rewrite lookup_alter_eq, Hj. done.
      * exists j. rewrite lookup_alter_ne by done. repeat split; try done. intros Hin.
        eapply Hoth; [done..|]. intros ->. congruence.
  - split; [done|]. split; [done|]. split; [|done]. cbn. intros id' r' Hr'.
    destruct (Hreg id' r' Hr') as (j & Hj & Hidj & Hndj & Hnaj). exists j.
    repeat split; try done. intros Hin. destruct (decide (id' = ins_id i)) as [->|Hne]; [|by eapply Hoth].
    assert (r' = r) as -> by congruence. assert (j = i) as -> by congruence. done.
Qed.

Lemma recover_instance_inv m id : im_inv m -> im_inv (recover_instance id m).
Proof.
  intros Hm. unfold recover_instance. destruct (get_instance id m ≫= deref m); [|done].
  destruct (find_newer_instance_by_job_name _ _ _); [by apply im_inv_unforce|].
  case_decide; [by apply im_inv_unforce | done].
Qed.

Lemma del_instance_inv m id : im_inv m -> im_inv (del_instance id m).
Proof.
  intros Hm. destruct (dget id (im_instances m)) as [r|] eqn:Hr.
  - pose proof Hm as (_ & _ & Hreg & _). destruct (Hreg id r Hr) as (i & Hi & <- & _).
    eapply im_inv_view; [|by apply (im_inv_delete m r i (fun j => j))].
    apply view_del_instance. unfold im_view, im_update. cbn. by rewrite alter_id.
  - unfold del_instance, dmem. by rewrite Hr.
Qed.

Lemma maybe_refresh_inv m b r : im_inv m -> im_inv (maybe_refresh_heartbeat now b r m).
Proof.
  intros Hm. unfold maybe_refresh_heartbeat. destruct (deref m r); [|done]. case_decide; [|done].
  destruct b; [drop_log|]; by apply refresh_inv.
Qed.

Lemma maybe_refresh_view m b r :
  im_instances (maybe_refresh_heartbeat now b r m) = im_instances m /\
  im_forced (maybe_refresh_heartbeat now b r m) = im_forced m /\
  (forall r', deref (maybe_refresh_heartbeat now b r m) r' =
     if decide (r' = r)
     then (fun i => if decide (ins_status i = Ins_ACTIVE) then refresh_hb now i else i) <$> deref m r
     else deref m r').
Proof.
  unfold maybe_refresh_heartbeat. destruct (deref m r) as [i|] eqn:Hi; cbn.
  2:{ repeat split. intros r'. by case_decide; subst. }
  case_decide as Ha.
  - set (m1 := im_update r (refresh_hb now) m).
    assert (Hv : im_view (if b then notify_ref r OE_READY m1 else m1) = im_view m1).
    { destruct b; [apply view_notify_ref|done]. }
    pose proof Hv as [= _ _ Hins Hfor]. rewrite Hins, Hfor. repeat split. intros r'.
    rewrite (view_deref _ _ r' Hv). unfold m1, deref; cbn. rewrite lookup_alter.
    unfold deref in Hi. repeat case_decide; subst; try done. by rewrite Hi.
  - repeat split. intros r'. case_decide; subst; [|done]. by rewrite Hi.
Qed.

Lemma restore_one_inv m e :
  im_inv m -> im_forced m = ∅ ->
  (forall i, e.2 = Some i -> ins_status i <> Ins_DELETED) ->
  im_inv (restore_one now m e) /\ im_forced (restore_one now m e) = ∅.
Proof.
  intros Hm Hf Hnd. unfold restore_one. destruct e as [id [i|]]; cbn [snd] in *; [|done].
  destruct (im_alloc (to_instance i) m) as [r m1] eqn:Ha.
  injection Ha as <- Em1.
  assert (Hm1 : im_inv m1) by (subst m1; by apply (im_inv_alloc m (to_instance i))).
  assert (Hi1 : deref m1 (im_next m) = Some (to_instance i)) by (subst m1; apply lookup_insert_eq).
  assert (Hf1 : im_forced m1 = ∅) by by subst m1.
  pose proof (maybe_refresh_inv m1 true (im_next m) Hm1) as Hm2.
  destruct (maybe_refresh_view m1 true (im_next m)) as (_ & Hfor & Hder).
  specialize (Hder (im_next m)). rewrite decide_True, Hi1 in Hder by done. cbn in Hder.
  set (i2 := if decide (ins_status i = Ins_ACTIVE) then refresh_hb now (to_instance i)
             else to_instance i) in *.
  assert (ins_id i2 = ins_id i /\ ins_status i2 = ins_status i) as [Hid2 Hst2]
    by (unfold i2; by case_decide).
  split; [|change (im_forced (maybe_refresh_heartbeat now true (im_next m) m1) = ∅);
           by rewrite Hfor].
  rewrite <- Hid2. apply im_inv_register; [done|exact Hder| |].
  - rewrite Hst2. by apply Hnd.
  - rewrite Hfor, Hf1. set_solver.
Qed.

Lemma restore_data_inv m res :
  im_inv m -> im_forced m = ∅ ->
  (forall d ps, res = Etcd_states d -> dget "state"%string d = Some (Some ps) ->
     forall id i, (id, Some i) ∈ ps_data ps -> ins_status i <> Ins_DELETED) ->
  im_inv (restore_data digest now res m).2.
Proof.
  intros Hm Hf Hnd. unfold restore_data. destruct res as [| |d]; try done.
  destruct (dget _ d) as [[ps|]|] eqn:Hd; try done. destruct (is_valid digest ps); [|done].
  specialize (Hnd d ps eq_refl Hd). cbn [snd].
  assert (Hp : forall m, im_inv m -> im_inv (push_set m)).
  { intros m0 Hm0. unfold push_set. destruct (base.filter _ _); [done|]. by drop_log. }
  apply Hp. clear Hd Hp.
  assert (H0 : im_inv (im_set_instances [] (im_set_version (Z.max (im_version m) (ps_version ps)) m))).
  { destruct Hm as (_ & Hn & _ & _). split; [apply dict_wf_nil|]. split; [done|].
    split; cbn; [done|]. rewrite Hf. set_solver. }
  assert (Hf0 : im_forced (im_set_instances [] (im_set_version (Z.max (im_version m) (ps_version ps)) m)) = ∅)
    by done.
  revert H0 Hf0. generalize (im_set_instances [] (im_set_version (Z.max (im_version m) (ps_version ps)) m)).
  induction (ps_data ps) as [|[id e] l IH]; intros m0 H0 Hf0; [done|]. cbn [foldl].
  destruct (restore_one_inv m0 (id, e) H0 Hf0) as [H1 Hf1].
  { cbn. intros i ->. apply (Hnd id i). set_solver. }
  apply IH; [|done..]. intros id' i Hin. apply (Hnd id' i). set_solver.
Qed.

Lemma start_inv m res :
  im_inv m -> im_forced m = ∅ ->
  (forall d ps, res = Etcd_states d -> dget "state"%string d = Some (Some ps) ->
     forall id i, (id, Some i) ∈ ps_data ps -> ins_status i <> Ins_DELETED) ->
  im_inv (start digest now res m).
Proof.
  intros Hm Hf Hnd. unfold start. destruct (im_persistence m); [by apply restore_data_inv|].
  apply foldl_inv; [|done]. intros. by apply maybe_refresh_inv.
Qed.
End Preservation.

(** ** Reachable managers

    One step is one call of an operation, with whatever the environment
    answers: the messages, the node managers, the clock, the stored data of a
    restart (a new process: nothing is forcibly separated yet, and the data was
    written by [persist_data], which never sees a DELETED instance). *)
Section Reachable.
Context (digest : dict Z (option Instance_) -> Z -> pyfloat -> string).

Inductive im_step : IM -> IM -> Prop :=
  | im_step_attach o m : im_step m (attach o m)
  | im_step_alloc i m : im_step m (im_alloc i m).2
  | im_step_add now r m :
      (forall i, deref m r = Some i -> ins_status i <> Ins_DELETED) ->
      im_step m (add_instance now (Some r) m)
  | im_step_del id m : im_step m (del_instance id m)
  | im_step_separate now id m : im_step m (separate_instance digest now id m)
  | im_step_recover id m : im_step m (recover_instance id m)
  | im_step_heartbeat q now msg m : im_step m (handle_heartbeat digest q now msg m).2
  | im_step_manage q now m : im_step m (instances_management_pass digest q now m)
  | im_step_transition q now r ov m : im_step m (handle_state_transition digest q now r ov m).2
  | im_step_persist now m : im_step m (persist_data digest now m)
  | im_step_start now res m :
      im_forced m = ∅ ->
      (forall d ps, res = Etcd_states d -> dget "state"%string d = Some (Some ps) ->
         forall id i, (id, Some i) ∈ ps_data ps -> ins_status i <> Ins_DELETED) ->
      im_step m (start digest now res m).

Lemma im_step_inv m m' : im_step m m' -> im_inv m -> im_inv m'.
Proof.
  intros HS Hm. destruct HS;
    eauto using im_inv_alloc, del_instance_inv, separate_instance_inv, recover_instance_inv,
      handle_heartbeat_inv, management_pass_inv, handle_state_transition_inv, start_inv.
  - unfold attach. by case_decide.
  - apply add_instance_inv; [done|]. intros r' i [= <-]. eauto.
Qed.

Lemma im_init_inv p : im_inv (im_init p).
Proof. split; [apply dict_wf_nil|]. split; [|split]; cbn; intros; set_solver. Qed.

Definition im_reachable (m : IM) : Prop := exists p, rtc im_step (im_init p) m.

Lemma im_reachable_inv m : im_reachable m -> im_inv m.
Proof.
  intros [p HS]. pose proof (im_init_inv p) as H0.
  induction HS as [|x y z Hs _ IH]; [done|]. apply IH. by eapply im_step_inv.
Qed.
End Reachable.

(** ** Notifications *)

Definition notif_of (e : effect) : option (nat * Z * ObserverEvent) :=
  match e with ENotify o i ev => Some (o, ins_id i, ev) | _ => None end.

(** The notifications the observers have received, in order. *)
Definition notifs (m : IM) : list (nat * Z * ObserverEvent) := omap notif_of (im_log m).

Lemma notifs_silent l m : omap notif_of l = [] -> notifs (im_emit l m) = notifs m.
Proof. intros Hl. unfold notifs; cbn. by rewrite omap_app, Hl, app_nil_r. Qed.

Lemma omap_fmap_None {A B C} (f : A -> B) (g : B -> option C) (l : list A) :
  (forall a, g (f a) = None) -> omap g (f <$> l) = [].
Proof. intros H. induction l as [|a l IH]; cbn; [done|]. by rewrite H. Qed.

Lemma notifs_server_alarms l m : notifs (im_emit (EServerAlarm <$> l) m) = notifs m.
Proof. apply notifs_silent. by apply omap_fmap_None. Qed.

Lemma notifs_inst_alarm i b m : notifs (report_inst_alarm i b m) = notifs m.
Proof. by apply notifs_silent. Qed.

Lemma notifs_coord_alarm i b m : notifs (report_coordinator_alarm i b m) = notifs m.
Proof.
  unfold report_coordinator_alarm. destruct (if b then _ else _); [|done].
  case_decide; [by apply notifs_silent|done].
Qed.

Lemma notifs_persist digest now m : notifs (maybe_persist digest now m) = notifs m.
Proof.
  unfold maybe_persist. destruct (im_persistence m); [|done]. unfold persist_data.
  cbn [get_next_version]. by rewrite notifs_silent.
Qed.

Lemma notifs_update r f m : notifs (im_update r f m) = notifs m.
Proof. done. Qed.

Lemma notifs_del id m : notifs (del_instance id m) = notifs m.
Proof. unfold del_instance. by destruct (dmem _ _). Qed.

Lemma notifs_notify_ref r e m i :
  deref m r = Some i ->
  notifs (notify_ref r e m) = notifs m ++ ((fun o => (ob_id o, ins_id i, e)) <$> im_observers m).
Proof.
  intros Hi. unfold notify_ref. rewrite Hi. unfold notifs, notify; cbn. rewrite omap_app. f_equal.
  induction (im_observers m) as [|o l IH]; [done|]. cbn. by rewrite IH.
Qed.

Lemma deref_update m r f : deref (im_update r f m) r = f <$> deref m r.
Proof. unfold deref; cbn. apply lookup_alter_eq. Qed.

Lemma deref_notify m r r' e : deref (notify_ref r' e m) r = deref m r.
Proof. apply view_deref, view_notify_ref. Qed.
Lemma deref_inst_alarm m r i b : deref (report_inst_alarm i b m) r = deref m r.
Proof. done. Qed.
Lemma deref_coord_alarm m r i b : deref (report_coordinator_alarm i b m) r = deref m r.
Proof. apply view_deref, view_coord_alarm. Qed.
Lemma deref_persist digest now m r : deref (maybe_persist digest now m) r = deref m r.
Proof. apply view_deref, view_maybe_persist. Qed.
Lemma deref_del m id r : deref (del_instance id m) r = deref m r.
Proof. unfold del_instance. by destruct (dmem _ _). Qed.

Create HintDb im_log.
#[export] Hint Rewrite notifs_server_alarms notifs_inst_alarm notifs_coord_alarm notifs_persist
  notifs_update notifs_del deref_update deref_notify deref_inst_alarm deref_coord_alarm
  deref_persist deref_del : im_log.

(** The event the observers get when the status becomes [s]; falling back to
    INITIAL is silent. *)
Definition observer_event_of (s : InsStatus) (ev : InsConditionEvent) : option ObserverEvent :=
  match s with
  | Ins_INITIAL => None
  | Ins_ACTIVE => Some (if decide (ev = INSTANCE_RESUMED) then OE_RESUMED else OE_READY)
  | Ins_INACTIVE => Some OE_SEPARATED
  | Ins_PAUSED => Some OE_PAUSED
  | Ins_DELETED => Some OE_REMOVED
  end.

Definition announced (m : IM) (i : Instance_) (from to : InsStatus) (ev : InsConditionEvent)
    : list (nat * Z * ObserverEvent) :=
  if decide (to = from) then []
  else match observer_event_of to ev with
       | None => []
       | Some oe => (fun o => (ob_id o, ins_id i, oe)) <$> im_observers m
       end.

(** A status write, announced. *)
Lemma announce_update m r i s e :
  deref m r = Some i ->
  notifs (notify_ref r e (im_update r (update_instance_status s) m)) =
  notifs m ++ ((fun o => (ob_id o, ins_id i, e)) <$> im_observers m).
Proof.
  intros Hi. erewrite notifs_notify_ref; [|by rewrite deref_update, Hi]. done.
Qed.

Lemma state_handler_spec q now m r i ev to :
  deref m r = Some i -> dget (ins_status i, ev) transitions = Some to ->
  exists i', deref (state_handler q now to (ins_status i) ev r m) r = Some i' /\
    (ins_status i' = ins_status i \/ ins_status i' = to) /\
    notifs (state_handler q now to (ins_status i) ev r m) =
      notifs m ++ announced m i (ins_status i) (ins_status i') ev.
Proof.
  intros Hi Ht. destruct (ins_status i) eqn:Es, ev; vm_compute in Ht; simplify_eq;
    cbn [state_handler];
    unfold handle_initial, handle_active, handle_inactive, handle_paused, handle_deleted;
    rewrite ?deref_notify, ?deref_update, ?Hi; cbn [fmap option_fmap option_map];
    try (destruct (check_node_managers_status q i));
    repeat (case_decide; try (exfalso; naive_solver));
    autorewrite with im_log; rewrite ?Hi; cbn [fmap option_fmap option_map];
    (eexists; split; [reflexivity|]; cbn [ins_status update_instance_status ins_set_status refresh_hb
       ins_set_endpoints]; rewrite ?Es; split; [by eauto|]);
    rewrite ?(announce_update m r i) by done;
    unfold announced; cbn; by rewrite ?app_nil_r.
Qed.

(** What follows the handler (persistence, removal from the forced set) leaves
    the object and the notifications alone. *)
Section TransitionTail.
Context (digest : dict Z (option Instance_) -> Z -> pyfloat -> string) (now : pyfloat).
Context (m : IM) (b : bool) (P : Prop) `{!Decision P} (id : Z).

Lemma transition_tail_deref r :
  deref (if decide P
         then im_set_forced (im_forced (if b then maybe_persist digest now m else m) ∖ {[id]})
                (if b then maybe_persist digest now m else m)
         else if b then maybe_persist digest now m else m) r = deref m r.
Proof. case_decide; destruct b; apply (deref_persist digest now m r) || done. Qed.

Lemma transition_tail_notifs :
  notifs (if decide P
          then im_set_forced (im_forced (if b then maybe_persist digest now m else m) ∖ {[id]})
                 (if b then maybe_persist digest now m else m)
          else if b then maybe_persist digest now m else m) = notifs m.
Proof. case_decide; destruct b; apply (notifs_persist digest now m) || done. Qed.

Lemma transition_tail_instances :
  im_instances (if decide P
          then im_set_forced (im_forced (if b then maybe_persist digest now m else m) ∖ {[id]})
                 (if b then maybe_persist digest now m else m)
          else if b then maybe_persist digest now m else m) = im_instances m.
Proof.
  pose proof (view_maybe_persist digest now m) as [= _ _ Hi _]. by case_decide; destruct b.
Qed.
End TransitionTail.

Lemma transition_tail_forced digest now m (b : bool) id :
  id ∉ im_forced (if decide (Ins_DELETED = Ins_DELETED /\
                     id ∈ im_forced (if b then maybe_persist digest now m else m))
          then im_set_forced (im_forced (if b then maybe_persist digest now m else m) ∖ {[id]})
                 (if b then maybe_persist digest now m else m)
          else if b then maybe_persist digest now m else m).
Proof. case_decide; cbn; [set_solver | naive_solver]. Qed.

Lemma del_instance_instances m id :
  dict_wf (im_instances m) -> dget id (im_instances (del_instance id m)) = None.
Proof.
  intros Hwf. unfold del_instance, dmem. destruct (dget id (im_instances m)) eqn:E; [|done].
  by apply dget_ddel_eq.
Qed.

Lemma notify_ref_instances r e m : im_instances (notify_ref r e m) = im_instances m.
Proof. unfold notify_ref. by destruct (deref m r). Qed.

(** The event a call works with. *)
Definition event_of (ov : option InsConditionEvent) (i : Instance_) : InsConditionEvent :=
  match ov with Some e => e | None => (detect_event i).1 end.

Lemma detect_event_cases i :
  (detect_event i).1 <> INSTANCE_HEARTBEAT_TIMEOUT /\ (detect_event i).1 <> INSTANCE_RESUMED.
Proof.
  unfold detect_event. destruct (is_have_one_endpoint_abnormal i) as [[] ?], (is_all_endpoints_paused i),
    (is_all_endpoints_ready i), (is_any_endpoint_paused i); done.
Qed.

(** ** Persist and restore *)

(** What the restore makes of a stored instance. *)
Definition restored (now : pyfloat) (i : Instance_) : Instance_ :=
  if decide (ins_status i = Ins_ACTIVE) then refresh_hb now (to_instance i) else to_instance i.

Definition lookup_instance (m : IM) (id : Z) : option Instance_ := dget id (im_instances m) ≫= deref m.

Lemma restore_one_lookup now m id i :
  im_inv m ->
  let m' := restore_one now m (id, Some i) in
  dkeys (im_instances m') = dkeys (dset (ins_id i) 0%nat (im_instances m)) /\
  forall id', lookup_instance m' id' =
    if decide (id' = ins_id i) then Some (restored now i) else lookup_instance m id'.
Proof.
  intros (Hwf & Hn & Hreg & Hf) m'. subst m'. unfold restore_one. cbn [snd].
  destruct (im_alloc (to_instance i) m) as [r m1] eqn:Ha. injection Ha as <- Em1.
  destruct (maybe_refresh_view now m1 true (im_next m)) as (Hins & _ & Hder).
  assert (Hi1 : im_instances m1 = im_instances m) by by subst m1.
  unfold lookup_instance. cbn [im_instances im_set_instances]. rewrite Hins, Hi1. split.
  { destruct (decide (ins_id i ∈ dkeys (im_instances m))).
    - by rewrite !dkeys_dset_old.
    - by rewrite !dkeys_dset_fresh. }
  intros id'. rewrite dget_dset.
  assert (Hder' : forall r', deref (im_set_instances (dset (ins_id i) (im_next m) (im_instances m))
            (maybe_refresh_heartbeat now true (im_next m) m1)) r'
          = deref (maybe_refresh_heartbeat now true (im_next m) m1) r') by done.
  destruct (decide (ins_id i = id')) as [<-|Hne].
  - rewrite decide_True by done. cbn. rewrite Hder', Hder, decide_True by done.
    assert (deref m1 (im_next m) = Some (to_instance i)) as -> by (subst m1; apply lookup_insert_eq).
    done.
  - rewrite decide_False by done. destruct (dget id' (im_instances m)) as [r'|] eqn:Hr'; [|done].
    cbn. rewrite Hder', Hder. destruct (Hreg id' r' Hr') as (j & Hj & _).
    assert (r' <> im_next m) by (apply Hn in Hj; lia).
    rewrite decide_False by done. subst m1. apply lookup_insert_ne. done.
Qed.

Lemma restore_fold_lookup now l : forall m,
  im_inv m -> im_forced m = ∅ -> NoDup l.*1 ->
  (forall id e, (id, e) ∈ l -> exists i, e = Some i /\ ins_id i = id /\ ins_status i <> Ins_DELETED) ->
  (forall id, id ∈ l.*1 -> id ∉ dkeys (im_instances m)) ->
  dkeys (im_instances (foldl (restore_one now) m l)) = dkeys (im_instances m) ++ l.*1 /\
  forall id, lookup_instance (foldl (restore_one now) m l) id =
    match dget id l with
    | Some e => restored now <$> e
    | None => lookup_instance m id
    end.
Proof.
  induction l as [|[id e] l IH]; intros m Hm Hf Hnd Hok Hfresh.
  { cbn. by rewrite app_nil_r. }
  destruct (Hok id e ltac:(set_solver)) as (i & -> & Hid & Hst). cbn [foldl].
  destruct (restore_one_inv now m (id, Some i) Hm Hf) as [Hm1 Hf1].
  { cbn. by intros ? [= <-]. }
  destruct (restore_one_lookup now m id i Hm) as [Hk Hl]. rewrite Hid in Hk, Hl.
  rewrite dkeys_dset_fresh in Hk by (apply Hfresh; set_solver).
  cbn in Hnd. apply NoDup_cons in Hnd as [Hnid Hnd].
  destruct (IH _ Hm1 Hf1 Hnd) as [IHk IHl].
  { intros id' e' Hin. apply (Hok id' e'). set_solver. }
  { intros id' Hin. rewrite Hk, elem_of_app. intros [Hin'|Hin'].
    - by apply (Hfresh id'); [set_solver|].
    - apply list_elem_of_singleton in Hin'. subst. done. }
  split.
  - rewrite IHk, Hk, <- app_assoc. done.
  - intros id'. rewrite IHl. cbn [dget]. rewrite Hl.
    destruct (decide (id = id')) as [<-|Hne].
    + rewrite decide_True by done. destruct (dget id l) eqn:E; [|done].
      apply dget_Some_key in E. done.
    + by rewrite decide_False by done.
Qed.

Section RoundTrip.
Context (digest : dict Z (option Instance_) -> Z -> pyfloat -> string).

(** The state [persist_data] writes. *)
Definition persisted (now : pyfloat) (m : IM) : PersistentState :=
  let data := omap (fun '(id, r) => i ← deref m r; Some (id, Some (model_dump i))) (im_instances m) in
  {| ps_data := data; ps_version := im_version m + 1; ps_timestamp := now;
     ps_checksum := digest data (im_version m + 1) now |}.

Lemma persist_data_writes now m :
  im_log (persist_data digest now m) = im_log m ++ [EPersist (persisted now m)].
Proof. done. Qed.

Lemma persisted_entry m id e now :
  im_inv m ->
  (id, e) ∈ ps_data (persisted now m) <-> exists i, lookup_instance m id = Some i /\ e = Some (model_dump i).
Proof.
  intros (Hwf & _). cbn. rewrite list_elem_of_omap. unfold lookup_instance. split.
  - intros ([id' r] & Hin & He). apply elem_dget in Hin; [|done].
    destruct (deref m r) as [i|] eqn:Hi; [|done]. cbn in He. simplify_eq.
    exists i. rewrite Hin. done.
  - intros (i & Hl & ->). destruct (dget id (im_instances m)) as [r|] eqn:Hr; [|done]. cbn in Hl.
    exists (id, r). split; [by apply dget_elem|]. by rewrite Hl.
Qed.

Lemma persisted_keys m now : im_inv m -> (ps_data (persisted now m)).*1 = dkeys (im_instances m).
Proof.
  intros (Hwf & _ & Hreg & _). cbn. unfold dkeys, dict_wf in *.
  assert (Hall : forall id r, (id, r) ∈ im_instances m -> deref m r <> None).
  { intros id r Hin%elem_dget; [|done]. destruct (Hreg id r Hin) as (i & Hi & _).
    unfold deref. by rewrite Hi. }
  clear Hwf Hreg. induction (im_instances m) as [|[id r] l IH]; [done|]. cbn.
  destruct (deref m r) as [i|] eqn:Hi; cbn.
  - f_equal. apply IH. intros id' r' Hin. apply (Hall id'). set_solver.
  - destruct (Hall id r); [set_solver|done].
Qed.

Lemma persisted_ok m id e now :
  im_inv m -> (id, e) ∈ ps_data (persisted now m) ->
  exists i, e = Some i /\ ins_id i = id /\ ins_status i <> Ins_DELETED.
Proof.
  intros Hm (i & Hl & ->)%persisted_entry; [|done]. exists (model_dump i). split; [done|].
  unfold lookup_instance in Hl. destruct (dget id (im_instances m)) as [r|] eqn:Hr; [|done]. cbn in Hl.
  destruct Hm as (_ & _ & Hreg & _). destruct (Hreg id r Hr) as (j & Hj & Hid & Hnd & _).
  assert (j = i) as -> by (unfold deref in Hl; congruence). done.
Qed.

Lemma persisted_lookup m now now2 id m0 :
  im_inv m -> im_instances m0 = [] ->
  match dget id (ps_data (persisted now m)) with
  | Some e => restored now2 <$> e
  | None => lookup_instance m0 id
  end = restored now2 <$> lookup_instance m id.
Proof.
  intros Hm H0. destruct (dget id (ps_data (persisted now m))) as [e|] eqn:E.
  - apply dget_elem, persisted_entry in E as (i & Hi & ->); [|done]. by rewrite Hi.
  - apply dget_None in E. unfold dkeys in E. rewrite persisted_keys in E by done.
    apply dget_None in E. unfold lookup_instance. by rewrite E, H0.
Qed.

Lemma cleared_inv m v : im_inv m -> im_forced m = ∅ -> im_inv (im_set_instances [] (im_set_version v m)).
Proof.
  intros (_ & Hn & _ & _) Hf. split; [apply dict_wf_nil|]. split; [done|]. split; cbn; [done|].
  rewrite Hf. set_solver.
Qed.

Lemma push_set_instances m : im_instances (push_set m) = im_instances m.
Proof. unfold push_set. by destruct (base.filter _ _). Qed.
Lemma push_set_version m : im_version (push_set m) = im_version m.
Proof. unfold push_set. by destruct (base.filter _ _). Qed.
Lemma push_set_lookup m id : lookup_instance (push_set m) id = lookup_instance m id.
Proof. unfold push_set. by destruct (base.filter _ _). Qed.

Lemma restore_fold_version now l : forall m, im_version (foldl (restore_one now) m l) = im_version m.
Proof.
  induction l as [|[id e] l IH]; intros m; [done|]. cbn [foldl]. rewrite IH.
  unfold restore_one. destruct e as [i|]; [|done]. cbn.
  unfold maybe_refresh_heartbeat, notify_ref. repeat (case_match || case_decide; simplify_eq/=; try done).
Qed.
End RoundTrip.

Lemma im_values_registered m i :
  im_inv m -> i ∈ im_values m <-> dget (ins_id i) (im_instances m) ≫= deref m = Some i.
Proof.
  intros (Hwf & _ & Hreg & _). unfold im_values. rewrite list_elem_of_omap. split.
  - intros (r & Hr & Hi). apply elem_of_dvalues in Hr as [id Hin%elem_dget]; [|done].
    destruct (Hreg id r Hin) as (j & Hj & Hid & _).
    assert (j = i) as -> by (unfold deref in Hi; congruence). by rewrite Hid, Hin.
  - intros H. destruct (dget (ins_id i) (im_instances m)) as [r|] eqn:Hr; [|done]. cbn in H.
    exists r. split; [|done]. apply elem_of_dvalues. exists (ins_id i). by apply dget_elem.
Qed.

(** ** Properties *)

Section Properties.
Context (digest : dict Z (option Instance_) -> Z -> pyfloat -> string).





(** C10: the answer to a heartbeat the instance accepted (known pod, a status
    for every endpoint): 200, unless the instance is ACTIVE or PAUSED and the
    reported statuses amount to INSTANCE_INIT (some endpoint still
    initialising, none abnormal or paused) - the two pairs the table has no
    transition for - which is answered with 500.  In both cases the reported
    statuses have been recorded. *)
Theorem handle_heartbeat_codes q now m h r i i' :
  im_reachable digest m ->
  dget (hm_ins_id h) (im_instances m) = Some r -> deref m r = Some i ->
  update_heartbeat (hm_ip h) now (hm_status h) i = (Ret true, i') ->
  (handle_heartbeat digest q now (Some h) m).1 =
  (if decide ((ins_status i = Ins_ACTIVE \/ ins_status i = Ins_PAUSED) /\
              (detect_event i').1 = INSTANCE_INIT)
   then Raise (HTTPException HEARTBEAT_HANDLER_ERROR)
   else Ret (true, HEARTBEAT_HANDLER_SUCCESS)).
Proof.
  intros Hm%im_reachable_inv Hr Hi Hu. unfold handle_heartbeat. rewrite Hr, Hi, Hu.
  assert (Hst : ins_status i' = ins_status i).
  { pose proof (update_heartbeat_fields (hm_ip h) now (hm_status h) i) as (_ & Hs & _).
    by rewrite Hu in Hs. }
  assert (Hnd : ins_status i <> Ins_DELETED).
  { destruct Hm as (_ & _ & Hreg & _). destruct (Hreg _ r Hr) as (j & Hj & _ & Hnd & _).
    by assert (j = i) as -> by (unfold deref in Hi; congruence). }
  unfold handle_state_transition, deref at 1. cbn [im_store im_set_store].
  rewrite lookup_insert_eq, Hst.
  destruct (detect_event_cases i') as [Hn1 Hn2].
  destruct (detect_event i') as [ev alarms]; cbn [fst] in *.
  destruct (ins_status i), ev; try done; cbn [dget transitions];
    repeat (rewrite decide_False by (intros ?; simplify_eq) || rewrite decide_True by done);
    try done; repeat case_decide; try done; naive_solver.
Qed.

(** C8: a heartbeat timeout of an ACTIVE instance whose node managers all answer
    the status query as normal does not take it out of service: the pass of
    the timeout loop over it leaves it ACTIVE and registered, notifies nobody,
    and refreshes the heartbeats so that the next check at that time passes. *)
Theorem healthy_timeout_keeps_active q now m r i :
  deref m r = Some i -> ins_status i = Ins_ACTIVE -> finite_time now ->
  check_node_managers_status q i = false ->
  exists i', deref (manage_one digest q now r m) r = Some i' /\
    ins_status i' = Ins_ACTIVE /\ notifs (manage_one digest q now r m) = notifs m /\
    im_instances (manage_one digest q now r m) = im_instances m /\
    (is_all_endpoints_alive None now i').1 = true.
Proof.
  intros Hi Hs Hfin Hnm. unfold manage_one. rewrite Hi, Hs, decide_False by done.
  destruct (is_all_endpoints_alive None now i) as [alive alarms] eqn:Ea. destruct alive.
  { exists i. rewrite notifs_server_alarms. repeat split; try done. by rewrite Ea. }
  unfold handle_state_transition. set (m1 := im_emit _ m).
  assert (Hi1 : deref m1 r = Some i) by done. rewrite Hi1, Hs.
  assert (Ht : dget (Ins_ACTIVE, INSTANCE_HEARTBEAT_TIMEOUT) transitions = Some Ins_INACTIVE) by done.
  cbn [fmap list_fmap]. rewrite Ht, decide_False by (intros [_ ?]; simplify_eq).
  cbn [state_handler]. unfold handle_inactive.
  rewrite !(decide_False (P := Ins_ACTIVE = Ins_INACTIVE)) by done.
  change (deref (im_emit [] m1) r) with (deref m1 r). rewrite Hi1, Hnm.
  cbn [snd]. rewrite deref_update. change (deref (im_emit [] m1) r) with (deref m1 r).
  rewrite Hi1. cbn [fmap option_fmap option_map].
  rewrite bool_decide_eq_true_2 by done. cbn [negb].
  rewrite decide_False by (intros [? _]; simplify_eq).
  exists (refresh_hb now i). rewrite deref_update.
  change (deref (im_emit [] m1) r) with (deref m1 r). rewrite Hi1. repeat split; try done.
  - rewrite notifs_update. change (im_emit [] m1) with (im_emit (EServerAlarm <$> []) m1).
    rewrite notifs_server_alarms. apply notifs_server_alarms.
  - apply is_all_endpoints_alive_spec. intros e. rewrite all_eps_refresh, list_elem_of_fmap.
    intros (e0 & -> & _). apply refresh_is_alive; [done|].
    unfold heartbeat_limit. by destruct (decide _).
Qed.

(** C9: a heartbeat timeout of an instance that is not ACTIVE (it never became
    healthy, was separated or is paused) removes it: the pass of the timeout
    loop over a registered late instance takes its id out of the table and out
    of the forced set, and tells every observer once that it is gone. *)
Theorem timeout_removes_inactive q now m r i :
  im_reachable digest m ->
  dget (ins_id i) (im_instances m) = Some r -> deref m r = Some i ->
  ins_status i <> Ins_ACTIVE -> (is_all_endpoints_alive None now i).1 = false ->
  dget (ins_id i) (im_instances (manage_one digest q now r m)) = None /\
  ins_id i ∉ im_forced (manage_one digest q now r m) /\
  notifs (manage_one digest q now r m) =
    notifs m ++ ((fun o => (ob_id o, ins_id i, OE_REMOVED)) <$> im_observers m).
Proof.
  intros Hm%im_reachable_inv Hr Hi Hna Hal.
  assert (Hnd : ins_status i <> Ins_DELETED).
  { destruct Hm as (_ & _ & Hreg & _). destruct (Hreg _ r Hr) as (j & Hj & _ & Hnd & _).
    by assert (j = i) as -> by (unfold deref in Hi; congruence). }
  unfold manage_one. rewrite Hi, decide_False by done.
  destruct (is_all_endpoints_alive None now i) as [alive alarms]; cbn in Hal; subst alive.
  assert (Ht : dget (ins_status i, INSTANCE_HEARTBEAT_TIMEOUT) transitions = Some Ins_DELETED)
    by (by destruct (ins_status i)).
  unfold handle_state_transition. set (m1 := im_emit (EServerAlarm <$> alarms) m).
  assert (Hi1 : deref m1 r = Some i) by done. rewrite Hi1. cbn [fmap list_fmap].
  rewrite Ht, decide_False by (intros [_ ?]; simplify_eq). cbn [state_handler snd].
  set (m2 := im_emit [] m1). assert (Hi2 : deref m2 r = Some i) by done.
  unfold handle_deleted. rewrite !(decide_False (P := ins_status i = Ins_DELETED)) by done.
  rewrite !(decide_True (P := INSTANCE_HEARTBEAT_TIMEOUT = INSTANCE_HEARTBEAT_TIMEOUT \/ _)) by auto.
  rewrite deref_notify, deref_update, Hi2. cbn [fmap option_fmap option_map].
  rewrite transition_tail_notifs, notifs_del, (announce_update m2 r i) by done.
  assert (Hn2 : notifs m2 = notifs m).
  { change m2 with (im_emit (EServerAlarm <$> []) m1). rewrite notifs_server_alarms.
    apply notifs_server_alarms. }
  rewrite Hn2. split; [|split; [|done]].
  - rewrite transition_tail_instances. rewrite del_instance_instances; [done|].
    rewrite notify_ref_instances. apply Hm.
  - apply transition_tail_forced.
Qed.
End Properties.

(** ** A small cluster, evaluated *)

Definition no_digest : dict Z (option Instance_) -> Z -> pyfloat -> string := fun _ _ _ => ""%string.
Definition all_normal : NodeManagerInfo -> nm_response := fun _ => NM_status true.
Definition sec (n : Z) : pyfloat := float_lit n 0.

Definition ex_added : IM :=
  let m := attach {| ob_id := 1; ob_is_event_pusher := true |} (im_init true) in
  add_instance (sec 100) (Some 0%nat) (im_alloc (add_node_mgr (Some "10.0.0.1"%string) (Some "9000"%string) 8 ex_inst) m).2.

Definition ex_hb (s0 s1 : EndpointStatus) : HeartbeatMsg :=
  {| hm_job_name := "job"; hm_ins_id := 7; hm_ip := "10.0.0.1"; hm_status := [(0, s0); (1, s1)] |}.

Definition ex_active : IM :=
  (handle_heartbeat no_digest all_normal (sec 101) (Some (ex_hb Ep_NORMAL Ep_WAIT2START)) ex_added).2.

Definition ex_separated : IM := separate_instance no_digest (sec 102) 7 ex_active.

Lemma ex_added_reachable : im_reachable no_digest ex_added.
Proof.
  exists true. eapply rtc_l; [apply (im_step_attach _ {| ob_id := 1; ob_is_event_pusher := true |})|].
  eapply rtc_l; [apply im_step_alloc|]. eapply rtc_l; [|apply rtc_refl].
  apply im_step_add. intros i Hi. vm_compute in Hi. by simplify_eq.
Qed.

Lemma im_reachable_step digest m m' : im_reachable digest m -> im_step digest m m' -> im_reachable digest m'.
Proof. intros [p HS] Hs. exists p. by eapply rtc_r. Qed.

Lemma ex_active_reachable : im_reachable no_digest ex_active.
Proof. eapply im_reachable_step; [apply ex_added_reachable|]. apply im_step_heartbeat. Qed.

Lemma ex_separated_reachable : im_reachable no_digest ex_separated.
Proof. eapply im_reachable_step; [apply ex_active_reachable|]. apply im_step_separate. Qed.

Example ex_statuses :
  ins_status <$> im_values ex_added = [Ins_INITIAL] /\
  ins_status <$> im_values ex_active = [Ins_ACTIVE] /\
  ins_status <$> im_values ex_separated = [Ins_INACTIVE] /\
  notifs ex_separated = [(1%nat, 7, OE_INITIAL); (1%nat, 7, OE_READY); (1%nat, 7, OE_SEPARATED)].
Proof. vm_compute. done. Qed.

(** A heartbeat that reports every endpoint ready leaves the separated instance
    out of service. *)
Definition ex_knock : IM :=
  (handle_heartbeat no_digest all_normal (sec 103) (Some (ex_hb Ep_NORMAL Ep_NORMAL)) ex_separated).2.

(** A second instance, active beside the separated one. *)
Definition ex_two : IM :=
  let i := add_endpoints "10.0.0.2" (Some [(0, ex_ep 0 false)])
             (Instance_new "job2" "model" None [] 8 "decode" true) in
  let m := (im_alloc i ex_knock).2 in
  let m := add_instance (sec 104) (Some 1%nat) m in
  (handle_heartbeat no_digest all_normal (sec 105)
     (Some {| hm_job_name := "job2"; hm_ins_id := 8; hm_ip := "10.0.0.2";
              hm_status := [(0, Ep_NORMAL)] |}) m).2.

Lemma ex_two_reachable : im_reachable no_digest ex_two.
Proof.
  eapply im_reachable_step; [|apply im_step_heartbeat].
  eapply im_reachable_step; [|apply im_step_add].
  - eapply im_reachable_step; [|apply im_step_alloc].
    eapply im_reachable_step; [apply ex_separated_reachable|apply im_step_heartbeat].
  - intros i Hi. vm_compute in Hi. by simplify_eq.
Qed.





Lemma handle_heartbeat_codes_witness :
  (handle_heartbeat no_digest all_normal (sec 102) (Some (ex_hb Ep_NORMAL Ep_INITIAL)) ex_active).1 =
  Raise (HTTPException 500).
Proof.
  destruct (deref ex_active 0%nat) as [i|] eqn:Hi; [|vm_compute in Hi; discriminate].
  destruct (update_heartbeat "10.0.0.1" (sec 102) [(0, Ep_NORMAL); (1, Ep_INITIAL)] i) as [o i'] eqn:E.
  assert (o = Ret true) as -> by (vm_compute in Hi; injection Hi as <-; vm_compute in E; by injection E).
  rewrite (handle_heartbeat_codes no_digest all_normal (sec 102) ex_active (ex_hb Ep_NORMAL Ep_INITIAL) 0%nat i i').
  - vm_compute in Hi. injection Hi as <-. vm_compute in E. injection E as <-. vm_compute. reflexivity.
  - apply ex_active_reachable.
  - vm_compute. reflexivity.
  - exact Hi.
  - exact E.
Defined.

Lemma healthy_timeout_keeps_active_witness :
  exists i', deref (manage_one no_digest all_normal (sec 500) 0%nat ex_active) 0%nat = Some i' /\
    ins_status i' = Ins_ACTIVE.
Proof.
  destruct (deref ex_active 0%nat) as [i|] eqn:Hi; [|vm_compute in Hi; discriminate].
  destruct (healthy_timeout_keeps_active no_digest all_normal (sec 500) ex_active 0%nat i)
    as (i' & Hi' & Hs & _).
  - exact Hi.
  - vm_compute in Hi. injection Hi as <-. reflexivity.
  - vm_compute. exact I.
  - vm_compute in Hi. injection Hi as <-. reflexivity.
  - exists i'. by split.
Defined.

Lemma timeout_removes_inactive_witness :
  dget 7 (im_instances (manage_one no_digest all_normal (sec 500) 0%nat ex_separated)) = None.
Proof.
  destruct (deref ex_separated 0%nat) as [i|] eqn:Hi; [|vm_compute in Hi; discriminate].
  assert (Hid : ins_id i = 7) by (vm_compute in Hi; injection Hi as <-; reflexivity).
  rewrite <- Hid. apply (timeout_removes_inactive no_digest all_normal (sec 500) ex_separated 0%nat i).
  - apply ex_separated_reachable.
  - rewrite Hid. vm_compute. reflexivity.
  - exact Hi.
  - vm_compute in Hi. injection Hi as <-. discriminate.
  - vm_compute in Hi. injection Hi as <-. vm_compute. reflexivity.
Defined.

(** ** Where the comments and the code part *)


