(* ===== verification/InstancePool.v ===== *)
(** * The coordinator's instance pools

    [motor/coordinator/domain/instance_manager.py] (class [InstanceManager] of
    the coordinator) and the readiness inference of
    [motor/coordinator/domain/scheduling.py].

    Instances are shared objects: the pool of all available instances and the
    pool of its role reference the same object, and the endpoint index points
    into it.  Objects live in a heap ([objs]) and pools hold references.  The
    instances of an event are fresh objects.  Every handler runs under the
    manager's lock (or has no suspension point), so each is one atomic
    operation; [ValueError] (a role string that names no role) and [KeyError]
    propagate to the caller and keep what was already done. *)

From S2P Require Import Prelude PyDict PyNum Resources.

Inductive PyError := ValueError_ | KeyError_.

Inductive UpdateInstanceMode := AVAILABLE | UNAVAILABLE.
Inductive EventType := ADD | DEL | SET | PAUSE | RESUME.

(** An endpoint object inside an instance object: pod address and key. *)
Abbreviation ep_path := (string * Z)%type.

(** ** State *)
Record Pools := {
  objs : gmap nat Instance_;
  fresh_ref : nat;
  available : dict Z nat;
  unavailable : dict Z nat;
  paused : dict Z nat;
  encode_pool : dict Z nat;
  prefill_pool : dict Z nat;
  decode_pool : dict Z nat;
  hybrid_pool : dict Z nat;
  endpoint_id_cache : dict Z (dict Z (nat * ep_path));
  is_mgmt : bool;
  kv_log : list (bool * list nat) }.

Definition pools_init (mgmt : bool) : Pools :=
  {| objs := ∅; fresh_ref := 0; available := []; unavailable := []; paused := []; encode_pool := [];
     prefill_pool := []; decode_pool := []; hybrid_pool := []; endpoint_id_cache := [];
     is_mgmt := mgmt; kv_log := [] |}.

Definition set_objs (o : gmap nat Instance_) (s : Pools) : Pools :=
  {| objs := o; fresh_ref := fresh_ref s; available := available s; unavailable := unavailable s;
     paused := paused s; encode_pool := encode_pool s; prefill_pool := prefill_pool s;
     decode_pool := decode_pool s; hybrid_pool := hybrid_pool s;
     endpoint_id_cache := endpoint_id_cache s; is_mgmt := is_mgmt s; kv_log := kv_log s |}.
Definition set_fresh (n : nat) (s : Pools) : Pools :=
  {| objs := objs s; fresh_ref := n; available := available s; unavailable := unavailable s;
     paused := paused s; encode_pool := encode_pool s; prefill_pool := prefill_pool s;
     decode_pool := decode_pool s; hybrid_pool := hybrid_pool s;
     endpoint_id_cache := endpoint_id_cache s; is_mgmt := is_mgmt s; kv_log := kv_log s |}.
Definition set_available (d : dict Z nat) (s : Pools) : Pools :=
  {| objs := objs s; fresh_ref := fresh_ref s; available := d; unavailable := unavailable s;
     paused := paused s; encode_pool := encode_pool s; prefill_pool := prefill_pool s;
     decode_pool := decode_pool s; hybrid_pool := hybrid_pool s;
     endpoint_id_cache := endpoint_id_cache s; is_mgmt := is_mgmt s; kv_log := kv_log s |}.
Definition set_unavailable (d : dict Z nat) (s : Pools) : Pools :=
  {| objs := objs s; fresh_ref := fresh_ref s; available := available s; unavailable := d;
     paused := paused s; encode_pool := encode_pool s; prefill_pool := prefill_pool s;
     decode_pool := decode_pool s; hybrid_pool := hybrid_pool s;
     endpoint_id_cache := endpoint_id_cache s; is_mgmt := is_mgmt s; kv_log := kv_log s |}.
Definition set_paused (d : dict Z nat) (s : Pools) : Pools :=
  {| objs := objs s; fresh_ref := fresh_ref s; available := available s; unavailable := unavailable s;
     paused := d; encode_pool := encode_pool s; prefill_pool := prefill_pool s;
     decode_pool := decode_pool s; hybrid_pool := hybrid_pool s;
     endpoint_id_cache := endpoint_id_cache s; is_mgmt := is_mgmt s; kv_log := kv_log s |}.
Definition set_cache (c : dict Z (dict Z (nat * ep_path))) (s : Pools) : Pools :=
  {| objs := objs s; fresh_ref := fresh_ref s; available := available s; unavailable := unavailable s;
     paused := paused s; encode_pool := encode_pool s; prefill_pool := prefill_pool s;
     decode_pool := decode_pool s; hybrid_pool := hybrid_pool s;
     endpoint_id_cache := c; is_mgmt := is_mgmt s; kv_log := kv_log s |}.
Definition log_kv (e : bool * list nat) (s : Pools) : Pools :=
  {| objs := objs s; fresh_ref := fresh_ref s; available := available s; unavailable := unavailable s;
     paused := paused s; encode_pool := encode_pool s; prefill_pool := prefill_pool s;
     decode_pool := decode_pool s; hybrid_pool := hybrid_pool s;
     endpoint_id_cache := endpoint_id_cache s; is_mgmt := is_mgmt s; kv_log := kv_log s ++ [e] |}.

(** [_available_role_pools[role]], and the assignment to it. *)
Definition role_pool (r : PDRole) (s : Pools) : dict Z nat :=
  match r with
  | ROLE_E => encode_pool s | ROLE_P => prefill_pool s | ROLE_D => decode_pool s | ROLE_U => hybrid_pool s
  end.
Definition set_role_pool (r : PDRole) (d : dict Z nat) (s : Pools) : Pools :=
  {| objs := objs s; fresh_ref := fresh_ref s; available := available s; unavailable := unavailable s;
     paused := paused s;
     encode_pool := match r with ROLE_E => d | _ => encode_pool s end;
     prefill_pool := match r with ROLE_P => d | _ => prefill_pool s end;
     decode_pool := match r with ROLE_D => d | _ => decode_pool s end;
     hybrid_pool := match r with ROLE_U => d | _ => hybrid_pool s end;
     endpoint_id_cache := endpoint_id_cache s; is_mgmt := is_mgmt s; kv_log := kv_log s |}.

(** The object behind a reference; references of the model are never
    dangling. *)
Definition dummy_instance : Instance_ := Instance_new "" "" None [] 0 "" false.
Definition obj (s : Pools) (r : nat) : Instance_ := default dummy_instance (objs s !! r).
Definition set_obj (r : nat) (i : Instance_) (s : Pools) : Pools := set_objs (<[r := i]> (objs s)) s.

(** ** Role pools *)

Definition role_to_pdrole (role : string) : option PDRole := PDRole_of_value role.

(** The endpoint index of an instance: endpoint id to endpoint object, in the
    order of the table, the last one winning. *)
Definition endpoint_cache (r : nat) (i : Instance_) : dict Z (nat * ep_path) :=
  foldl (fun acc '(pod_ip, eps) =>
           foldl (fun acc '(k, ep) => dset (ep_id ep) (r, (pod_ip, k)) acc) acc eps)
    [] (endpoints i).

Definition add_instance_to_available_pool (r : nat) : ST Pools PyError bool := fun s =>
  let i := obj s r in
  match role_to_pdrole (ins_role i) with
  | None => (Raise ValueError_, s)
  | Some role =>
      if dmem (ins_id i) (role_pool role s) then (Ret false, s)
      else
        let s := set_role_pool role (dset (ins_id i) r (role_pool role s)) s in
        let s := set_available (dset (ins_id i) r (available s)) s in
        (Ret true, set_cache (dset (ins_id i) (endpoint_cache r i) (endpoint_id_cache s)) s)
  end.

(** [_find_available_pool] followed by the deletions; [pop] of an absent key of
    the index is silent. *)
Definition delete_instance_from_available_pool (id : Z) : ST Pools PyError bool := fun s =>
  match dget id (available s) with
  | None => (Ret false, s)
  | Some r =>
      match role_to_pdrole (ins_role (obj s r)) with
      | None => (Raise ValueError_, s)
      | Some role =>
          if dmem id (role_pool role s) then
            let s := set_role_pool role (ddel id (role_pool role s)) s in
            let s := set_available (ddel id (available s)) s in
            (Ret true, set_cache (ddel id (endpoint_id_cache s)) s)
          else (Raise KeyError_, s)
      end
  end.

(** ** Queries *)

(** [{**a, **b, ...}] *)
Definition dupdate (a b : dict Z nat) : dict Z nat := foldl (fun d '(k, v) => dset k v d) a b.

Definition get_available_instances (role : option PDRole) (s : Pools) : dict Z nat :=
  match role with
  | None => dupdate (dupdate (dupdate (dupdate [] (encode_pool s)) (prefill_pool s)) (decode_pool s)) (hybrid_pool s)
  | Some r => role_pool r s
  end.

Definition get_all_instances (s : Pools) : dict Z nat * dict Z nat := (available s, unavailable s).

Definition has_instance_endpoint (id ep : Z) (s : Pools) : bool :=
  match dget id (available s) with
  | None => false
  | Some r =>
      match dget id (endpoint_id_cache s) with
      | Some c => dmem ep c
      | None => existsb (fun '(_, eps) => existsb (fun '(_, e) => ep_id e =? ep) eps) (endpoints (obj s r))
      end
  end.

Definition stop (s : Pools) : Pools :=
  {| objs := objs s; fresh_ref := fresh_ref s; available := []; unavailable := []; paused := [];
     encode_pool := []; prefill_pool := []; decode_pool := []; hybrid_pool := [];
     endpoint_id_cache := []; is_mgmt := is_mgmt s; kv_log := kv_log s |}.

(** ** Workload *)

Definition f0 : pyfloat := SpecFloat.S754_zero false.

Definition clamp_workload_floor (w : Workload) : Workload * bool :=
  if fltb (active_tokens w) f0 then ({| active_tokens := f0 |}, true) else (w, false).

(** [instance.endpoints[pod][k].workload = ...] *)
Definition ep_update (p : ep_path) (f : Endpoint -> Endpoint) (i : Instance_) : Instance_ :=
  match dget p.1 (endpoints i) with
  | Some eps =>
      match dget p.2 eps with
      | Some e => ins_set_endpoints (dset p.1 (dset p.2 (f e) eps) (endpoints i)) i
      | None => i
      end
  | None => i
  end.

Definition clamp_ep (e : Endpoint) : Endpoint := ep_set_workload (clamp_workload_floor (workload e)).1 e.

(** The sum of the ledgers, in the order of the table. *)
Definition sum_tokens (l : list Endpoint) : pyfloat := foldl (fun acc e => fadd acc (active_tokens (workload e))) f0 l.

Definition rebuild_instance_workload (i : Instance_) : Instance_ * bool :=
  let floored := existsb (fun e => (clamp_workload_floor (workload e)).2) (all_eps i) in
  let i := ins_set_endpoints (dmap (dmap clamp_ep) (endpoints i)) i in
  (ins_set_gathered {| active_tokens := sum_tokens (all_eps i) |} i, floored).

(** The endpoint index of an available instance, built on first use. *)
Definition ensure_cache (id : Z) (r : nat) (s : Pools) : dict Z (nat * ep_path) * Pools :=
  match dget id (endpoint_id_cache s) with
  | Some c => (c, s)
  | None => let c := endpoint_cache r (obj s r) in (c, set_cache (dset id c (endpoint_id_cache s)) s)
  end.

(** [_role_to_pdrole(instance.role) if instance.role else PDRole.ROLE_U] *)
Definition role_or_union (role : string) : option PDRole :=
  if decide (role = EmptyString) then Some ROLE_U else role_to_pdrole role.

Definition update_instance_workload_sync (id ep : Z) (change : Workload)
    : ST Pools PyError (option (PDRole * Workload)) := fun s =>
  match dget id (available s) with
  | None => (Ret None, s)
  | Some r =>
      let '(c, s) := ensure_cache id r s in
      match dget ep c with
      | None => (Ret None, s)
      | Some (er, p) =>
          match resolve (obj s er) p with
          | None => (Ret None, s)
          | Some e =>
              let '(w, clamped) := clamp_workload_floor (Workload_iadd (workload e) change) in
              let s := set_obj er (ep_update p (ep_set_workload w) (obj s er)) s in
              let s := set_obj r (if clamped then (rebuild_instance_workload (obj s r)).1
                                  else ins_set_gathered (Workload_iadd (gathered_workload (obj s r)) change) (obj s r)) s in
              match role_or_union (ins_role (obj s r)) with
              | None => (Raise ValueError_, s)
              | Some role => (Ret (Some (role, w)), s)
              end
          end
      end
  end.

Definition get_endpoint_workload_sync (id ep : Z) : ST Pools PyError (option (PDRole * Workload)) := fun s =>
  match dget id (available s) with
  | None => (Ret None, s)
  | Some r =>
      let '(c, s) := ensure_cache id r s in
      match dget ep c with
      | None => (Ret None, s)
      | Some (er, p) =>
          match resolve (obj s er) p with
          | None => (Ret None, s)
          | Some e =>
              match role_or_union (ins_role (obj s r)) with
              | None => (Raise ValueError_, s)
              | Some role => (Ret (Some (role, workload e)), s)
              end
          end
      end
  end.

(** ** Moving single instances *)

Definition delete_unavailable_instance (id : Z) (s : Pools) : Pools :=
  if dmem id (unavailable s) then set_unavailable (ddel id (unavailable s)) s else s.

Definition update_instance_state (id : Z) (mode : UpdateInstanceMode) : ST Pools PyError unit := fun s =>
  match mode with
  | AVAILABLE =>
      match dget id (unavailable s) with
      | None => (Ret tt, s)
      | Some r =>
          let s := set_unavailable (ddel id (unavailable s)) s in
          match add_instance_to_available_pool r s with
          | (Ret _, s) => (Ret tt, s)
          | (Raise e, s) => (Raise e, s)
          end
      end
  | UNAVAILABLE =>
      match dget id (available s) with
      | None => (Ret tt, s)
      | Some r =>
          match delete_instance_from_available_pool id s with
          | (Ret true, s) => (Ret tt, set_unavailable (dset id r (unavailable s)) s)
          | (Ret false, s) => (Ret tt, s)
          | (Raise e, s) => (Raise e, s)
          end
      end
  end.

(** ** Refreshing from the controller's events *)

Definition register_kv_instance (refs : list nat) (is_register : bool) (s : Pools) : Pools :=
  if is_mgmt s then log_kv (is_register, refs) s else s.

Definition find_instance_by_job_name (job : string) (s : Pools) : option nat :=
  head (base.filter (fun r => job_name (obj s r) = job)
          (dvalues (available s) ++ dvalues (unavailable s) ++ dvalues (paused s))).

Definition remove_instance_from_all_pools (id : Z) : ST Pools PyError bool := fun s =>
  if dmem id (available s) then delete_instance_from_available_pool id s
  else if dmem id (unavailable s) then (Ret true, set_unavailable (ddel id (unavailable s)) s)
  else if dmem id (paused s) then (Ret true, set_paused (ddel id (paused s)) s)
  else (Ret false, s).

(** [instance.gathered_workload = Workload()] and the same for its
    endpoints. *)
Definition reset_workload (i : Instance_) : Instance_ :=
  ins_set_gathered Workload_default (ins_set_endpoints (dmap (dmap (ep_set_workload Workload_default)) (endpoints i)) i).

(** One iteration of [_add_instances]; the accumulator holds [modified], the
    added and the replaced instances. *)
Definition add_one (acc : bool * list nat * list nat) (r : nat) : ST Pools PyError (bool * list nat * list nat) :=
  let '(modified, instances_tmp, replaced) := acc in
  s ← st_get;
  if dmem (ins_id (obj s r)) (unavailable s) then mret acc
  else
    let existing := find_instance_by_job_name (job_name (obj s r)) s in
    replaced ←
      match existing with
      | Some e =>
          if decide (ins_id (obj s e) = ins_id (obj s r)) then mret replaced
          else _ ← remove_instance_from_all_pools (ins_id (obj s e)); mret (replaced ++ [e])
      | None => mret replaced
      end;
    added ← add_instance_to_available_pool r;
    if added : bool then
      _ ← st_modify (fun s => set_obj r (reset_workload (obj s r)) s);
      mret (true, instances_tmp ++ [r], replaced)
    else mret (modified, instances_tmp, replaced).

Definition add_instances (refs : list nat) : ST Pools PyError bool :=
  acc ← st_fold add_one (false, [], []) refs;
  let '(modified, instances_tmp, replaced) := acc in
  _ ← st_modify (register_kv_instance instances_tmp true);
  _ ← st_modify (register_kv_instance replaced false);
  mret modified.

Definition delete_one (modified : bool) (r : nat) : ST Pools PyError bool :=
  s ← st_get;
  let id := ins_id (obj s r) in
  if dmem id (unavailable s) then _ ← st_modify (fun s => set_unavailable (ddel id (unavailable s)) s); mret true
  else if dmem id (paused s) then _ ← st_modify (fun s => set_paused (ddel id (paused s)) s); mret true
  else
    deleted ← delete_instance_from_available_pool id;
    mret (if deleted : bool then true else modified).

Definition delete_instances (refs : list nat) : ST Pools PyError bool := st_fold delete_one false refs.

(** Structural comparison of SET. *)
Definition ep_sig (i : Instance_) : list (string * Z * string * string * string) :=
  concat (map (fun '(pod_ip, eps) =>
                 map (fun '(_, e) => (pod_ip, ep_id e, ep_ip e, business_port e, mgmt_port e)) eps) (endpoints i)).

Definition instance_needs_update (existing new : Instance_) : bool :=
  negb (bool_decide (job_name existing = job_name new) && bool_decide (model_name existing = model_name new) &&
        bool_decide (engine_type existing = engine_type new) &&
        bool_decide (dispatch_capabilities existing = dispatch_capabilities new) &&
        bool_decide (ins_role existing = ins_role new) &&
        bool_decide (parallel_config existing = parallel_config new) &&
        bool_decide (enable_multi_endpoints existing = enable_multi_endpoints new) &&
        bool_decide (node_managers existing = node_managers new) &&
        forallb (fun x => bool_decide (x ∈ ep_sig new)) (ep_sig existing) &&
        forallb (fun x => bool_decide (x ∈ ep_sig existing)) (ep_sig new)).

(** [available.get(id) or unavailable.get(id) or paused.get(id)] *)
Definition find_any (id : Z) (s : Pools) : option nat :=
  match dget id (available s) with
  | Some r => Some r
  | None => match dget id (unavailable s) with Some r => Some r | None => dget id (paused s) end
  end.

Section SetDiff.
(** The order in which Python iterates over a set of integers. *)
Context (set_order : list Z -> list Z).

Definition compute_set_diff (refs : list nat) (s : Pools) : list nat * list nat :=
  let current_ids := remove_dups (dkeys (available s) ++ dkeys (unavailable s) ++ dkeys (paused s)) in
  let new_by_id : dict Z nat := foldl (fun d r => dset (ins_id (obj s r)) r d) [] refs in
  let new_ids := dkeys new_by_id in
  let changed id :=
    match find_any id s, dget id new_by_id with
    | Some e, Some r => negb (dmem id (available s)) || instance_needs_update (obj s e) (obj s r)
    | _, _ => false
    end in
  let updated := base.filter (fun id => id ∈ new_ids /\ changed id = true) current_ids in
  let to_remove_ids := base.filter (fun id => id ∉ new_ids) current_ids ++ updated in
  let to_add_ids := base.filter (fun id => id ∉ current_ids) new_ids ++ updated in
  (omap (fun id => dget id new_by_id) (set_order to_add_ids),
   omap (fun id => find_any id s) (set_order to_remove_ids)).

Definition apply_set_diff (refs : list nat) : ST Pools PyError bool :=
  s ← st_get;
  let '(to_add, to_remove) := compute_set_diff refs s in
  match to_add, to_remove with
  | [], [] => mret false
  | _, _ =>
      _ ← (match to_remove with [] => mret false | _ => delete_instances to_remove end);
      _ ← (match to_add with [] => mret false | _ => add_instances to_add end);
      mret true
  end.

Definition pause_one (modified : bool) (r : nat) : ST Pools PyError bool :=
  s ← st_get;
  let id := ins_id (obj s r) in
  if dmem id (paused s) then mret modified
  else if dmem id (available s) then
    deleted ← delete_instance_from_available_pool id;
    if deleted : bool then _ ← st_modify (fun s => set_paused (dset id r (paused s)) s); mret true
    else mret modified
  else mret modified.

Definition pause_instances (refs : list nat) : ST Pools PyError bool := st_fold pause_one false refs.

Definition resume_one (modified : bool) (r : nat) : ST Pools PyError bool :=
  s ← st_get;
  let id := ins_id (obj s r) in
  if dmem id (paused s) then
    _ ← st_modify (fun s => set_paused (ddel id (paused s)) s);
    added ← add_instance_to_available_pool r;
    mret (if added : bool then true else modified)
  else mret modified.

Definition resume_instances (refs : list nat) : ST Pools PyError bool := st_fold resume_one false refs.

(** The instances of an event become objects of the process. *)
Fixpoint intake (l : list Instance_) (s : Pools) : list nat * Pools :=
  match l with
  | [] => ([], s)
  | i :: l =>
      let r := fresh_ref s in
      let '(rs, s) := intake l (set_fresh (S r) (set_obj r i s)) in
      (r :: rs, s)
  end.

Definition refresh_instances (event : EventType) (instances : list Instance_) : ST Pools PyError bool := fun s =>
  let '(refs, s) := intake instances s in
  match event with
  | ADD => add_instances refs s
  | DEL => (result ← delete_instances refs; _ ← st_modify (register_kv_instance refs false); mret result) s
  | SET => apply_set_diff refs s
  | PAUSE => pause_instances refs s
  | RESUME => resume_instances refs s
  end.
End SetDiff.

(** ** Readiness *)
Inductive InstanceReadiness :=
  | REQUIRED_MET_EPD | ENCODE_PREFILL | REQUIRED_MET | ONLY_PREFILL | ONLY_DECODE | ONLY_ENCODE | NONE | UNKNOWN.
#[export] Instance InstanceReadiness_eq_dec : EqDecision InstanceReadiness.
Proof. solve_decision. Defined.

Definition is_ready (r : InstanceReadiness) : bool :=
  match r with REQUIRED_MET | REQUIRED_MET_EPD => true | _ => false end.
Definition is_run (r : InstanceReadiness) : bool :=
  is_ready r || match r with ONLY_PREFILL | ENCODE_PREFILL => true | _ => false end.

Definition readiness_from_instances (l : list Instance_) : InstanceReadiness :=
  let has (vs : list string) := existsb (fun i => bool_decide (ins_role i ∈ vs)) l in
  let encode := has ["encode"%string] in
  let prefill := has ["prefill"%string] in
  let decode := has ["decode"%string] in
  let union := has ["union"; "both"; "hybrid"]%string in
  if prefill && decode then (if encode then REQUIRED_MET_EPD else REQUIRED_MET)
  else if union then REQUIRED_MET
  else if encode && prefill then ENCODE_PREFILL
  else if prefill then ONLY_PREFILL
  else if decode then ONLY_DECODE
  else if encode then ONLY_ENCODE
  else NONE.

Definition get_required_instances_status (s : Pools) : InstanceReadiness :=
  readiness_from_instances (obj s <$> (dvalues (encode_pool s) ++ dvalues (prefill_pool s) ++
                                       dvalues (decode_pool s) ++ dvalues (hybrid_pool s))).
Definition has_required_instances (s : Pools) : bool := is_run (get_required_instances_status s).

(** ** Invariant of the pools *)

Definition in_pool (id : Z) (d : dict Z nat) : Prop := is_Some (dget id d).

Record pools_ok (s : Pools) : Prop := {
  po_wf_a : dict_wf (available s);
  po_wf_u : dict_wf (unavailable s);
  po_wf_p : dict_wf (paused s);
  po_wf_r : forall role, dict_wf (role_pool role s);
  po_avail : forall id r, dget id (available s) = Some r ->
    ins_id (obj s r) = id /\
    exists role, role_to_pdrole (ins_role (obj s r)) = Some role /\ dget id (role_pool role s) = Some r;
  po_role : forall role id r, dget id (role_pool role s) = Some r ->
    dget id (available s) = Some r /\ role_to_pdrole (ins_role (obj s r)) = Some role;
  po_unavail : forall id r, dget id (unavailable s) = Some r -> ins_id (obj s r) = id;
  po_paused : forall id r, dget id (paused s) = Some r -> ins_id (obj s r) = id;
  po_disj_u : forall id, in_pool id (available s) -> ~ in_pool id (unavailable s);
  po_disj_p : forall id, in_pool id (available s) -> ~ in_pool id (paused s);
  po_disj_up : forall id, in_pool id (unavailable s) -> ~ in_pool id (paused s);
  po_wf_c : dict_wf (endpoint_id_cache s);
  po_cache : forall id c, dget id (endpoint_id_cache s) = Some c ->
    exists r, dget id (available s) = Some r /\ c = endpoint_cache r (obj s r) }.

Lemma role_pool_set r d s r' : role_pool r' (set_role_pool r d s) = if decide (r = r') then d else role_pool r' s.
Proof. by destruct r, r'. Qed.

Lemma in_pool_dmem id (d : dict Z nat) : dmem id d = true <-> in_pool id d.
Proof.
  unfold dmem, in_pool. destruct (dget id d); [|naive_solver]. split; [by eexists|done].
Qed.

Lemma dget_ddel (id id' : Z) (d : dict Z nat) : dict_wf d ->
  dget id' (ddel id d) = if decide (id = id') then None else dget id' d.
Proof. intros Hwf. case_decide; [subst; by apply dget_ddel_eq|by apply dget_ddel_ne]. Qed.

Lemma in_pool_ddel id id' d : dict_wf d -> in_pool id' (ddel id d) <-> id <> id' /\ in_pool id' d.
Proof.
  intros Hwf. unfold in_pool. rewrite dget_ddel by done. case_decide; [|tauto].
  split; [by intros []|by intros []].
Qed.

Lemma in_pool_dset id r id' d : in_pool id' (dset id r d) <-> id = id' \/ in_pool id' d.
Proof.
  unfold in_pool. rewrite dget_dset. case_decide as H; [|tauto]. split; [by left|by eexists].
Qed.

(** What an operation on the available pool leaves alone. *)
Record rest_same (s s' : Pools) : Prop := {
  rs_objs : objs s' = objs s;
  rs_fresh : fresh_ref s' = fresh_ref s;
  rs_unavail : unavailable s' = unavailable s;
  rs_paused : paused s' = paused s;
  rs_mgmt : is_mgmt s' = is_mgmt s }.

Lemma delete_available_spec id s : pools_ok s ->
  match dget id (available s) with
  | None => delete_instance_from_available_pool id s = (Ret false, s)
  | Some _ => exists s', delete_instance_from_available_pool id s = (Ret true, s') /\ pools_ok s' /\
                rest_same s s' /\ available s' = ddel id (available s)
  end.
Proof.
  intros Hok. unfold delete_instance_from_available_pool. destruct (dget id (available s)) as [r|] eqn:Er; [|done].
  destruct (po_avail s Hok id r Er) as (Hid & role & Hrole & Hrp). rewrite Hrole.
  assert (Hm : dmem id (role_pool role s) = true) by (apply in_pool_dmem; by eexists).
  rewrite Hm. eexists. split; [done|]. split; [|split; [by split|done]].
  destruct Hok as [Wa Wu Wp Wr Ha Hr Hu Hp Du Dp Dup Wc Hc]. split; try done; cbn [available set_cache set_available].
  - by apply ddel_wf.
  - intros role'. change (dict_wf (role_pool role' (set_role_pool role (ddel id (role_pool role s)) s))).
    rewrite role_pool_set. case_decide; [by apply ddel_wf|done].
  - intros id' r'. rewrite dget_ddel by done. case_decide as Hd; [done|]. intros Hg.
    destruct (Ha id' r' Hg) as (Hid' & role' & Hrole' & Hrp'). split; [done|]. exists role'. split; [done|].
    change (dget id' (role_pool role' (set_role_pool role (ddel id (role_pool role s)) s)) = Some r').
    rewrite role_pool_set. case_decide; [subst role'|done]. rewrite dget_ddel by done. by rewrite decide_False.
  - intros role' id' r'.
    change (dget id' (role_pool role' (set_role_pool role (ddel id (role_pool role s)) s)) = Some r' ->
            dget id' (ddel id (available s)) = Some r' /\ role_to_pdrole (ins_role (obj s r')) = Some role').
    rewrite role_pool_set. intros Hg.
    assert (Hg' : dget id' (role_pool role' s) = Some r' /\ id <> id').
    { case_decide; [subst role'; rewrite dget_ddel in Hg by done; by case_decide|]. split; [done|].
      intros <-. destruct (Hr _ _ _ Hg) as [Hg1 Hg2]. congruence. }
    destruct Hg' as [Hg' Hne]. destruct (Hr _ _ _ Hg'). rewrite dget_ddel by done. by rewrite decide_False.
  - intros id' [_ Hin]%in_pool_ddel; [by apply Du|done].
  - intros id' [_ Hin]%in_pool_ddel; [by apply Dp|done].
  - by apply ddel_wf.
  - intros id' c. cbn [endpoint_id_cache set_cache]. destruct (decide (id = id')) as [<-|Hne].
    { cbn. by rewrite dget_ddel_eq. }
    cbn. rewrite dget_ddel_ne by done. intros (r' & Hg & ->)%Hc. exists r'. split; [|done].
    by rewrite dget_ddel_ne.
Qed.

Lemma add_available_spec r s : pools_ok s ->
  ~ in_pool (ins_id (obj s r)) (available s) -> ~ in_pool (ins_id (obj s r)) (unavailable s) ->
  ~ in_pool (ins_id (obj s r)) (paused s) ->
  match role_to_pdrole (ins_role (obj s r)) with
  | None => add_instance_to_available_pool r s = (Raise ValueError_, s)
  | Some _ => exists s', add_instance_to_available_pool r s = (Ret true, s') /\ pools_ok s' /\
                rest_same s s' /\ available s' = dset (ins_id (obj s r)) r (available s)
  end.
Proof.
  intros Hok Hna Hnu Hnp. unfold add_instance_to_available_pool.
  destruct (role_to_pdrole (ins_role (obj s r))) as [role|] eqn:Hrole; [|done].
  set (id := ins_id (obj s r)) in *.
  assert (Hnr : forall role', dget id (role_pool role' s) = None).
  { intros role'. destruct (dget id (role_pool role' s)) eqn:E; [|done].
    apply (po_role s Hok) in E as [E _]. destruct Hna. by eexists. }
  assert (Hm : dmem id (role_pool role s) = false).
  { apply not_true_is_false. rewrite in_pool_dmem. unfold in_pool. rewrite Hnr. by intros []. }
  rewrite Hm. eexists. split; [done|]. split; [|split; [by split|done]].
  destruct Hok as [Wa Wu Wp Wr Ha Hr Hu Hp Du Dp Dup Wc Hc]. split; try done; cbn [available set_cache set_available].
  - by apply dset_wf.
  - intros role'. change (dict_wf (role_pool role' (set_role_pool role (dset id r (role_pool role s)) s))).
    rewrite role_pool_set. case_decide; [by apply dset_wf|done].
  - intros id' r'.
    change (dget id' (dset id r (available s)) = Some r' -> ins_id (obj s r') = id' /\
      exists role', role_to_pdrole (ins_role (obj s r')) = Some role' /\
        dget id' (role_pool role' (set_role_pool role (dset id r (role_pool role s)) s)) = Some r').
    setoid_rewrite role_pool_set. rewrite dget_dset. case_decide as Hd.
    + subst id'. intros [= <-]. split; [done|]. exists role. rewrite decide_True by done. by rewrite dget_dset_eq.
    + intros Hg. destruct (Ha id' r' Hg) as (Hid' & role' & Hrole' & Hrp'). split; [done|]. exists role'.
      split; [done|]. case_decide; [subst role'; by rewrite dget_dset_ne|done].
  - intros role' id' r'.
    change (dget id' (role_pool role' (set_role_pool role (dset id r (role_pool role s)) s)) = Some r' ->
            dget id' (dset id r (available s)) = Some r' /\ role_to_pdrole (ins_role (obj s r')) = Some role').
    rewrite role_pool_set, dget_dset. destruct (decide (id = id')) as [<-|Hne].
    + destruct (decide (role = role')) as [<-|]; [|by rewrite Hnr]. rewrite dget_dset_eq.
      by intros [= <-].
    + intros Hg. apply Hr. case_decide; [subst role'; by rewrite dget_dset_ne in Hg|done].
  - intros id' [<-|Hin]%in_pool_dset; [done|by apply Du].
  - intros id' [<-|Hin]%in_pool_dset; [done|by apply Dp].
  - by apply dset_wf.
  - intros id' c. cbn [endpoint_id_cache set_cache]. rewrite !dget_dset. case_decide as Hd.
    + intros [= <-]. by exists r.
    + intros (r' & Hg & ->)%Hc. by exists r'.
Qed.

(** *** Removing an instance, wherever it is *)

Record removed (id : Z) (s s' : Pools) : Prop := {
  rm_objs : objs s' = objs s;
  rm_fresh : fresh_ref s' = fresh_ref s;
  rm_mgmt : is_mgmt s' = is_mgmt s;
  rm_avail : forall id', dget id' (available s') = if decide (id = id') then None else dget id' (available s);
  rm_unavail : forall id', dget id' (unavailable s') = if decide (id = id') then None else dget id' (unavailable s);
  rm_paused : forall id', dget id' (paused s') = if decide (id = id') then None else dget id' (paused s) }.

Lemma if_not_in {A} id (d : dict Z A) id' : dget id d = None ->
  dget id' d = if decide (id = id') then None else dget id' d.
Proof. case_decide; by subst. Qed.

Lemma not_in_pool id d : ~ in_pool id d <-> dget id d = None.
Proof. unfold in_pool. by rewrite <- eq_None_not_Some. Qed.

Lemma delete_unavailable_ok id s : pools_ok s -> pools_ok (set_unavailable (ddel id (unavailable s)) s).
Proof.
  intros [Wa Wu Wp Wr Ha Hr Hu Hp Du Dp Dup Wc Hc]. split; try done; cbn.
  - by apply ddel_wf.
  - intros id' r. rewrite dget_ddel by done. case_decide; [done|]. apply Hu.
  - intros id' H [_ H']%in_pool_ddel; [by apply (Du id')|done].
  - intros id' [_ H]%in_pool_ddel; [by apply Dup|done].
Qed.

Lemma delete_paused_ok id s : pools_ok s -> pools_ok (set_paused (ddel id (paused s)) s).
Proof.
  intros [Wa Wu Wp Wr Ha Hr Hu Hp Du Dp Dup Wc Hc]. split; try done; cbn.
  - by apply ddel_wf.
  - intros id' r. rewrite dget_ddel by done. case_decide; [done|]. apply Hp.
  - intros id' H [_ H']%in_pool_ddel; [by apply (Dp id')|done].
  - intros id' H [_ H']%in_pool_ddel; [by apply (Dup id')|done].
Qed.

(** The three deletions leave the same pools behind. *)
Lemma removed_available id s s' : pools_ok s -> in_pool id (available s) -> rest_same s s' ->
  available s' = ddel id (available s) -> removed id s s'.
Proof.
  intros Hok Hin [Ho Hf Hu Hp Hm] Ha. split; try done.
  - intros id'. rewrite Ha. by apply dget_ddel, Hok.
  - intros id'. rewrite Hu. apply if_not_in, not_in_pool. by apply (po_disj_u s Hok).
  - intros id'. rewrite Hp. apply if_not_in, not_in_pool. by apply (po_disj_p s Hok).
Qed.

Lemma removed_unavailable id s : pools_ok s -> in_pool id (unavailable s) ->
  removed id s (set_unavailable (ddel id (unavailable s)) s).
Proof.
  intros Hok Hin. split; try done; cbn.
  - intros id'. apply if_not_in, not_in_pool. intros H. by apply (po_disj_u s Hok) in H.
  - intros id'. by apply dget_ddel, Hok.
  - intros id'. apply if_not_in, not_in_pool. by apply (po_disj_up s Hok).
Qed.

Lemma removed_paused id s : pools_ok s -> in_pool id (paused s) ->
  removed id s (set_paused (ddel id (paused s)) s).
Proof.
  intros Hok Hin. split; try done; cbn.
  - intros id'. apply if_not_in, not_in_pool. intros H. by apply (po_disj_p s Hok) in H.
  - intros id'. apply if_not_in, not_in_pool. intros H. by apply (po_disj_up s Hok) in H.
  - intros id'. by apply dget_ddel, Hok.
Qed.

Definition present (id : Z) (s : Pools) : bool := bool_decide (is_Some (find_any id s)).

Lemma present_false id s : present id s = false ->
  dget id (available s) = None /\ dget id (unavailable s) = None /\ dget id (paused s) = None.
Proof.
  unfold present, find_any. rewrite bool_decide_eq_false, <- eq_None_not_Some.
  destruct (dget id (available s)), (dget id (unavailable s)); naive_solver.
Qed.

Lemma present_true id s : present id s = true <->
  in_pool id (available s) \/ in_pool id (unavailable s) \/ in_pool id (paused s).
Proof.
  unfold present, find_any, in_pool. rewrite bool_decide_eq_true.
  destruct (dget id (available s)), (dget id (unavailable s)), (dget id (paused s)); naive_solver.
Qed.

Lemma removed_absent id s : present id s = false -> removed id s s.
Proof. intros (H1 & H2 & H3)%present_false. split; try done; intros id'; by apply if_not_in. Qed.

Lemma remove_all_spec id s : pools_ok s -> exists s',
  remove_instance_from_all_pools id s = (Ret (present id s), s') /\ pools_ok s' /\ removed id s s'.
Proof.
  intros Hok. unfold remove_instance_from_all_pools.
  destruct (dmem id (available s)) eqn:Ea.
  { apply in_pool_dmem in Ea. assert (present id s = true) as -> by (apply present_true; by left).
    pose proof (delete_available_spec id s Hok) as H. destruct Ea as [r Er]. rewrite Er in H.
    destruct H as (s' & Heq & Hok' & Hrest & Hav). exists s'. split; [done|]. split; [done|].
    apply removed_available; [done|by eexists|done|done]. }
  destruct (dmem id (unavailable s)) eqn:Eu.
  { apply in_pool_dmem in Eu. assert (present id s = true) as -> by (apply present_true; tauto).
    eexists. split; [done|]. split; [by apply delete_unavailable_ok|by apply removed_unavailable]. }
  destruct (dmem id (paused s)) eqn:Ep.
  { apply in_pool_dmem in Ep. assert (present id s = true) as -> by (apply present_true; tauto).
    eexists. split; [done|]. split; [by apply delete_paused_ok|by apply removed_paused]. }
  assert (Hp : present id s = false).
  { apply not_true_is_false. rewrite present_true, <- !in_pool_dmem. naive_solver congruence. }
  rewrite Hp. exists s. split; [done|]. split; [done|by apply removed_absent].
Qed.

Lemma delete_one_spec modified r s : pools_ok s -> exists s',
  delete_one modified r s = (Ret (modified || present (ins_id (obj s r)) s), s') /\ pools_ok s' /\
  removed (ins_id (obj s r)) s s'.
Proof.
  intros Hok. unfold delete_one, mbind, ST_bind, st_get. cbn beta iota. set (id := ins_id (obj s r)).
  destruct (dmem id (unavailable s)) eqn:Eu.
  { apply in_pool_dmem in Eu. assert (present id s = true) as -> by (apply present_true; tauto).
    rewrite orb_true_r. eexists. split; [done|]. split; [by apply delete_unavailable_ok|by apply removed_unavailable]. }
  destruct (dmem id (paused s)) eqn:Ep.
  { apply in_pool_dmem in Ep. assert (present id s = true) as -> by (apply present_true; tauto).
    rewrite orb_true_r. eexists. split; [done|]. split; [by apply delete_paused_ok|by apply removed_paused]. }
  pose proof (delete_available_spec id s Hok) as H. destruct (dget id (available s)) as [r'|] eqn:Er.
  - destruct H as (s' & -> & Hok' & Hrest & Hav).
    assert (present id s = true) as -> by (apply present_true; left; by eexists).
    rewrite orb_true_r. exists s'. split; [done|]. split; [done|]. apply removed_available; [done|by eexists|done|done].
  - rewrite H. assert (Hp : present id s = false).
    { apply not_true_is_false. rewrite present_true, <- !in_pool_dmem. unfold in_pool, dmem in *.
      rewrite Er. intros [|[H'|H']]; [done|congruence|congruence]. }
    rewrite Hp, orb_false_r. exists s. split; [done|]. split; [done|by apply removed_absent].
Qed.

(** *** The whole invariant *)

(** References below the allocation mark, and one instance per job name. *)
Definition refs_ok (s : Pools) : Prop := forall id r, find_any id s = Some r -> (r < fresh_ref s)%nat.
Definition jobs_unique (s : Pools) : Prop := forall id id' r r',
  find_any id s = Some r -> find_any id' s = Some r' -> job_name (obj s r) = job_name (obj s r') -> id = id'.

Record pools_inv (s : Pools) : Prop := {
  pi_ok : pools_ok s;
  pi_refs : refs_ok s;
  pi_jobs : jobs_unique s }.

Lemma find_any_removed id s s' id' : removed id s s' ->
  find_any id' s' = if decide (id = id') then None else find_any id' s.
Proof.
  intros [_ _ _ Ha Hu Hp]. unfold find_any. rewrite Ha, Hu, Hp. by case_decide.
Qed.

Lemma obj_removed id s s' r : removed id s s' -> obj s' r = obj s r.
Proof. intros H. unfold obj. by rewrite (rm_objs id s s' H). Qed.

Lemma removed_inv id s s' : pools_inv s -> pools_ok s' -> removed id s s' -> pools_inv s'.
Proof.
  intros [Hok Hr Hj] Hok' Hrm. split; [done| |].
  - intros id' r. rewrite (find_any_removed _ _ _ _ Hrm), (rm_fresh _ _ _ Hrm). case_decide; [done|apply Hr].
  - intros id1 id2 r1 r2. rewrite !(find_any_removed _ _ _ _ Hrm), !(obj_removed _ _ _ _ Hrm).
    repeat case_decide; try done. apply Hj.
Qed.

Lemma find_any_id s id r : pools_ok s -> find_any id s = Some r -> ins_id (obj s r) = id.
Proof.
  intros Hok. unfold find_any. destruct (dget id (available s)) as [r1|] eqn:E1.
  { intros [= <-]. by apply (po_avail s Hok). }
  destruct (dget id (unavailable s)) as [r2|] eqn:E2; [intros [= <-]; by apply (po_unavail s Hok)|].
  by apply po_paused.
Qed.

(** Objects that agree on what the pools depend on. *)
Definition similar (i i' : Instance_) : Prop :=
  ins_id i' = ins_id i /\ ins_role i' = ins_role i /\ job_name i' = job_name i /\
  forall r, endpoint_cache r i' = endpoint_cache r i.

Lemma obj_set r i s r' : obj (set_obj r i s) r' = if decide (r = r') then i else obj s r'.
Proof.
  unfold obj, set_obj. cbn. destruct (decide (r = r')) as [<-|Hne];
    [by rewrite lookup_insert_eq|by rewrite lookup_insert_ne].
Qed.

Lemma set_obj_ok r i s : pools_ok s -> similar (obj s r) i -> pools_ok (set_obj r i s).
Proof.
  intros [Wa Wu Wp Wr Ha Hr Hu Hp Du Dp Dup Wc Hc] (Hi & Hro & Hjo & Hca).
  assert (H1 : forall r', ins_id (obj (set_obj r i s) r') = ins_id (obj s r'))
    by (intros r'; rewrite obj_set; case_decide; by subst).
  assert (H2 : forall r', ins_role (obj (set_obj r i s) r') = ins_role (obj s r'))
    by (intros r'; rewrite obj_set; case_decide; by subst).
  split; try done.
  - intros id r' Hg. rewrite H1, H2. by apply Ha.
  - intros role id r' Hg. rewrite H2. by apply Hr.
  - intros id r' Hg. rewrite H1. by apply Hu.
  - intros id r' Hg. rewrite H1. by apply Hp.
  - intros id c (r' & Hg & ->)%Hc. exists r'. split; [done|]. rewrite obj_set. case_decide; [subst; by rewrite Hca|done].
Qed.

Lemma set_obj_inv r i s : pools_inv s -> similar (obj s r) i -> pools_inv (set_obj r i s).
Proof.
  intros [Hok Hr Hj] Hs. split; [by apply set_obj_ok|done|].
  assert (H3 : forall r', job_name (obj (set_obj r i s) r') = job_name (obj s r')).
  { intros r'. rewrite obj_set. case_decide; [subst|done]. apply Hs. }
  intros id id' r1 r2. rewrite !H3. apply Hj.
Qed.

Lemma endpoint_cache_dmap (f : Endpoint -> Endpoint) r i i' : (forall e, ep_id (f e) = ep_id e) ->
  endpoints i' = dmap (dmap f) (endpoints i) -> endpoint_cache r i' = endpoint_cache r i.
Proof.
  intros Hf He. unfold endpoint_cache. rewrite He. clear He. generalize (@nil (Z * (nat * ep_path))).
  induction (endpoints i) as [|[pod eps] l IH]; intros acc; [done|]. cbn. rewrite <- IH. f_equal.
  clear IH. revert acc. induction eps as [|[k e] eps IH]; intros acc; [done|]. cbn. by rewrite Hf, IH.
Qed.

Lemma reset_similar i : similar i (reset_workload i).
Proof. repeat split. intros r. by apply (endpoint_cache_dmap (ep_set_workload Workload_default)). Qed.

(** *** Adding *)

Record added (r : nat) (s s' : Pools) : Prop := {
  ad_objs : objs s' = objs s;
  ad_fresh : fresh_ref s' = fresh_ref s;
  ad_avail : available s' = dset (ins_id (obj s r)) r (available s);
  ad_unavail : unavailable s' = unavailable s;
  ad_paused : paused s' = paused s }.

Lemma find_any_added r s s' id : added r s s' ->
  find_any id s' = if decide (ins_id (obj s r) = id) then Some r else find_any id s.
Proof.
  intros [_ _ Ha Hu Hp]. unfold find_any. rewrite Ha, Hu, Hp, dget_dset. by case_decide.
Qed.

Lemma added_inv r s s' : pools_inv s -> pools_ok s' -> added r s s' -> (r < fresh_ref s)%nat ->
  (forall id r', find_any id s = Some r' -> job_name (obj s r') <> job_name (obj s r)) -> pools_inv s'.
Proof.
  intros [Hok Hr Hj] Hok' Had Hlt Hnew. assert (Ho : forall x, obj s' x = obj s x).
  { intros x. unfold obj. by rewrite (ad_objs _ _ _ Had). }
  split; [done| |].
  - intros id r'. rewrite (find_any_added _ _ _ _ Had), (ad_fresh _ _ _ Had). case_decide; [by intros [= <-]|apply Hr].
  - intros id1 id2 r1 r2. rewrite !(find_any_added _ _ _ _ Had), !Ho. repeat case_decide; subst; try done.
    + intros [= <-] H2 Hj'. by destruct (Hnew _ _ H2).
    + intros H1 [= <-] Hj'. by destruct (Hnew _ _ H1).
    + apply Hj.
Qed.

Lemma find_job_None job s : find_instance_by_job_name job s = None ->
  forall id r, find_any id s = Some r -> job_name (obj s r) <> job.
Proof.
  unfold find_instance_by_job_name. intros H id r Hf Hj.
  assert (Hin : r ∈ base.filter (fun r => job_name (obj s r) = job)
            (dvalues (available s) ++ dvalues (unavailable s) ++ dvalues (paused s))).
  { apply list_elem_of_filter. split; [done|]. rewrite !elem_of_app, !elem_of_dvalues. unfold find_any in Hf.
    destruct (dget id (available s)) eqn:E1; [left; exists id; apply dget_elem; congruence|].
    destruct (dget id (unavailable s)) eqn:E2; [right; left; exists id; apply dget_elem; congruence|].
    right; right. exists id. by apply dget_elem. }
  destruct (base.filter _ _); [by apply not_elem_of_nil in Hin|done].
Qed.

Lemma find_job_Some job s r : pools_ok s -> find_instance_by_job_name job s = Some r ->
  job_name (obj s r) = job /\ find_any (ins_id (obj s r)) s = Some r.
Proof.
  unfold find_instance_by_job_name. intros Hok H.
  assert (Hin : r ∈ base.filter (fun r => job_name (obj s r) = job)
            (dvalues (available s) ++ dvalues (unavailable s) ++ dvalues (paused s))).
  { destruct (base.filter _ _); [done|]. injection H as ->. apply list_elem_of_here. }
  apply list_elem_of_filter in Hin as [Hj Hin]. split; [done|].
  rewrite !elem_of_app, !elem_of_dvalues in Hin. unfold find_any. destruct Hin as [[id Hin]|[[id Hin]|[id Hin]]].
  - apply elem_dget in Hin; [|apply Hok]. destruct (po_avail s Hok _ _ Hin) as [-> _]. by rewrite Hin.
  - apply elem_dget in Hin; [|apply Hok]. rewrite (po_unavail s Hok _ _ Hin).
    destruct (dget id (available s)) eqn:E; [|by rewrite Hin].
    destruct (po_disj_u s Hok id); [by eexists|by eexists].
  - apply elem_dget in Hin; [|apply Hok]. rewrite (po_paused s Hok _ _ Hin).
    destruct (dget id (available s)) eqn:E; [destruct (po_disj_p s Hok id); by eexists|].
    destruct (dget id (unavailable s)) eqn:E2; [destruct (po_disj_up s Hok id); by eexists|done].
Qed.

(** The guard of [_add_instances]: a stale instance of the same job goes. *)
Definition replace_stale (r : nat) (replaced : list nat) (s : Pools) : ST Pools PyError (list nat) :=
  match find_instance_by_job_name (job_name (obj s r)) s with
  | Some e =>
      if decide (ins_id (obj s e) = ins_id (obj s r)) then mret replaced
      else _ ← remove_instance_from_all_pools (ins_id (obj s e)); mret (replaced ++ [e])
  | None => mret replaced
  end.

Lemma replace_stale_spec r replaced s : pools_inv s -> exists replaced' s1,
  replace_stale r replaced s s = (Ret replaced', s1) /\ pools_inv s1 /\
  (s1 = s \/ exists e, e <> ins_id (obj s r) /\ removed e s s1) /\
  (forall id' r', find_any id' s1 = Some r' -> id' <> ins_id (obj s r) -> job_name (obj s r') <> job_name (obj s r)).
Proof.
  intros Hinv. pose proof (pi_ok s Hinv) as Hok. unfold replace_stale.
  destruct (find_instance_by_job_name (job_name (obj s r)) s) as [e|] eqn:Ef.
  - destruct (find_job_Some _ _ _ Hok Ef) as [Hj He]. case_decide as Hd.
    + exists replaced, s. split; [done|]. split; [done|]. split; [by left|]. intros id' r' Hf Hne Hjr.
      apply Hne. rewrite <- Hd. apply (pi_jobs s Hinv _ _ _ _ Hf He). congruence.
    + unfold mbind, ST_bind. destruct (remove_all_spec (ins_id (obj s e)) s Hok) as (s1 & -> & Hok1 & Hrm).
      eexists _, s1. split; [done|]. split; [by eapply removed_inv|]. split; [right; eauto|].
      intros id' r'. rewrite (find_any_removed _ _ _ _ Hrm). case_decide; [done|]. intros Hf Hne Hjr.
      assert (ins_id (obj s e) = id') by (apply (pi_jobs s Hinv _ _ _ _ He Hf); congruence). done.
  - exists replaced, s. split; [done|]. split; [done|]. split; [by left|]. intros id' r' Hf _.
    by eapply find_job_None.
Qed.

(** The event does not add an id that is paused or available in another
    role. *)
Definition add_pre (s : Pools) (r : nat) : Prop :=
  ~ in_pool (ins_id (obj s r)) (paused s) /\
  forall r', dget (ins_id (obj s r)) (available s) = Some r' ->
    role_to_pdrole (ins_role (obj s r')) = role_to_pdrole (ins_role (obj s r)).

(** How far one iteration reaches. *)
Record add_frame (r : nat) (s s' : Pools) : Prop := {
  af_fresh : fresh_ref s' = fresh_ref s;
  af_obj : forall x, similar (obj s x) (obj s' x);
  af_paused : forall id, in_pool id (paused s') -> in_pool id (paused s);
  af_avail : forall id r', dget id (available s') = Some r' ->
    dget id (available s) = Some r' \/ (r' = r /\ id = ins_id (obj s r)) }.

Lemma similar_refl i : similar i i.
Proof. done. Qed.

Lemma removed_frame id r s s' : removed id s s' -> add_frame r s s'.
Proof.
  intros H. pose proof H as [Ho Hf _ Ha _ Hp]. split; [done| | |].
  - intros x. by rewrite (obj_removed _ _ _ _ H).
  - intros id'. unfold in_pool. rewrite Hp. case_decide; [by intros []|done].
  - intros id' r'. rewrite Ha. case_decide; [done|]. by left.
Qed.

Lemma add_one_unfold acc r s : dmem (ins_id (obj s r)) (unavailable s) = false ->
  add_one acc r s =
  (replaced ← replace_stale r acc.2 s;
   added ← add_instance_to_available_pool r;
   if added : bool then
     _ ← st_modify (fun s => set_obj r (reset_workload (obj s r)) s);
     mret (true, acc.1.2 ++ [r], replaced)
   else mret (acc.1.1, acc.1.2, replaced)) s.
Proof.
  intros Hu. destruct acc as [[m tmp] rep]. unfold add_one, replace_stale, mbind, ST_bind, st_get. cbn.
  by rewrite Hu.
Qed.

Lemma add_one_ok acc r s : pools_inv s -> add_pre s r -> (r < fresh_ref s)%nat ->
  pools_inv (add_one acc r s).2 /\ add_frame r s (add_one acc r s).2.
Proof.
  intros Hinv [Hnp Hrole] Hlt.
  assert (Hrefl : add_frame r s s) by (split; auto using similar_refl).
  destruct (dmem (ins_id (obj s r)) (unavailable s)) eqn:Hu.
  { destruct acc as [[m tmp] rep]. unfold add_one, mbind, ST_bind, st_get. cbn. by rewrite Hu. }
  rewrite add_one_unfold by done. unfold mbind, ST_bind.
  destruct (replace_stale_spec r acc.2 s Hinv) as (rep & s1 & -> & Hinv1 & Hs1 & Hjob).
  assert (Hnu : ~ in_pool (ins_id (obj s r)) (unavailable s)) by (rewrite <- in_pool_dmem; by rewrite Hu).
  assert (Hf1 : add_frame r s s1) by (destruct Hs1 as [->|(e & _ & Hrm)]; [done|by eapply removed_frame]).
  assert (Hobj : forall x, obj s1 x = obj s x)
    by (destruct Hs1 as [->|(e & _ & Hrm)]; [done|intros x; by eapply obj_removed]).
  assert (Hsame : dget (ins_id (obj s r)) (available s1) = dget (ins_id (obj s r)) (available s) /\
                  ~ in_pool (ins_id (obj s r)) (unavailable s1) /\ ~ in_pool (ins_id (obj s r)) (paused s1)).
  { destruct Hs1 as [->|(e & Hne & Hrm)]; [done|]. unfold in_pool.
    rewrite (rm_avail _ _ _ Hrm), (rm_unavail _ _ _ Hrm), (rm_paused _ _ _ Hrm).
    by rewrite !(decide_False (P := e = _)). }
  destruct Hsame as (Ha1 & Hu1 & Hp1).
  destruct (dget (ins_id (obj s r)) (available s)) as [r'|] eqn:Er.
  - (* already available, in the same role *)
    destruct (po_avail s1 (pi_ok s1 Hinv1) _ _ Ha1) as (_ & role & Hr1 & Hr2).
    specialize (Hrole r' eq_refl). rewrite Hobj in Hr1. rewrite Hr1 in Hrole.
    assert (add_instance_to_available_pool r s1 = (Ret false, s1)) as ->; [|done].
    unfold add_instance_to_available_pool. rewrite Hobj, <- Hrole.
    assert (dmem (ins_id (obj s r)) (role_pool role s1) = true) as -> by (apply in_pool_dmem; by eexists).
    done.
  - pose proof (add_available_spec r s1 (pi_ok s1 Hinv1)) as H. rewrite Hobj in H.
    specialize (H ltac:(by apply not_in_pool) Hu1 Hp1).
    destruct (role_to_pdrole (ins_role (obj s r))) as [role|]; [|by rewrite H].
    destruct H as (s2 & -> & Hok2 & Hrest & Hav).
    assert (Had : added r s1 s2) by (destruct Hrest; split; try done; by rewrite Hobj).
    assert (Hinv2 : pools_inv s2).
    { apply (added_inv r s1 s2); [done|done|done|by rewrite (af_fresh _ _ _ Hf1)|].
      intros id' r' Hf. rewrite !Hobj. eapply Hjob; [done|]. intros ->.
      unfold find_any in Hf. rewrite Ha1 in Hf. unfold in_pool in Hu1, Hp1.
      destruct (dget (ins_id (obj s r)) (unavailable s1)); [by destruct Hu1|]. rewrite Hf in Hp1. by destruct Hp1. }
    assert (Hobj2 : forall x, obj s2 x = obj s x) by (intros x; unfold obj; rewrite (ad_objs _ _ _ Had); apply Hobj).
    unfold st_modify, mret, ST_ret. cbn [snd]. split; [apply set_obj_inv; [done|apply reset_similar]|].
    split.
    + cbn. by rewrite (ad_fresh _ _ _ Had), (af_fresh _ _ _ Hf1).
    + intros x. rewrite obj_set. case_decide; [subst; rewrite Hobj2; apply reset_similar|by rewrite Hobj2].
    + cbn. intros id. rewrite (ad_paused _ _ _ Had). apply (af_paused _ _ _ Hf1).
    + cbn. intros id r'. rewrite (ad_avail _ _ _ Had), dget_dset, Hobj. case_decide as Hd.
      * intros [= <-]. by right.
      * apply (af_avail _ _ _ Hf1).
Qed.

(** *** Loops over the instances of an event *)

(** The instances of one event that carry the same id agree. *)
Definition agree (s : Pools) (refs : list nat) : Prop := forall r1 r2, r1 ∈ refs -> r2 ∈ refs ->
  ins_id (obj s r1) = ins_id (obj s r2) ->
  ins_role (obj s r1) = ins_role (obj s r2) /\ job_name (obj s r1) = job_name (obj s r2).

Definition allocated (s : Pools) (refs : list nat) : Prop := forall r, r ∈ refs -> (r < fresh_ref s)%nat.

Lemma agree_similar s s' refs : (forall x, similar (obj s x) (obj s' x)) -> agree s refs -> agree s' refs.
Proof.
  intros H Ha r1 r2 H1 H2. destruct (H r1) as (-> & -> & -> & _), (H r2) as (-> & -> & -> & _). by apply Ha.
Qed.

Lemma add_pre_frame r x s s' : add_frame r s s' -> add_pre s x ->
  (ins_id (obj s r) = ins_id (obj s x) -> ins_role (obj s r) = ins_role (obj s x)) -> add_pre s' x.
Proof.
  intros [_ Ho Hp Ha] [Hn Hr] Hag. destruct (Ho x) as (Hx1 & Hx2 & _). split.
  - rewrite Hx1. intros H%Hp. done.
  - intros r' Hg. rewrite Hx1 in Hg. rewrite Hx2. destruct (Ho r') as (_ & -> & _).
    destruct (Ha _ _ Hg) as [Hg'|[-> Hid]]; [by apply Hr|]. by rewrite Hag.
Qed.

Lemma add_fold_ok refs : forall acc s, pools_inv s -> allocated s refs -> agree s refs ->
  (forall r, r ∈ refs -> add_pre s r) -> pools_inv (st_fold add_one acc refs s).2.
Proof.
  induction refs as [|r refs IH]; intros acc s Hinv Hal Hag Hpre; [done|]. cbn. unfold mbind, ST_bind.
  destruct (add_one_ok acc r s Hinv (Hpre r ltac:(apply list_elem_of_here)) (Hal r ltac:(apply list_elem_of_here)))
    as [Hinv' Hfr].
  destruct (add_one acc r s) as [[acc'|e] s']; cbn in *; [|done]. apply IH; [done| | |].
  - intros x Hx. rewrite (af_fresh _ _ _ Hfr). apply Hal. by apply list_elem_of_further.
  - apply (agree_similar s); [apply Hfr|]. intros r1 r2 H1 H2. apply Hag; by apply list_elem_of_further.
  - intros x Hx. apply (add_pre_frame r x s s' Hfr); [apply Hpre; by apply list_elem_of_further|].
    intros Hid. apply Hag; [apply list_elem_of_here|by apply list_elem_of_further|done].
Qed.

Lemma register_kv_inv refs b s : pools_inv s -> pools_inv (register_kv_instance refs b s).
Proof.
  unfold register_kv_instance. destruct (is_mgmt s); [|done]. intros [[] Hr Hj]. by split.
Qed.

Lemma add_instances_ok refs s : pools_inv s -> allocated s refs -> agree s refs ->
  (forall r, r ∈ refs -> add_pre s r) -> pools_inv (add_instances refs s).2.
Proof.
  intros Hinv Hal Hag Hpre. unfold add_instances, mbind, ST_bind.
  pose proof (add_fold_ok refs (false, [], []) s Hinv Hal Hag Hpre) as H.
  destruct (st_fold add_one (false, [], []) refs s) as [[[[m tmp] rep]|e] s']; [|done].
  cbn in *. by apply register_kv_inv, register_kv_inv.
Qed.

Lemma delete_instances_ok refs s : pools_inv s -> pools_inv (delete_instances refs s).2.
Proof.
  unfold delete_instances. apply st_preserves_fold. intros m r s' Hinv.
  destruct (delete_one_spec m r s' (pi_ok s' Hinv)) as (s2 & -> & Hok & Hrm). by eapply removed_inv.
Qed.

(** PAUSE and RESUME file the object of the event, which has to name the same
    job. *)
Definition keep_job (s : Pools) (r : nat) : Prop := forall r',
  find_any (ins_id (obj s r)) s = Some r' -> job_name (obj s r') = job_name (obj s r).

Record move_frame (r : nat) (s s' : Pools) : Prop := {
  mf_objs : objs s' = objs s;
  mf_fresh : fresh_ref s' = fresh_ref s;
  mf_find : forall id r', find_any id s' = Some r' ->
    find_any id s = Some r' \/ (r' = r /\ id = ins_id (obj s r)) }.

Lemma move_inv r s s' : pools_inv s -> pools_ok s' -> keep_job s r -> (r < fresh_ref s)%nat ->
  is_Some (find_any (ins_id (obj s r)) s) -> move_frame r s s' -> pools_inv s'.
Proof.
  intros [Hok Hr Hj] Hok' Hk Hlt [r0 Hr0] [Ho Hf Hfi].
  assert (Hobj : forall x, obj s' x = obj s x) by (intros x; unfold obj; by rewrite Ho).
  assert (Hlift : forall id r1, find_any id s' = Some r1 ->
            exists r2, find_any id s = Some r2 /\ job_name (obj s r2) = job_name (obj s r1)).
  { intros id r1 [H|[-> ->]]%Hfi; [by exists r1|]. exists r0. split; [done|]. by apply Hk. }
  split; [done| |].
  - intros id r1 [H|[-> _]]%Hfi; rewrite Hf; [by eapply Hr|done].
  - intros id id' r1 r2 H1 H2. rewrite !Hobj. intros Hjj.
    destruct (Hlift _ _ H1) as (x1 & Hx1 & E1), (Hlift _ _ H2) as (x2 & Hx2 & E2).
    apply (Hj _ _ _ _ Hx1 Hx2). congruence.
Qed.

Lemma set_paused_ok id r s : pools_ok s -> ins_id (obj s r) = id ->
  ~ in_pool id (available s) -> ~ in_pool id (unavailable s) -> pools_ok (set_paused (dset id r (paused s)) s).
Proof.
  intros [Wa Wu Wp Wr Ha Hr Hu Hp Du Dp Dup Wc Hc] Hid Hna Hnu. split; try done; cbn.
  - by apply dset_wf.
  - intros id' r'. rewrite dget_dset. case_decide; [subst; by intros [= <-]|apply Hp].
  - intros id' H [<-|H']%in_pool_dset; [done|by apply (Dp id')].
  - intros id' H [<-|H']%in_pool_dset; [done|by apply (Dup id')].
Qed.

Lemma set_unavailable_ok id r s : pools_ok s -> ins_id (obj s r) = id ->
  ~ in_pool id (available s) -> ~ in_pool id (paused s) -> pools_ok (set_unavailable (dset id r (unavailable s)) s).
Proof.
  intros [Wa Wu Wp Wr Ha Hr Hu Hp Du Dp Dup Wc Hc] Hid Hna Hnp. split; try done; cbn.
  - by apply dset_wf.
  - intros id' r'. rewrite dget_dset. case_decide; [subst; by intros [= <-]|apply Hu].
  - intros id' H [<-|H']%in_pool_dset; [done|by apply (Du id')].
  - intros id' [<-|H']%in_pool_dset; [done|by apply Dup].
Qed.

Lemma pause_one_ok m r s : pools_inv s -> keep_job s r -> (r < fresh_ref s)%nat ->
  pools_inv (pause_one m r s).2 /\ move_frame r s (pause_one m r s).2.
Proof.
  intros Hinv Hk Hlt. assert (Hrefl : move_frame r s s) by (split; auto).
  unfold pause_one, mbind, ST_bind, st_get. cbn beta iota. set (id := ins_id (obj s r)) in *.
  destruct (dmem id (paused s)) eqn:Ep; [done|]. destruct (dmem id (available s)) eqn:Ea; [|done].
  pose proof (pi_ok s Hinv) as Hok. apply in_pool_dmem in Ea as Hin. destruct Hin as [r0 Hr0].
  pose proof (delete_available_spec id s Hok) as H. rewrite Hr0 in H.
  destruct H as (s' & -> & Hok' & Hrest & Hav). unfold st_modify, mret, ST_ret. cbn [snd].
  pose proof (removed_available id s s' Hok ltac:(by eexists) Hrest Hav) as Hrm.
  assert (Hok2 : pools_ok (set_paused (dset id r (paused s')) s')).
  { apply set_paused_ok; [done|by rewrite (obj_removed _ _ _ _ Hrm)| |]; unfold in_pool.
    - rewrite (rm_avail _ _ _ Hrm), decide_True by done. by intros [].
    - rewrite (rm_unavail _ _ _ Hrm), decide_True by done. by intros []. }
  assert (Hmf : move_frame r s (set_paused (dset id r (paused s')) s')).
  { split; [apply (rm_objs _ _ _ Hrm)|apply (rm_fresh _ _ _ Hrm)|].
    intros id' r'. unfold find_any; cbn.
    rewrite (rm_avail _ _ _ Hrm), (rm_unavail _ _ _ Hrm), dget_dset, (rm_paused _ _ _ Hrm).
    case_decide; [intros [= <-]; by right|]. by left. }
  split; [|done]. apply (move_inv r s); try done. fold id. unfold find_any. rewrite Hr0. by eexists.
Qed.

Lemma resume_one_ok m r s : pools_inv s -> keep_job s r -> (r < fresh_ref s)%nat ->
  pools_inv (resume_one m r s).2 /\ move_frame r s (resume_one m r s).2.
Proof.
  intros Hinv Hk Hlt. assert (Hrefl : move_frame r s s) by (split; auto).
  unfold resume_one, mbind, ST_bind, st_get. cbn beta iota. set (id := ins_id (obj s r)) in *.
  destruct (dmem id (paused s)) eqn:Ep; [|done]. apply in_pool_dmem in Ep as Hin.
  pose proof (pi_ok s Hinv) as Hok. unfold st_modify. cbn beta iota.
  pose proof (removed_paused id s Hok Hin) as Hrm. pose proof (delete_paused_ok id s Hok) as Hok1.
  set (s1 := set_paused (ddel id (paused s)) s) in *.
  assert (Hsome : is_Some (find_any id s)).
  { unfold find_any. destruct (dget id (available s)); [by eexists|].
    destruct (dget id (unavailable s)); [by eexists|done]. }
  assert (Hm1 : move_frame r s s1).
  { split; [done|done|]. intros id' r'. rewrite (find_any_removed _ _ _ _ Hrm). case_decide; [done|by left]. }
  pose proof (add_available_spec r s1 Hok1) as H. change (obj s1 r) with (obj s r) in H. fold id in H.
  unfold in_pool in H. rewrite (rm_avail _ _ _ Hrm), (rm_unavail _ _ _ Hrm), (rm_paused _ _ _ Hrm) in H.
  rewrite !(decide_True (P := id = id)) in H by done.
  specialize (H ltac:(by intros []) ltac:(by intros []) ltac:(by intros [])).
  destruct (role_to_pdrole (ins_role (obj s r))) as [role|].
  - destruct H as (s2 & -> & Hok2 & Hrest & Hav). unfold mret, ST_ret. cbn [snd].
    assert (Had : added r s1 s2) by (destruct Hrest; by split).
    assert (Hm2 : move_frame r s s2).
    { split; [by rewrite (ad_objs _ _ _ Had)|by rewrite (ad_fresh _ _ _ Had)|].
      intros id' r'. rewrite (find_any_added _ _ _ _ Had). case_decide as Hd; [intros [= <-]; by right|].
      apply (mf_find _ _ _ Hm1). }
    split; [by apply (move_inv r s)|done].
  - rewrite H. cbn [snd]. split; [by apply (move_inv r s)|done].
Qed.

Lemma keep_job_frame r x s s' : move_frame r s s' -> keep_job s x ->
  (ins_id (obj s r) = ins_id (obj s x) -> job_name (obj s r) = job_name (obj s x)) -> keep_job s' x.
Proof.
  intros [Ho _ Hf] Hk Hag r'. assert (Hobj : forall x, obj s' x = obj s x) by (intros y; unfold obj; by rewrite Ho).
  rewrite !Hobj. intros [H|[-> Hid]]%Hf; [by apply Hk|]. by apply Hag.
Qed.

Lemma move_fold_ok (body : bool -> nat -> ST Pools PyError bool) refs :
  (forall m r s, pools_inv s -> keep_job s r -> (r < fresh_ref s)%nat ->
     pools_inv (body m r s).2 /\ move_frame r s (body m r s).2) ->
  forall m s, pools_inv s -> allocated s refs -> agree s refs ->
    (forall r, r ∈ refs -> keep_job s r) -> pools_inv (st_fold body m refs s).2.
Proof.
  intros Hb. induction refs as [|r refs IH]; intros m s Hinv Hal Hag Hk; [done|]. cbn. unfold mbind, ST_bind.
  destruct (Hb m r s Hinv (Hk r ltac:(apply list_elem_of_here)) (Hal r ltac:(apply list_elem_of_here))) as [Hinv' Hfr].
  destruct (body m r s) as [[m'|e] s']; cbn in *; [|done]. apply IH; [done| | |].
  - intros x Hx. rewrite (mf_fresh _ _ _ Hfr). apply Hal. by apply list_elem_of_further.
  - assert (Hobj : forall x, obj s' x = obj s x) by (intros x; unfold obj; by rewrite (mf_objs _ _ _ Hfr)).
    intros r1 r2 H1 H2. rewrite !Hobj. apply Hag; by apply list_elem_of_further.
  - intros x Hx. apply (keep_job_frame r x s s' Hfr); [apply Hk; by apply list_elem_of_further|].
    intros Hid. apply Hag; [apply list_elem_of_here|by apply list_elem_of_further|done].
Qed.

(** *** Objects of an event *)

Lemma intake_spec l : forall s, let '(refs, s') := intake l s in
  refs = seq (fresh_ref s) (length l) /\ fresh_ref s' = (fresh_ref s + length l)%nat /\
  (obj s' <$> refs) = l /\ (forall r, (r < fresh_ref s)%nat -> obj s' r = obj s r) /\
  s' = set_fresh (fresh_ref s') (set_objs (objs s') s).
Proof.
  induction l as [|i l IH]; intros s.
  - cbn. split; [done|]. split; [lia|]. split; [done|]. split; [done|by destruct s].
  - cbn. set (s1 := set_fresh (S (fresh_ref s)) (set_obj (fresh_ref s) i s)).
    specialize (IH s1). destruct (intake l s1) as [refs s'] eqn:E. destruct IH as (H1 & H2 & H3 & H4 & H5).
    assert (Ho : forall r, obj s1 r = if decide (fresh_ref s = r) then i else obj s r) by (intros r; apply obj_set).
    split; [by rewrite H1|]. split; [rewrite H2; cbn; lia|]. split.
    { cbn. rewrite H3. f_equal. rewrite H4 by (cbn; lia). rewrite Ho. by rewrite decide_True. }
    split; [|rewrite H5; done]. intros r Hr. rewrite H4 by (cbn; lia). rewrite Ho. rewrite decide_False; [done|lia].
Qed.

Lemma set_fresh_objs_inv s o n : pools_inv s -> (fresh_ref s <= n)%nat ->
  (forall r, (r < fresh_ref s)%nat -> obj (set_fresh n (set_objs o s)) r = obj s r) ->
  pools_inv (set_fresh n (set_objs o s)).
Proof.
  intros [Hok Hr Hj] Hn Ho. set (s' := set_fresh n (set_objs o s)) in *.
  assert (Hfr : forall id r, find_any id s = Some r -> obj s' r = obj s r).
  { intros id r H. apply Ho. by eapply Hr. }
  assert (Ha' : forall id r, dget id (available s) = Some r -> obj s' r = obj s r).
  { intros id r H. apply (Hfr id). unfold find_any. by rewrite H. }
  destruct Hok as [Wa Wu Wp Wr Ha Hro Hu Hp Du Dp Dup Wc Hc] eqn:Eok. clear Eok.
  assert (Hu' : forall id r, dget id (unavailable s) = Some r -> obj s' r = obj s r).
  { intros id r H. apply (Hfr id). unfold find_any. destruct (dget id (available s)) eqn:E; [|by rewrite H].
    destruct (Du id); by eexists. }
  assert (Hp' : forall id r, dget id (paused s) = Some r -> obj s' r = obj s r).
  { intros id r H. apply (Hfr id). unfold find_any. destruct (dget id (available s)) eqn:E;
      [destruct (Dp id); by eexists|]. destruct (dget id (unavailable s)) eqn:E2; [destruct (Dup id); by eexists|done]. }
  split.
  - split; try done.
    + intros id r H. rewrite (Ha' id r H). by apply Ha.
    + intros role id r H. destruct (Hro role id r H) as [H1 H2]. by rewrite (Ha' id r H1).
    + intros id r H. rewrite (Hu' id r H). by apply Hu.
    + intros id r H. rewrite (Hp' id r H). by apply Hp.
    + intros id c H. apply Hc in H as (r & H & ->). exists r. by rewrite (Ha' id r H).
  - intros id r H. apply Hr in H. cbn. lia.
  - intros id id' r r' H H'. change (find_any id s = Some r) in H. change (find_any id' s = Some r') in H'.
    rewrite (Hfr id r H), (Hfr id' r' H'). by apply Hj.
Qed.

Lemma intake_inv l s : pools_inv s -> let '(refs, s') := intake l s in
  pools_inv s' /\ allocated s' refs /\ (obj s' <$> refs) = l /\
  (forall id, find_any id s' = find_any id s) /\ (forall id r, find_any id s = Some r -> obj s' r = obj s r) /\
  available s' = available s /\ unavailable s' = unavailable s /\ paused s' = paused s.
Proof.
  intros Hinv. pose proof (intake_spec l s) as H. destruct (intake l s) as [refs s'].
  destruct H as (H1 & H2 & H3 & H4 & H5).
  assert (Hinv' : pools_inv s').
  { rewrite H5. apply set_fresh_objs_inv; [done|lia|]. intros r Hr. rewrite <- H5. by apply H4. }
  split; [done|]. split.
  { intros r. rewrite H1, elem_of_seq. lia. }
  split; [done|]. split; [intros id; by rewrite H5|]. split.
  - intros id r Hf. apply H4. by eapply (pi_refs s Hinv).
  - by rewrite H5.
Qed.

(** *** SET *)

Record removed_set (ids : list Z) (s s' : Pools) : Prop := {
  rms_objs : objs s' = objs s;
  rms_fresh : fresh_ref s' = fresh_ref s;
  rms_find : forall id, find_any id s' = if decide (id ∈ ids) then None else find_any id s;
  rms_avail : forall id, dget id (available s') = if decide (id ∈ ids) then None else dget id (available s) }.

Lemma delete_fold_spec refs : forall m s, pools_inv s -> exists b s',
  st_fold delete_one m refs s = (Ret b, s') /\ pools_inv s' /\ removed_set ((fun r => ins_id (obj s r)) <$> refs) s s'.
Proof.
  induction refs as [|r refs IH]; intros m s Hinv.
  { exists m, s. split; [done|]. split; [done|]. split; try done; intros id; by rewrite decide_False by apply not_elem_of_nil. }
  cbn. unfold mbind, ST_bind.
  destruct (delete_one_spec m r s (pi_ok s Hinv)) as (s1 & -> & Hok1 & Hrm).
  pose proof (removed_inv _ _ _ Hinv Hok1 Hrm) as Hinv1.
  destruct (IH (m || present (ins_id (obj s r)) s) s1 Hinv1) as (b & s2 & -> & Hinv2 & [Ho Hf Hfi Hav]).
  exists b, s2. split; [done|]. split; [done|].
  assert (Hids : ((fun r => ins_id (obj s1 r)) <$> refs) = ((fun r => ins_id (obj s r)) <$> refs)).
  { apply list_fmap_ext. intros k x _. by rewrite (obj_removed _ _ _ _ Hrm). }
  rewrite Hids in Hfi, Hav. split.
  - by rewrite Ho, (rm_objs _ _ _ Hrm).
  - by rewrite Hf, (rm_fresh _ _ _ Hrm).
  - intros id. rewrite Hfi, (find_any_removed _ _ _ _ Hrm).
    destruct (decide (ins_id (obj s r) = id)) as [<-|Hne].
    + rewrite (decide_True (P := ins_id (obj s r) ∈ _ :: _)) by apply list_elem_of_here. by case_decide.
    + destruct (decide (id ∈ (fun r => ins_id (obj s r)) <$> refs)) as [Hi|Hni].
      * by rewrite decide_True by by apply list_elem_of_further.
      * rewrite decide_False; [done|]. rewrite elem_of_cons. intros [|]; [by subst|done].
  - intros id. rewrite Hav, (rm_avail _ _ _ Hrm).
    destruct (decide (ins_id (obj s r) = id)) as [<-|Hne].
    + rewrite (decide_True (P := ins_id (obj s r) ∈ _ :: _)) by apply list_elem_of_here. by case_decide.
    + destruct (decide (id ∈ (fun r => ins_id (obj s r)) <$> refs)) as [Hi|Hni].
      * by rewrite decide_True by by apply list_elem_of_further.
      * rewrite decide_False; [done|]. rewrite elem_of_cons. intros [|]; [by subst|done].
Qed.

(** Adding instances none of whose ids and jobs is known. *)
Lemma add_one_fresh acc r s role : pools_inv s -> (r < fresh_ref s)%nat ->
  role_to_pdrole (ins_role (obj s r)) = Some role -> find_any (ins_id (obj s r)) s = None ->
  (forall id r', find_any id s = Some r' -> job_name (obj s r') <> job_name (obj s r)) ->
  exists acc' s', add_one acc r s = (Ret acc', s') /\ pools_inv s' /\ fresh_ref s' = fresh_ref s /\
    available s' = dset (ins_id (obj s r)) r (available s) /\ unavailable s' = unavailable s /\ paused s' = paused s /\
    (forall x, obj s' x = if decide (r = x) then reset_workload (obj s r) else obj s x).
Proof.
  intros Hinv Hlt Hrole Hnone Hjob. pose proof (pi_ok s Hinv) as Hok.
  assert (Hn : dget (ins_id (obj s r)) (available s) = None /\ dget (ins_id (obj s r)) (unavailable s) = None /\
               dget (ins_id (obj s r)) (paused s) = None).
  { apply present_false. unfold present. by rewrite Hnone. }
  destruct Hn as (Hna & Hnu & Hnp).
  rewrite add_one_unfold by (unfold dmem; by rewrite Hnu). unfold mbind, ST_bind, replace_stale.
  destruct (find_instance_by_job_name (job_name (obj s r)) s) as [e|] eqn:Ef.
  { destruct (find_job_Some _ _ _ Hok Ef) as [Hj He]. by destruct (Hjob _ _ He). }
  unfold mret, ST_ret. pose proof (add_available_spec r s Hok) as H. rewrite Hrole in H. unfold in_pool in H.
  rewrite Hna, Hnu, Hnp in H.
  destruct (H ltac:(by intros []) ltac:(by intros []) ltac:(by intros [])) as (s' & -> & Hok' & Hrest & Hav).
  unfold st_modify. eexists _, _. split; [done|].
  assert (Had : added r s s') by (destruct Hrest; by split).
  assert (Ho : obj s' r = obj s r) by (unfold obj; by rewrite (ad_objs _ _ _ Had)).
  split.
  { apply set_obj_inv; [|apply reset_similar]. by apply (added_inv r s). }
  destruct Hrest. do 4 (split; [done|]). intros x. rewrite obj_set. case_decide; [by rewrite Ho|].
  unfold obj. by rewrite (ad_objs _ _ _ Had).
Qed.

(** The instances to add: known roles, pairwise different ids and jobs, none of
    them in a pool. *)
Record fresh_batch (s : Pools) (refs : list nat) : Prop := {
  fb_alloc : allocated s refs;
  fb_role : forall r, r ∈ refs -> is_Some (role_to_pdrole (ins_role (obj s r)));
  fb_ids : NoDup ((fun r => ins_id (obj s r)) <$> refs);
  fb_jobs : NoDup ((fun r => job_name (obj s r)) <$> refs);
  fb_new : forall r, r ∈ refs -> find_any (ins_id (obj s r)) s = None;
  fb_job : forall r id r', r ∈ refs -> find_any id s = Some r' -> job_name (obj s r') <> job_name (obj s r) }.

Lemma add_fold_fresh refs : forall acc s, pools_inv s -> fresh_batch s refs -> exists acc' s',
  st_fold add_one acc refs s = (Ret acc', s') /\ pools_inv s' /\
  unavailable s' = unavailable s /\ paused s' = paused s /\
  (forall r, r ∈ refs -> dget (ins_id (obj s r)) (available s') = Some r /\ obj s' r = reset_workload (obj s r)) /\
  (forall id, id ∉ (fun r => ins_id (obj s r)) <$> refs -> dget id (available s') = dget id (available s)) /\
  (forall x, x ∉ refs -> obj s' x = obj s x).
Proof.
  induction refs as [|r refs IH]; intros acc s Hinv [Hal Hro Hid Hjo Hnew Hjob].
  { exists acc, s. do 4 (split; [done|]). split; [intros r Hr; by apply not_elem_of_nil in Hr|done]. }
  assert (Hr : r ∈ r :: refs) by apply list_elem_of_here. cbn in Hid, Hjo.
  apply NoDup_cons in Hid as [Hid1 Hid2]. apply NoDup_cons in Hjo as [Hjo1 Hjo2].
  destruct (Hro r Hr) as [role Hrole].
  destruct (add_one_fresh acc r s role Hinv (Hal r Hr) Hrole (Hnew r Hr) (fun id r' => Hjob r id r' Hr))
    as (acc1 & s1 & Heq & Hinv1 & Hf1 & Ha1 & Hu1 & Hp1 & Ho1).
  cbn. unfold mbind, ST_bind. rewrite Heq.
  assert (Hnr : forall x, x ∈ refs -> r <> x).
  { intros x Hx <-. apply Hid1. apply list_elem_of_fmap. by exists r. }
  assert (Hobj : forall x, x ∈ refs -> obj s1 x = obj s x).
  { intros x Hx. rewrite Ho1. rewrite decide_False; [done|by apply Hnr]. }
  assert (Hsim : forall x, similar (obj s x) (obj s1 x)).
  { intros x. rewrite Ho1. case_decide; [subst; apply reset_similar|apply similar_refl]. }
  assert (Hfind : forall id, find_any id s1 = if decide (ins_id (obj s r) = id) then Some r else find_any id s).
  { intros id. unfold find_any. rewrite Ha1, Hu1, Hp1, dget_dset. by case_decide. }
  assert (Hext : forall {A} (f : Instance_ -> A), ((fun x => f (obj s1 x)) <$> refs) = ((fun x => f (obj s x)) <$> refs)).
  { intros A f. apply list_fmap_ext. intros k x Hx. rewrite Hobj; [done|]. by eapply list_elem_of_lookup_2. }
  assert (Hfb : fresh_batch s1 refs).
  { split.
    - intros x Hx. rewrite Hf1. apply Hal. by apply list_elem_of_further.
    - intros x Hx. rewrite Hobj by done. apply Hro. by apply list_elem_of_further.
    - by rewrite (Hext _ ins_id).
    - by rewrite (Hext _ job_name).
    - intros x Hx. rewrite Hobj, Hfind by done. rewrite decide_False; [apply Hnew; by apply list_elem_of_further|].
      intros He. apply Hid1. rewrite He. apply list_elem_of_fmap. by exists x.
    - intros x id r' Hx. rewrite Hfind, (Hobj x Hx). destruct (Hsim r') as (_ & _ & -> & _). case_decide.
      + intros [= <-] He. apply Hjo1. rewrite He. apply list_elem_of_fmap. by exists x.
      + apply Hjob. by apply list_elem_of_further. }
  destruct (IH acc1 s1 Hinv1 Hfb) as (acc2 & s2 & -> & Hinv2 & Hu2 & Hp2 & Hin2 & Hout2 & Hob2).
  rewrite (Hext _ ins_id) in Hout2.
  exists acc2, s2. split; [done|]. split; [done|]. split; [congruence|]. split; [congruence|]. split; [|split].
  - intros x [->|Hx]%elem_of_cons.
    + rewrite Hout2 by done. rewrite Ha1, dget_dset_eq. split; [done|].
      rewrite Hob2, Ho1, decide_True; [done|done|]. intros Hx. by destruct (Hnr r Hx).
    + destruct (Hin2 x Hx) as [H1 H2]. rewrite Hobj in H1, H2 by done. done.
  - intros id [Hne Hni]%not_elem_of_cons. rewrite Hout2 by done. rewrite Ha1. by rewrite dget_dset_ne.
  - intros x [Hne Hni]%not_elem_of_cons. rewrite Hob2 by done. rewrite Ho1. by rewrite decide_False.
Qed.

(** The index of the new instances by id. *)
Definition new_by_id (s : Pools) (refs : list nat) : dict Z nat :=
  foldl (fun d r => dset (ins_id (obj s r)) r d) [] refs.

Lemma new_by_id_wf s refs : dict_wf (new_by_id s refs) /\
  forall id r, dget id (new_by_id s refs) = Some r -> r ∈ refs /\ ins_id (obj s r) = id.
Proof.
  unfold new_by_id. assert (H : forall (d : dict Z nat), dict_wf d ->
    let d' := foldl (fun d r => dset (ins_id (obj s r)) r d) d refs in
    dict_wf d' /\ forall id r, dget id d' = Some r -> dget id d = Some r \/ (r ∈ refs /\ ins_id (obj s r) = id)).
  { induction refs as [|x refs IH]; intros d Hd; cbn; [split; [done|by left]|].
    destruct (IH (dset (ins_id (obj s x)) x d) (dset_wf _ _ _ Hd)) as [Hwf Hget]. split; [done|].
    intros id r [H|[H1 H2]]%Hget; [|right; split; [by apply list_elem_of_further|done]].
    rewrite dget_dset in H. case_decide; [|by left]. injection H as <-. right. split; [apply list_elem_of_here|done]. }
  destruct (H [] dict_wf_nil) as [Hwf Hget]. split; [done|]. intros id r [|]%Hget; done.
Qed.

Lemma new_by_id_nodup s refs r : NoDup ((fun r => ins_id (obj s r)) <$> refs) -> r ∈ refs ->
  dget (ins_id (obj s r)) (new_by_id s refs) = Some r.
Proof.
  unfold new_by_id. generalize (@nil (Z * nat)). induction refs as [|x refs IH]; intros d Hnd Hr;
    [by apply not_elem_of_nil in Hr|]. cbn in *. apply NoDup_cons in Hnd as [Hni Hnd].
  apply elem_of_cons in Hr as [->|Hr]; [|by apply IH].
  assert (Hkeep : forall d, dget (ins_id (obj s x)) d = Some x ->
            dget (ins_id (obj s x)) (foldl (fun d r => dset (ins_id (obj s r)) r d) d refs) = Some x).
  { clear IH Hnd. induction refs as [|y refs IH]; intros d' Hd; cbn; [done|]. cbn in Hni.
    apply not_elem_of_cons in Hni as [Hne Hni]. apply IH; [done|]. by rewrite dget_dset_ne. }
  apply Hkeep. by rewrite dget_dset_eq.
Qed.

(** Known to the pools but to be refreshed. *)
Definition set_changed (s : Pools) (refs : list nat) (id : Z) : bool :=
  match find_any id s, dget id (new_by_id s refs) with
  | Some e, Some r => negb (dmem id (available s)) || instance_needs_update (obj s e) (obj s r)
  | _, _ => false
  end.

Lemma current_ids_spec id s :
  id ∈ remove_dups (dkeys (available s) ++ dkeys (unavailable s) ++ dkeys (paused s)) <-> is_Some (find_any id s).
Proof.
  rewrite elem_of_remove_dups, !elem_of_app, <- !dmem_spec. unfold dmem, find_any.
  destruct (dget id (available s)), (dget id (unavailable s)), (dget id (paused s)); naive_solver.
Qed.

Section SetSpec.
Context (set_order : list Z -> list Z).
Hypothesis set_order_perm : forall l, set_order l ≡ₚ l.

Lemma set_diff_spec refs s : let '(to_add, to_remove) := compute_set_diff set_order refs s in
  (forall r, r ∈ to_add <-> exists id, dget id (new_by_id s refs) = Some r /\
     (find_any id s = None \/ set_changed s refs id = true)) /\
  NoDup ((fun r => ins_id (obj s r)) <$> to_add) /\
  (forall r, r ∈ to_remove <-> exists id, find_any id s = Some r /\
     (dget id (new_by_id s refs) = None \/ set_changed s refs id = true)).
Proof.
  unfold compute_set_diff. fold (new_by_id s refs).
  set (new := new_by_id s refs). destruct (new_by_id_wf s refs) as [Hwf Hget]. fold new in Hwf, Hget.
  set (cur := remove_dups _). set (upd := base.filter _ cur).
  assert (Hupd : forall id, id ∈ upd <-> set_changed s refs id = true).
  { intros id. unfold upd. rewrite list_elem_of_filter. unfold cur. rewrite current_ids_spec, <- dmem_spec.
    unfold set_changed, dmem. fold new. destruct (find_any id s), (dget id new); naive_solver. }
  assert (Hcur : forall id, id ∈ cur <-> is_Some (find_any id s)) by (intros id; apply current_ids_spec).
  assert (Hadd : forall id, id ∈ set_order (base.filter (fun id => id ∉ cur) (dkeys new) ++ upd) <->
            (find_any id s = None /\ id ∈ dkeys new) \/ set_changed s refs id = true).
  { intros id. rewrite set_order_perm, elem_of_app, Hupd, list_elem_of_filter, Hcur, <- eq_None_not_Some. done. }
  assert (Hrem : forall id, id ∈ set_order (base.filter (fun id => id ∉ dkeys new) cur ++ upd) <->
            (dget id new = None /\ is_Some (find_any id s)) \/ set_changed s refs id = true).
  { intros id. rewrite set_order_perm, elem_of_app, Hupd, list_elem_of_filter, Hcur, <- dget_None. done. }
  split; [|split].
  - intros r. rewrite list_elem_of_omap. split.
    + intros (id & [[H1 H2]|H]%Hadd & Hr); exists id; auto.
    + intros (id & Hr & H). exists id. split; [|done]. apply Hadd. destruct H as [H|H]; [left|by right].
      split; [done|by apply dget_Some_key in Hr].
  - assert (Hnd : NoDup (set_order (base.filter (fun id => id ∉ cur) (dkeys new) ++ upd))).
    { rewrite set_order_perm. apply NoDup_app. split; [by apply NoDup_filter|]. split.
      - intros id [Hni _]%list_elem_of_filter [_ Hin]%list_elem_of_filter. done.
      - apply NoDup_filter, NoDup_remove_dups. }
    revert Hnd. generalize (set_order (base.filter (fun id => id ∉ cur) (dkeys new) ++ upd)). intros l.
    induction l as [|id l IH]; intros Hnd; cbn; [constructor|]. apply NoDup_cons in Hnd as [Hni Hnd].
    destruct (dget id new) as [r|] eqn:Er; [|by apply IH]. cbn. apply NoDup_cons. split; [|by apply IH].
    destruct (Hget _ _ Er) as [_ ->]. rewrite list_elem_of_fmap. setoid_rewrite list_elem_of_omap.
    intros (r' & -> & id' & Hin & Hr'). destruct (Hget _ _ Hr') as [_ He]. rewrite He in Hni. done.
  - intros r. rewrite list_elem_of_omap. split.
    + intros (id & [[H1 H2]|H]%Hrem & Hr); exists id; auto.
    + intros (id & Hr & H). exists id. split; [|done]. apply Hrem. destruct H as [H|H]; [left|by right].
      split; [done|by eexists].
Qed.
End SetSpec.

(** *** Structural equality of SET *)
Lemma bool_decide_refl {A} `{EqDecision A} (x : A) : bool_decide (x = x) = true.
Proof. by apply bool_decide_eq_true. Qed.

Lemma needs_update_same i i' : job_name i = job_name i' -> model_name i = model_name i' ->
  engine_type i = engine_type i' -> dispatch_capabilities i = dispatch_capabilities i' -> ins_role i = ins_role i' ->
  parallel_config i = parallel_config i' -> enable_multi_endpoints i = enable_multi_endpoints i' ->
  node_managers i = node_managers i' -> ep_sig i = ep_sig i' -> instance_needs_update i i' = false.
Proof.
  intros H1 H2 H3 H4 H5 H6 H7 H8 H9. unfold instance_needs_update.
  rewrite H1, H2, H3, H4, H5, H6, H7, H8, H9, !bool_decide_refl. cbn [andb negb].
  assert (H : forallb (fun x => bool_decide (x ∈ ep_sig i')) (ep_sig i') = true).
  { apply forallb_True'. intros x Hx. by apply bool_decide_eq_true. }
  by rewrite H.
Qed.

Lemma ep_sig_dmap (f : Endpoint -> Endpoint) i i' :
  (forall e, ep_id (f e) = ep_id e /\ ep_ip (f e) = ep_ip e /\ business_port (f e) = business_port e /\
             mgmt_port (f e) = mgmt_port e) ->
  endpoints i' = dmap (dmap f) (endpoints i) -> ep_sig i' = ep_sig i.
Proof.
  intros Hf He. unfold ep_sig. rewrite He. clear He. f_equal. induction (endpoints i) as [|[pod eps] l IH]; [done|].
  cbn. f_equal; [|done]. clear IH. induction eps as [|[k e] eps IH]; [done|]. cbn.
  destruct (Hf e) as (-> & -> & -> & ->). by rewrite IH.
Qed.

Lemma needs_update_reset i : instance_needs_update (reset_workload i) i = false.
Proof. apply needs_update_same; try done. by apply (ep_sig_dmap (ep_set_workload Workload_default)). Qed.

Lemma needs_update_job i i' : instance_needs_update i i' = false -> job_name i = job_name i'.
Proof.
  unfold instance_needs_update. rewrite negb_false_iff, !andb_true_iff, bool_decide_eq_true. naive_solver.
Qed.

Lemma NoDup_fmap_inj_on {A B} (f : A -> B) (l : list A) x y :
  NoDup (f <$> l) -> x ∈ l -> y ∈ l -> f x = f y -> x = y.
Proof.
  induction l as [|z l IH]; intros Hnd Hx Hy He; [by apply not_elem_of_nil in Hx|]. cbn in Hnd.
  apply NoDup_cons in Hnd as [Hni Hnd].
  apply elem_of_cons in Hx as [->|Hx]; apply elem_of_cons in Hy as [->|Hy]; [done| | |by apply IH].
  - destruct Hni. rewrite He. apply list_elem_of_fmap. eauto.
  - destruct Hni. rewrite <- He. apply list_elem_of_fmap. eauto.
Qed.

Lemma NoDup_fmap_sub {A B} (f : A -> B) (l l' : list A) :
  NoDup l -> (forall x, x ∈ l -> x ∈ l') -> NoDup (f <$> l') -> NoDup (f <$> l).
Proof.
  intros Hnd Hsub Hnd'. apply NoDup_fmap_2_strong; [|done]. intros x y Hx Hy He.
  by apply (NoDup_fmap_inj_on f l' x y Hnd'); auto.
Qed.

Section SetTheorem.
Context (set_order : list Z -> list Z).
Hypothesis set_order_perm : forall l, set_order l ≡ₚ l.

(** The pools after the removals of a SET. *)
Lemma set_after_remove refs s s1 to_add to_remove : pools_inv s ->
  compute_set_diff set_order refs s = (to_add, to_remove) ->
  removed_set ((fun r => ins_id (obj s r)) <$> to_remove) s s1 ->
  forall id, find_any id s1 =
    if decide (dget id (new_by_id s refs) = None \/ set_changed s refs id = true) then None else find_any id s.
Proof.
  intros Hinv Hd Hrm id. pose proof (set_diff_spec set_order set_order_perm refs s) as Hspec.
  rewrite Hd in Hspec. destruct Hspec as (_ & _ & Hr). rewrite (rms_find _ _ _ Hrm).
  assert (Hin : id ∈ (fun r => ins_id (obj s r)) <$> to_remove <->
            is_Some (find_any id s) /\ (dget id (new_by_id s refs) = None \/ set_changed s refs id = true)).
  { rewrite list_elem_of_fmap. split.
    - intros (r & -> & (id' & Hf & Hc)%Hr). rewrite (find_any_id s id' r (pi_ok s Hinv) Hf). split; [by eexists|done].
    - intros ([r Hf] & Hc). exists r. rewrite (find_any_id s id r (pi_ok s Hinv) Hf). split; [done|].
      apply Hr. eauto. }
  case_decide as H1; case_decide as H2; try done.
  - destruct H2. by apply Hin.
  - destruct (find_any id s) as [r|] eqn:E; [|done]. destruct H1. apply Hin. split; [by eexists|done].
Qed.

Lemma set_to_add_new refs s s1 to_add to_remove r : pools_inv s ->
  compute_set_diff set_order refs s = (to_add, to_remove) ->
  removed_set ((fun r => ins_id (obj s r)) <$> to_remove) s s1 ->
  r ∈ to_add -> find_any (ins_id (obj s r)) s1 = None /\ r ∈ refs /\
    dget (ins_id (obj s r)) (new_by_id s refs) = Some r.
Proof.
  intros Hinv Hd Hrm Hr. rewrite (set_after_remove refs s s1 to_add to_remove Hinv Hd Hrm).
  pose proof (set_diff_spec set_order set_order_perm refs s) as Hspec. rewrite Hd in Hspec.
  destruct Hspec as (Ha & _ & _). apply Ha in Hr as (id & Hg & Hc).
  destruct (proj2 (new_by_id_wf s refs) id r Hg) as [Hin Hid]. rewrite Hid. split; [|done].
  case_decide; [done|]. destruct Hc as [Hc|Hc]; [done|]. naive_solver.
Qed.

Lemma delete_if_any to_remove s : pools_inv s -> exists b s1,
  (match to_remove with [] => mret false | _ => delete_instances to_remove end : ST Pools PyError bool) s = (Ret b, s1) /\
  pools_inv s1 /\ removed_set ((fun r => ins_id (obj s r)) <$> to_remove) s s1.
Proof.
  intros Hinv. destruct (delete_fold_spec to_remove false s Hinv) as (b & s1 & Heq & H).
  exists b, s1. split; [|done]. by destruct to_remove.
Qed.

Lemma apply_set_diff_inv refs s : pools_inv s -> allocated s refs -> pools_inv (apply_set_diff set_order refs s).2.
Proof.
  intros Hinv Hal. unfold apply_set_diff, mbind at 1, ST_bind at 1, st_get.
  destruct (compute_set_diff set_order refs s) as [to_add to_remove] eqn:Hd.
  assert (Hmain : pools_inv ((_ ← (match to_remove with [] => mret false | _ => delete_instances to_remove end);
            _ ← (match to_add with [] => mret false | _ => add_instances to_add end); mret true) s).2).
  { destruct (delete_if_any to_remove s Hinv) as (b & s1 & Heq & Hinv1 & Hrm).
    unfold mbind, ST_bind. rewrite Heq.
    assert (Hobj : forall x, obj s1 x = obj s x) by (intros x; unfold obj; by rewrite (rms_objs _ _ _ Hrm)).
    assert (Hadd : pools_inv (add_instances to_add s1).2).
    { apply add_instances_ok; [done| | |].
      - intros r Hr. rewrite (rms_fresh _ _ _ Hrm). apply Hal.
        by apply (set_to_add_new refs s s1 to_add to_remove r Hinv Hd Hrm).
      - intros r1 r2 H1 H2. rewrite !Hobj. intros He.
        destruct (set_to_add_new refs s s1 _ _ r1 Hinv Hd Hrm H1) as (_ & _ & G1).
        destruct (set_to_add_new refs s s1 _ _ r2 Hinv Hd Hrm H2) as (_ & _ & G2).
        rewrite He in G1. assert (r1 = r2) as -> by congruence. done.
      - intros r Hr. destruct (set_to_add_new refs s s1 _ _ r Hinv Hd Hrm Hr) as (Hn & _ & _).
        assert (Hp : present (ins_id (obj s r)) s1 = false) by (unfold present; by rewrite Hn).
        apply present_false in Hp as (Pa & _ & Pp). unfold add_pre, in_pool. rewrite Hobj, Pa, Pp.
        split; [by intros []|done]. }
    destruct to_add as [|r0 ra] eqn:Eta; [done|]. rewrite <- Eta in *.
    destruct (add_instances to_add s1) as [[?|?] ?]; done. }
  destruct to_add, to_remove; try done; apply Hmain.
Qed.

(** The batch to add is fresh when the event is well formed. *)
Lemma set_fresh_batch refs s s1 to_add to_remove : pools_inv s -> allocated s refs ->
  compute_set_diff set_order refs s = (to_add, to_remove) -> pools_inv s1 ->
  removed_set ((fun r => ins_id (obj s r)) <$> to_remove) s s1 ->
  NoDup ((fun r => ins_id (obj s r)) <$> refs) -> NoDup ((fun r => job_name (obj s r)) <$> refs) ->
  (forall r, r ∈ refs -> is_Some (role_to_pdrole (ins_role (obj s r)))) ->
  fresh_batch s1 to_add.
Proof.
  intros Hinv Hal Hd Hinv1 Hrm Hids Hjobs Hro.
  assert (Hobj : forall x, obj s1 x = obj s x) by (intros x; unfold obj; by rewrite (rms_objs _ _ _ Hrm)).
  pose proof (fun r Hr => set_to_add_new refs s s1 to_add to_remove r Hinv Hd Hrm Hr) as Hnew.
  pose proof (set_diff_spec set_order set_order_perm refs s) as Hspec. rewrite Hd in Hspec.
  destruct Hspec as (_ & Hnd & _).
  assert (Hext : forall {A} (f : Instance_ -> A), ((fun x => f (obj s1 x)) <$> to_add) = ((fun x => f (obj s x)) <$> to_add))
    by (intros A f; apply list_fmap_ext; intros k x _; by rewrite Hobj).
  split.
  - intros r Hr. rewrite (rms_fresh _ _ _ Hrm). apply Hal. by apply Hnew.
  - intros r Hr. rewrite Hobj. apply Hro. by apply Hnew.
  - by rewrite (Hext _ ins_id).
  - rewrite (Hext _ job_name). apply (NoDup_fmap_sub _ to_add refs); [|intros x Hx; by apply Hnew|done].
    by eapply NoDup_fmap_1.
  - intros r Hr. rewrite Hobj. by apply Hnew.
  - intros r id r' Hr Hf Hj. rewrite !Hobj in Hj.
    rewrite (set_after_remove refs s s1 to_add to_remove Hinv Hd Hrm) in Hf. case_decide as Hc; [done|].
    destruct (dget id (new_by_id s refs)) as [r2|] eqn:Er2; [|naive_solver].
    destruct (proj2 (new_by_id_wf s refs) id r2 Er2) as [Hin2 Hid2].
    assert (Hnc : instance_needs_update (obj s r') (obj s r2) = false).
    { apply not_true_is_false. intros Ht. apply Hc. right. unfold set_changed. rewrite Hf, Er2, Ht. apply orb_true_r. }
    apply needs_update_job in Hnc. destruct (Hnew r Hr) as (Hn & Hin & _).
    assert (r2 = r).
    { apply (NoDup_fmap_inj_on (fun r => job_name (obj s r)) refs); [done|done|done|congruence]. }
    subst r2. rewrite Hid2, (set_after_remove refs s s1 to_add to_remove Hinv Hd Hrm) in Hn.
    case_decide as Hc2; [|congruence]. rewrite Er2 in Hc2. naive_solver.
Qed.

Lemma register_kv_fields refs b s : let s' := register_kv_instance refs b s in
  available s' = available s /\ unavailable s' = unavailable s /\ paused s' = paused s /\ objs s' = objs s.
Proof. unfold register_kv_instance. by destruct (is_mgmt s). Qed.

Lemma add_instances_fresh refs s : pools_inv s -> fresh_batch s refs -> exists b s',
  add_instances refs s = (Ret b, s') /\ pools_inv s' /\ unavailable s' = unavailable s /\ paused s' = paused s /\
  (forall r, r ∈ refs -> dget (ins_id (obj s r)) (available s') = Some r /\ obj s' r = reset_workload (obj s r)) /\
  (forall id, id ∉ (fun r => ins_id (obj s r)) <$> refs -> dget id (available s') = dget id (available s)) /\
  (forall x, x ∉ refs -> obj s' x = obj s x).
Proof.
  intros Hinv Hfb. unfold add_instances, mbind, ST_bind.
  destruct (add_fold_fresh refs (false, [], []) s Hinv Hfb) as ([[m tmp] rep] & s' & -> & Hinv' & H1 & H2 & H3 & H4 & H5).
  unfold st_modify, mret, ST_ret.
  destruct (register_kv_fields tmp true s') as (A1 & A2 & A3 & A4).
  destruct (register_kv_fields rep false (register_kv_instance tmp true s')) as (B1 & B2 & B3 & B4).
  eexists m, _. split; [done|]. split; [by apply register_kv_inv, register_kv_inv|].
  assert (Ho : forall x, obj (register_kv_instance rep false (register_kv_instance tmp true s')) x = obj s' x)
    by (intros x; unfold obj; by rewrite B4, A4).
  split; [congruence|]. split; [congruence|].
  split; [|split]; intros; rewrite ?B1, ?A1, ?Ho; auto.
Qed.

(** The two halves of a SET, one after the other. *)
Definition set_apply (to_add to_remove : list nat) : ST Pools PyError bool :=
  match to_add, to_remove with
  | [], [] => mret false
  | _, _ =>
      _ ← (match to_remove with [] => mret false | _ => delete_instances to_remove end);
      _ ← (match to_add with [] => mret false | _ => add_instances to_add end);
      mret true
  end.

Lemma set_apply_run to_add to_remove s b s1 :
  (match to_remove with [] => mret false | _ => delete_instances to_remove end : ST Pools PyError bool) s = (Ret b, s1) ->
  exists b', set_apply to_add to_remove s =
    match to_add with
    | [] => (Ret b', s1)
    | _ => match add_instances to_add s1 with (Ret _, s2) => (Ret b', s2) | (Raise e, s2) => (Raise e, s2) end
    end.
Proof.
  intros H. destruct to_add as [|ra rs], to_remove as [|rr rm];
    [exists false; by injection H as _ ->|exists true..]; unfold set_apply, mbind, ST_bind; rewrite H; done.
Qed.

Lemma set_run to_add to_remove s b s1 : pools_inv s1 -> fresh_batch s1 to_add -> (forall x, obj s1 x = obj s x) ->
  (match to_remove with [] => mret false | _ => delete_instances to_remove end : ST Pools PyError bool) s = (Ret b, s1) ->
  exists b' s', set_apply to_add to_remove s = (Ret b', s') /\
    pools_inv s' /\ unavailable s' = unavailable s1 /\ paused s' = paused s1 /\
    (forall r, r ∈ to_add -> dget (ins_id (obj s r)) (available s') = Some r /\ obj s' r = reset_workload (obj s r)) /\
    (forall id, id ∉ (fun r => ins_id (obj s r)) <$> to_add -> dget id (available s') = dget id (available s1)) /\
    (forall x, x ∉ to_add -> obj s' x = obj s x).
Proof.
  intros Hinv1 Hfb Hobj Heq. destruct (set_apply_run to_add to_remove s b s1 Heq) as [b' Hrun].
  destruct (add_instances_fresh to_add s1 Hinv1 Hfb) as (b2 & s2 & Heq2 & Hinv2 & U2 & P2 & In2 & Out2 & Ob2).
  destruct to_add as [|r0 ra] eqn:Eta.
  - exists b', s1. split; [done|]. do 3 (split; [done|]). split; [intros r Hr; by apply not_elem_of_nil in Hr|].
    split; [done|]. intros x _. apply Hobj.
  - rewrite <- Eta in *. rewrite Heq2 in Hrun. exists b', s2. split; [done|]. do 3 (split; [done|]).
    split; [intros r Hr; specialize (In2 r Hr); by rewrite Hobj in In2|]. split.
    + intros id Hni. apply Out2. intros Hi. apply Hni. apply list_elem_of_fmap in Hi as (r & -> & Hr).
      apply list_elem_of_fmap. exists r. by rewrite Hobj.
    + intros x Hx. by rewrite Ob2.
Qed.

(** What the removals leave is available, unchanged and not added again. *)
Lemma set_kept refs s s1 to_add to_remove id r' : pools_inv s -> pools_inv s1 ->
  compute_set_diff set_order refs s = (to_add, to_remove) ->
  removed_set ((fun r => ins_id (obj s r)) <$> to_remove) s s1 ->
  find_any id s1 = Some r' ->
  dget id (available s1) = Some r' /\ id ∉ (fun r => ins_id (obj s r)) <$> to_add /\ r' ∉ to_add /\
  exists r, r ∈ refs /\ ins_id (obj s r) = id /\ instance_needs_update (obj s r') (obj s r) = false.
Proof.
  intros Hinv Hinv1 Hd Hrm Hf0. pose proof (set_after_remove refs s s1 to_add to_remove Hinv Hd Hrm id) as Hf.
  pose proof (fun r Hr => set_to_add_new refs s s1 to_add to_remove r Hinv Hd Hrm Hr) as Hnew.
  assert (Hobj : obj s1 r' = obj s r') by (unfold obj; by rewrite (rms_objs _ _ _ Hrm)).
  rewrite Hf0 in Hf. case_decide as Hc; [done|]. symmetry in Hf.
  destruct (dget id (new_by_id s refs)) as [r|] eqn:Er; [|naive_solver].
  destruct (proj2 (new_by_id_wf s refs) id r Er) as [Hinr Hidr].
  assert (Hsc : set_changed s refs id = false) by (apply not_true_is_false; intros ?; naive_solver).
  unfold set_changed in Hsc. rewrite Hf, Er, orb_false_iff, negb_false_iff, in_pool_dmem in Hsc.
  destruct Hsc as [[r2 Hav] Hnu]. unfold find_any in Hf. rewrite Hav in Hf. injection Hf as ->.
  split; [|split; [|split]].
  - pose proof (rms_find _ _ _ Hrm id) as Hx. rewrite Hf0 in Hx. rewrite (rms_avail _ _ _ Hrm). by case_decide.
  - rewrite list_elem_of_fmap. intros (r3 & -> & Hr3). destruct (Hnew r3 Hr3) as [Hn _]. congruence.
  - intros Hr. destruct (Hnew r' Hr) as [Hn _]. rewrite <- Hobj in Hn.
    rewrite (find_any_id s1 id r' (pi_ok s1 Hinv1) Hf0) in Hn. congruence.
  - by exists r.
Qed.

Lemma apply_set_diff_exact refs s : pools_inv s -> allocated s refs ->
  NoDup ((fun r => ins_id (obj s r)) <$> refs) -> NoDup ((fun r => job_name (obj s r)) <$> refs) ->
  (forall r, r ∈ refs -> is_Some (role_to_pdrole (ins_role (obj s r)))) ->
  exists b s', apply_set_diff set_order refs s = (Ret b, s') /\
    (forall id, find_any id s' = dget id (available s')) /\
    (forall id, in_pool id (available s') <-> id ∈ (fun r => ins_id (obj s r)) <$> refs) /\
    (forall r, r ∈ refs -> exists r', dget (ins_id (obj s r)) (available s') = Some r' /\
       instance_needs_update (obj s' r') (obj s r) = false) /\
    (forall r r', r ∈ refs -> r' ∉ refs -> dget (ins_id (obj s r)) (available s) = Some r' ->
       instance_needs_update (obj s r') (obj s r) = false ->
       dget (ins_id (obj s r)) (available s') = Some r' /\ obj s' r' = obj s r').
Proof.
  intros Hinv Hal Hids Hjobs Hro. unfold apply_set_diff, mbind at 1, ST_bind at 1, st_get.
  destruct (compute_set_diff set_order refs s) as [to_add to_remove] eqn:Hd.
  destruct (delete_if_any to_remove s Hinv) as (b & s1 & Heq & Hinv1 & Hrm).
  pose proof (set_fresh_batch refs s s1 to_add to_remove Hinv Hal Hd Hinv1 Hrm Hids Hjobs Hro) as Hfb.
  assert (Hobj : forall x, obj s1 x = obj s x) by (intros x; unfold obj; by rewrite (rms_objs _ _ _ Hrm)).
  pose proof (set_after_remove refs s s1 to_add to_remove Hinv Hd Hrm) as Hfind1.
  destruct (set_run to_add to_remove s b s1 Hinv1 Hfb Hobj Heq)
    as (b' & s' & Hrun & Hinv' & Hu & Hp & Hin & Hout & Hob).
  exists b', s'. split; [done|].
  pose proof (fun r Hr => set_to_add_new refs s s1 to_add to_remove r Hinv Hd Hrm Hr) as Hnew.
  pose proof (set_diff_spec set_order set_order_perm refs s) as Hspec. rewrite Hd in Hspec.
  destruct Hspec as (Hta & _ & _).
  pose proof (fun id r' => set_kept refs s s1 to_add to_remove id r' Hinv Hinv1 Hd Hrm) as Hkept.
  assert (Hclass : forall r, r ∈ refs -> (r ∈ to_add) \/ (exists r', find_any (ins_id (obj s r)) s1 = Some r')).
  { intros r Hr. pose proof (new_by_id_nodup s refs r Hids Hr) as Hg.
    destruct (find_any (ins_id (obj s r)) s) as [r'|] eqn:Ef; [|left; apply Hta; eauto].
    destruct (set_changed s refs (ins_id (obj s r))) eqn:Ec; [left; apply Hta; eauto|].
    right. exists r'. rewrite Hfind1, decide_False; [done|]. rewrite Hg, Ec. naive_solver. }
  split; [|split; [|split]].
  - intros id. unfold find_any. destruct (dget id (available s')) eqn:E; [done|]. rewrite Hu, Hp.
    destruct (find_any id s1) as [r'|] eqn:Ef.
    + destruct (Hkept id r' Ef) as (Hav & Hna & _). rewrite Hout in E by done. congruence.
    + unfold find_any in Ef. by destruct (dget id (available s1)).
  - intros id. split.
    + intros [r' Hg]. destruct (decide (id ∈ (fun r => ins_id (obj s r)) <$> to_add)) as [Hi|Hni].
      * apply list_elem_of_fmap in Hi as (r & -> & Hr). apply list_elem_of_fmap. exists r. split; [done|]. by apply Hnew.
      * rewrite Hout in Hg by done. destruct (Hkept id r') as (_ & _ & _ & r & Hr & Hid & _);
          [unfold find_any; by rewrite Hg|]. apply list_elem_of_fmap. by exists r.
    + intros (r & -> & Hr)%list_elem_of_fmap. destruct (Hclass r Hr) as [Ha|[r' Hf]].
      * destruct (Hin r Ha) as [Hg _]. by eexists.
      * destruct (Hkept _ _ Hf) as (Hav & Hna & _). exists r'. by rewrite Hout.
  - intros r Hr. destruct (Hclass r Hr) as [Ha|[r' Hf]].
    + destruct (Hin r Ha) as [Hg Ho]. exists r. split; [done|]. rewrite Ho. apply needs_update_reset.
    + destruct (Hkept _ _ Hf) as (Hav & Hna & Hown & r2 & Hr2 & Hid2 & Hnu). exists r'.
      rewrite Hout by done. split; [done|]. rewrite Hob by done.
      assert (r2 = r) as <-; [|done]. by apply (NoDup_fmap_inj_on (fun r => ins_id (obj s r)) refs).
  - intros r r' Hr Hr' Hav Hnu. pose proof (new_by_id_nodup s refs r Hids Hr) as Hg.
    assert (Hf : find_any (ins_id (obj s r)) s = Some r') by (unfold find_any; by rewrite Hav).
    assert (Hf1 : find_any (ins_id (obj s r)) s1 = Some r').
    { rewrite Hfind1, decide_False; [done|]. rewrite Hg. unfold set_changed. rewrite Hf, Hg, Hnu.
      assert (dmem (ins_id (obj s r)) (available s) = true) as -> by (apply in_pool_dmem; by eexists). naive_solver. }
    destruct (Hkept _ _ Hf1) as (Hav1 & Hna & Hown & _). rewrite Hout by done. auto.
Qed.
End SetTheorem.

(** ** Workload updates keep the shape of the table *)

Definition eps_shape (i : Instance_) : list (string * list (Z * Z)) :=
  map (fun p => (p.1, map (fun q : Z * Endpoint => (q.1, ep_id q.2)) p.2)) (endpoints i).

Lemma endpoint_cache_shape r i i' : eps_shape i' = eps_shape i -> endpoint_cache r i' = endpoint_cache r i.
Proof.
  unfold endpoint_cache, eps_shape. generalize (@nil (Z * (nat * ep_path))). generalize (endpoints i'), (endpoints i).
  intros l l'. revert l'. induction l as [|[pod eps] l IH]; intros [|[pod' eps'] l'] acc; try done.
  cbn. intros [= -> Heps Hl]. rewrite <- (IH l' _ Hl). f_equal. clear IH Hl. revert eps' Heps acc.
  induction eps as [|[k e] eps IH]; intros [|[k' e'] eps'] Heps acc; try done. cbn in *.
  injection Heps as -> -> Heps. by apply IH.
Qed.

Lemma map_dset_same {K V W} `{EqDecision K} (g : V -> W) (k : K) v v' (d : dict K V) :
  dget k d = Some v -> g v' = g v ->
  map (fun q => (q.1, g q.2)) (dset k v' d) = map (fun q => (q.1, g q.2)) d.
Proof.
  intros Hg He. induction d as [|[k0 v0] d IH]; [done|]. cbn in *. case_decide; cbn.
  - injection Hg as ->. subst. by rewrite He.
  - by rewrite IH.
Qed.

Lemma ep_update_shape p f i : (forall e, ep_id (f e) = ep_id e) -> eps_shape (ep_update p f i) = eps_shape i.
Proof.
  intros Hf. unfold ep_update. destruct (dget p.1 (endpoints i)) as [eps|] eqn:E1; [|done].
  destruct (dget p.2 eps) as [e|] eqn:E2; [|done]. unfold eps_shape. cbn [endpoints ins_set_endpoints].
  apply (map_dset_same (fun eps => map (fun q : Z * Endpoint => (q.1, ep_id q.2)) eps) p.1 eps); [done|].
  by apply (map_dset_same ep_id p.2 e).
Qed.

Lemma dmap_shape f i i' : (forall e, ep_id (f e) = ep_id e) -> endpoints i' = dmap (dmap f) (endpoints i) ->
  eps_shape i' = eps_shape i.
Proof.
  intros Hf He. unfold eps_shape. rewrite He. clear He. induction (endpoints i) as [|[pod eps] l IH]; [done|].
  cbn. f_equal; [|exact IH]. f_equal. clear IH. induction eps as [|[k e] eps IH]; [done|]. cbn.
  f_equal; [by rewrite Hf|exact IH].
Qed.

Lemma ep_update_similar p f i : (forall e, ep_id (f e) = ep_id e) -> similar i (ep_update p f i).
Proof.
  intros Hf. split; [|split; [|split]]; [unfold ep_update; by repeat case_match..|].
  intros r. by apply endpoint_cache_shape, ep_update_shape.
Qed.

Lemma rebuild_similar i : similar i (rebuild_instance_workload i).1.
Proof. do 3 (split; [done|]). intros r. apply endpoint_cache_shape. by apply (dmap_shape clamp_ep). Qed.

Lemma similar_trans i1 i2 i3 : similar i1 i2 -> similar i2 i3 -> similar i1 i3.
Proof.
  intros (A1 & A2 & A3 & A4) (B1 & B2 & B3 & B4). do 3 (split; [congruence|]). intros r. by rewrite B4.
Qed.

Lemma set_gathered_similar w i : similar i (ins_set_gathered w i).
Proof. done. Qed.

Lemma ensure_cache_ok id r s : pools_inv s -> dget id (available s) = Some r ->
  let '(c, s') := ensure_cache id r s in
  c = endpoint_cache r (obj s r) /\ pools_inv s' /\ objs s' = objs s /\ available s' = available s.
Proof.
  intros Hinv Hr. unfold ensure_cache. pose proof (pi_ok s Hinv) as Hok.
  destruct (dget id (endpoint_id_cache s)) as [c|] eqn:Ec.
  { destruct (po_cache s Hok _ _ Ec) as (r' & Hr' & ->). assert (r' = r) as -> by congruence. done. }
  split; [done|]. split; [|done]. destruct Hinv as [_ Hrf Hj].
  destruct Hok as [Wa Wu Wp Wr Ha Hro Hu Hp Du Dp Dup Wc Hc]. split; [|done|done].
  split; try done; cbn.
  - by apply dset_wf.
  - intros id' c. rewrite dget_dset. case_decide; [subst; intros [= <-]; by exists r|apply Hc].
Qed.

(** The endpoint index names endpoint objects of the instance. *)
Lemma endpoint_cache_sound r i ep er p : table_wf i -> dget ep (endpoint_cache r i) = Some (er, p) ->
  er = r /\ exists e, resolve i p = Some e /\ ep_id e = ep.
Proof.
  intros [Hwf Hpods]. unfold endpoint_cache.
  assert (Hin : forall acc, (forall ep er p, dget ep acc = Some (er, p) ->
              er = r /\ exists e, resolve i p = Some e /\ ep_id e = ep) ->
            forall l, (forall q, q ∈ l -> q ∈ endpoints i) ->
            forall ep er p, dget ep (foldl (fun acc '(pod_ip, eps) =>
              foldl (fun acc '(k, ep) => dset (ep_id ep) (r, (pod_ip, k)) acc) acc eps) acc l) = Some (er, p) ->
              er = r /\ exists e, resolve i p = Some e /\ ep_id e = ep).
  { intros acc Hacc l. revert acc Hacc. induction l as [|[pod eps] l IH]; intros acc Hacc Hl; [done|]. cbn.
    apply IH; [|intros q Hq; apply Hl; by apply list_elem_of_further].
    assert (Hpod : dget pod (endpoints i) = Some eps) by (apply elem_dget; [done|apply Hl, list_elem_of_here]).
    assert (Hwfe : dict_wf eps) by (apply (Hpods pod eps), Hl, list_elem_of_here).
    assert (Hsub : forall q, q ∈ eps -> q ∈ eps) by done. revert Hsub. generalize eps at 1 3 as l2.
    intros l2. revert acc Hacc. induction l2 as [|[k e] l2 IH2]; intros acc Hacc Hsub; [done|]. cbn.
    apply IH2; [|intros q Hq; apply Hsub; by apply list_elem_of_further].
    intros ep' er' p'. rewrite dget_dset. case_decide; [|apply Hacc]. intros [= <- <-]. split; [done|].
    exists e. split; [|done]. unfold resolve. cbn. rewrite Hpod. cbn. apply elem_dget; [done|].
    apply Hsub, list_elem_of_here. }
  intros H. eapply Hin; [| |exact H]; [done|done].
Qed.

(** ** Reachable pools *)

(** Events that name consistent instances: an ADD does not repeat a paused id
    nor change the role of an available one, a PAUSE or RESUME does not change
    the job name; instances of one event with one id agree.  DEL and SET are
    unrestricted.  Endpoint tables are Python dictionaries. *)
Definition event_ok (ev : EventType) (l : list Instance_) (s : Pools) : Prop :=
  Forall table_wf l /\
  match ev with
  | DEL | SET => True
  | _ =>
      (forall i1 i2, i1 ∈ l -> i2 ∈ l -> ins_id i1 = ins_id i2 ->
         ins_role i1 = ins_role i2 /\ job_name i1 = job_name i2) /\
      forall i, i ∈ l ->
        match ev with
        | ADD => ~ in_pool (ins_id i) (paused s) /\
            forall r, dget (ins_id i) (available s) = Some r ->
              role_to_pdrole (ins_role (obj s r)) = role_to_pdrole (ins_role i)
        | _ => forall r, find_any (ins_id i) s = Some r -> job_name (obj s r) = job_name i
        end
  end.

Inductive pool_reach : Pools -> Prop :=
  | pr_init mgmt : pool_reach (pools_init mgmt)
  | pr_refresh set_order ev l s : (forall k, set_order k ≡ₚ k) -> pool_reach s -> event_ok ev l s ->
      pool_reach (refresh_instances set_order ev l s).2
  | pr_workload id ep w s : pool_reach s -> pool_reach (update_instance_workload_sync id ep w s).2
  | pr_read id ep s : pool_reach s -> pool_reach (get_endpoint_workload_sync id ep s).2
  | pr_state id mode s : pool_reach s -> pool_reach (update_instance_state id mode s).2
  | pr_delete id s : pool_reach s -> pool_reach (delete_unavailable_instance id s)
  | pr_stop s : pool_reach s -> pool_reach (stop s).

Definition objs_wf (s : Pools) : Prop := forall r, table_wf (obj s r).

Lemma dmap_table_wf f i i' : endpoints i' = dmap (dmap f) (endpoints i) -> table_wf i -> table_wf i'.
Proof.
  intros He [H1 H2]. split; rewrite He; [by apply dmap_wf|]. intros ip eps Hin.
  apply list_elem_of_fmap in Hin as ([ip' eps'] & Heq & Hin). injection Heq as -> ->.
  apply dmap_wf. by eapply H2.
Qed.

Lemma ep_update_table_wf p f i : table_wf i -> table_wf (ep_update p f i).
Proof.
  intros Hi. unfold ep_update. destruct (dget p.1 (endpoints i)) as [eps|] eqn:E; [|done].
  destruct (dget p.2 eps) as [e|] eqn:E2; [|done]. destruct Hi as [H1 H2]. split; cbn; [by apply dset_wf|].
  intros ip eps' Hin. apply elem_dget in Hin; [|by apply dset_wf]. rewrite dget_dset in Hin. case_decide.
  - injection Hin as <-. apply dset_wf. eapply H2. by apply dget_elem.
  - eapply H2. by apply dget_elem.
Qed.

Lemma objs_wf_set r i s : objs_wf s -> table_wf i -> objs_wf (set_obj r i s).
Proof. intros H Hi r'. rewrite obj_set. by case_decide. Qed.

Lemma objs_wf_same s s' : objs s' = objs s -> objs_wf s -> objs_wf s'.
Proof. intros He H r. unfold obj. rewrite He. apply H. Qed.

Lemma intake_wf l s : Forall table_wf l -> objs_wf s -> objs_wf (intake l s).2.
Proof.
  intros Hl. revert s. induction Hl as [|i l Hi Hl IH]; intros s Hs; [done|]. cbn.
  specialize (IH (set_fresh (S (fresh_ref s)) (set_obj (fresh_ref s) i s))).
  destruct (intake l _) as [rs s']. apply IH. by apply (objs_wf_set (fresh_ref s) i s).
Qed.

Lemma add_available_wf r : st_preserves objs_wf (add_instance_to_available_pool r).
Proof. intros s Hs. unfold add_instance_to_available_pool. repeat case_match; cbn; by apply (objs_wf_same s). Qed.
Lemma delete_available_wf id : st_preserves objs_wf (delete_instance_from_available_pool id).
Proof. intros s Hs. unfold delete_instance_from_available_pool. repeat case_match; cbn; by apply (objs_wf_same s). Qed.
Lemma remove_all_wf id : st_preserves objs_wf (remove_instance_from_all_pools id).
Proof.
  intros s Hs. unfold remove_instance_from_all_pools. repeat case_match; [by apply delete_available_wf|..];
    cbn; by apply (objs_wf_same s).
Qed.
Lemma st_get_preserves {S E} (I : S -> Prop) : st_preserves (E:=E) I st_get.
Proof. by intros s Hs. Qed.
Lemma st_modify_preserves {S E} (I : S -> Prop) f : (forall s, I s -> I (f s)) -> st_preserves (E:=E) I (st_modify f).
Proof. intros H s Hs. by apply H. Qed.

Lemma reset_table_wf i : table_wf i -> table_wf (reset_workload i).
Proof. by apply (dmap_table_wf (ep_set_workload Workload_default)). Qed.

#[local] Hint Resolve add_available_wf delete_available_wf remove_all_wf st_get_preserves : motor.

Lemma register_kv_wf refs b s : objs_wf s -> objs_wf (register_kv_instance refs b s).
Proof. intros Hs. unfold register_kv_instance. destruct (is_mgmt s); by apply (objs_wf_same s). Qed.

Lemma add_one_wf acc r : st_preserves objs_wf (add_one acc r).
Proof.
  destruct acc as [[m tmp] rep]. unfold add_one. apply st_preserves_bind; [auto with motor|]. intros s0.
  destruct (dmem _ _); [auto with motor|]. apply st_preserves_bind.
  { repeat case_match; auto with motor. }
  intros rep'. apply st_preserves_bind; [auto with motor|]. intros []; [|auto with motor].
  apply st_preserves_bind; [|auto with motor]. apply st_modify_preserves. intros s Hs.
  apply objs_wf_set; [done|]. apply reset_table_wf, Hs.
Qed.

Lemma add_instances_wf refs : st_preserves objs_wf (add_instances refs).
Proof.
  unfold add_instances. apply st_preserves_bind; [apply st_preserves_fold; intros; apply add_one_wf|].
  intros [[m tmp] rep]. repeat (apply st_preserves_bind; [apply st_modify_preserves; intros; by apply register_kv_wf|intros _]).
  auto with motor.
Qed.

Lemma delete_instances_wf refs : st_preserves objs_wf (delete_instances refs).
Proof.
  apply st_preserves_fold. intros m r. unfold delete_one. apply st_preserves_bind; [auto with motor|]. intros s0.
  repeat case_match; (apply st_preserves_bind; [|auto with motor]); auto with motor;
    apply st_modify_preserves; intros s Hs; by apply (objs_wf_same s).
Qed.

Lemma refresh_wf set_order ev l s : Forall table_wf l -> objs_wf s ->
  objs_wf (refresh_instances set_order ev l s).2.
Proof.
  intros Hl Hs. unfold refresh_instances. pose proof (intake_wf l s Hl Hs) as Hi.
  destruct (intake l s) as [refs s1]. cbn in Hi. destruct ev.
  - by apply add_instances_wf.
  - revert s1 Hi. apply (st_preserves_bind (E:=PyError)); [apply delete_instances_wf|]. intros b.
    apply st_preserves_bind; [apply st_modify_preserves; intros; by apply register_kv_wf|auto with motor].
  - revert s1 Hi. unfold apply_set_diff. apply (st_preserves_bind (E:=PyError)); [auto with motor|]. intros s0.
    destruct (compute_set_diff set_order refs s0) as [ta tr].
    pose proof (add_instances_wf ta) as Ha. pose proof (delete_instances_wf tr) as Hd.
    destruct ta, tr; auto with motor; (apply st_preserves_bind; [auto with motor|]); intros _;
      (apply st_preserves_bind; auto with motor).
  - revert s1 Hi. apply (st_preserves_fold (E:=PyError)). intros m r. unfold pause_one.
    apply st_preserves_bind; [auto with motor|]. intros s0. repeat case_match; auto with motor.
    apply st_preserves_bind; [auto with motor|]. intros []; [|auto with motor].
    apply st_preserves_bind; [|auto with motor]. apply st_modify_preserves. intros s' Hs'. by apply (objs_wf_same s').
  - revert s1 Hi. apply (st_preserves_fold (E:=PyError)). intros m r. unfold resume_one.
    apply st_preserves_bind; [auto with motor|]. intros s0. repeat case_match; auto with motor.
    apply st_preserves_bind; [apply st_modify_preserves; intros s' Hs'; by apply (objs_wf_same s')|].
    intros _. apply st_preserves_bind; [auto with motor|]. auto with motor.
Qed.

Lemma obj_of_event s (refs : list nat) (l : list Instance_) r : (obj s <$> refs) = l -> r ∈ refs -> obj s r ∈ l.
Proof. intros <- Hr. apply list_elem_of_fmap. by exists r. Qed.

Lemma dget_available_find id s r : dget id (available s) = Some r -> find_any id s = Some r.
Proof. unfold find_any. by intros ->. Qed.

Lemma pool_refresh_inv set_order ev l s : (forall k, set_order k ≡ₚ k) -> pools_inv s -> event_ok ev l s ->
  pools_inv (refresh_instances set_order ev l s).2.
Proof.
  intros Hperm Hinv [_ Hev]. unfold refresh_instances. pose proof (intake_inv l s Hinv) as Hi.
  destruct (intake l s) as [refs s1]. destruct Hi as (Hinv1 & Hal & Hobj & Hfind & Hsame & Ha & Hu & Hp).
  pose proof (fun r => obj_of_event s1 refs l r Hobj) as Hin.
  destruct ev.
  - destruct Hev as [Hag Hpre]. apply add_instances_ok; [done|done| |].
    + intros r1 r2 H1 H2. apply Hag; auto.
    + intros r Hr. destruct (Hpre (obj s1 r) (Hin r Hr)) as [H1 H2]. unfold add_pre. rewrite Ha, Hp.
      split; [done|]. intros r' Hg. rewrite (Hsame (ins_id (obj s1 r)) r') by by apply dget_available_find. by apply H2.
  - revert s1 Hinv1 Hal Hobj Hfind Hsame Ha Hu Hp Hin. intros s1 Hinv1 _ _ _ _ _ _ _ _. revert s1 Hinv1.
    apply (st_preserves_bind (E:=PyError)); [intros s1; apply delete_instances_ok|]. intros b.
    apply st_preserves_bind; [apply st_modify_preserves; intros; by apply register_kv_inv|auto with motor].
  - by apply apply_set_diff_inv.
  - destruct Hev as [Hag Hpre]. apply move_fold_ok; [intros; by apply pause_one_ok|done|done| |].
    + intros r1 r2 H1 H2. apply Hag; auto.
    + intros r Hr r' Hf. rewrite Hfind in Hf. rewrite (Hsame _ _ Hf). by apply (Hpre (obj s1 r) (Hin r Hr)).
  - destruct Hev as [Hag Hpre]. apply move_fold_ok; [intros; by apply resume_one_ok|done|done| |].
    + intros r1 r2 H1 H2. apply Hag; auto.
    + intros r Hr r' Hf. rewrite Hfind in Hf. rewrite (Hsame _ _ Hf). by apply (Hpre (obj s1 r) (Hin r Hr)).
Qed.

Lemma clamp_floor w : fltb (active_tokens (clamp_workload_floor w).1) f0 = false /\
  (clamp_workload_floor w).2 = fltb (active_tokens w) f0.
Proof. unfold clamp_workload_floor. by destruct (fltb (active_tokens w) f0) eqn:E. Qed.

Lemma resolve_ep_update p f i e q : resolve i p = Some e ->
  resolve (ep_update p f i) q = if decide (p = q) then Some (f e) else resolve i q.
Proof.
  unfold resolve, ep_update. destruct p as [pod k], q as [pod' k']. cbn [fst snd].
  destruct (dget pod (endpoints i)) as [eps|] eqn:E1; [|done]. cbn. intros E2. rewrite E2. cbn.
  rewrite dget_dset. destruct (decide (pod = pod')) as [<-|Hne].
  - cbn. rewrite dget_dset, E1. cbn. destruct (decide (k = k')) as [<-|Hne]; [by rewrite decide_True|].
    rewrite decide_False; [done|]. congruence.
  - rewrite decide_False; [done|]. congruence.
Qed.

Lemma resolve_dmap f i q : resolve (ins_set_endpoints (dmap (dmap f) (endpoints i)) i) q = f <$> resolve i q.
Proof.
  unfold resolve. cbn. rewrite dget_dmap. destruct (dget q.1 (endpoints i)) as [eps|]; [|done]. cbn. apply dget_dmap.
Qed.

(** What one ledger update does to the instance object. *)
Definition workload_effect (p : ep_path) (w : Workload) (clamped : bool) (change : Workload) (i : Instance_) : Instance_ :=
  let i := ep_update p (ep_set_workload w) i in
  if clamped then (rebuild_instance_workload i).1
  else ins_set_gathered (Workload_iadd (gathered_workload i) change) i.

Lemma workload_effect_similar p w b c i : similar i (workload_effect p w b c i).
Proof.
  unfold workload_effect. pose proof (ep_update_similar p (ep_set_workload w) i ltac:(done)) as H. destruct b.
  - eapply similar_trans; [exact H|apply rebuild_similar].
  - exact H.
Qed.

Lemma workload_effect_wf p w b c i : table_wf i -> table_wf (workload_effect p w b c i).
Proof.
  intros H. unfold workload_effect. pose proof (ep_update_table_wf p (ep_set_workload w) i H) as H'. destruct b; [|done].
  eapply (dmap_table_wf clamp_ep); [|exact H']. done.
Qed.

(** Every branch of the update. *)
Lemma update_workload_cases id ep change s : pools_inv s -> objs_wf s ->
  match dget id (available s) with
  | None => update_instance_workload_sync id ep change s = (Ret None, s)
  | Some r =>
      exists s1, pools_inv s1 /\ objs s1 = objs s /\ available s1 = available s /\
      match dget ep (endpoint_cache r (obj s r)) with
      | None => update_instance_workload_sync id ep change s = (Ret None, s1)
      | Some (_, p) => exists e role,
          resolve (obj s r) p = Some e /\ ep_id e = ep /\ role_to_pdrole (ins_role (obj s r)) = Some role /\
          let '(w, clamped) := clamp_workload_floor (Workload_iadd (workload e) change) in
          update_instance_workload_sync id ep change s =
          (Ret (Some (role, w)),
           set_obj r (workload_effect p w clamped change (obj s r)) (set_obj r (ep_update p (ep_set_workload w) (obj s r)) s1))
      end
  end.
Proof.
  intros Hinv Hwf. unfold update_instance_workload_sync. destruct (dget id (available s)) as [r|] eqn:Er; [|done].
  pose proof (ensure_cache_ok id r s Hinv Er) as Hc. destruct (ensure_cache id r s) as [c s1].
  destruct Hc as (-> & Hinv1 & Ho & Ha). exists s1. do 3 (split; [done|]).
  destruct (dget ep (endpoint_cache r (obj s r))) as [[er p]|] eqn:Ep; [|done].
  destruct (endpoint_cache_sound r (obj s r) ep er p (Hwf r) Ep) as (-> & e & He & Hid).
  assert (Hobj : obj s1 r = obj s r) by (unfold obj; by rewrite Ho).
  destruct (po_avail s (pi_ok s Hinv) id r Er) as (_ & role & Hrole & _).
  exists e, role. do 3 (split; [done|]). rewrite Hobj, He.
  destruct (clamp_workload_floor (Workload_iadd (workload e) change)) as [w b].
  rewrite !obj_set, !(decide_True (P := r = r)) by done.
  set (i' := if b then _ else _). change i' with (workload_effect p w b change (obj s r)).
  destruct (workload_effect_similar p w b change (obj s r)) as (_ & -> & _).
  assert (role_or_union (ins_role (obj s r)) = Some role) as ->; [|done].
  unfold role_or_union. rewrite decide_False; [done|]. intros H. by rewrite H in Hrole.
Qed.

Lemma update_workload_inv id ep w s : pools_inv s -> objs_wf s ->
  pools_inv (update_instance_workload_sync id ep w s).2 /\ objs_wf (update_instance_workload_sync id ep w s).2.
Proof.
  intros Hinv Hwf. pose proof (update_workload_cases id ep w s Hinv Hwf) as H.
  destruct (dget id (available s)) as [r|]; [|by rewrite H].
  destruct H as (s1 & Hinv1 & Ho & Ha & H). pose proof (objs_wf_same s s1 Ho Hwf) as Hwf1.
  destruct (dget ep _) as [[er p]|]; [|by rewrite H].
  destruct H as (e & role & He & Hid & Hrole & H). destruct (clamp_workload_floor _) as [w' b]. rewrite H. cbn [snd].
  assert (Hobj : obj s1 r = obj s r) by (unfold obj; by rewrite Ho).
  split.
  - apply set_obj_inv; [apply set_obj_inv; [done|]|].
    + rewrite Hobj. by apply ep_update_similar.
    + rewrite obj_set, decide_True by done. unfold workload_effect. destruct b; [apply rebuild_similar|done].
  - apply objs_wf_set; [apply objs_wf_set; [done|by apply ep_update_table_wf]|by apply workload_effect_wf].
Qed.

Lemma read_workload_inv id ep s : pools_inv s -> objs_wf s ->
  pools_inv (get_endpoint_workload_sync id ep s).2 /\ objs_wf (get_endpoint_workload_sync id ep s).2.
Proof.
  intros Hinv Hwf. unfold get_endpoint_workload_sync. destruct (dget id (available s)) as [r|] eqn:Er; [|done].
  pose proof (ensure_cache_ok id r s Hinv Er) as H. destruct (ensure_cache id r s) as [c s1].
  destruct H as (_ & Hinv1 & Ho & _). pose proof (objs_wf_same s s1 Ho Hwf).
  repeat case_match; done.
Qed.

Lemma update_state_inv id mode s : pools_inv s -> objs_wf s ->
  pools_inv (update_instance_state id mode s).2 /\ objs_wf (update_instance_state id mode s).2.
Proof.
  intros Hinv Hwf. pose proof (pi_ok s Hinv) as Hok. destruct mode; unfold update_instance_state.
  - destruct (dget id (unavailable s)) as [r|] eqn:Er; [|done].
    pose proof (po_unavail s Hok id r Er) as Hid.
    assert (Hinp : in_pool id (unavailable s)) by by eexists.
    pose proof (removed_unavailable id s Hok Hinp) as Hrm.
    pose proof (removed_inv _ _ _ Hinv (delete_unavailable_ok id s Hok) Hrm) as Hinv1.
    set (s1 := set_unavailable (ddel id (unavailable s)) s) in *.
    pose proof (add_available_spec r s1 (pi_ok s1 Hinv1)) as H.
    change (obj s1 r) with (obj s r) in H. rewrite Hid in H. unfold in_pool in H.
    rewrite (rm_avail _ _ _ Hrm), (rm_unavail _ _ _ Hrm), (rm_paused _ _ _ Hrm) in H.
    rewrite !(decide_True (P := id = id)) in H by done.
    specialize (H ltac:(by intros []) ltac:(by intros []) ltac:(by intros [])).
    destruct (role_to_pdrole (ins_role (obj s r))) as [role|]; [|by rewrite H].
    destruct H as (s2 & -> & Hok2 & Hrest & Hav). cbn [snd].
    assert (Had : added r s1 s2) by (destruct Hrest; split; try done; by rewrite Hav; f_equal).
    split; [|apply (objs_wf_same s1); [apply Had|done]].
    assert (Hfid : find_any id s = Some r).
    { unfold find_any. destruct (dget id (available s)) eqn:E; [|by rewrite Er].
      destruct (po_disj_u s Hok id); by eexists. }
    apply (added_inv r s1); [done|done|done| |].
    + apply (pi_refs s Hinv id). done.
    + intros id' r'. rewrite (find_any_removed _ _ _ _ Hrm). case_decide as Hd; [done|]. intros Hf Hj.
      apply Hd. symmetry. apply (pi_jobs s Hinv id' id r' r Hf Hfid). exact Hj.
  - destruct (dget id (available s)) as [r|] eqn:Er; [|done].
    pose proof (delete_available_spec id s Hok) as H. rewrite Er in H.
    destruct H as (s1 & -> & Hok1 & Hrest & Hav). cbn [snd].
    destruct (po_avail s Hok id r Er) as [Hid _].
    pose proof (removed_available id s s1 Hok ltac:(by eexists) Hrest Hav) as Hrm.
    assert (Hobj : forall x, obj s1 x = obj s x) by (intros x; by eapply obj_removed).
    split; [|apply (objs_wf_same s); [apply Hrest|done]].
    apply (move_inv r s).
    + done.
    + apply set_unavailable_ok; [done|by rewrite Hobj| |]; unfold in_pool.
      * rewrite (rm_avail _ _ _ Hrm), decide_True by done. by intros [].
      * rewrite (rm_paused _ _ _ Hrm), decide_True by done. by intros [].
    + intros r'. rewrite Hid. unfold find_any. rewrite Er. by intros [= <-].
    + apply (pi_refs s Hinv id). by apply dget_available_find.
    + rewrite Hid. unfold find_any. rewrite Er. by eexists.
    + split; [by destruct Hrest|by destruct Hrest|]. intros id' r'. unfold find_any. cbn.
      rewrite dget_dset, (rm_avail _ _ _ Hrm), (rm_unavail _ _ _ Hrm), (rm_paused _ _ _ Hrm).
      case_decide; [intros [= <-]; right; split; congruence|by left].
Qed.

Lemma empty_pools_inv s : available s = [] -> unavailable s = [] -> paused s = [] ->
  (forall role, role_pool role s = []) -> endpoint_id_cache s = [] -> pools_inv s.
Proof.
  intros Ha Hu Hp Hr Hc.
  assert (Hf : forall id, find_any id s = None) by (intros id; unfold find_any; by rewrite Ha, Hu, Hp).
  split; [split|intros id r; by rewrite Hf|intros id id' r r'; by rewrite Hf];
    unfold in_pool; try (intros role; rewrite Hr); rewrite ?Ha, ?Hu, ?Hp, ?Hc; try apply dict_wf_nil; try done;
    intros id H; by destruct H.
Qed.

Lemma pools_init_inv mgmt : pools_inv (pools_init mgmt) /\ objs_wf (pools_init mgmt).
Proof.
  split; [apply empty_pools_inv; try done; by intros []|].
  intros r. unfold obj. cbn. rewrite lookup_empty. split; [apply dict_wf_nil|]. cbn. intros ip eps H.
  by apply not_elem_of_nil in H.
Qed.

Lemma stop_inv s : pools_inv (stop s) /\ (objs_wf s -> objs_wf (stop s)).
Proof. split; [|by apply (objs_wf_same s)]. apply empty_pools_inv; try done. by intros []. Qed.

Lemma delete_unavail_inv id s : pools_inv s -> objs_wf s ->
  pools_inv (delete_unavailable_instance id s) /\ objs_wf (delete_unavailable_instance id s).
Proof.
  intros Hinv Hwf. unfold delete_unavailable_instance. destruct (dmem id (unavailable s)) eqn:E; [|done].
  apply in_pool_dmem in E. split; [|by apply (objs_wf_same s)].
  apply (removed_inv id s); [done|by apply delete_unavailable_ok, pi_ok|by apply removed_unavailable, E; apply pi_ok].
Qed.

Lemma pool_reach_inv s : pool_reach s -> pools_inv s /\ objs_wf s.
Proof.
  induction 1 as [mgmt|so ev l s Hp _ [IH1 IH2] Hev|id ep w s _ [IH1 IH2]|id ep s _ [IH1 IH2]|
                  id mode s _ [IH1 IH2]|id s _ [IH1 IH2]|s _ [IH1 IH2]].
  - apply pools_init_inv.
  - split; [by apply pool_refresh_inv|apply refresh_wf; [apply Hev|done]].
  - by apply update_workload_inv.
  - by apply read_workload_inv.
  - by apply update_state_inv.
  - by apply delete_unavail_inv.
  - destruct (stop_inv s). auto.
Qed.

(** ** Properties *)



(** Witness data. *)
Definition ex_ep_w (id : Z) : Endpoint := ep_set_status Ep_NORMAL (ex_ep id false).
Definition ex_instance (id : Z) (job role : string) : Instance_ :=
  add_endpoints "10.0.0.1" (Some [(0, ex_ep_w 0); (1, ex_ep_w 1)]) (Instance_new job "m" None [] id role true).

Lemma ex_instance_wf id job role : table_wf (ex_instance id job role).
Proof.
  split; [apply dset_wf, dict_wf_nil|]. cbn. intros ip eps H. apply list_elem_of_singleton in H. injection H as -> ->.
  unfold dict_wf. apply (bool_decide_unpack _). vm_compute. exact I.
Qed.

Definition ex_pools : Pools :=
  (refresh_instances id ADD [ex_instance 1 "p-0" "prefill"; ex_instance 2 "d-0" "decode"] (pools_init false)).2.

Lemma ex_pools_reach : pool_reach ex_pools.
Proof.
  apply (pr_refresh id); [done|apply pr_init|]. split.
  - apply Forall_cons; split; [apply ex_instance_wf|]. apply Forall_singleton, ex_instance_wf.
  - split; [|intros i _; split; [by intros []|done]].
    intros i1 i2 H1 H2. apply elem_of_cons in H1 as [->|H1%list_elem_of_singleton]; [|subst i1];
      (apply elem_of_cons in H2 as [->|H2%list_elem_of_singleton]; [|subst i2]); done.
Qed.





Lemma role_pools_members s i : pools_ok s ->
  i ∈ obj s <$> (dvalues (encode_pool s) ++ dvalues (prefill_pool s) ++ dvalues (decode_pool s) ++ dvalues (hybrid_pool s)) ->
  exists role id r, i = obj s r /\ dget id (role_pool role s) = Some r /\ role_to_pdrole (ins_role i) = Some role.
Proof.
  intros Hok (r & -> & Hr)%list_elem_of_fmap.
  assert (Hin : exists role id, (id, r) ∈ role_pool role s).
  { rewrite !elem_of_app, !elem_of_dvalues in Hr.
    destruct Hr as [[id H]|[[id H]|[[id H]|[id H]]]];
      [exists ROLE_E, id|exists ROLE_P, id|exists ROLE_D, id|exists ROLE_U, id]; exact H. }
  destruct Hin as (role & id & Hg%elem_dget); [|apply (po_wf_r s Hok)]. exists role, id, r.
  do 2 (split; [done|]). apply (po_role s Hok role id r Hg).
Qed.



