(* ===== verification/CircuitBreaker.v ===== *)
(** * The circuit breaker

    [motor/coordinator/domain/circuit_breaker.py] (module [Pool] below: the
    per-instance states and their transitions) and the part of
    [motor/coordinator/scheduler/runtime/scheduler_server.py] that drives it
    (module [Server]: reports of the workers, recovery timers, probes,
    notifications to the workers).

    Timeouts are Python floats.  [30.0 * (2 ** (trip_count - 1))] converts an
    integer power of two to a float first; that conversion raises
    [OverflowError] from [2 ** 1024] on, which is why the two operations that
    compute a timeout can raise. *)

From Stdlib Require Import Strings.Ascii Floats.SpecFloat.
From S2P Require Import Prelude PyDict PyNum.

Inductive cb_phase := CB_CLOSED | CB_OPEN.
#[export] Instance cb_phase_eq_dec : EqDecision cb_phase.
Proof. solve_decision. Defined.

Record CircuitBreakerState := {
  cb_state : cb_phase;
  trip_count : Z;
  failure_count : Z;
  current_timeout : pyfloat }.

Definition f0 : pyfloat := S754_zero false.

Definition cb_default : CircuitBreakerState :=
  {| cb_state := CB_CLOSED; trip_count := 0; failure_count := 0; current_timeout := f0 |}.

Definition cb_is_open (s : CircuitBreakerState) : bool := bool_decide (cb_state s = CB_OPEN).
Definition cb_is_closed (s : CircuitBreakerState) : bool := bool_decide (cb_state s = CB_CLOSED).

Definition CB_BASE_TIMEOUT : pyfloat := float_lit 30 0.
Definition CB_MAX_TIMEOUT : pyfloat := float_lit 300 0.

Inductive OverflowError := overflow_error.

(** [min(_CB_BASE_TIMEOUT * (2 ** (trip_count - 1)), _CB_MAX_TIMEOUT)] for a
    positive trip count; [None] is [OverflowError]. *)
Definition cb_timeout (trip : Z) : option pyfloat :=
  p ← float_of_Z (2 ^ (trip - 1));
  let t := fmul CB_BASE_TIMEOUT p in
  Some (if fltb CB_MAX_TIMEOUT t then CB_MAX_TIMEOUT else t).

Abbreviation cb_pool := (dict Z CircuitBreakerState).

(** ** The pool *)
Module Pool.

Definition get (id : Z) (pool : cb_pool) : option CircuitBreakerState := dget id pool.

Definition is_open (id : Z) (pool : cb_pool) : bool :=
  match dget id pool with Some s => cb_is_open s | None => false end.

Definition is_closed (id : Z) (pool : cb_pool) : bool :=
  match dget id pool with Some s => cb_is_closed s | None => true end.

Definition get_or_create (id : Z) (pool : cb_pool) : CircuitBreakerState * cb_pool :=
  match dget id pool with
  | Some s => (s, pool)
  | None => (cb_default, dset id cb_default pool)
  end.

Definition trip_state (s : CircuitBreakerState) (timeout : pyfloat) : CircuitBreakerState :=
  {| cb_state := CB_OPEN; trip_count := trip_count s; failure_count := failure_count s;
     current_timeout := timeout |}.

Definition process_failure (id : Z) : ST cb_pool OverflowError (bool * pyfloat) := fun pool =>
  let '(s, pool) := get_or_create id pool in
  if cb_is_open s then (Ret (false, f0), pool)
  else
    let s := {| cb_state := cb_state s; trip_count := trip_count s;
                failure_count := failure_count s + 1; current_timeout := current_timeout s |} in
    if failure_count s <? 3 then (Ret (false, f0), dset id s pool)
    else
      let s := {| cb_state := cb_state s; trip_count := trip_count s + 1;
                  failure_count := failure_count s; current_timeout := current_timeout s |} in
      match cb_timeout (trip_count s) with
      | None => (Raise overflow_error, dset id s pool)
      | Some timeout => (Ret (true, timeout), dset id (trip_state s timeout) pool)
      end.

Definition process_success (id : Z) (pool : cb_pool) : bool * cb_pool :=
  match dget id pool with
  | None => (false, pool)
  | Some s =>
      let s' := {| cb_state := cb_state s; trip_count := 0; failure_count := 0; current_timeout := f0 |} in
      if cb_is_open s'
      then (true, dset id {| cb_state := CB_CLOSED; trip_count := trip_count s';
                             failure_count := failure_count s';
                             current_timeout := current_timeout s' |} pool)
      else (false, dset id s' pool)
  end.

Definition process_probe_failure (id : Z) : ST cb_pool OverflowError (option pyfloat) := fun pool =>
  match dget id pool with
  | None => (Ret None, pool)
  | Some s =>
      if cb_is_open s then
        let s := {| cb_state := cb_state s; trip_count := trip_count s + 1;
                    failure_count := failure_count s; current_timeout := current_timeout s |} in
        match cb_timeout (trip_count s) with
        | None => (Raise overflow_error, dset id s pool)
        | Some timeout =>
            (Ret (Some timeout),
             dset id {| cb_state := cb_state s; trip_count := trip_count s;
                        failure_count := failure_count s; current_timeout := timeout |} pool)
        end
      else (Ret None, pool)
  end.

Definition auto_recover (id : Z) (pool : cb_pool) : bool * cb_pool :=
  match dget id pool with
  | None => (false, pool)
  | Some s => if cb_is_open s then (true, dset id cb_default pool) else (false, pool)
  end.

Definition clear_instance (id : Z) (pool : cb_pool) : cb_pool :=
  if dmem id pool then ddel id pool else pool.

Definition clear_all (pool : cb_pool) : nat * cb_pool := (length pool, []).

Definition get_open_instance_ids (pool : cb_pool) : list Z :=
  (base.filter (fun p : Z * CircuitBreakerState => cb_is_open p.2 = true) pool).*1.

End Pool.

(** ** The scheduler server's side

    [_recovery_timers] maps an instance to its recovery task; [cs_tasks] are
    the tasks that have not finished or been cancelled, each with the point
    where it is suspended.  A task [t] is cancelled by removing it, whatever it
    waits for: a cancelled sleep or probe returns at once, and the [finally]
    of a cancelled publication finds another task (or none) registered.
    Publications to the workers are a log, in the order they are handed to the
    socket. *)
Module Server.

(** Where [_auto_recover] is suspended: asleep or waiting for the probe's
    answers; publishing "closed" for an instance that left the available pool;
    publishing "closed" after the circuit was closed. *)
Inductive task_at := Probing | Dropping | Closing.

Record CS := {
  cs_pool : cb_pool;
  cs_timers : dict Z nat;
  cs_tasks : gmap nat (Z * pyfloat * task_at);
  cs_next : nat;
  cs_published : list (Z * cb_phase) }.

Definition cs_init : CS :=
  {| cs_pool := []; cs_timers := []; cs_tasks := ∅; cs_next := 0%nat; cs_published := [] |}.

Definition with_pool (p : cb_pool) (s : CS) : CS :=
  {| cs_pool := p; cs_timers := cs_timers s; cs_tasks := cs_tasks s; cs_next := cs_next s;
     cs_published := cs_published s |}.
Definition publish (id : Z) (st : cb_phase) (s : CS) : CS :=
  {| cs_pool := cs_pool s; cs_timers := cs_timers s; cs_tasks := cs_tasks s; cs_next := cs_next s;
     cs_published := cs_published s ++ [(id, st)] |}.
Definition with_timers (t : dict Z nat) (s : CS) : CS :=
  {| cs_pool := cs_pool s; cs_timers := t; cs_tasks := cs_tasks s; cs_next := cs_next s;
     cs_published := cs_published s |}.
Definition with_tasks (t : gmap nat (Z * pyfloat * task_at)) (s : CS) : CS :=
  {| cs_pool := cs_pool s; cs_timers := cs_timers s; cs_tasks := t; cs_next := cs_next s;
     cs_published := cs_published s |}.
(** [task.cancel()], and the end of a task; no effect on a finished one. *)
Definition cancel (t : nat) (s : CS) : CS := with_tasks (delete t (cs_tasks s)) s.

Definition schedule_recovery (id : Z) (timeout : pyfloat) (s : CS) : CS :=
  let s := match dget id (cs_timers s) with Some t => cancel t s | None => s end in
  {| cs_pool := cs_pool s; cs_timers := dset id (cs_next s) (cs_timers s);
     cs_tasks := <[cs_next s := (id, timeout, Probing)]> (cs_tasks s); cs_next := S (cs_next s);
     cs_published := cs_published s |}.

Definition cancel_recovery (id : Z) (s : CS) : CS :=
  match dget id (cs_timers s) with
  | Some t => cancel t (with_timers (ddel id (cs_timers s)) s)
  | None => s
  end.

(** The report of a worker; [instance_id = None] is a missing field.  The
    result is [true] for a SUCCESS response and [false] for an ERROR
    response. *)
Definition handle_circuit_breaker_report (instance_id : option Z) (event : string)
    : ST CS OverflowError bool := fun s =>
  match instance_id with
  | None => (Ret false, s)
  | Some id =>
      if decide (event = "failure"%string) then
        match Pool.process_failure id (cs_pool s) with
        | (Raise e, p) => (Raise e, with_pool p s)
        | (Ret (should_trip, timeout), p) =>
            let s := with_pool p s in
            (Ret true, if should_trip then publish id CB_OPEN (schedule_recovery id timeout s) else s)
        end
      else if decide (event = "success"%string) then
        let '(recovered, p) := Pool.process_success id (cs_pool s) in
        let s := with_pool p s in
        (Ret true, if recovered then publish id CB_CLOSED (cancel_recovery id s) else s)
      else (Ret false, s)
  end.

(** The text between the first and the second blank; [None] (an [IndexError])
    when there is no blank. *)
Fixpoint until_blank (s : string) : string :=
  match s with
  | EmptyString => EmptyString
  | String c s' => if decide (c = " "%char) then EmptyString else String c (until_blank s')
  end.
Fixpoint second_field (s : string) : option string :=
  match s with
  | EmptyString => None
  | String c s' => if decide (c = " "%char) then Some (until_blank s') else second_field s'
  end.

(** [_probe_endpoint] on the status line the endpoint answered with; [None] is
    a connection that failed or timed out. *)
Definition probe_endpoint (status_line : option string) : bool :=
  match status_line with
  | None => false
  | Some line =>
      if decide (line = EmptyString) then false
      else match second_field line with
           | None => false
           | Some status_code => bool_decide (status_code = "200"%string)
           end
  end.

(** [_probe_instance] when its answers are in: [None] is an instance outside
    the available pool, [Some lines] the status lines of its endpoints. *)
Inductive probe := Probe_dropped | Probe_failed | Probe_ok.
Definition probe_instance (instance : option (list (option string))) : probe :=
  match instance with
  | None => Probe_dropped
  | Some [] => Probe_failed
  | Some endpoints => if forallb probe_endpoint endpoints then Probe_ok else Probe_failed
  end.

(** The failing end of [_auto_recover]: extend the timeout and start over. *)
Definition probe_failure_end (t : nat) (id : Z) : ST CS OverflowError unit := fun s =>
  match Pool.process_probe_failure id (cs_pool s) with
  | (Raise e, p) => (Raise e, cancel t (with_pool p s))
  | (Ret None, p) => (Ret tt, cancel t (with_pool p s))
  | (Ret (Some retry_timeout), p) =>
      (Ret tt, cancel t (schedule_recovery id retry_timeout (with_pool p s)))
  end.

(** [_auto_recover] of task [t] from one suspension to the next (or its end):
    the answers of the probe arrive, or the publication is done. *)
Definition auto_recover_step (t : nat) (instance : option (list (option string)))
    : ST CS OverflowError unit := fun s =>
  match cs_tasks s !! t with
  | None => (Ret tt, s)
  | Some (id, timeout, Probing) =>
      match probe_instance instance with
      | Probe_dropped =>
          (Ret tt, with_tasks (<[t := (id, timeout, Dropping)]> (cs_tasks s))
                     (publish id CB_CLOSED (with_pool (Pool.clear_instance id (cs_pool s)) s)))
      | Probe_failed => probe_failure_end t id s
      | Probe_ok =>
          let '(recovered, p) := Pool.auto_recover id (cs_pool s) in
          let s := with_pool p s in
          let s := if recovered then publish id CB_CLOSED s else s in
          (Ret tt, with_tasks (<[t := (id, timeout, Closing)]> (cs_tasks s)) s)
      end
  | Some (id, _, Dropping) => probe_failure_end t id s
  | Some (id, _, Closing) =>
      (Ret tt, cancel t (if decide (dget id (cs_timers s) = Some t)
                         then with_timers (ddel id (cs_timers s)) s else s))
  end.

(** The circuit-breaker part of a SET refresh and of a DEL refresh. *)
Definition refresh_set (s : CS) : CS :=
  let previously_open_ids := Pool.get_open_instance_ids (cs_pool s) in
  let s := with_pool (Pool.clear_all (cs_pool s)).2 s in
  let s := foldl (fun s '(key, t) => cancel t (with_timers (ddel key (cs_timers s)) s)) s (cs_timers s) in
  foldl (fun s id => publish id CB_CLOSED s) s previously_open_ids.

Definition refresh_del (ids : list Z) (s : CS) : CS :=
  foldl (fun s id => cancel_recovery id (with_pool (Pool.clear_instance id (cs_pool s)) s)) s ids.

End Server.

(** ** The back-off *)

(** Shifting a power of two right is exact. *)
Lemma shr_1_pow2 q : 0 < q ->
  shr_1 {| shr_m := 2 ^ q; shr_r := false; shr_s := false |} =
  {| shr_m := 2 ^ (q - 1); shr_r := false; shr_s := false |}.
Proof.
  intros Hq. assert (H2 : 2 ^ q = 2 * 2 ^ (q - 1)).
  { rewrite <- Z.pow_succ_r by lia. f_equal. lia. }
  assert (Hp : 0 < 2 ^ (q - 1)) by (apply Z.pow_pos_nonneg; lia).
  rewrite H2. destruct (2 ^ (q - 1)) as [|p|p]; [lia| |lia]. done.
Qed.

Lemma iter_shr_pow2 p : forall q, Zpos p <= q ->
  @SpecFloat.iter_pos shr_record shr_1 p {| shr_m := 2 ^ q; shr_r := false; shr_s := false |} =
  {| shr_m := 2 ^ (q - Zpos p); shr_r := false; shr_s := false |}.
Proof.
  induction p as [p IH|p IH|]; intros q Hq; cbn [SpecFloat.iter_pos].
  - rewrite shr_1_pow2, IH, IH by lia. do 2 f_equal. lia.
  - rewrite IH, IH by lia. do 2 f_equal. lia.
  - apply shr_1_pow2. lia.
Qed.

Lemma Zdigits2_pow2 k : 0 <= k -> Zdigits2 (2 ^ k) = k + 1.
Proof.
  intros Hk. assert (0 < 2 ^ k) by (apply Z.pow_pos_nonneg; lia).
  destruct (2 ^ k) as [|p|p] eqn:E; [lia| |lia]. cbn. rewrite digits2_pos_size, <- E.
  by rewrite Z.log2_pow2.
Qed.

(** [float(2 ** k)] raises [OverflowError] for every [k >= 1024]. *)
Lemma float_of_pow2_overflow k : 1024 <= k -> float_of_Z (2 ^ k) = None.
Proof.
  intros Hk. unfold float_of_Z. assert (0 < 2 ^ k) by (apply Z.pow_pos_nonneg; lia).
  unfold binary_normalize. destruct (2 ^ k) as [|p|p] eqn:E; [lia| |lia].
  unfold binary_round.
  assert (Hd : Zpos (digits2_pos p) = k + 1) by (rewrite digits2_pos_size, <- E, Z.log2_pow2; lia).
  assert (Hfexp : fexp prec emax (Zpos (digits2_pos p) + 0) = k - 52).
  { unfold fexp, emin, prec, emax. rewrite Hd. lia. }
  rewrite Hfexp. unfold shl_align. destruct (k - 52 - 0) as [|d|d] eqn:Ed; [lia| |lia].
  unfold binary_round_aux, shr_fexp. rewrite <- E, (Zdigits2_pow2 k) by lia.
  replace (fexp prec emax (k + 1 + 0) - 0) with (Zpos d) by (unfold fexp, emin, prec, emax; lia).
  unfold shr, shr_record_of_loc. rewrite iter_shr_pow2 by lia. cbn [shr_m loc_of_shr_record].
  replace (k - Zpos d) with 52 by lia.
  change (round_nearest_even (2 ^ 52) loc_Exact) with (2 ^ 52).
  rewrite (Zdigits2_pow2 52) by lia.
  replace (fexp prec emax (52 + 1 + (0 + Zpos d)) - (0 + Zpos d)) with 0
    by (unfold fexp, emin, prec, emax; lia).
  change (shr_m {| shr_m := 2 ^ 52; shr_r := false; shr_s := false |}) with (2 ^ 52).
  change (2 ^ 52) with (Zpos (2 ^ 52)). cbv beta iota.
  replace (0 + Zpos d <=? emax - prec) with false; [done|].
  symmetry. apply Z.leb_gt. unfold emax, prec. lia.
Qed.

Lemma cb_timeout_small :
  forallb (fun n => bool_decide (cb_timeout (Z.of_nat n) =
             Some (float_lit (Z.min (30 * 2 ^ (Z.of_nat n - 1)) 300) 0)))
    (seq 1 1024) = true.
Proof. vm_compute. reflexivity. Qed.

Lemma cb_timeout_value n : 1 <= n <= 1024 ->
  cb_timeout n = Some (float_lit (Z.min (30 * 2 ^ (n - 1)) 300) 0).
Proof.
  intros Hn. pose proof cb_timeout_small as H.
  rewrite forallb_True' in H. specialize (H (Z.to_nat n)).
  rewrite elem_of_seq, bool_decide_eq_true, Z2Nat.id in H by lia. apply H. lia.
Qed.

Lemma cb_timeout_overflow n : 1024 < n -> cb_timeout n = None.
Proof. intros Hn. unfold cb_timeout. rewrite float_of_pow2_overflow by lia. done. Qed.

(** ** Abstract specification

    What the breaker promises about one instance: it is closed after fewer
    than three consecutive failures, or open after some number of failed
    recovery probes. *)
Module Spec.

Inductive t := Closed (failures : Z) | Open (failed_probes : Z).
Definition trips (a : t) : bool := match a with Closed n => n =? 2 | Open _ => false end.

Definition failure (a : t) : t :=
  match a with
  | Closed n => if n =? 2 then Open 0 else Closed (n + 1)
  | Open k => Open k
  end.
Definition success (_ : t) : t := Closed 0.
Definition probe_failure (a : t) : t := match a with Closed n => Closed n | Open k => Open (k + 1) end.
Definition recover (a : t) : t := match a with Closed n => Closed n | Open _ => Closed 0 end.

(** Seconds before the next probe after [k] failed ones. *)
Definition backoff (k : Z) : pyfloat := float_lit (Z.min (30 * 2 ^ k) 300) 0.

End Spec.

(** The representation invariant of one state and of a pool. *)
Definition cb_ok (s : CircuitBreakerState) : Prop :=
  match cb_state s with
  | CB_CLOSED => trip_count s = 0 /\ 0 <= failure_count s < 3
  | CB_OPEN => 1 <= trip_count s /\ failure_count s = 3
  end.
Definition pool_ok (p : cb_pool) : Prop := dict_wf p /\ forall id s, dget id p = Some s -> cb_ok s.

Definition cb_abs (s : CircuitBreakerState) : Spec.t :=
  match cb_state s with
  | CB_CLOSED => Spec.Closed (failure_count s)
  | CB_OPEN => Spec.Open (trip_count s - 1)
  end.
(** An instance the pool does not know is closed with no failure. *)
Definition pool_abs (p : cb_pool) (id : Z) : Spec.t :=
  match dget id p with Some s => cb_abs s | None => Spec.Closed 0 end.

Definition fn_update {A} (f : Z -> A) (id : Z) (a : A) : Z -> A := fun id' => if decide (id = id') then a else f id'.

Lemma pool_ok_dset p id s : pool_ok p -> cb_ok s -> pool_ok (dset id s p).
Proof.
  intros [Hwf Hp] Hs. split; [by apply dset_wf|]. intros id' s'. rewrite dget_dset.
  case_decide; [by intros [= <-]|apply Hp].
Qed.

Lemma pool_ok_ddel p id : pool_ok p -> pool_ok (ddel id p).
Proof.
  intros [Hwf Hp]. split; [by apply ddel_wf|]. intros id' s'.
  destruct (decide (id = id')) as [<-|Hne]; [by rewrite dget_ddel_eq|].
  rewrite dget_ddel_ne by done. apply Hp.
Qed.

Lemma pool_abs_dset p id s id' : pool_abs (dset id s p) id' = fn_update (pool_abs p) id (cb_abs s) id'.
Proof. unfold pool_abs, fn_update. rewrite dget_dset. by case_decide. Qed.

Lemma cb_is_open_spec s : cb_is_open s = true <-> cb_state s = CB_OPEN.
Proof. apply bool_decide_eq_true. Qed.

Lemma is_open_abs p id : Pool.is_open id p = true <-> exists k, pool_abs p id = Spec.Open k.
Proof.
  unfold Pool.is_open, pool_abs. destruct (dget id p) as [s|]; [|naive_solver].
  rewrite cb_is_open_spec. unfold cb_abs. destruct (cb_state s); naive_solver.
Qed.

(** *** Each operation implements its abstract one *)

Lemma pool_abs_id p id a id' : a = pool_abs p id -> pool_abs p id' = fn_update (pool_abs p) id a id'.
Proof. intros ->. unfold fn_update. by case_decide; subst. Qed.

Lemma pool_abs_Some p id s : dget id p = Some s -> pool_abs p id = cb_abs s.
Proof. unfold pool_abs. by intros ->. Qed.

Lemma pool_abs_None p id : dget id p = None -> pool_abs p id = Spec.Closed 0.
Proof. unfold pool_abs. by intros ->. Qed.

(** The two shapes of a stored state. *)
Lemma cb_ok_cases p id s : pool_ok p -> dget id p = Some s ->
  (cb_is_open s = false /\ cb_state s = CB_CLOSED /\ trip_count s = 0 /\ 0 <= failure_count s < 3 /\
   pool_abs p id = Spec.Closed (failure_count s)) \/
  (cb_is_open s = true /\ cb_state s = CB_OPEN /\ 1 <= trip_count s /\ failure_count s = 3 /\
   pool_abs p id = Spec.Open (trip_count s - 1)).
Proof.
  intros [_ Hp] Hs. pose proof (Hp id s Hs) as Hok. rewrite (pool_abs_Some p id s Hs).
  unfold cb_ok, cb_abs, cb_is_open in *. destruct (cb_state s); [left|right];
    (split; [done|]); tauto.
Qed.

Lemma process_failure_refines p id : pool_ok p ->
  exists p', Pool.process_failure id p =
      (Ret (if Spec.trips (pool_abs p id) then (true, Spec.backoff 0) else (false, f0)), p') /\
    pool_ok p' /\ forall id', pool_abs p' id' = fn_update (pool_abs p) id (Spec.failure (pool_abs p id)) id'.
Proof.
  intros Hp. unfold Pool.process_failure, Pool.get_or_create. destruct (dget id p) as [s|] eqn:Hs.
  - destruct (cb_ok_cases p id s Hp Hs) as [(Eo & Est & Htr & Hf & Ha)|(Eo & Est & Htr & Hf & Ha)];
      rewrite Ha, Eo; cbn [Spec.trips Spec.failure failure_count cb_state trip_count].
    + rewrite Htr. destruct (Z.ltb_spec (failure_count s + 1) 3), (Z.eqb_spec (failure_count s) 2); try lia.
      * eexists. split; [done|]. split.
        { apply pool_ok_dset; [done|]. unfold cb_ok; cbn. rewrite Est. lia. }
        intros id'. rewrite pool_abs_dset. unfold cb_abs; cbn. by rewrite Est.
      * change (0 + 1) with 1. rewrite (cb_timeout_value 1) by lia. eexists. split; [done|]. split.
        { apply pool_ok_dset; [done|]. unfold cb_ok; cbn. lia. }
        intros id'. by rewrite pool_abs_dset.
    + eexists. split; [done|]. split; [done|]. intros id'. by apply pool_abs_id.
  - rewrite (pool_abs_None _ _ Hs). cbn. eexists. split; [done|]. split.
    { apply pool_ok_dset; [apply pool_ok_dset|]; done. }
    intros id'. rewrite !pool_abs_dset. unfold fn_update. repeat case_decide; try done.
    rewrite pool_abs_dset. unfold fn_update. by rewrite decide_False.
Qed.

Lemma process_success_refines p id : pool_ok p ->
  let '(recovered, p') := Pool.process_success id p in
  recovered = Pool.is_open id p /\ pool_ok p' /\
  forall id', pool_abs p' id' = fn_update (pool_abs p) id (Spec.success (pool_abs p id)) id'.
Proof.
  intros Hp. unfold Pool.process_success, Pool.is_open. destruct (dget id p) as [s|] eqn:Hs.
  - destruct (cb_ok_cases p id s Hp Hs) as [(Eo & Est & Htr & Hf & Ha)|(Eo & Est & Htr & Hf & Ha)];
      rewrite Eo; unfold cb_is_open; cbn [cb_state]; rewrite Est; cbn;
      (split; [done|]); (split; [by apply pool_ok_dset|]); intros id'; by rewrite pool_abs_dset.
  - split; [done|]. split; [done|]. intros id'. apply pool_abs_id. by rewrite (pool_abs_None _ _ Hs).
Qed.

Lemma process_probe_failure_refines p id : pool_ok p ->
  exists p',
    Pool.process_probe_failure id p =
      (match pool_abs p id with
       | Spec.Closed _ => Ret None
       | Spec.Open k => if k + 2 <=? 1024 then Ret (Some (Spec.backoff (k + 1))) else Raise overflow_error
       end, p') /\
    pool_ok p' /\ forall id', pool_abs p' id' = fn_update (pool_abs p) id (Spec.probe_failure (pool_abs p id)) id'.
Proof.
  intros Hp. unfold Pool.process_probe_failure. destruct (dget id p) as [s|] eqn:Hs.
  2:{ rewrite (pool_abs_None _ _ Hs). eexists. split; [done|]. split; [done|]. intros id'.
      apply pool_abs_id. by rewrite (pool_abs_None _ _ Hs). }
  destruct (cb_ok_cases p id s Hp Hs) as [(Eo & Est & Htr & Hf & Ha)|(Eo & Est & Htr & Hf & Ha)];
    rewrite Ha, Eo; cbn [Spec.probe_failure failure_count cb_state trip_count].
  - eexists. split; [done|]. split; [done|]. intros id'. by apply pool_abs_id.
  - replace (trip_count s - 1 + 2) with (trip_count s + 1) by lia.
    assert (Hok : forall t, cb_ok {| cb_state := cb_state s; trip_count := trip_count s + 1;
                                failure_count := failure_count s; current_timeout := t |}).
    { intros t. unfold cb_ok; cbn. rewrite Est. lia. }
    assert (Habs : forall t, cb_abs {| cb_state := cb_state s; trip_count := trip_count s + 1;
                                failure_count := failure_count s; current_timeout := t |} =
                             Spec.Open (trip_count s - 1 + 1)).
    { intros t. unfold cb_abs; cbn. rewrite Est. f_equal. lia. }
    destruct (Z.leb_spec (trip_count s + 1) 1024);
      [rewrite cb_timeout_value by lia | rewrite cb_timeout_overflow by lia].
    + unfold Spec.backoff. replace (trip_count s + 1 - 1) with (trip_count s - 1 + 1) by lia.
      eexists. split; [done|]. split; [by apply pool_ok_dset|].
      intros id'. by rewrite pool_abs_dset, Habs.
    + eexists. split; [done|]. split; [by apply pool_ok_dset|].
      intros id'. by rewrite pool_abs_dset, Habs.
Qed.

Lemma auto_recover_refines p id : pool_ok p ->
  let '(recovered, p') := Pool.auto_recover id p in
  recovered = Pool.is_open id p /\ pool_ok p' /\
  forall id', pool_abs p' id' = fn_update (pool_abs p) id (Spec.recover (pool_abs p id)) id'.
Proof.
  intros Hp. unfold Pool.auto_recover, Pool.is_open.
  destruct (dget id p) as [s|] eqn:Hs.
  - destruct (cb_ok_cases p id s Hp Hs) as [(Eo & Est & Htr & Hf & Ha)|(Eo & Est & Htr & Hf & Ha)];
      rewrite Eo, Ha; (split; [done|]).
    + split; [done|]. intros id'. by apply pool_abs_id.
    + split; [by apply pool_ok_dset|]. intros id'. by rewrite pool_abs_dset.
  - split; [done|]. split; [done|]. intros id'. apply pool_abs_id. by rewrite (pool_abs_None _ _ Hs).
Qed.

(** *** The server's events *)

Inductive event :=
  | Report (instance_id : option Z) (ev : string)
  | Task (t : nat) (instance : option (list (option string)))
  | RefreshSet
  | RefreshDel (ids : list Z).

(** One event of the server's loop; an [OverflowError] ends the handler or
    the task, and the state it left stays. *)
Definition exec (s : Server.CS) (e : event) : Server.CS :=
  match e with
  | Report id ev => (Server.handle_circuit_breaker_report id ev s).2
  | Task t i => (Server.auto_recover_step t i s).2
  | RefreshSet => Server.refresh_set s
  | RefreshDel ids => Server.refresh_del ids s
  end.

Definition run (es : list event) : Server.CS := foldl exec Server.cs_init es.

Import Server.

(** [id] has a live recovery task with this timeout, suspended there. *)
Definition task_of (s : CS) (id : Z) (x : pyfloat * task_at) : Prop :=
  exists t, cs_tasks s !! t = Some (id, x.1, x.2).

(** The registry: a live task is the one registered for its instance, and no
    two instances share a registered task. *)
Record tasks_ok (s : CS) : Prop := {
  to_wf : dict_wf (cs_timers s);
  to_live : forall t id x ph, cs_tasks s !! t = Some (id, x, ph) -> dget id (cs_timers s) = Some t;
  to_next : forall id t, dget id (cs_timers s) = Some t -> (t < cs_next s)%nat;
  to_inj : forall id id' t, dget id (cs_timers s) = Some t -> dget id' (cs_timers s) = Some t -> id = id' }.

(** An open circuit is armed: its next probe is scheduled after the back-off
    of its failed probes, as long as the back-off can be computed; after that
    nothing is scheduled. *)
Definition armed (s : CS) : Prop := forall id k, pool_abs (cs_pool s) id = Spec.Open k ->
  if k + 1 <=? 1024 then task_of s id (Spec.backoff k, Probing) else forall x, ~ task_of s id x.

Record server_ok (s : CS) : Prop := {
  so_pool : pool_ok (cs_pool s);
  so_tasks : tasks_ok s;
  so_armed : armed s }.

Lemma schedule_recovery_tasks id timeout s : tasks_ok s ->
  tasks_ok (schedule_recovery id timeout s) /\
  forall id' x, task_of (schedule_recovery id timeout s) id' x <->
    if decide (id = id') then x = (timeout, Probing) else task_of s id' x.
Proof.
  intros [Hwf Hlive Hnext Hinj].
  set (s1 := match dget id (cs_timers s) with Some t => cancel t s | None => s end).
  assert (Heq : cs_timers s1 = cs_timers s /\ cs_next s1 = cs_next s) by (by unfold s1; destruct (dget id _)).
  destruct Heq as [Ht Hn].
  assert (Hs1 : forall t id' x, cs_tasks s1 !! t = Some (id', x.1, x.2) <->
                  id <> id' /\ cs_tasks s !! t = Some (id', x.1, x.2)).
  { intros t id' x. unfold s1. destruct (dget id (cs_timers s)) as [t0|] eqn:E.
    - cbn. rewrite lookup_delete_Some. split.
      + intros [Hne H]. split; [|done]. intros <-. pose proof (Hlive _ _ _ _ H). congruence.
      + intros [Hne H]. split; [|done]. intros <-. pose proof (Hlive _ _ _ _ H). eauto.
    - split; [|tauto]. intros H. split; [|done]. intros <-. pose proof (Hlive _ _ _ _ H). congruence. }
  assert (Hfresh : cs_tasks s !! cs_next s = None).
  { destruct (cs_tasks s !! cs_next s) as [[[id' x] ph]|] eqn:E; [|done].
    pose proof (Hnext _ _ (Hlive _ _ _ _ E)). lia. }
  assert (Hlk : forall t id' x, cs_tasks (schedule_recovery id timeout s) !! t = Some (id', x.1, x.2) <->
      (t = cs_next s /\ id' = id /\ x = (timeout, Probing)) \/
      (id <> id' /\ cs_tasks s !! t = Some (id', x.1, x.2))).
  { intros t id' [x ph]. unfold schedule_recovery. fold s1. cbn. rewrite Hn, lookup_insert_Some.
    pose proof (Hs1 t id' (x, ph)) as Hx. cbn in Hx. rewrite Hx. split.
    - intros [[<- [= <- <- <-]]|[Hne H]]; [by left|by right].
    - intros [(-> & -> & [= -> ->])|[Hne H]]; [by left|right]. split; [|done]. intros <-. congruence. }
  assert (Htm : cs_timers (schedule_recovery id timeout s) = dset id (cs_next s) (cs_timers s)).
  { unfold schedule_recovery. fold s1. cbn. by rewrite Hn, Ht. }
  split.
  - split; rewrite ?Htm.
    + by apply dset_wf.
    + intros t id' x ph H. apply (Hlk t id' (x, ph)) in H as [(-> & -> & _)|[Hne H]];
        [by rewrite dget_dset_eq|]. rewrite dget_dset_ne by done. by eapply Hlive.
    + intros id' t. change (cs_next (schedule_recovery id timeout s)) with (S (cs_next s1)).
      rewrite Hn, dget_dset. case_decide; [intros [= <-]; lia|]. intros H'%Hnext. lia.
    + intros id1 id2 t. rewrite !dget_dset. repeat case_decide; intros H1 H2; simplify_eq; try done;
        try (pose proof (Hnext _ _ H1); lia); try (pose proof (Hnext _ _ H2); lia). eauto.
  - intros id' x. unfold task_of. setoid_rewrite Hlk. case_decide as Hd; [subst id'|].
    + split; [intros [t [(_ & _ & ->)|[? _]]]; done|]. intros ->. eexists. by left.
    + split; [intros [t [(_ & -> & _)|[_ H]]]; [done|eauto]|]. intros [t H]. exists t. by right.
Qed.

Lemma cancel_task t id x ph s : tasks_ok s -> cs_tasks s !! t = Some (id, x, ph) ->
  tasks_ok (cancel t s) /\ forall id' y, task_of (cancel t s) id' y <-> id <> id' /\ task_of s id' y.
Proof.
  intros [Hwf Hlive Hnext Hinj] Ht. split.
  - split; try done. cbn. intros t' id' x' ph' [Hne H]%lookup_delete_Some. by eapply Hlive.
  - intros id' y. unfold task_of. cbn. setoid_rewrite lookup_delete_Some. split.
    + intros (t' & Hne & H). split; [|eauto]. intros <-.
      pose proof (Hlive _ _ _ _ Ht). pose proof (Hlive _ _ _ _ H). congruence.
    + intros (Hne & t' & H). exists t'. split; [|done]. intros <-. congruence.
Qed.

Lemma cancel_gone t s : cs_tasks s !! t = None -> cancel t s = s.
Proof. intros H. unfold cancel. rewrite delete_id by done. by destruct s. Qed.

Lemma cancel_recovery_tasks id s : tasks_ok s ->
  tasks_ok (cancel_recovery id s) /\
  forall id' y, task_of (cancel_recovery id s) id' y <-> id <> id' /\ task_of s id' y.
Proof.
  intros [Hwf Hlive Hnext Hinj]. unfold cancel_recovery.
  destruct (dget id (cs_timers s)) as [t|] eqn:Et.
  - assert (Hd : forall id' t', dget id' (ddel id (cs_timers s)) = Some t' -> dget id' (cs_timers s) = Some t').
    { intros id' t'. destruct (decide (id = id')) as [<-|]; [by rewrite dget_ddel_eq|by rewrite dget_ddel_ne]. }
    split.
    + split; cbn; [by apply ddel_wf| |eauto|eauto].
      intros t' id' x ph [Hne H]%lookup_delete_Some. pose proof (Hlive _ _ _ _ H) as H'.
      rewrite dget_ddel_ne; [done|]. intros <-. congruence.
    + intros id' y. unfold task_of. cbn. setoid_rewrite lookup_delete_Some. split.
      * intros (t' & Hne & H). split; [|eauto]. intros <-. pose proof (Hlive _ _ _ _ H). congruence.
      * intros (Hne & t' & H). exists t'. split; [|done]. intros <-. pose proof (Hlive _ _ _ _ H). eauto.
  - split; [done|]. intros id' y. split; [|tauto]. intros [t H]. split; [|by exists t].
    intros <-. pose proof (Hlive _ _ _ _ H). congruence.
Qed.

Lemma move_task t id x ph ph' s : tasks_ok s -> cs_tasks s !! t = Some (id, x, ph) ->
  let s' := with_tasks (<[t := (id, x, ph')]> (cs_tasks s)) s in
  tasks_ok s' /\ forall id' y, id <> id' -> task_of s' id' y <-> task_of s id' y.
Proof.
  intros [Hwf Hlive Hnext Hinj] Ht s'. split.
  - split; try done. cbn. intros t' id' x' ph'' [[<- [= <- <- <-]]|[Hne H]]%lookup_insert_Some; by eapply Hlive.
  - intros id' y Hne. unfold task_of. cbn. setoid_rewrite lookup_insert_Some. split.
    + intros (t' & [[<- [= -> _]]|[Hne' H]]); [done|eauto].
    + intros (t' & H). exists t'. right. split; [|done]. intros <-. congruence.
Qed.

(** Only instance [id] changes. *)
Lemma armed_frame s s' id : armed s ->
  (forall id', id <> id' -> pool_abs (cs_pool s') id' = pool_abs (cs_pool s) id') ->
  (forall id' x, id <> id' -> task_of s' id' x <-> task_of s id' x) ->
  (forall k, pool_abs (cs_pool s') id = Spec.Open k ->
     if k + 1 <=? 1024 then task_of s' id (Spec.backoff k, Probing) else forall x, ~ task_of s' id x) ->
  armed s'.
Proof.
  intros Ha Hp Ht Hid id' k Hk. destruct (decide (id = id')) as [<-|Hne]; [by apply Hid|].
  rewrite Hp in Hk by done. specialize (Ha id' k Hk). destruct (_ <=? _).
  - by apply Ht.
  - intros x. rewrite Ht by done. apply Ha.
Qed.

Lemma fn_update_eq {A} (f : Z -> A) id a : fn_update f id a id = a.
Proof. unfold fn_update. by rewrite decide_True. Qed.
Lemma fn_update_ne {A} (f : Z -> A) id a id' : id <> id' -> fn_update f id a id' = f id'.
Proof. intros. unfold fn_update. by rewrite decide_False. Qed.

Lemma report_failure_ok id s : server_ok s ->
  server_ok (handle_circuit_breaker_report (Some id) "failure" s).2.
Proof.
  intros [Hp Ht Ha]. unfold handle_circuit_breaker_report. rewrite decide_True by done.
  destruct (process_failure_refines (cs_pool s) id Hp) as (p' & -> & Hp' & Habs).
  assert (Hne : forall id', id <> id' -> pool_abs p' id' = pool_abs (cs_pool s) id')
    by (intros; by rewrite Habs, fn_update_ne).
  pose proof (Habs id) as Hid. rewrite fn_update_eq in Hid.
  destruct (pool_abs (cs_pool s) id) as [n|k] eqn:E; cbn [Spec.trips Spec.failure] in *.
  - destruct (Z.eqb_spec n 2).
    + destruct (schedule_recovery_tasks id (Spec.backoff 0) (with_pool p' s)) as [Ht' Hof]; [by destruct Ht|].
      split; [| |]; cbn [snd].
      * change (pool_ok (cs_pool (schedule_recovery id (Spec.backoff 0) (with_pool p' s)))).
        unfold schedule_recovery. by destruct (dget _ _).
      * by destruct Ht'.
      * apply (armed_frame s _ id Ha); cbn [publish cs_pool].
        -- intros id' Hd. rewrite <- Hne by done. unfold schedule_recovery. by destruct (dget _ _).
        -- intros id' x Hd. etrans; [apply Hof|]. by rewrite decide_False.
        -- intros k. assert (cs_pool (schedule_recovery id (Spec.backoff 0) (with_pool p' s)) = p') as ->.
           { unfold schedule_recovery. by destruct (dget _ _). }
           rewrite Hid. intros [= <-]. cbn. apply Hof. by rewrite decide_True.
    + split; [done|by destruct Ht|]. apply (armed_frame s _ id Ha); [done|done|]. cbn. intros k. by rewrite Hid.
  - split; [done|by destruct Ht|]. apply (armed_frame s _ id Ha); [done|done|]. cbn. intros k'. rewrite Hid.
    intros [= <-]. apply (Ha id k E).
Qed.

Lemma cs_pool_cancel_recovery id s : cs_pool (cancel_recovery id s) = cs_pool s.
Proof. unfold cancel_recovery. by destruct (dget _ _). Qed.
Lemma cs_pool_schedule_recovery id x s : cs_pool (schedule_recovery id x s) = cs_pool s.
Proof. unfold schedule_recovery. by destruct (dget _ _). Qed.

(** Closing a circuit (or forgetting it) while its task is cancelled. *)
Lemma close_cancel_ok id p' s : server_ok s -> pool_ok p' ->
  (forall id', id <> id' -> pool_abs p' id' = pool_abs (cs_pool s) id') ->
  (forall k, pool_abs p' id <> Spec.Open k) ->
  server_ok (cancel_recovery id (with_pool p' s)).
Proof.
  intros [Hp Ht Ha] Hp' Hne Hcl.
  destruct (cancel_recovery_tasks id (with_pool p' s)) as [Ht' Hof]; [by destruct Ht|].
  split; [by rewrite cs_pool_cancel_recovery|done|].
  apply (armed_frame s _ id Ha); rewrite ?cs_pool_cancel_recovery; [done| |].
  - intros id' x Hd. etrans; [apply Hof|]. split; [by intros [_ ?]|by split].
  - intros k Hk. by destruct (Hcl k).
Qed.

(** Closing a circuit and leaving the tasks alone. *)
Lemma close_ok id p' s : server_ok s -> pool_ok p' ->
  (forall id', id <> id' -> pool_abs p' id' = pool_abs (cs_pool s) id') ->
  (forall k, pool_abs p' id <> Spec.Open k) ->
  server_ok (with_pool p' s).
Proof.
  intros [Hp Ht Ha] Hp' Hne Hcl. split; [done|by destruct Ht|].
  apply (armed_frame s _ id Ha); [done|done|]. intros k Hk. by destruct (Hcl k).
Qed.

Lemma publish_ok id st s : server_ok s -> server_ok (publish id st s).
Proof. intros [Hp [? ? ? ?] Ha]. by split. Qed.

Lemma report_success_ok id s : server_ok s ->
  server_ok (handle_circuit_breaker_report (Some id) "success" s).2.
Proof.
  intros Hs. unfold handle_circuit_breaker_report. rewrite decide_False, decide_True by done.
  pose proof (process_success_refines (cs_pool s) id (so_pool s Hs)) as H.
  destruct (Pool.process_success id (cs_pool s)) as [[] p']; destruct H as (_ & Hp' & Habs); cbn [snd].
  - apply publish_ok, close_cancel_ok; try done.
    + intros id' Hd. by rewrite Habs, fn_update_ne.
    + intros k. by rewrite Habs, fn_update_eq.
  - apply (close_ok id); try done.
    + intros id' Hd. by rewrite Habs, fn_update_ne.
    + intros k. by rewrite Habs, fn_update_eq.
Qed.

Lemma report_ok id ev s : server_ok s -> server_ok (handle_circuit_breaker_report id ev s).2.
Proof.
  intros Hs. destruct id as [id|]; [|done].
  destruct (decide (ev = "failure"%string)) as [->|H1]; [by apply report_failure_ok|].
  destruct (decide (ev = "success"%string)) as [->|H2]; [by apply report_success_ok|].
  unfold handle_circuit_breaker_report. by rewrite !decide_False.
Qed.

Lemma pool_abs_clear id p id' : dict_wf p ->
  pool_abs (Pool.clear_instance id p) id' = fn_update (pool_abs p) id (Spec.Closed 0) id'.
Proof.
  intros Hwf. unfold Pool.clear_instance, fn_update, pool_abs. destruct (dmem id p) eqn:E.
  - case_decide; [subst; by rewrite dget_ddel_eq|by rewrite dget_ddel_ne].
  - case_decide; [subst|done]. destruct (dget id' p) eqn:Eg; [|done].
    apply dget_Some_key, dmem_spec in Eg. congruence.
Qed.

Lemma clear_instance_ok id p : pool_ok p -> pool_ok (Pool.clear_instance id p).
Proof. intros Hp. unfold Pool.clear_instance. destruct (dmem id p); [by apply pool_ok_ddel|done]. Qed.

Lemma refresh_del_ok ids s : server_ok s -> server_ok (refresh_del ids s).
Proof.
  unfold refresh_del. revert s. induction ids as [|id ids IH]; intros s Hs; [done|]. cbn. apply IH.
  pose proof (so_pool s Hs) as Hp. apply close_cancel_ok; [done|by apply clear_instance_ok| |].
  - intros id' Hd. rewrite pool_abs_clear by apply Hp. by rewrite fn_update_ne.
  - intros k. rewrite pool_abs_clear by apply Hp. by rewrite fn_update_eq.
Qed.

Lemma cancel_all_spec l : forall s, dict_wf (cs_timers s) ->
  let s' := foldl (fun s '(key, t) => cancel t (with_timers (ddel key (cs_timers s)) s)) s l in
  cs_pool s' = cs_pool s /\ cs_next s' = cs_next s /\ dict_wf (cs_timers s') /\
  (forall id t, dget id (cs_timers s') = Some t -> dget id (cs_timers s) = Some t) /\
  (forall t x, cs_tasks s' !! t = Some x -> cs_tasks s !! t = Some x /\ t ∉ l.*2).
Proof.
  induction l as [|[key t0] l IH]; intros s Hwf; cbn.
  { do 4 (split; [done|]). intros t x H. split; [done|]. apply not_elem_of_nil. }
  destruct (IH (cancel t0 (with_timers (ddel key (cs_timers s)) s))) as (H1 & H2 & H3 & H4 & H5);
    [by apply ddel_wf|]. cbn in *.
  do 3 (split; [done|]). split.
  - intros id t H%H4. destruct (decide (key = id)) as [<-|]; [by rewrite dget_ddel_eq in H|].
    by rewrite dget_ddel_ne in H.
  - intros t x [[Hne H]%lookup_delete_Some Hni]%H5. split; [done|]. apply not_elem_of_cons. by split.
Qed.

Lemma publish_all_ok ids s : server_ok s ->
  server_ok (foldl (fun s id => publish id CB_CLOSED s) s ids).
Proof. revert s. induction ids as [|id ids IH]; intros s Hs; [done|]. by apply IH, publish_ok. Qed.

Lemma refresh_set_ok s : server_ok s -> server_ok (refresh_set s).
Proof.
  intros [Hp Ht Ha]. unfold refresh_set. apply publish_all_ok. cbn [Pool.clear_all snd].
  pose proof (cancel_all_spec (cs_timers (with_pool [] s)) (with_pool [] s) (to_wf s Ht)) as H.
  cbn zeta in H. remember (foldl _ (with_pool [] s) (cs_timers (with_pool [] s))) as s' eqn:Es'. clear Es'. cbn in H.
  destruct H as (H1 & H2 & H3 & H4 & H5). destruct Ht as [Hwf Hlive Hnext Hinj].
  split; [| |].
  - rewrite H1. split; [apply dict_wf_nil|done].
  - split; [done| | |].
    + intros t id x ph [H Hni]%H5. destruct Hni. apply list_elem_of_fmap. exists (id, t).
      split; [done|]. by eapply dget_elem, Hlive.
    + intros id t H%H4%Hnext. by rewrite H2.
    + intros id id' t Ha1%H4 Ha2%H4. eauto.
  - intros id k. by rewrite H1.
Qed.

(** The end of a probe that failed.  While the circuit is open the running
    task is its armed one, so extending the timeout re-arms it. *)
Lemma probe_failure_end_ok t id x ph s : server_ok s -> cs_tasks s !! t = Some (id, x, ph) ->
  server_ok (probe_failure_end t id s).2.
Proof.
  intros [Hp Ht Ha] Hlk. unfold probe_failure_end.
  destruct (process_probe_failure_refines (cs_pool s) id Hp) as (p' & -> & Hp' & Habs).
  assert (Hne : forall id', id <> id' -> pool_abs p' id' = pool_abs (cs_pool s) id')
    by (intros; by rewrite Habs, fn_update_ne).
  pose proof (Habs id) as Hid. rewrite fn_update_eq in Hid.
  assert (Ht0 : tasks_ok (with_pool p' s)) by by destruct Ht.
  assert (Hc : server_ok (cancel t (with_pool p' s)) <-> (forall k, pool_abs p' id = Spec.Open k -> 1024 < k + 1)).
  { destruct (cancel_task t id x ph (with_pool p' s) Ht0 Hlk) as [Htc Hof]. split.
    - intros [_ _ Hac] k Hk. specialize (Hac id k Hk). destruct (Z.leb_spec (k + 1) 1024); [|lia].
      apply Hof in Hac as [? _]. done.
    - intros Hk. split; [done|done|]. apply (armed_frame s _ id Ha); [done| |].
      + intros id' y Hd. etrans; [apply Hof|]. split; [by intros [_ ?]|by split].
      + intros k Hk'. apply Hk in Hk'. destruct (Z.leb_spec (k + 1) 1024); [lia|].
        intros y [Hd _]%Hof. done. }
  destruct (pool_abs (cs_pool s) id) as [n|k] eqn:E; cbn [Spec.probe_failure] in *.
  - apply Hc. intros k. by rewrite Hid.
  - destruct (Z.leb_spec (k + 2) 1024).
    + destruct (schedule_recovery_tasks id (Spec.backoff (k + 1)) (with_pool p' s) Ht0) as [Ht' Hof].
      cbn [snd]. rewrite cancel_gone.
      2:{ pose proof (to_live s Ht _ _ _ _ Hlk) as Hreg. pose proof (to_next s Ht _ _ Hreg).
          unfold schedule_recovery. cbn [cs_timers with_pool]. rewrite Hreg. cbn.
          rewrite lookup_insert_ne by lia. apply lookup_delete_eq. }
      split; [by rewrite cs_pool_schedule_recovery|done|].
      apply (armed_frame s _ id Ha); rewrite ?cs_pool_schedule_recovery.
      * done.
      * intros id' y Hd. etrans; [apply Hof|]. by rewrite decide_False.
      * cbn [cs_pool with_pool]. rewrite Hid. intros k' [= <-].
        replace (k + 1 + 1 <=? 1024) with true by (symmetry; apply Z.leb_le; lia).
        apply Hof. by rewrite decide_True.
    + apply Hc. intros k'. rewrite Hid. intros [= <-]. lia.
Qed.

Lemma auto_recover_step_ok t i s : server_ok s -> server_ok (auto_recover_step t i s).2.
Proof.
  intros Hs. unfold auto_recover_step. destruct (cs_tasks s !! t) as [[[id x] []]|] eqn:Hlk; [| | |done].
  - destruct (probe_instance i).
    + cbn [snd]. set (p' := Pool.clear_instance id (cs_pool s)).
      assert (H : server_ok (publish id CB_CLOSED (with_pool p' s))).
      { apply publish_ok, (close_ok id); [done|by apply clear_instance_ok, so_pool| |].
        - intros id' Hd. unfold p'. rewrite pool_abs_clear by apply (so_pool s Hs). by rewrite fn_update_ne.
        - intros k. unfold p'. rewrite pool_abs_clear by apply (so_pool s Hs). by rewrite fn_update_eq. }
      destruct H as [Hp Ht Ha].
      destruct (move_task t id x Probing Dropping _ Ht Hlk) as [Ht' Hof]. split; [done|done|].
      apply (armed_frame _ _ id Ha); [done|done|]. cbn. intros k. unfold p'.
      rewrite pool_abs_clear by apply (so_pool s Hs). by rewrite fn_update_eq.
    + by eapply probe_failure_end_ok.
    + pose proof (auto_recover_refines (cs_pool s) id (so_pool s Hs)) as Hr.
      destruct (Pool.auto_recover id (cs_pool s)) as [rec p']. destruct Hr as (_ & Hp' & Habs). cbn [snd].
      assert (Hcl : forall k, pool_abs p' id <> Spec.Open k).
      { intros k. rewrite Habs, fn_update_eq. by destruct (pool_abs (cs_pool s) id). }
      set (s1 := if rec then publish id CB_CLOSED (with_pool p' s) else with_pool p' s).
      assert (H : server_ok s1 /\ cs_tasks s1 = cs_tasks s /\ cs_pool s1 = p').
      { assert (server_ok (with_pool p' s)).
        { apply (close_ok id); [done|done| |done]. intros id' Hd. by rewrite Habs, fn_update_ne. }
        unfold s1. destruct rec; (split; [|done]); [by apply publish_ok|done]. }
      destruct H as ([Hp Ht Ha] & Htk & Hpp).
      rewrite <- Htk in Hlk. destruct (move_task t id x Probing Closing _ Ht Hlk) as [Ht' Hof].
      split; [done|done|]. apply (armed_frame _ _ id Ha); [done|done|]. cbn. rewrite Hpp. intros k Hk.
      by destruct (Hcl k).
  - by eapply probe_failure_end_ok.
  - cbn [snd]. destruct Hs as [Hp Ht Ha]. pose proof (to_live s Ht _ _ _ _ Hlk) as Hreg.
    rewrite decide_True by done.
    assert (Heq : cancel t (with_timers (ddel id (cs_timers s)) s) = cancel_recovery id s)
      by (unfold cancel_recovery; by rewrite Hreg).
    rewrite Heq. replace s with (with_pool (cs_pool s) s) by by destruct s.
    apply close_cancel_ok; [by split|done|done|]. intros k Hk. specialize (Ha id k Hk).
    destruct (k + 1 <=? 1024).
    + destruct Ha as [t' Ht'']. pose proof (to_live s Ht _ _ _ _ Ht''). cbn in *. congruence.
    + apply (Ha (x, Closing)). by exists t.
Qed.

Lemma exec_ok s e : server_ok s -> server_ok (exec s e).
Proof.
  destruct e; cbn; [apply report_ok|apply auto_recover_step_ok|apply refresh_set_ok|apply refresh_del_ok].
Qed.

Lemma init_ok : server_ok cs_init.
Proof.
  split.
  - split; [apply dict_wf_nil|done].
  - split; cbn; [apply dict_wf_nil| |done|done]. intros t id x ph. by rewrite lookup_empty.
  - done.
Qed.

Lemma run_ok es : server_ok (run es).
Proof.
  unfold run. generalize init_ok. generalize cs_init. induction es as [|e es IH]; intros s Hs; [done|].
  cbn. by apply IH, exec_ok.
Qed.

(** *** What the workers are told

    The last publication about an instance. *)
Definition last_published (id : Z) (log : list (Z * cb_phase)) : option cb_phase :=
  foldl (fun acc p => if decide (p.1 = id) then Some p.2 else acc) None log.

Lemma last_published_snoc id log id' st :
  last_published id (log ++ [(id', st)]) = if decide (id' = id) then Some st else last_published id log.
Proof. unfold last_published. by rewrite foldl_app. Qed.

Definition told_open (s : CS) (id : Z) : Prop := last_published id (cs_published s) = Some CB_OPEN.
Definition opened (p : cb_pool) (id : Z) : Prop := exists k, pool_abs p id = Spec.Open k.

Lemma told_open_publish id st s id' :
  told_open (publish id st s) id' <-> if decide (id = id') then st = CB_OPEN else told_open s id'.
Proof.
  unfold told_open. change (cs_published (publish id st s)) with (cs_published s ++ [(id, st)]).
  rewrite last_published_snoc. case_decide; naive_solver.
Qed.

Section Announce.
(** [exact]: no DEL refresh occurred, which forgets a circuit silently. *)
Context (exact : Prop).

Definition announced (s : CS) : Prop := forall id,
  (opened (cs_pool s) id -> told_open s id) /\ (exact -> told_open s id -> opened (cs_pool s) id).

Lemma announced_frame s s' id : announced s ->
  (forall id', id <> id' -> opened (cs_pool s') id' <-> opened (cs_pool s) id') ->
  (forall id', id <> id' -> told_open s' id' <-> told_open s id') ->
  (opened (cs_pool s') id -> told_open s' id) ->
  (exact -> told_open s' id -> opened (cs_pool s') id) -> announced s'.
Proof.
  intros Ha Ho Ht H1 H2 id'. destruct (decide (id = id')) as [<-|Hne]; [by split|].
  rewrite Ho, Ht by done. apply Ha.
Qed.

Lemma opened_ext p p' id : pool_abs p' id = pool_abs p id -> opened p' id <-> opened p id.
Proof. unfold opened. by intros ->. Qed.

Lemma opened_dec p id : {opened p id} + {~ opened p id}.
Proof. unfold opened. destruct (pool_abs p id) as [n|k]; [right; by intros []|left; by exists k]. Qed.

Lemma told_open_timers id x s id' : told_open (schedule_recovery id x s) id' <-> told_open s id'.
Proof. unfold told_open, schedule_recovery. by destruct (dget _ _). Qed.
Lemma told_open_cancel id s id' : told_open (cancel_recovery id s) id' <-> told_open s id'.
Proof. unfold told_open, cancel_recovery. by destruct (dget _ _). Qed.

Lemma report_announced id ev s : server_ok s -> announced s ->
  announced (handle_circuit_breaker_report id ev s).2.
Proof.
  intros Hs Ha. destruct id as [id|]; [|done]. unfold handle_circuit_breaker_report.
  case_decide; [|case_decide; [|done]].
  - destruct (process_failure_refines (cs_pool s) id (so_pool s Hs)) as (p' & -> & Hp' & Habs).
    pose proof (Habs id) as Hid. rewrite fn_update_eq in Hid.
    assert (Hne : forall id', id <> id' -> opened p' id' <-> opened (cs_pool s) id')
      by (intros; apply opened_ext; by rewrite Habs, fn_update_ne).
    destruct (Spec.trips (pool_abs (cs_pool s) id)) eqn:Etr; cbn [snd].
    + apply (announced_frame s _ id Ha); cbn [publish cs_pool]; rewrite ?cs_pool_schedule_recovery.
      * done.
      * intros id' Hd. rewrite told_open_publish, decide_False by done. etrans; [apply told_open_timers|done].
      * intros _. rewrite told_open_publish. by rewrite decide_True.
      * intros _ _. exists 0. cbn. rewrite Hid. destruct (pool_abs (cs_pool s) id) as [n|k]; cbn in *; [|done].
        by rewrite Etr.
    + assert (Hsame : opened p' id <-> opened (cs_pool s) id).
      { unfold opened. rewrite Hid. destruct (pool_abs (cs_pool s) id) as [n|k]; cbn in *; [|done].
        rewrite Etr. split; by intros []. }
      apply (announced_frame s _ id Ha); [done|done| |]; cbn [cs_pool with_pool]; rewrite Hsame; apply Ha.
  - pose proof (process_success_refines (cs_pool s) id (so_pool s Hs)) as H'.
    destruct (Pool.process_success id (cs_pool s)) as [rec p']; destruct H' as (Hrec & Hp' & Habs).
    assert (Hne : forall id', id <> id' -> opened p' id' <-> opened (cs_pool s) id')
      by (intros; apply opened_ext; by rewrite Habs, fn_update_ne).
    assert (Hcl : ~ opened p' id) by (intros [k Hk]; by rewrite Habs, fn_update_eq in Hk).
    destruct rec; cbn [snd].
    + apply (announced_frame s _ id Ha); cbn [publish cs_pool]; rewrite ?cs_pool_cancel_recovery; try done.
      * intros id' Hd. rewrite told_open_publish, decide_False by done. etrans; [apply told_open_cancel|done].
      * intros _. rewrite told_open_publish. by rewrite decide_True.
    + apply (announced_frame s _ id Ha); try done. intros Hex Ht. apply Ha in Ht; [|done].
      apply is_open_abs in Ht. congruence.
Qed.

Lemma move_announced ts s : announced s -> announced (with_tasks ts s).
Proof. done. Qed.

Lemma probe_failure_end_announced t id s : server_ok s -> announced s -> announced (probe_failure_end t id s).2.
Proof.
  intros Hs Ha. unfold probe_failure_end.
  destruct (process_probe_failure_refines (cs_pool s) id (so_pool s Hs)) as (p' & -> & Hp' & Habs).
  assert (Hall : forall id', opened p' id' <-> opened (cs_pool s) id').
  { intros id'. unfold opened. rewrite Habs. unfold fn_update. case_decide; [subst id'|done].
    destruct (pool_abs (cs_pool s) id); [done|]. cbn. split; intros _; by eexists. }
  assert (Hw : announced (with_pool p' s)).
  { intros id'. cbn [cs_pool with_pool]. rewrite Hall. apply Ha. }
  destruct (pool_abs (cs_pool s) id) as [n|k]; [done|]. destruct (_ <=? _); [|done].
  intros id'. cbn [snd]. specialize (Hw id'). cbn [cancel with_tasks cs_pool] in *.
  rewrite cs_pool_schedule_recovery.
  assert (told_open (cancel t (schedule_recovery id (Spec.backoff (k + 1)) (with_pool p' s))) id' <->
          told_open (with_pool p' s) id') as -> by (apply told_open_timers). done.
Qed.

Lemma auto_recover_step_announced t i s : server_ok s -> announced s -> announced (auto_recover_step t i s).2.
Proof.
  intros Hs Ha. unfold auto_recover_step. destruct (cs_tasks s !! t) as [[[id x] []]|] eqn:Hlk; [| | |done].
  - destruct (probe_instance i); [|by apply probe_failure_end_announced|].
    + apply move_announced. pose proof (proj1 (so_pool s Hs)) as Hwf.
      assert (Hcl : ~ opened (Pool.clear_instance id (cs_pool s)) id)
        by (intros [k Hk]; by rewrite pool_abs_clear, fn_update_eq in Hk).
      apply (announced_frame s _ id Ha); cbn [publish cs_pool with_pool]; try done.
      * intros id' Hd. apply opened_ext. by rewrite pool_abs_clear, fn_update_ne.
      * intros id' Hd. by rewrite told_open_publish, decide_False.
      * rewrite told_open_publish. by rewrite decide_True.
    + pose proof (auto_recover_refines (cs_pool s) id (so_pool s Hs)) as Hr.
      destruct (Pool.auto_recover id (cs_pool s)) as [rec p']. destruct Hr as (Hrec & Hp' & Habs).
      apply move_announced.
      assert (Hne : forall id', id <> id' -> opened p' id' <-> opened (cs_pool s) id')
        by (intros; apply opened_ext; by rewrite Habs, fn_update_ne).
      assert (Hcl : ~ opened p' id).
      { intros [k Hk]. rewrite Habs, fn_update_eq in Hk. by destruct (pool_abs (cs_pool s) id). }
      destruct rec; apply (announced_frame s _ id Ha); cbn [publish cs_pool with_pool]; try done.
      * intros id' Hd. by rewrite told_open_publish, decide_False.
      * rewrite told_open_publish. by rewrite decide_True.
      * intros Hex Ht. apply Ha in Ht; [|done]. apply is_open_abs in Ht. congruence.
  - by apply probe_failure_end_announced.
  - apply move_announced. by case_decide.
Qed.

Lemma publish_closed_all ids : forall s id,
  let s' := foldl (fun s id => publish id CB_CLOSED s) s ids in
  cs_pool s' = cs_pool s /\ (told_open s' id <-> id ∉ ids /\ told_open s id).
Proof.
  induction ids as [|i ids IH]; intros s id; cbn [foldl].
  - split; [done|]. split; [|by intros []]. intros H. split; [apply not_elem_of_nil|done].
  - destruct (IH (publish i CB_CLOSED s) id) as [Hp Ht]. split; [by rewrite Hp|].
    rewrite Ht, told_open_publish, not_elem_of_cons. case_decide; naive_solver.
Qed.

Lemma opened_listed p id : opened p id -> id ∈ Pool.get_open_instance_ids p.
Proof.
  intros [k Hk]. unfold pool_abs in Hk. destruct (dget id p) as [c|] eqn:E; [|done].
  apply list_elem_of_fmap. exists (id, c). split; [done|]. apply list_elem_of_filter.
  split; [|by apply dget_elem]. cbn. apply cb_is_open_spec. unfold cb_abs in Hk.
  destruct (cb_state c); [congruence|done].
Qed.

Lemma cancel_all_published l : forall s,
  cs_published (foldl (fun s '(key, t) => cancel t (with_timers (ddel key (cs_timers s)) s)) s l) = cs_published s.
Proof. induction l as [|[key t] l IH]; intros s; [done|]. cbn. by rewrite IH. Qed.

Lemma refresh_set_announced s : server_ok s -> announced s -> announced (refresh_set s).
Proof.
  intros Hs Ha id. unfold refresh_set.
  pose proof (cancel_all_spec (cs_timers (with_pool [] s)) (with_pool [] s) (to_wf s (so_tasks s Hs))) as [Hp _].
  pose proof (cancel_all_published (cs_timers (with_pool [] s)) (with_pool [] s)) as Hpub.
  cbn [Pool.clear_all snd] in *.
  set (s1 := foldl _ (with_pool [] s) (cs_timers (with_pool [] s))) in *.
  destruct (publish_closed_all (Pool.get_open_instance_ids (cs_pool s)) s1 id) as [Hp' Ht].
  rewrite Hp', Hp, Ht. split; [by intros []|]. intros Hex [Hni Hto]. destruct Hni.
  apply opened_listed, Ha; [done|]. unfold told_open in *. by rewrite Hpub in Hto.
Qed.

Lemma refresh_del_announced ids s : ~ exact -> server_ok s -> announced s -> announced (refresh_del ids s).
Proof.
  intros Hex. unfold refresh_del. revert s. induction ids as [|id ids IH]; intros s Hs Ha; [done|].
  cbn [foldl]. pose proof (so_pool s Hs) as Hp. apply IH; [by apply (refresh_del_ok [id])|].
  intros id'. rewrite cs_pool_cancel_recovery. cbn [with_pool cs_pool].
  split; [|done]. intros [k Hk]. rewrite pool_abs_clear in Hk by apply Hp.
  assert (Ht : told_open s id').
  { apply Ha. exists k. unfold fn_update in Hk. by case_decide. }
  by apply told_open_cancel.
Qed.

Lemma exec_announced s e : (exact -> forall ids, e <> RefreshDel ids) ->
  server_ok s -> announced s -> announced (exec s e).
Proof.
  destruct e; cbn; intros Hex Hs Ha; [by apply report_announced|by apply auto_recover_step_announced|
    by apply refresh_set_announced|]. apply refresh_del_announced; [|done|done]. intros H. by eapply Hex.
Qed.

Lemma run_announced es : (exact -> forall ids, RefreshDel ids ∉ es) -> announced (run es).
Proof.
  unfold run. assert (Ha : announced cs_init) by (intros id; by split; [intros []|]).
  revert Ha. generalize init_ok. generalize cs_init. induction es as [|e es IH]; intros s Hs Ha Hex; [done|].
  cbn. apply IH; [by apply exec_ok| |].
  - apply exec_announced; [|done|done]. intros He ids ->. apply (Hex He ids). apply list_elem_of_here.
  - intros He ids Hin. apply (Hex He ids). by apply list_elem_of_further.
Qed.
End Announce.

(** ** Properties *)

(** The operations of the pool as events, with what each returns. *)
Inductive pool_op := Failure (id : Z) | Success (id : Z) | ProbeFailure (id : Z) | AutoRecover (id : Z)
  | ClearInstance (id : Z) | ClearAll.
Inductive pool_res :=
  | RTrip (r : outcome OverflowError (bool * pyfloat))
  | RBool (b : bool)
  | RProbe (r : outcome OverflowError (option pyfloat))
  | RNone.

Definition pool_exec (p : cb_pool) (o : pool_op) : pool_res * cb_pool :=
  match o with
  | Failure id => let '(r, p) := Pool.process_failure id p in (RTrip r, p)
  | Success id => let '(r, p) := Pool.process_success id p in (RBool r, p)
  | ProbeFailure id => let '(r, p) := Pool.process_probe_failure id p in (RProbe r, p)
  | AutoRecover id => let '(r, p) := Pool.auto_recover id p in (RBool r, p)
  | ClearInstance id => (RNone, Pool.clear_instance id p)
  | ClearAll => (RNone, (Pool.clear_all p).2)
  end.

Definition spec_open (a : Spec.t) : bool := match a with Spec.Open _ => true | _ => false end.

(** The same events on the abstract breakers. *)
Definition spec_exec (f : Z -> Spec.t) (o : pool_op) : pool_res * (Z -> Spec.t) :=
  match o with
  | Failure id =>
      (RTrip (Ret (if Spec.trips (f id) then (true, Spec.backoff 0) else (false, f0))),
       fn_update f id (Spec.failure (f id)))
  | Success id => (RBool (spec_open (f id)), fn_update f id (Spec.success (f id)))
  | ProbeFailure id =>
      (RProbe (match f id with
               | Spec.Closed _ => Ret None
               | Spec.Open k =>
                   if k + 2 <=? 1024 then Ret (Some (Spec.backoff (k + 1))) else Raise overflow_error
               end), fn_update f id (Spec.probe_failure (f id)))
  | AutoRecover id => (RBool (spec_open (f id)), fn_update f id (Spec.recover (f id)))
  | ClearInstance id => (RNone, fn_update f id (Spec.Closed 0))
  | ClearAll => (RNone, fun _ => Spec.Closed 0)
  end.

Lemma is_open_spec_open p id : Pool.is_open id p = spec_open (pool_abs p id).
Proof.
  apply eq_iff_eq_true. rewrite is_open_abs. unfold spec_open.
  destruct (pool_abs p id); naive_solver.
Qed.

Lemma pool_exec_refines p o : pool_ok p ->
  (pool_exec p o).1 = (spec_exec (pool_abs p) o).1 /\ pool_ok (pool_exec p o).2 /\
  forall id, pool_abs (pool_exec p o).2 id = (spec_exec (pool_abs p) o).2 id.
Proof.
  intros Hp. destruct o as [id|id|id|id|id|]; cbn.
  - destruct (process_failure_refines p id Hp) as (p' & -> & ? & ?). done.
  - pose proof (process_success_refines p id Hp) as H. destruct (Pool.process_success id p) as [r p'].
    rewrite <- is_open_spec_open. destruct H as (-> & ? & ?). done.
  - destruct (process_probe_failure_refines p id Hp) as (p' & -> & ? & ?). done.
  - pose proof (auto_recover_refines p id Hp) as H. destruct (Pool.auto_recover id p) as [r p'].
    rewrite <- is_open_spec_open. destruct H as (-> & ? & ?). done.
  - split; [done|]. split; [by apply clear_instance_ok|]. intros id'. by rewrite pool_abs_clear by apply Hp.
  - split; [done|]. split; [|done]. split; [apply dict_wf_nil|done].
Qed.

(** The results of a sequence of events. *)
Fixpoint results {S} (ex : S -> pool_op -> pool_res * S) (s : S) (os : list pool_op) : list pool_res :=
  match os with
  | [] => []
  | o :: os => (ex s o).1 :: results ex (ex s o).2 os
  end.

(** Abstract states are compared pointwise. *)
Lemma spec_exec_ext f g o : (forall id, f id = g id) ->
  (spec_exec f o).1 = (spec_exec g o).1 /\ forall id, (spec_exec f o).2 id = (spec_exec g o).2 id.
Proof.
  intros H. destruct o; cbn; rewrite ?H; (split; [done|]); intros id'; unfold fn_update;
    try case_decide; by rewrite ?H.
Qed.

(** C13: Every sequence of circuit-breaker operations returns exactly what the
    abstract breaker promises: an instance trips on its third consecutive
    failure and never before, a trip always waits 30 seconds, each failed
    probe doubles the wait up to 300 seconds, a success or a recovery closes
    the circuit and forgets its history, and [process_failure] never
    raises. *)
Theorem pool_refines_spec os : results pool_exec [] os = results spec_exec (fun _ => Spec.Closed 0) os.
Proof.
  assert (H : forall p f, pool_ok p -> (forall id, pool_abs p id = f id) ->
            results pool_exec p os = results spec_exec f os).
  { induction os as [|o os IH]; intros p f Hp Hf; [done|]. cbn [results].
    destruct (pool_exec_refines p o Hp) as (H1 & H2 & H3).
    destruct (spec_exec_ext (pool_abs p) f o Hf) as [E1 E2].
    rewrite H1, E1. f_equal. apply IH; [done|]. intros id. by rewrite H3. }
  apply H; [split; [apply dict_wf_nil|done]|done].
Qed.

(** C16: The wait before the next probe, computed in floating point, is exactly
    [min(30 * 2^(trip_count-1), 300)] seconds for the first 1024 trips; from
    the 1025th on its computation raises [OverflowError]. *)
Theorem cb_timeout_exact n :
  (1 <= n <= 1024 -> cb_timeout n = Some (float_lit (Z.min (30 * 2 ^ (n - 1)) 300) 0)) /\
  (1024 < n -> cb_timeout n = None).
Proof. split; [apply cb_timeout_value|apply cb_timeout_overflow]. Qed.

(** C14: Whatever reports, probe answers, publications and instance refreshes
    the server has processed, an open circuit whose trip count is at most 1024
    has a live recovery task that will probe it after the back-off of its trip
    count; and the registry never loses a task: every live task is the one
    registered for its instance. *)
Theorem open_circuit_armed es id c :
  dget id (cs_pool (run es)) = Some c -> cb_is_open c = true -> trip_count c <= 1024 ->
  exists t, cs_tasks (run es) !! t =
      Some (id, float_lit (Z.min (30 * 2 ^ (trip_count c - 1)) 300) 0, Probing) /\
    dget id (cs_timers (run es)) = Some t.
Proof.
  intros Hc Ho Htr. pose proof (run_ok es) as [Hp Ht Ha].
  destruct (cb_ok_cases _ id c Hp Hc) as [(Eo & _)|(Eo & Est & Htc & Hf & Habs)]; [congruence|].
  specialize (Ha id _ Habs). replace (trip_count c - 1 + 1 <=? 1024) with true in Ha
    by (symmetry; apply Z.leb_le; lia). destruct Ha as [t Hlk]. exists t. split; [done|].
  by eapply (to_live _ Ht).
Qed.

Lemma open_circuit_armed_witness :
  exists t, cs_tasks (run (replicate 3 (Report (Some 7) "failure"))) !! t =
      Some (7, float_lit 30 0, Probing) /\
    dget 7 (cs_timers (run (replicate 3 (Report (Some 7) "failure")))) = Some t.
Proof.
  apply (open_circuit_armed (replicate 3 (Report (Some 7) "failure")) 7
           {| cb_state := CB_OPEN; trip_count := 1; failure_count := 3; current_timeout := float_lit 30 0 |});
    vm_compute; congruence.
Defined.


(** Task [i] probes instance 7 and finds its endpoint unreachable. *)
Definition failing_probes (n : nat) : list event := (fun i => Task i (Some [None])) <$> seq 0 n.
Definition stuck_events (n : nat) : list event :=
  replicate 3 (Report (Some 7) "failure") ++ failing_probes n.

(** Instance 7 after its trip and [k] failed probes. *)
Definition probing_state (k : nat) : CS :=
  {| cs_pool := [(7, {| cb_state := CB_OPEN; trip_count := Z.of_nat k + 1; failure_count := 3;
                        current_timeout := Spec.backoff (Z.of_nat k) |})];
     cs_timers := [(7, k)]; cs_tasks := {[ k := (7, Spec.backoff (Z.of_nat k), Probing) ]};
     cs_next := S k; cs_published := [(7, CB_OPEN)] |}.

(** The state the [OverflowError] leaves. *)
Definition wedged_state : CS :=
  {| cs_pool := [(7, {| cb_state := CB_OPEN; trip_count := 1025; failure_count := 3;
                        current_timeout := Spec.backoff 1023 |})];
     cs_timers := [(7, 1023%nat)]; cs_tasks := ∅; cs_next := 1024%nat; cs_published := [(7, CB_OPEN)] |}.

Lemma probing_step k : Z.of_nat k + 2 <= 1024 ->
  auto_recover_step k (Some [None]) (probing_state k) = (Ret tt, probing_state (S k)).
Proof.
  intros Hk. unfold auto_recover_step, probing_state. cbn [cs_tasks]. rewrite lookup_singleton_eq. cbn [probe_instance].
  unfold probe_failure_end, Pool.process_probe_failure. cbn [forallb probe_endpoint andb cs_pool dget].
  rewrite decide_True by done. unfold cb_is_open. cbn [cb_state bool_decide trip_count failure_count].
  rewrite cb_timeout_value by lia. unfold schedule_recovery, cancel, with_tasks, with_pool.
  cbn [cs_timers dget cs_pool cs_tasks cs_next cs_published dset].
  rewrite !decide_True by done. cbn [cs_timers dget cs_pool cs_tasks cs_next cs_published dset]. f_equal. f_equal.
  - replace (Z.of_nat (S k)) with (Z.of_nat k + 1) by lia. unfold Spec.backoff.
    by replace (Z.of_nat k + 1 + 1 - 1) with (Z.of_nat k + 1) by lia.
  - rewrite delete_singleton_eq, insert_empty, delete_singleton_ne by lia.
    replace (Z.of_nat (S k)) with (Z.of_nat k + 1) by lia. unfold Spec.backoff.
    by replace (Z.of_nat k + 1 + 1 - 1) with (Z.of_nat k + 1) by lia.
Qed.

Lemma stuck_snoc k : run (stuck_events (S k)) = exec (run (stuck_events k)) (Task k (Some [None])).
Proof.
  unfold stuck_events, failing_probes, run. rewrite seq_S, fmap_app, app_assoc, foldl_app. done.
Qed.

Lemma probing_run k : Z.of_nat k <= 1023 -> run (stuck_events k) = probing_state k.
Proof.
  induction k as [|k IH]; intros Hk; [vm_compute; reflexivity|].
  rewrite stuck_snoc, IH by lia. cbn [exec]. by rewrite probing_step by lia.
Qed.

Lemma wedge_step : auto_recover_step 1023 (Some [None]) (probing_state 1023) = (Raise overflow_error, wedged_state).
Proof.
  unfold auto_recover_step, probing_state. cbn [cs_tasks]. rewrite lookup_singleton_eq.
  unfold probe_instance, probe_failure_end, Pool.process_probe_failure. cbn [forallb probe_endpoint andb cs_pool dget].
  rewrite decide_True by done. unfold cb_is_open. cbn [cb_state bool_decide trip_count failure_count].
  rewrite cb_timeout_overflow by lia. unfold cancel, with_tasks, with_pool.
  cbn [cs_pool cs_timers cs_tasks cs_next cs_published]. rewrite delete_singleton_eq. done.
Qed.

Lemma wedged_run : run (stuck_events (S 1023)) = wedged_state.
Proof. rewrite stuck_snoc, probing_run by lia. unfold exec. by rewrite wedge_step. Qed.

(** C17: After 1024 failed probes in a row (some three and a half days at 300
    seconds each) the recovery task dies of the [OverflowError]: the circuit
    stays open with no recovery task at all, and further failure reports and
    task steps change nothing, whether or not the instance has come back. *)
Theorem probe_overflow_wedges :
  let s := run (stuck_events (S 1023)) in
  (auto_recover_step 1023 (Some [None]) (run (stuck_events 1023))).1 = Raise overflow_error /\
  Pool.is_open 7 (cs_pool s) = true /\ cs_tasks s = ∅ /\
  (forall t i, exec s (Task t i) = s) /\ exec s (Report (Some 7) "failure") = s.
Proof.
  cbv zeta. rewrite wedged_run, probing_run, wedge_step by lia. repeat split.
Qed.
