(* ===== verification/RateLimiter.v ===== *)
(** * The request rate limiter

    [motor/coordinator/middleware/rate_limiter.py]: a token bucket and the
    global limiter built on it, with hot reload and the congestion alarm.  The
    clock readings ([time.time()], floats) are arguments; an arithmetic error
    ([OverflowError], [ValueError], [ZeroDivisionError]) is the one exception
    of the model.  Alarms handed to the controller client are a log. *)

From Stdlib Require Import Floats.SpecFloat.
From S2P Require Import Prelude PyNum.

Inductive ArithmeticError := arithmetic_error.

(** [0.85] is [7656119366529843 * 2 ^ -53] as a float. *)
Definition DEFAULT_REQ_CONGESTION_TRIGGER_RATIO : pyfloat := float_lit 7656119366529843 (-53).
Definition DEFAULT_REQ_CONGESTION_CLEAR_RATIO : pyfloat := float_lit 3 (-2).

(** ** The token bucket *)
Record TokenBucket := {
  capacity : Z;
  refill_rate : pyfloat;
  tokens : pynum;
  last_refill : pyfloat }.

Definition TokenBucket_init (capacity : Z) (refill_rate now : pyfloat) : TokenBucket :=
  {| capacity := capacity; refill_rate := refill_rate; tokens := PInt capacity; last_refill := now |}.

Definition with_tokens (t : pynum) (b : TokenBucket) : TokenBucket :=
  {| capacity := capacity b; refill_rate := refill_rate b; tokens := t; last_refill := last_refill b |}.
Definition with_refill (now : pyfloat) (b : TokenBucket) : TokenBucket :=
  {| capacity := capacity b; refill_rate := refill_rate b; tokens := tokens b; last_refill := now |}.

(** [min(self.capacity, self.tokens + (now - self.last_refill) * self.refill_rate)] *)
Definition refilled (now : pyfloat) (b : TokenBucket) : option pynum :=
  let elapsed := fsub now (last_refill b) in
  let tokens_to_add := fmul elapsed (refill_rate b) in
  sum ← num_add (tokens b) (PFloat tokens_to_add);
  Some (num_min (PInt (capacity b)) sum).

Definition try_consume (n : Z) (now : pyfloat) : ST TokenBucket ArithmeticError bool := fun b =>
  match refilled now b with
  | None => (Raise arithmetic_error, b)
  | Some t =>
      let b := with_refill now (with_tokens t b) in
      if num_leb (PInt n) (tokens b) then
        match num_sub (tokens b) (PInt n) with
        | None => (Raise arithmetic_error, b)
        | Some t' => (Ret true, with_tokens t' b)
        end
      else (Ret false, b)
  end.

Definition get_available_tokens (now : pyfloat) (b : TokenBucket) : outcome ArithmeticError Z :=
  match available ← refilled now b; num_trunc available with
  | None => Raise arithmetic_error
  | Some z => Ret z
  end.

(** [refill_rate < 0] *)
Definition fneg (f : pyfloat) : bool := xltb (float_val f) (XFin 0 0).

Definition update_params (new_capacity : Z) (new_rate now : pyfloat)
    : ST TokenBucket ArithmeticError unit := fun b =>
  if (new_capacity <? 0) || fneg new_rate then (Ret tt, b)
  else
    let old_capacity := capacity b in
    let elapsed := fsub now (last_refill b) in
    match (if fltb (S754_zero false) elapsed then refilled now b else Some (tokens b)) with
    | None => (Raise arithmetic_error, b)
    | Some t =>
        let b := {| capacity := new_capacity; refill_rate := new_rate; tokens := t; last_refill := now |} in
        if num_ltb (PInt new_capacity) (tokens b) then (Ret tt, with_tokens (PInt new_capacity) b)
        else if old_capacity <? new_capacity then
          match num_add (tokens b) (PInt (new_capacity - old_capacity)) with
          | None => (Raise arithmetic_error, b)
          | Some sum => (Ret tt, with_tokens (num_min (PInt new_capacity) sum) b)
          end
        else (Ret tt, b)
    end.

(** ** The limiter *)
Inductive alarm := Congested (available limit : Z) | Cleared (available limit : Z).

Record SimpleRateLimiter := {
  max_requests : Z;
  window_size : Z;
  rl_capacity : Z;
  rl_refill_rate : pyfloat;
  congestion_alarm_sent : bool;
  bucket : TokenBucket;
  alarms : list alarm }.

Definition SimpleRateLimiter_init (max_req window : Z) (now : pyfloat) : outcome ArithmeticError SimpleRateLimiter :=
  match int_truediv max_req window with
  | None => Raise arithmetic_error
  | Some rate =>
      Ret {| max_requests := max_req; window_size := window; rl_capacity := max_req; rl_refill_rate := rate;
             congestion_alarm_sent := false; bucket := TokenBucket_init max_req rate now; alarms := [] |}
  end.

Definition with_bucket (b : TokenBucket) (r : SimpleRateLimiter) : SimpleRateLimiter :=
  {| max_requests := max_requests r; window_size := window_size r; rl_capacity := rl_capacity r;
     rl_refill_rate := rl_refill_rate r; congestion_alarm_sent := congestion_alarm_sent r; bucket := b;
     alarms := alarms r |}.
Definition with_alarm (sent : bool) (a : alarm) (r : SimpleRateLimiter) : SimpleRateLimiter :=
  {| max_requests := max_requests r; window_size := window_size r; rl_capacity := rl_capacity r;
     rl_refill_rate := rl_refill_rate r; congestion_alarm_sent := sent; bucket := bucket r;
     alarms := alarms r ++ [a] |}.
Definition with_params (max_req window : Z) (r : SimpleRateLimiter) : SimpleRateLimiter :=
  {| max_requests := max_req; window_size := window; rl_capacity := rl_capacity r;
     rl_refill_rate := rl_refill_rate r; congestion_alarm_sent := congestion_alarm_sent r;
     bucket := bucket r; alarms := alarms r |}.

(** An operation of the bucket, run on the limiter. *)
Definition on_bucket {A} (m : ST TokenBucket ArithmeticError A) : ST SimpleRateLimiter ArithmeticError A := fun r =>
  let '(x, b) := m (bucket r) in (x, with_bucket b r).

(** [int(self.max_requests * ratio)] *)
Definition threshold (max_req : Z) (ratio : pyfloat) : outcome ArithmeticError Z :=
  match p ← num_mul (PInt max_req) (PFloat ratio); num_trunc p with
  | None => Raise arithmetic_error
  | Some z => Ret z
  end.

Definition st_lift {S E A} (x : outcome E A) : ST S E A := fun s => (x, s).

(** The information returned with the decision; [timestamp] is left out. *)
Inductive limit_info := Info (allowed : bool) (available limit window : Z) | InfoError.

(** The alarm of a call with this many available tokens. *)
Definition congestion_alarm (available trigger clear : Z) (r : SimpleRateLimiter) : SimpleRateLimiter :=
  if negb (congestion_alarm_sent r) && (trigger <=? available)
  then with_alarm true (Congested available (max_requests r)) r
  else if congestion_alarm_sent r && (available <? clear)
  then with_alarm false (Cleared available (max_requests r)) r
  else r.

(** [now1] is the reading in [try_consume], [now2] the one in
    [get_available_tokens]. *)
Definition is_allowed (now1 now2 : pyfloat) : ST SimpleRateLimiter ArithmeticError (bool * limit_info) :=
  st_catch
    (allowed ← on_bucket (try_consume 1 now1);
     r ← st_get;
     available ← st_lift (get_available_tokens now2 (bucket r));
     trigger ← st_lift (threshold (max_requests r) DEFAULT_REQ_CONGESTION_TRIGGER_RATIO);
     clear ← st_lift (threshold (max_requests r) DEFAULT_REQ_CONGESTION_CLEAR_RATIO);
     _ ← st_modify (congestion_alarm available trigger clear);
     mret (allowed, Info allowed available (max_requests r) (window_size r)))
    (fun _ => mret (true, InfoError)).

Definition update_config (max_req window : option Z) (now : pyfloat)
    : ST SimpleRateLimiter ArithmeticError unit := fun r =>
  match max_req, window with
  | None, None => (Ret tt, r)
  | _, _ =>
      if match max_req with Some m => m <? 0 | None => false end then (Ret tt, r)
      else if match window with Some w => w <=? 0 | None => false end then (Ret tt, r)
      else
        let r := with_params (default (max_requests r) max_req) (default (window_size r) window) r in
        match int_truediv (max_requests r) (window_size r) with
        | None => (Raise arithmetic_error, r)
        | Some rate => on_bucket (update_params (max_requests r) rate now) r
        end
  end.

(** ** Witness data *)
Definition ex_now : pyfloat := float_lit 1700000000 0.
Definition ex_limiter : SimpleRateLimiter :=
  match SimpleRateLimiter_init 100 60 ex_now with
  | Ret r => r
  | Raise _ => {| max_requests := 0; window_size := 0; rl_capacity := 0; rl_refill_rate := S754_zero false;
                  congestion_alarm_sent := false; bucket := TokenBucket_init 0 (S754_zero false) ex_now; alarms := [] |}
  end.

(** The limiter's state and answer for a list of arrival times. *)
Fixpoint arrivals (r : SimpleRateLimiter) (l : list pyfloat) : list bool * SimpleRateLimiter :=
  match l with
  | [] => ([], r)
  | now :: l =>
      match is_allowed now now r with
      | (Ret (a, _), r) => let '(bs, r) := arrivals r l in (a :: bs, r)
      | (Raise _, r) => arrivals r l
      end
  end.

(** A burst of 103 requests at one instant: exactly 100 pass. *)
Example burst : (arrivals ex_limiter (replicate 103 ex_now)).1 = replicate 100 true ++ replicate 3 false.
Proof. vm_compute. reflexivity. Qed.

(** ** Values that are not negative

    A NaN can appear inside a refill (an infinite amount times a zero rate);
    [min] then keeps the capacity. *)
Definition xnn (x : xval) : bool := is_nan x || xnonneg x.

Lemma fadd_xnn x y : xnn (float_val x) = true -> xnn (float_val y) = true -> xnn (float_val (fadd x y)) = true.
Proof.
  unfold xnn. rewrite !orb_true_iff. intros [Hx|Hx] [Hy|Hy].
  1,2: left; destruct x; try done; by destruct y.
  - left. destruct y; try done. by destruct x as [| | |].
  - right. by apply fadd_nonneg.
Qed.

Lemma fmul_xnn x y : xnn (float_val x) = true -> xnn (float_val y) = true -> xnn (float_val (fmul x y)) = true.
Proof.
  assert (Hs : forall s m e, xnn (float_val (S754_finite s m e)) = true -> s = false).
  { intros [] m e; unfold xnn; cbn [float_val is_nan orb]; by rewrite ?xnonneg_fin. }
  intros Hx Hy.
  destruct x as [sx|sx| |sx mx ex], y as [sy|sy| |sy my ey]; try done;
    try (pose proof (Hs _ _ _ Hx); subst sx); try (pose proof (Hs _ _ _ Hy); subst sy);
    try (by destruct sx); try (by destruct sy); try (by destruct sx, sy).
  unfold xnn. apply orb_true_iff. right.
  apply fmul_nonneg; try (cbn [float_val]; by rewrite xnonneg_fin); intros ? [=].
Qed.

Lemma float_of_Z_nonneg z f : 0 <= z -> float_of_Z z = Some f -> xnonneg (float_val f) = true.
Proof.
  intros Hz. unfold float_of_Z. pose proof (normalize_nonneg z 0 Hz) as H.
  destruct (binary_normalize prec emax z 0 false); intros [= <-]; done.
Qed.

Lemma xnn_fin m e : xnn (XFin m e) = (0 <=? m).
Proof. unfold xnn. cbn [is_nan orb]. apply xnonneg_fin. Qed.

Lemma num_add_xnn x y s : xnn (num_val x) = true -> xnn (num_val y) = true ->
  num_add x y = Some s -> xnn (num_val s) = true.
Proof.
  assert (Hf : forall z f, xnn (XFin z 0) = true -> float_of_Z z = Some f -> xnn (float_val f) = true).
  { intros z f Hz Hf. rewrite xnn_fin in Hz. apply orb_true_iff. right.
    eapply float_of_Z_nonneg; [|done]. by apply Z.leb_le. }
  destruct x as [a|f], y as [b|g]; unfold num_add, num_op;
    cbn [num_val num_to_float mbind option_bind]; intros Hx Hy Hs.
  - injection Hs as <-. cbn [num_val]. rewrite xnn_fin in *. rewrite Z.leb_le in *. lia.
  - destruct (float_of_Z a) eqn:E; [|done]. injection Hs as <-. apply fadd_xnn; [by eapply Hf|done].
  - destruct (float_of_Z b) eqn:E; [|done]. injection Hs as <-. apply fadd_xnn; [done|by eapply Hf].
  - injection Hs as <-. by apply fadd_xnn.
Qed.

Lemma num_min_xnn c x : 0 <= c -> xnn (num_val x) = true ->
  xnonneg (num_val (num_min (PInt c) x)) = true /\ num_leb (num_min (PInt c) x) (PInt c) = true.
Proof.
  intros Hc Hx. split; [|by apply num_min_leb_l]. unfold num_min. destruct (num_ltb x (PInt c)) eqn:E.
  - unfold xnn in Hx. rewrite orb_true_iff in Hx. destruct Hx as [Hx|Hx]; [|done].
    unfold num_ltb, xltb in E. by destruct (num_val x).
  - cbn [num_val]. rewrite xnonneg_fin. by apply Z.leb_le.
Qed.

(** Truncation of a value between zero and an integer. *)
Lemma num_trunc_bounds x c : xnonneg (num_val x) = true -> num_leb x (PInt c) = true ->
  exists z, num_trunc x = Some z /\ 0 <= z <= c.
Proof.
  unfold num_trunc, num_leb. cbn [num_val]. destruct (num_val x) as [|s|m e]; [done|by destruct s|].
  rewrite xnonneg_fin. intros Hm%Z.leb_le. unfold xleb, xcompare, dyadic_compare. intros H.
  eexists. split; [done|]. destruct (Z.leb_spec 0 e).
  - replace (Z.min e 0) with 0 in H by lia. rewrite !Z.sub_0_r, Z.mul_1_r in H.
    assert (0 < 2 ^ e) by (apply Z.pow_pos_nonneg; lia).
    destruct (Z.compare_spec (m * 2 ^ e) c); try done; nia.
  - replace (Z.min e 0) with e in H by lia. rewrite Z.sub_diag, Z.mul_1_r in H.
    replace (0 - e) with (- e) in H by lia.
    assert (0 < 2 ^ (- e)) by (apply Z.pow_pos_nonneg; lia).
    rewrite Z.quot_div_nonneg by lia. split; [apply Z.div_pos; lia|].
    apply Z.div_le_upper_bound; [lia|].
    destruct (Z.compare_spec m (c * 2 ^ (- e))); try done; nia.
Qed.

(** ** Invariant *)
Record bucket_ok (b : TokenBucket) : Prop := {
  bo_cap : 0 <= capacity b;
  bo_rate : xnonneg (float_val (refill_rate b)) = true;
  bo_tokens : xnonneg (num_val (tokens b)) = true }.

(** The clock reading is not before the last refill. *)
Definition clock_ok (now : pyfloat) (b : TokenBucket) : Prop :=
  fleb (last_refill b) now = true /\ forall s, last_refill b <> S754_infinity s.

Lemma refilled_bounds now b t : bucket_ok b -> clock_ok now b -> refilled now b = Some t ->
  xnonneg (num_val t) = true /\ num_leb t (PInt (capacity b)) = true.
Proof.
  intros [Hc Hr Ht] [Hle Hfin] H. unfold refilled in H.
  destruct (num_add _ _) as [s|] eqn:E; [|done]. injection H as <-.
  apply num_min_xnn; [done|]. eapply num_add_xnn; [| |exact E].
  - unfold xnn. rewrite Ht. apply orb_true_r.
  - apply fmul_xnn; unfold xnn; [|by rewrite Hr, orb_true_r].
    rewrite fsub_nonneg; [apply orb_true_r|done|done].
Qed.

(** [x - 1] of a number not below one. *)
Lemma num_sub_one x t : num_leb (PInt 1) x = true -> num_sub x (PInt 1) = Some t -> xnonneg (num_val t) = true.
Proof.
  destruct x as [z|f]; unfold num_sub, num_op, num_leb; cbn [num_val num_to_float mbind option_bind].
  - unfold xleb, xcompare, dyadic_compare. change (2 ^ (0 - Z.min 0 0)) with 1. rewrite !Z.mul_1_r.
    intros H [= <-]. cbn [num_val]. rewrite xnonneg_fin. apply Z.leb_le. destruct (Z.compare_spec 1 z); try done; lia.
  - intros Hle [= <-]. cbn [num_val]. apply fsub_nonneg; [|done].
    eapply xleb_trans; [|exact Hle]. done.
Qed.

Lemma num_sub_one_total x : exists t, num_sub x (PInt 1) = Some t.
Proof. destruct x; by eexists. Qed.

(** What [try_consume] does: it refills, and takes a token exactly when there
    is one. *)
Lemma try_consume_spec now b : bucket_ok b -> clock_ok now b ->
  match refilled now b with
  | None => try_consume 1 now b = (Raise arithmetic_error, b)
  | Some t =>
      exists b', try_consume 1 now b = (Ret (num_leb (PInt 1) t), b') /\ bucket_ok b' /\
        capacity b' = capacity b /\ refill_rate b' = refill_rate b /\ last_refill b' = now /\
        (if num_leb (PInt 1) t then num_sub t (PInt 1) = Some (tokens b') else tokens b' = t)
  end.
Proof.
  intros Hb Hn. unfold try_consume. destruct (refilled now b) as [t|] eqn:E; [|done].
  destruct (refilled_bounds now b t Hb Hn E) as [Ht _]. cbn [tokens with_refill with_tokens].
  destruct (num_leb (PInt 1) t) eqn:El.
  - destruct (num_sub_one_total t) as [t' Et']. rewrite Et'. eexists. split; [done|].
    split; [|done]. destruct Hb. split; [done|done|]. by apply (num_sub_one t).
  - eexists. split; [done|]. split; [|done]. destruct Hb. by split.
Qed.

Lemma get_available_bounds now b z : bucket_ok b -> clock_ok now b ->
  get_available_tokens now b = Ret z -> 0 <= z <= capacity b.
Proof.
  intros Hb Hn. unfold get_available_tokens. destruct (refilled now b) as [t|] eqn:E; [|done].
  destruct (refilled_bounds now b t Hb Hn E) as [H1 H2].
  destruct (num_trunc_bounds t _ H1 H2) as (z' & Hz & Hb'). cbn. rewrite Hz. by intros [= <-].
Qed.

(** Updating a bucket keeps the invariant and installs the parameters. *)
Lemma update_params_ok c rate now b : bucket_ok b -> clock_ok now b ->
  0 <= c -> xnonneg (float_val rate) = true ->
  forall b', update_params c rate now b = (Ret tt, b') ->
    bucket_ok b' /\ capacity b' = c /\ refill_rate b' = rate /\ last_refill b' = now /\
    num_leb (tokens b') (PInt c) = true.
Proof.
  intros Hb Hn Hc Hr b'. unfold update_params.
  assert (Hneg : fneg rate = false).
  { unfold fneg. unfold xnonneg in Hr. destruct (xltb (float_val rate) (XFin 0 0)) eqn:E; [|done].
    apply xltb_asym in E. congruence. }
  replace (c <? 0) with false by (symmetry; apply Z.ltb_ge; lia). rewrite Hneg. cbn [orb].
  destruct (if fltb _ _ then _ else _) as [t|] eqn:Et; [|done].
  assert (Ht : xnonneg (num_val t) = true).
  { destruct (fltb _ _); [by eapply refilled_bounds|]. injection Et as <-. apply Hb. }
  cbn [tokens]. destruct (num_ltb (PInt c) t) eqn:El.
  { intros [= <-]. split; [|repeat split; by apply xleb_refl]. split; [done|done|].
    cbn [tokens with_tokens num_val]. rewrite xnonneg_fin. by apply Z.leb_le. }
  destruct (capacity b <? c) eqn:Ec.
  - destruct (num_add t _) as [sum|] eqn:Es; [|done]. intros [= <-]. cbn [capacity refill_rate last_refill tokens with_tokens].
    assert (Hs : xnn (num_val sum) = true).
    { eapply num_add_xnn; [| |exact Es]; unfold xnn; [by rewrite Ht, orb_true_r|].
      cbn [num_val is_nan orb]. rewrite xnonneg_fin. apply Z.ltb_lt in Ec. apply Z.leb_le. lia. }
    destruct (num_min_xnn c sum Hc Hs) as [H1 H2]. split; [by split|done].
  - intros [= <-]. split; [by split|]. cbn. do 3 (split; [done|]).
    apply xltb_false_leb; [| |done].
    + done.
    + by apply xleb_not_nan in Ht as [_ ?].
Qed.

Definition ffinite (f : pyfloat) : Prop := forall s, f <> S754_infinity s.

Record limiter_ok (r : SimpleRateLimiter) : Prop := {
  lo_bucket : bucket_ok (bucket r);
  lo_cap : capacity (bucket r) = max_requests r;
  lo_window : 0 < window_size r;
  lo_clock : ffinite (last_refill (bucket r)) }.

Lemma int_truediv_nonneg a b f : 0 <= a -> 0 < b -> int_truediv a b = Some f -> xnonneg (float_val f) = true.
Proof.
  intros Ha Hb. unfold int_truediv. replace (b =? 0) with false by (symmetry; apply Z.eqb_neq; lia).
  replace (a <? 0) with false by (symmetry; apply Z.ltb_ge; lia).
  replace (b <? 0) with false by (symmetry; apply Z.ltb_ge; lia). cbn [xorb].
  destruct (a =? 0); [by intros [= <-]|].
  destruct (SFdiv_core_binary prec emax (Z.abs a) 0 (Z.abs b) 0) as [[mz ez] lz] eqn:E.
  assert (Hm : 0 <= mz).
  { unfold SFdiv_core_binary in E.
    match type of E with context [Z.div_eucl ?x ?y] =>
      assert (Hx : 0 <= x) by (match goal with |- 0 <= match ?s with _ => _ end => destruct s end;
        [lia|apply Z.shiftl_nonneg; lia|lia]);
      assert (Hq : 0 <= x / y) by (apply Z.div_pos; lia); unfold Z.div in Hq;
      destruct (Z.div_eucl x y) as [q r']
    end. by injection E as <- <- <-. }
  destruct (round_aux_sign false mz ez lz Hm) as [-> | [-> | (m' & e' & ->)]]; intros [= <-]; [done|].
  cbn [float_val]. by rewrite xnonneg_fin.
Qed.

Lemma init_limiter_ok m w now r : 0 <= m -> 0 < w -> ffinite now ->
  SimpleRateLimiter_init m w now = Ret r -> limiter_ok r.
Proof.
  intros Hm Hw Hf. unfold SimpleRateLimiter_init. destruct (int_truediv m w) eqn:E; [|done]. intros [= <-].
  split; [split|..]; cbn [bucket TokenBucket_init capacity refill_rate tokens num_val max_requests]; try done.
  - by eapply int_truediv_nonneg.
  - rewrite xnonneg_fin. by apply Z.leb_le.
Qed.

Lemma congestion_alarm_frame a t c r :
  let r' := congestion_alarm a t c r in
  bucket r' = bucket r /\ max_requests r' = max_requests r /\ window_size r' = window_size r.
Proof. unfold congestion_alarm. by repeat case_match. Qed.

(** [is_allowed] step by step: the bucket is refilled and charged, the rest
    only reads it. *)
Lemma is_allowed_cases now1 now2 r :
  let b' := (try_consume 1 now1 (bucket r)).2 in
  exists a info r', is_allowed now1 now2 r = (Ret (a, info), r') /\
    bucket r' = b' /\ max_requests r' = max_requests r /\ window_size r' = window_size r /\
    match info with
    | InfoError => a = true
    | Info a' available limit window =>
        a' = a /\ limit = max_requests r /\ window = window_size r /\
        (try_consume 1 now1 (bucket r)).1 = Ret a /\ get_available_tokens now2 b' = Ret available
    end.
Proof.
  unfold is_allowed, st_catch, mbind, ST_bind, on_bucket, st_get, st_lift, st_modify, mret, ST_ret.
  destruct (try_consume 1 now1 (bucket r)) as [[a|e] b'] eqn:Et; cbn [fst snd].
  2:{ by eexists _, _, _. }
  cbn [with_bucket bucket max_requests window_size].
  destruct (get_available_tokens now2 b') as [av|e] eqn:Eg; [|by eexists _, _, _].
  destruct (threshold _ DEFAULT_REQ_CONGESTION_TRIGGER_RATIO) as [tr|e]; [|by eexists _, _, _].
  destruct (threshold _ DEFAULT_REQ_CONGESTION_CLEAR_RATIO) as [cl|e]; [|by eexists _, _, _].
  destruct (congestion_alarm_frame av tr cl (with_bucket b' r)) as (H1 & H2 & H3).
  eexists _, _, _. split; [done|]. by rewrite H1, H2, H3.
Qed.

Lemma try_consume_ok now b : bucket_ok b -> clock_ok now b -> ffinite now ->
  bucket_ok (try_consume 1 now b).2 /\ capacity (try_consume 1 now b).2 = capacity b /\
  ffinite (last_refill (try_consume 1 now b).2).
Proof.
  intros Hb Hn Hf. pose proof (try_consume_spec now b Hb Hn) as H.
  destruct (refilled now b) as [t|]; [|rewrite H; exact (conj Hb (conj eq_refl (proj2 Hn)))].
  destruct H as (b' & -> & Hb' & Hc & _ & Hl & _). cbn. by rewrite Hl.
Qed.

Lemma is_allowed_ok now1 now2 r : limiter_ok r -> fleb (last_refill (bucket r)) now1 = true -> ffinite now1 ->
  limiter_ok (is_allowed now1 now2 r).2.
Proof.
  intros [Hb Hc Hw Hf] Hle Hn. destruct (is_allowed_cases now1 now2 r) as (a & info & r' & -> & H1 & H2 & H3 & _).
  destruct (try_consume_ok now1 (bucket r) Hb (conj Hle Hf) Hn) as (K1 & K2 & K3).
  cbn. split; [by rewrite H1|by rewrite H1, H2, K2|by rewrite H3|by rewrite H1].
Qed.

Lemma update_config_ok mo wo now r r' : limiter_ok r -> fleb (last_refill (bucket r)) now = true -> ffinite now ->
  update_config mo wo now r = (Ret tt, r') -> limiter_ok r'.
Proof.
  intros Hr Hle Hn. unfold update_config.
  assert (Hgo : forall m w r', 0 <= m -> 0 < w ->
    match int_truediv m w with
    | None => (Raise arithmetic_error, with_params m w r)
    | Some rate => on_bucket (update_params m rate now) (with_params m w r)
    end = (Ret tt, r') -> limiter_ok r').
  { intros m w r0 Hm Hw. destruct (int_truediv m w) as [rate|] eqn:E; [|done]. unfold on_bucket.
    cbn [bucket with_params]. destruct (update_params m rate now (bucket r)) as [[[]|e] b'] eqn:Eu; [|done].
    intros [= <-]. destruct Hr as [Hb Hc Hw0 Hf].
    destruct (update_params_ok m rate now (bucket r) Hb (conj Hle Hf) Hm (int_truediv_nonneg _ _ _ Hm Hw E) b' Eu)
      as (K1 & K2 & _ & K3 & _). split; [done|done|done|]. cbn. by rewrite K3. }
  pose proof (lo_window r Hr). assert (0 <= max_requests r) by (rewrite <- (lo_cap r Hr); apply (lo_bucket r Hr)).
  destruct mo as [m|], wo as [w|]; cbn [default from_option id];
    try (destruct (Z.ltb_spec m 0); [by intros [= <-]|]); try (destruct (Z.leb_spec w 0); [by intros [= <-]|]);
    [..|by intros [= <-]]; apply Hgo; cbn; lia.
Qed.

(** Limiters of a process whose clock does not run backwards. *)
Inductive limiter_reach : SimpleRateLimiter -> Prop :=
  | lr_init m w now r : 0 <= m -> 0 < w -> ffinite now ->
      SimpleRateLimiter_init m w now = Ret r -> limiter_reach r
  | lr_request r now1 now2 : limiter_reach r -> fleb (last_refill (bucket r)) now1 = true -> ffinite now1 ->
      limiter_reach (is_allowed now1 now2 r).2
  | lr_reload r mo wo now r' : limiter_reach r -> fleb (last_refill (bucket r)) now = true -> ffinite now ->
      update_config mo wo now r = (Ret tt, r') -> limiter_reach r'.

Lemma limiter_reach_ok r : limiter_reach r -> limiter_ok r.
Proof.
  induction 1; [by eapply init_limiter_ok|by apply is_allowed_ok|by eapply update_config_ok].
Qed.

(** ** Properties *)


Lemma ex_now_finite : ffinite ex_now.
Proof. intros s. vm_compute. discriminate. Qed.

Lemma ex_limiter_reach : limiter_reach ex_limiter.
Proof. apply (lr_init 100 60 ex_now); [lia|lia|apply ex_now_finite|vm_compute; reflexivity]. Qed.


(** C19: A hot reload with a negative request limit or a non-positive window,
    or with no parameter, changes nothing; any other one installs the new
    limit as the bucket's capacity and leaves at most that many tokens, and
    never fewer than zero. *)
Theorem update_config_spec mo wo now r :
  limiter_reach r -> fleb (last_refill (bucket r)) now = true -> ffinite now ->
  let m := default (max_requests r) mo in let w := default (window_size r) wo in
  if (match mo with Some m => m <? 0 | None => false end || match wo with Some w => w <=? 0 | None => false end
      || (bool_decide (mo = None) && bool_decide (wo = None)))
  then update_config mo wo now r = (Ret tt, r)
  else max_requests (update_config mo wo now r).2 = m /\ window_size (update_config mo wo now r).2 = w /\
       forall r', update_config mo wo now r = (Ret tt, r') ->
         capacity (bucket r') = m /\ Some (refill_rate (bucket r')) = int_truediv m w /\
         num_leb (PInt 0) (tokens (bucket r')) = true /\ num_leb (tokens (bucket r')) (PInt m) = true.
Proof.
  intros Hr Hle Hn m w. pose proof (limiter_reach_ok r Hr) as [Hb Hc Hw Hf].
  assert (Hmr : 0 <= max_requests r) by (rewrite <- Hc; apply Hb).
  destruct (match mo with Some m => m <? 0 | None => false end) eqn:Em;
    [unfold update_config; by destruct mo, wo; rewrite ?Em|].
  destruct (match wo with Some w => w <=? 0 | None => false end) eqn:Ew;
    [unfold update_config; by destruct mo, wo; rewrite ?Em, ?Ew|]. cbn [orb].
  destruct (bool_decide (mo = None) && bool_decide (wo = None)) eqn:En.
  { apply andb_true_iff in En as [->%bool_decide_eq_true ->%bool_decide_eq_true]. done. }
  assert (Hgo : update_config mo wo now r =
    match int_truediv m w with
    | None => (Raise arithmetic_error, with_params m w r)
    | Some rate => on_bucket (update_params m rate now) (with_params m w r)
    end) by (unfold update_config; destruct mo, wo; by rewrite ?Em, ?Ew).
  assert (Hm : 0 <= m) by (destruct mo; cbn in *; [apply Z.ltb_ge in Em|]; done).
  assert (Hw' : 0 < w) by (destruct wo; cbn in *; [apply Z.leb_gt in Ew|]; done).
  rewrite Hgo. destruct (int_truediv m w) as [rate|] eqn:Er; [|done]. unfold on_bucket. cbn [bucket with_params].
  destruct (update_params m rate now (bucket r)) as [x b'] eqn:Eu. cbn [fst snd].
  do 2 (split; [done|]). intros r' [= -> <-].
  destruct (update_params_ok m rate now (bucket r) Hb (conj Hle Hf) Hm (int_truediv_nonneg _ _ _ Hm Hw' Er) b' Eu)
    as ([_ _ K1] & K2 & K3 & _ & K4). cbn [bucket with_bucket]. by rewrite K2, K3.
Qed.

Lemma update_config_spec_witness :
  capacity (bucket (update_config (Some 10) None ex_now ex_limiter).2) = 10 /\
  num_leb (tokens (bucket (update_config (Some 10) None ex_now ex_limiter).2)) (PInt 10) = true.
Proof.
  destruct (update_config_spec (Some 10) None ex_now ex_limiter ex_limiter_reach) as (_ & _ & H);
    [vm_compute; reflexivity|apply ex_now_finite|].
  destruct (H (update_config (Some 10) None ex_now ex_limiter).2) as (H1 & _ & _ & H2);
    [vm_compute; reflexivity|]. split; [exact H1|exact H2].
Defined.


