(* ===== verification/WorkloadShm.v ===== *)
(** * The workload shared memory

    [motor/coordinator/scheduler/runtime/workload_shm/]: the layout
    ([layout.py]), the scheduler's writer ([writer.py]) and the workers' reader
    ([reader.py]), which follow a sequence lock: the sequence number in the
    header is odd while the writer is at work, and a reader accepts what it
    read only when the header was stable and the same before and after.

    The two sides run in different processes.  A slice assignment and a slice
    read of the buffer are the atomic steps; [w_trace] records the buffer
    after every store, and a reader's [k]-th load sees the buffer [mem k],
    some buffer of that history.  What the reader does with the cache (calls
    of [patch_workload_from_shm]) is the list of calls. *)

From S2P Require Import Prelude PyDict PyNum PyStruct Resources InstancePool.

(** ** Layout *)

Definition MAGIC : Z := 0x574B4C44.
Definition SCHEMA_VERSION : Z := 3.
Definition ROLE_PREFILL : Z := 0.
Definition ROLE_DECODE : Z := 1.
Definition ROLE_HYBRID : Z := 2.
Definition ROLE_ENCODE : Z := 3.
Definition HEADER_SIZE : nat := 64.
Definition ENTRY_SIZE : nat := 24.
Definition HEARTBEAT_OFFSET : nat := 32.
Definition HEARTBEAT_STALE_SEC : pyfloat := float_lit 5 0.

Record WorkloadShmEntry := {
  e_instance : Z;
  e_endpoint : Z;
  e_role : Z;
  e_tokens : pyfloat }.

Record WorkloadShmHeader := {
  h_magic : Z;
  h_schema : Z;
  h_sequence : Z;
  h_count : Z;
  h_max : Z;
  h_version : Z;
  h_heartbeat : Z;
  h_prefill : Z;
  h_decode : Z;
  h_hybrid : Z }.
#[export] Instance WorkloadShmHeader_eq_dec : EqDecision WorkloadShmHeader.
Proof. solve_decision. Defined.

(** The normalisation of the unsigned 64-bit fields. *)
Definition norm64 (z : Z) : Z := if (z <? 0) || (2 ^ 64 - 1 <? z) then z mod 2 ^ 64 else z.

Definition pack_header (h : WorkloadShmHeader) : option bytes :=
  a ← pack_u 4 (h_magic h);
  b ← pack_u 2 (h_schema h);
  c ← pack_u 2 0;
  d ← pack_i 8 (h_sequence h);
  e ← pack_u 4 (h_count h);
  f ← pack_u 4 (h_max h);
  g ← pack_u 8 (norm64 (h_version h));
  i ← pack_u 8 (norm64 (h_heartbeat h));
  j ← pack_u 8 (norm64 (h_prefill h));
  k ← pack_u 8 (norm64 (h_decode h));
  l ← pack_u 8 (norm64 (h_hybrid h));
  Some (a ++ b ++ c ++ d ++ e ++ f ++ g ++ i ++ j ++ k ++ l).

(** [None] is [ValueError]: the buffer is too small. *)
Definition unpack_header (buf : bytes) : option WorkloadShmHeader :=
  if (length buf <? HEADER_SIZE)%nat then None
  else Some {| h_magic := unpack_u (slice 0 4 buf); h_schema := unpack_u (slice 4 2 buf);
               h_sequence := unpack_i (slice 8 8 buf); h_count := unpack_u (slice 16 4 buf);
               h_max := unpack_u (slice 20 4 buf); h_version := unpack_u (slice 24 8 buf);
               h_heartbeat := unpack_u (slice 32 8 buf); h_prefill := unpack_u (slice 40 8 buf);
               h_decode := unpack_u (slice 48 8 buf); h_hybrid := unpack_u (slice 56 8 buf) |}.

Definition pack_entry (e : WorkloadShmEntry) : option bytes :=
  a ← pack_i 4 (e_instance e);
  b ← pack_i 4 (e_endpoint e);
  c ← pack_u 1 (e_role e);
  Some (a ++ b ++ c ++ [0; 0; 0] ++ pack_d (e_tokens e) ++ [0; 0; 0; 0]).

Definition entry_offset (slot : nat) : nat := HEADER_SIZE + slot * ENTRY_SIZE.

Definition unpack_entry (buf : bytes) (slot : nat) : option WorkloadShmEntry :=
  let offset := entry_offset slot in
  if (length buf <? offset + ENTRY_SIZE)%nat then None
  else
    let b := slice offset ENTRY_SIZE buf in
    Some {| e_instance := unpack_i (slice 0 4 b); e_endpoint := unpack_i (slice 4 4 b);
            e_role := unpack_u (slice 8 1 b); e_tokens := unpack_d (slice 12 8 b) |}.

Definition total_size (max_entries : nat) : nat := HEADER_SIZE + max_entries * ENTRY_SIZE.

(** ** The writer *)

Inductive ShmError := StructError | ShmValueError | LookupError (e : PyError).

Definition pdrole_to_shm_role (r : PDRole) : Z :=
  match r with ROLE_E => ROLE_ENCODE | ROLE_P => ROLE_PREFILL | ROLE_D => ROLE_DECODE | ROLE_U => ROLE_HYBRID end.

(** The roles that have a sequence of their own. *)
Inductive seq_key := K_prefill | K_decode | K_hybrid.
#[export] Instance seq_key_eq_dec : EqDecision seq_key.
Proof. solve_decision. Defined.

Definition role_seq_key (r : PDRole) : option seq_key :=
  match r with ROLE_P => Some K_prefill | ROLE_D => Some K_decode | ROLE_U => Some K_hybrid | ROLE_E => None end.
Definition shm_role_to_seq_key (role : Z) : option seq_key :=
  if role =? ROLE_PREFILL then Some K_prefill
  else if role =? ROLE_DECODE then Some K_decode
  else if role =? ROLE_HYBRID then Some K_hybrid
  else None.

(** The four pools in order, the endpoints of each instance in table order;
    the loop returns when [max_entries] are collected. *)
Definition pool_entries (s : Pools) (role : PDRole) : list WorkloadShmEntry :=
  concat (map (fun r =>
    map (fun ep => {| e_instance := ins_id (obj s r); e_endpoint := ep_id ep;
                      e_role := pdrole_to_shm_role role; e_tokens := active_tokens (workload ep) |})
        (all_eps (obj s r)))
    (dvalues (get_available_instances (Some role) s))).

Fixpoint slot_map_from (slot : nat) (l : list WorkloadShmEntry) (m : dict (Z * Z) nat) : dict (Z * Z) nat :=
  match l with
  | [] => m
  | e :: l => slot_map_from (S slot) l (dset (e_instance e, e_endpoint e) slot m)
  end.

Definition collect_entries_and_slot_map (s : Pools) (max_entries : nat)
    : list WorkloadShmEntry * dict (Z * Z) nat :=
  let entries := take max_entries (concat (map (pool_entries s) [ROLE_E; ROLE_P; ROLE_D; ROLE_U])) in
  (entries, slot_map_from 0 entries []).

Record Writer := {
  w_buf : bytes;
  w_trace : list bytes;
  w_max : nat;
  w_slot_map : dict (Z * Z) nat;
  w_sequence : Z;
  w_role_seq : seq_key -> Z;
  w_role_members : seq_key -> gset (Z * Z);
  w_count : nat;
  w_version : Z;
  w_heartbeat : Z }.

(** A writer on a fresh segment: the operating system fills it with zeros. *)
Definition writer_init (max_entries : nat) : Writer :=
  {| w_buf := replicate (total_size max_entries) 0; w_trace := []; w_max := max_entries; w_slot_map := [];
     w_sequence := 0; w_role_seq := fun _ => 0; w_role_members := fun _ => ∅; w_count := 0; w_version := 0;
     w_heartbeat := 0 |}.

Definition set_buf (b : bytes) (w : Writer) : Writer :=
  {| w_buf := b; w_trace := w_trace w ++ [b]; w_max := w_max w; w_slot_map := w_slot_map w;
     w_sequence := w_sequence w; w_role_seq := w_role_seq w; w_role_members := w_role_members w;
     w_count := w_count w; w_version := w_version w; w_heartbeat := w_heartbeat w |}.
Definition set_slots (m : dict (Z * Z) nat) (n : nat) (w : Writer) : Writer :=
  {| w_buf := w_buf w; w_trace := w_trace w; w_max := w_max w; w_slot_map := m;
     w_sequence := w_sequence w; w_role_seq := w_role_seq w; w_role_members := w_role_members w;
     w_count := n; w_version := w_version w; w_heartbeat := w_heartbeat w |}.
Definition set_sequence (z : Z) (w : Writer) : Writer :=
  {| w_buf := w_buf w; w_trace := w_trace w; w_max := w_max w; w_slot_map := w_slot_map w;
     w_sequence := z; w_role_seq := w_role_seq w; w_role_members := w_role_members w;
     w_count := w_count w; w_version := w_version w; w_heartbeat := w_heartbeat w |}.
Definition set_roles (q : seq_key -> Z) (ms : seq_key -> gset (Z * Z)) (w : Writer) : Writer :=
  {| w_buf := w_buf w; w_trace := w_trace w; w_max := w_max w; w_slot_map := w_slot_map w;
     w_sequence := w_sequence w; w_role_seq := q; w_role_members := ms;
     w_count := w_count w; w_version := w_version w; w_heartbeat := w_heartbeat w |}.
Definition set_version (v : Z) (w : Writer) : Writer :=
  {| w_buf := w_buf w; w_trace := w_trace w; w_max := w_max w; w_slot_map := w_slot_map w;
     w_sequence := w_sequence w; w_role_seq := w_role_seq w; w_role_members := w_role_members w;
     w_count := w_count w; w_version := v; w_heartbeat := w_heartbeat w |}.
Definition set_heartbeat (v : Z) (w : Writer) : Writer :=
  {| w_buf := w_buf w; w_trace := w_trace w; w_max := w_max w; w_slot_map := w_slot_map w;
     w_sequence := w_sequence w; w_role_seq := w_role_seq w; w_role_members := w_role_members w;
     w_count := w_count w; w_version := w_version w; w_heartbeat := v |}.

(** [self._buf[off : off + len(data)] = data]: a [ValueError] when the slice is
    cut short by the end of the buffer. *)
Definition store (off : nat) (data : bytes) : ST Writer ShmError unit := fun w =>
  if (length (w_buf w) <? off + length data)%nat then (Raise ShmValueError, w)
  else (Ret tt, set_buf (splice off data (w_buf w)) w).

Definition st_opt {S E A} (e : E) (x : option A) : ST S E A := fun s =>
  match x with Some a => (Ret a, s) | None => (Raise e, s) end.

Definition header_of (w : Writer) : WorkloadShmHeader :=
  {| h_magic := MAGIC; h_schema := SCHEMA_VERSION; h_sequence := w_sequence w; h_count := Z.of_nat (w_count w);
     h_max := Z.of_nat (w_max w); h_version := w_version w; h_heartbeat := w_heartbeat w;
     h_prefill := w_role_seq w K_prefill; h_decode := w_role_seq w K_decode; h_hybrid := w_role_seq w K_hybrid |}.

(** [_write_header]; reading the old heartbeat from less than eight bytes is a
    [struct.error], which the handler does not catch. *)
Definition write_header : ST Writer ShmError unit := fun w =>
  if (length (w_buf w) <? HEARTBEAT_OFFSET + 8)%nat then (Raise StructError, w)
  else
    let current_in_buf := unpack_u (slice HEARTBEAT_OFFSET 8 (w_buf w)) in
    let w := set_heartbeat (Z.max (w_heartbeat w) current_in_buf) w in
    (header ← st_opt StructError (pack_header (header_of w)); store 0 header) w.

Definition write_entry_at_slot (slot : nat) (e : WorkloadShmEntry) : ST Writer ShmError unit :=
  data ← st_opt StructError (pack_entry e);
  store (entry_offset slot) data.

Definition begin_write : ST Writer ShmError unit :=
  _ ← st_modify (fun w => set_sequence (if w_sequence w mod 2 =? 0 then w_sequence w + 1 else w_sequence w + 2) w);
  write_header.

Definition end_write : ST Writer ShmError unit :=
  _ ← st_modify (fun w => set_sequence (if w_sequence w mod 2 =? 1 then w_sequence w + 1 else w_sequence w + 2) w);
  write_header.

Definition bump64 (z : Z) : Z := (z + 1) mod 2 ^ 64.

Definition role_members (entries : list WorkloadShmEntry) (k : seq_key) : gset (Z * Z) :=
  list_to_set (map (fun e => (e_instance e, e_endpoint e))
                 (base.filter (fun e => shm_role_to_seq_key (e_role e) = Some k) entries)).

Definition bump_changed_role_sequences (entries : list WorkloadShmEntry) (w : Writer) : Writer :=
  let new_members := role_members entries in
  set_roles (fun k => if decide (new_members k = w_role_members w k) then w_role_seq w k else bump64 (w_role_seq w k))
    new_members w.

Definition bump_role_sequence (r : PDRole) (w : Writer) : Writer :=
  match role_seq_key r with
  | None => w
  | Some k0 => set_roles (fun k => if decide (k = k0) then bump64 (w_role_seq w k) else w_role_seq w k) (w_role_members w) w
  end.

(** [for slot, (...) in enumerate(entries): self._write_entry_at_slot(...)] *)
Fixpoint write_entries (slot : nat) (l : list WorkloadShmEntry) : ST Writer ShmError unit :=
  match l with
  | [] => mret tt
  | e :: l => _ ← write_entry_at_slot slot e; write_entries (S slot) l
  end.

Definition write_snapshot (s : Pools) : ST Writer ShmError unit := fun w =>
  let '(entries, slot_map) := collect_entries_and_slot_map s (w_max w) in
  (_ ← st_modify (set_slots slot_map (length entries));
   _ ← begin_write;
   _ ← write_entries 0 entries;
   _ ← st_modify (bump_changed_role_sequences entries);
   _ ← st_modify (fun w => set_version (w_version w + 1) w);
   end_write) w.

(** [role is None or workload is None] is [None]. *)
Definition write_single_entry_from_workload (id ep : Z) (rw : option (PDRole * Workload)) (s : Pools)
    : ST Writer ShmError unit := fun w =>
  match dget (id, ep) (w_slot_map w) with
  | None => write_snapshot s w
  | Some slot =>
      match rw with
      | None => (Ret tt, w)
      | Some (role, wl) =>
          (_ ← begin_write;
           _ ← write_entry_at_slot slot {| e_instance := id; e_endpoint := ep;
                                           e_role := pdrole_to_shm_role role; e_tokens := active_tokens wl |};
           _ ← st_modify (bump_role_sequence role);
           end_write) w
      end
  end.

(** The lookup may fill the manager's endpoint index, which is returned with
    the result. *)
Definition write_single_entry_sync (id ep : Z) (s : Pools) : ST Writer ShmError Pools :=
  match get_endpoint_workload_sync id ep s with
  | (Raise e, s) => st_raise (LookupError e)
  | (Ret rw, s) => _ ← write_single_entry_from_workload id ep rw s; mret s
  end.

Definition write_heartbeat : ST Writer ShmError unit :=
  _ ← st_modify (fun w => set_heartbeat (bump64 (w_heartbeat w)) w);
  w ← st_get;
  data ← st_opt StructError (pack_u 8 (w_heartbeat w));
  store HEARTBEAT_OFFSET data.

Definition role_sequence (r : PDRole) (w : Writer) : option Z := w_role_seq w <$> role_seq_key r.

(** ** The reader *)

Definition STABLE_SNAPSHOT_READ_ATTEMPTS : nat := 3.

Definition shm_role_to_pdrole (role : Z) : PDRole :=
  if role =? ROLE_ENCODE then ROLE_E
  else if role =? ROLE_PREFILL then ROLE_P
  else if role =? ROLE_DECODE then ROLE_D
  else ROLE_U.

Record Reader := {
  rd_sequence : option Z;
  rd_role_seq : dict PDRole Z;
  rd_hb_value : Z;
  rd_hb_time : pyfloat }.

Definition reader_init : Reader :=
  {| rd_sequence := None; rd_role_seq := []; rd_hb_value := 0; rd_hb_time := SpecFloat.S754_zero false |}.

Definition is_valid_header (size : nat) (h : WorkloadShmHeader) : bool :=
  (h_magic h =? MAGIC) && (h_schema h =? SCHEMA_VERSION) &&
  negb ((h_count h <? 0) || (h_max h <? h_count h)) &&
  (Z.of_nat HEADER_SIZE + h_count h * Z.of_nat ENTRY_SIZE <=? Z.of_nat size).

Definition role_sequences_supported (h : WorkloadShmHeader) : bool := SCHEMA_VERSION <=? h_schema h.

Definition headers_match (h h' : WorkloadShmHeader) : bool :=
  (h_magic h' =? MAGIC) && (h_schema h' =? h_schema h) && (h_sequence h' =? h_sequence h) &&
  (h_sequence h' mod 2 =? 0) && (h_count h' =? h_count h) && (h_version h' =? h_version h) &&
  (negb (role_sequences_supported h) ||
   ((h_prefill h' =? h_prefill h) && (h_decode h' =? h_decode h) && (h_hybrid h' =? h_hybrid h))).

Definition role_sequence_from_header (h : WorkloadShmHeader) (role : option PDRole) : option Z :=
  if role_sequences_supported h then
    match role with
    | Some ROLE_P => Some (h_prefill h)
    | Some ROLE_D => Some (h_decode h)
    | Some ROLE_U => Some (h_hybrid h)
    | _ => None
    end
  else None.

Definition role_cache_is_current (h : WorkloadShmHeader) (role : option PDRole) (rd : Reader) : bool :=
  match role_sequence_from_header h role, role with
  | Some q, Some r => bool_decide (dget r (rd_role_seq rd) = Some q)
  | _, _ => false
  end.

(** The loads of one pass: the reader's [t]-th load sees [mem t]. *)
Fixpoint load_entries (mem : nat -> bytes) (t slot : nat) (n : nat) : option (list WorkloadShmEntry) :=
  match n with
  | O => Some []
  | S n =>
      e ← unpack_entry (mem t) slot;
      l ← load_entries mem (S t) (S slot) n;
      Some (e :: l)
  end.

(** What the retry loop ends with: an early return or an exception
    ([R_none]), exhausted attempts ([R_unstable]), or a snapshot. *)
Inductive read_result :=
  | R_none
  | R_unstable
  | R_snapshot (h : WorkloadShmHeader) (entries : option (list WorkloadShmEntry)).

Fixpoint read_loop (attempts : nat) (mem : nat -> bytes) (t : nat) (role : option PDRole) (rd : Reader) : read_result :=
  match attempts with
  | O => R_unstable
  | S attempts =>
      match unpack_header (mem t) with
      | None => R_none
      | Some header =>
          if negb (is_valid_header (length (mem t)) header) then R_none
          else if h_sequence header mod 2 =? 1 then read_loop attempts mem (S t) role rd
          else
            let scan t :=
              let n := Z.to_nat (h_count header) in
              match load_entries mem t 0 n with
              | None => R_none
              | Some entries =>
                  match unpack_header (mem (t + n)%nat) with
                  | None => R_none
                  | Some header_after =>
                      if headers_match header header_after then R_snapshot header_after (Some entries)
                      else read_loop attempts mem (S (t + n)) role rd
                  end
              end in
            if role_cache_is_current header role rd then
              match unpack_header (mem (S t)) with
              | None => R_none
              | Some header_after =>
                  if headers_match header header_after then R_snapshot header_after None
                  else scan (S (S t))
              end
            else scan (S t)
      end
  end.

Definition update_heartbeat_and_check_stale (now : pyfloat) (h : WorkloadShmHeader) (rd : Reader) : bool * Reader :=
  let rd := if h_heartbeat h =? rd_hb_value rd then rd
            else {| rd_sequence := rd_sequence rd; rd_role_seq := rd_role_seq rd;
                    rd_hb_value := h_heartbeat h; rd_hb_time := now |} in
  (fltb (SpecFloat.S754_zero false) (rd_hb_time rd) && fltb HEARTBEAT_STALE_SEC (fsub now (rd_hb_time rd)), rd).

(** The calls of [patch_workload_from_shm]. *)
Definition patch_entries (entries : list WorkloadShmEntry) (role : option PDRole) : list (Z * Z * PDRole * pyfloat) :=
  let skip pdrole := match role with
                     | Some ROLE_P | Some ROLE_D | Some ROLE_U => negb (bool_decide (Some pdrole = role))
                     | _ => false
                     end in
  omap (fun e => let pdrole := shm_role_to_pdrole (e_role e) in
                 if skip pdrole then None else Some (e_instance e, e_endpoint e, pdrole, e_tokens e)) entries.

Definition record_patched_sequences (h : WorkloadShmHeader) (role : option PDRole) (rd : Reader) : Reader :=
  match role_sequence_from_header h role, role with
  | Some q, Some r =>
      {| rd_sequence := rd_sequence rd; rd_role_seq := dset r q (rd_role_seq rd);
         rd_hb_value := rd_hb_value rd; rd_hb_time := rd_hb_time rd |}
  | _, _ =>
      {| rd_sequence := Some (h_sequence h);
         rd_role_seq := if role_sequences_supported h
                        then [(ROLE_P, h_prefill h); (ROLE_D, h_decode h); (ROLE_U, h_hybrid h)] else [];
         rd_hb_value := rd_hb_value rd; rd_hb_time := rd_hb_time rd |}
  end.

Record read_outcome := {
  ro_version : option Z;
  ro_stale : bool;
  ro_patches : list (Z * Z * PDRole * pyfloat) }.

Definition read_and_patch_cache (mem : nat -> bytes) (now : pyfloat) (role : option PDRole) (rd : Reader)
    : read_outcome * Reader :=
  match read_loop STABLE_SNAPSHOT_READ_ATTEMPTS mem 0 role rd with
  | R_none | R_unstable => ({| ro_version := None; ro_stale := false; ro_patches := [] |}, rd)
  | R_snapshot header entries =>
      let '(stale, rd) := update_heartbeat_and_check_stale now header rd in
      match entries with
      | None => ({| ro_version := Some (h_version header); ro_stale := stale; ro_patches := [] |}, rd)
      | Some entries =>
          ({| ro_version := Some (h_version header); ro_stale := stale; ro_patches := patch_entries entries role |},
           record_patched_sequences header role rd)
      end
  end.

(** ** Round trips of the layout *)

Definition normalized (h : WorkloadShmHeader) : WorkloadShmHeader :=
  {| h_magic := h_magic h; h_schema := h_schema h; h_sequence := h_sequence h; h_count := h_count h;
     h_max := h_max h; h_version := norm64 (h_version h); h_heartbeat := norm64 (h_heartbeat h);
     h_prefill := norm64 (h_prefill h); h_decode := norm64 (h_decode h); h_hybrid := norm64 (h_hybrid h) |}.

Ltac bind_step H :=
  match type of H with
  | (?x ≫= _) = Some _ => let E := fresh "E" in destruct x eqn:E; cbn [mbind option_bind] in H; [|discriminate H]
  end.

Lemma pack_header_unpack h data : pack_header h = Some data ->
  length data = HEADER_SIZE /\ unpack_header data = Some (normalized h).
Proof.
  unfold pack_header. intros H. repeat bind_step H. apply (inj Some) in H as <-.
  repeat match goal with
  | E : pack_u _ _ = Some _ |- _ => apply pack_u_spec in E as (_ & ? & _ & ?)
  | E : pack_i _ _ = Some _ |- _ => apply pack_i_spec in E as [? ?]; [|lia]
  end.
  match goal with |- length ?d = _ /\ _ => assert (Hl : length d = HEADER_SIZE) by (rewrite !length_app; unfold HEADER_SIZE; lia) end.
  split; [done|]. unfold unpack_header. rewrite Hl. cbn [Nat.ltb Nat.leb HEADER_SIZE]. clear Hl.
  slice_simpl. unfold normalized. f_equal. by f_equal.
Qed.

Lemma pack_entry_unpack e data : is_float64 (e_tokens e) = true -> pack_entry e = Some data ->
  length data = ENTRY_SIZE /\
  {| e_instance := unpack_i (slice 0 4 data); e_endpoint := unpack_i (slice 4 4 data);
     e_role := unpack_u (slice 8 1 data); e_tokens := unpack_d (slice 12 8 data) |} = e.
Proof.
  unfold pack_entry. intros Hf H. repeat bind_step H. apply (inj Some) in H as <-.
  repeat match goal with
  | E : pack_u _ _ = Some _ |- _ => apply pack_u_spec in E as (_ & ? & _ & ?)
  | E : pack_i _ _ = Some _ |- _ => apply pack_i_spec in E as [? ?]; [|lia]
  end.
  pose proof (length_pack_d (e_tokens e)) as Hd. set (z3 := [0; 0; 0]). assert (Hz : length z3 = 3%nat) by done.
  split; [rewrite !length_app; cbn; unfold ENTRY_SIZE; lia|].
  slice_simpl. rewrite pack_d_roundtrip by done. destruct e; cbn in *; congruence.
Qed.

Lemma length_pack_entry e data : pack_entry e = Some data -> length data = ENTRY_SIZE.
Proof.
  unfold pack_entry. intros H. repeat bind_step H. apply (inj Some) in H as <-.
  repeat match goal with
  | E : pack_u _ _ = Some _ |- _ => apply pack_u_spec in E as (_ & ? & _ & ?)
  | E : pack_i _ _ = Some _ |- _ => apply pack_i_spec in E as [? ?]; [|lia]
  end.
  pose proof (length_pack_d (e_tokens e)). rewrite !length_app. cbn. unfold ENTRY_SIZE. lia.
Qed.

(** What a header written at the start of the buffer decodes to. *)
Lemma unpack_header_slices buf data : (HEADER_SIZE <= length buf)%nat -> length data = HEADER_SIZE ->
  unpack_header (splice 0 data buf) = unpack_header data.
Proof.
  intros Hb Hd. unfold unpack_header. rewrite length_splice by lia. rewrite Hd.
  destruct (Nat.ltb_spec (length buf) HEADER_SIZE); [lia|]. cbn [Nat.ltb Nat.leb HEADER_SIZE].
  assert (Hs : forall k n, (k + n <= 64)%nat -> slice k n (splice 0 data buf) = slice k n data).
  { intros k n Hk. apply (slice_splice_in 0 data buf k n); unfold HEADER_SIZE in *; lia. }
  rewrite !Hs by lia. done.
Qed.

Lemma unpack_entry_written buf slot e data : is_float64 (e_tokens e) = true -> pack_entry e = Some data ->
  (entry_offset slot + ENTRY_SIZE <= length buf)%nat ->
  unpack_entry (splice (entry_offset slot) data buf) slot = Some e.
Proof.
  intros Hf Hp Hb. destruct (pack_entry_unpack e data Hf Hp) as [Hl He]. unfold unpack_entry.
  rewrite length_splice by lia. destruct (Nat.ltb_spec (length buf) (entry_offset slot + ENTRY_SIZE)); [lia|].
  rewrite <- Hl, slice_splice_same by lia. by rewrite He.
Qed.

(** Stores elsewhere leave an entry alone. *)
Lemma unpack_entry_slice b b' slot : length b' = length b ->
  slice (entry_offset slot) ENTRY_SIZE b' = slice (entry_offset slot) ENTRY_SIZE b ->
  unpack_entry b' slot = unpack_entry b slot.
Proof. intros H1 H2. unfold unpack_entry. by rewrite H1, H2. Qed.

(** ** The discipline of the writer *)

(** The sequence number in a buffer, and the part behind the header. *)
Definition hseq (b : bytes) : Z := unpack_i (slice 8 8 b).
Definition body (b : bytes) : bytes := drop HEADER_SIZE b.

(** Two buffers that differ at most in the heartbeat. *)
Definition stable_eq (b b' : bytes) : Prop :=
  take HEARTBEAT_OFFSET b' = take HEARTBEAT_OFFSET b /\ drop (HEARTBEAT_OFFSET + 8) b' = drop (HEARTBEAT_OFFSET + 8) b.

(** One store: it raises the sequence, or the sequence is odd, or it touches
    the heartbeat only. *)
Definition store_ok (b b' : bytes) : Prop :=
  length b' = length b /\
  (hseq b < hseq b' \/ (hseq b' = hseq b /\ (hseq b mod 2 = 1 \/ stable_eq b b'))).

(** A history of stores, ending in the current buffer. *)
Fixpoint chain (b : bytes) (l : list bytes) (last : bytes) : Prop :=
  match l with
  | [] => b = last
  | b' :: l => store_ok b b' /\ chain b' l last
  end.

Lemma chain_snoc b l c c' : chain b l c -> store_ok c c' -> chain b (l ++ [c']) c'.
Proof. revert b. induction l as [|x l IH]; cbn; intros b; [intros ->; done|]. intros [H1 H2] H3. auto. Qed.

Section Discipline.
Context (b0 : bytes).

Record writer_inv (w : Writer) : Prop := {
  wi_chain : chain b0 (w_trace w) (w_buf w);
  wi_size : (HEADER_SIZE <= length (w_buf w))%nat;
  wi_seq : hseq (w_buf w) <= w_sequence w }.

(** Between [begin_write] and [end_write]. *)
Record critical (w : Writer) : Prop := {
  cr_inv : writer_inv w;
  cr_seq : hseq (w_buf w) = w_sequence w;
  cr_odd : w_sequence w mod 2 = 1 }.

(** The stores of an operation so far: none leaves an even sequence. *)
Definition odd_ext (w w' : Writer) : Prop :=
  exists new, w_trace w' = w_trace w ++ new /\ Forall (fun b => hseq b mod 2 = 1) new.

Lemma odd_ext_refl w : odd_ext w w.
Proof. exists []. split; [by rewrite app_nil_r|constructor]. Qed.
Lemma odd_ext_trans w1 w2 w3 : odd_ext w1 w2 -> odd_ext w2 w3 -> odd_ext w1 w3.
Proof.
  intros (n1 & H1 & F1) (n2 & H2 & F2). exists (n1 ++ n2). split; [by rewrite H2, H1, app_assoc|by apply Forall_app].
Qed.

Lemma write_header_spec w : writer_inv w -> hseq (w_buf w) < w_sequence w ->
  match write_header w with
  | (Ret _, w') => writer_inv w' /\ hseq (w_buf w') = w_sequence w' /\ w_sequence w' = w_sequence w /\
      w_trace w' = w_trace w ++ [w_buf w'] /\ body (w_buf w') = body (w_buf w) /\
      length (w_buf w') = length (w_buf w) /\
      unpack_header (w_buf w') = Some (normalized (header_of w')) /\
      w_count w' = w_count w /\ w_max w' = w_max w /\ w_slot_map w' = w_slot_map w /\ w_role_seq w' = w_role_seq w
  | (Raise _, w') => writer_inv w' /\ w_trace w' = w_trace w
  end.
Proof.
  intros [Hc Hl Hs] Hlt0. unfold write_header.
  destruct (Nat.ltb_spec (length (w_buf w)) (HEARTBEAT_OFFSET + 8)) as [Hlt|_];
    [unfold HEARTBEAT_OFFSET, HEADER_SIZE in *; lia|].
  set (w1 := set_heartbeat _ w). unfold mbind, ST_bind, st_opt.
  destruct (pack_header (header_of w1)) as [data|] eqn:Ep; [|done].
  destruct (pack_header_unpack _ _ Ep) as [Hd Hu]. unfold store. change (w_buf w1) with (w_buf w).
  destruct (Nat.ltb_spec (length (w_buf w)) (0 + length data)) as [Hlt|_]; [lia|].
  assert (Hun : unpack_header (splice 0 data (w_buf w)) = Some (normalized (header_of w1)))
    by by rewrite unpack_header_slices.
  assert (Hq : hseq (splice 0 data (w_buf w)) = w_sequence w).
  { unfold unpack_header in Hun. rewrite length_splice in Hun by lia.
    destruct (Nat.ltb_spec (length (w_buf w)) HEADER_SIZE) as [|_]; [lia|]. injection Hun as _ _ H _ _ _ _ _ _ _. exact H. }
  assert (Hb : body (splice 0 data (w_buf w)) = body (w_buf w)).
  { unfold body, splice. rewrite take_0, app_nil_l, Nat.add_0_l. by rewrite drop_app_length', Hd. }
  assert (Hlen : length (splice 0 data (w_buf w)) = length (w_buf w)) by (apply length_splice; lia).
  split; [|by repeat (split; [done|])]. split; cbn [w_trace set_buf w_buf w_sequence].
  - apply (chain_snoc _ _ (w_buf w)); [done|]. split; [done|]. left. by rewrite Hq.
  - by rewrite Hlen.
  - by rewrite Hq.
Qed.

Lemma set_sequence_inv z w : w_sequence w < z -> writer_inv w ->
  writer_inv (set_sequence z w) /\ hseq (w_buf (set_sequence z w)) < w_sequence (set_sequence z w).
Proof. intros Hz [Hc Hl Hs]. split; [split; try done|]; cbn; lia. Qed.

Lemma begin_write_spec w : writer_inv w ->
  match begin_write w with
  | (Ret _, w') => critical w' /\ odd_ext w w' /\ body (w_buf w') = body (w_buf w) /\
      length (w_buf w') = length (w_buf w) /\ w_count w' = w_count w /\ w_max w' = w_max w /\ w_slot_map w' = w_slot_map w /\
      w_role_seq w' = w_role_seq w
  | (Raise _, w') => writer_inv w' /\ odd_ext w w'
  end.
Proof.
  intros Hw. unfold begin_write, mbind, ST_bind, st_modify.
  set (z := if w_sequence w mod 2 =? 0 then _ else _).
  assert (Hz : w_sequence w < z /\ z mod 2 = 1).
  { unfold z. pose proof (Z.mod_pos_bound (w_sequence w) 2 ltac:(lia)).
    destruct (Z.eqb_spec (w_sequence w mod 2) 0) as [E|E]; (split; [lia|]); rewrite Z.add_mod by lia.
    - by rewrite E.
    - replace (w_sequence w mod 2) with 1 by lia. done. }
  destruct (set_sequence_inv z w (proj1 Hz) Hw) as [Hw' Hlt']. pose proof (write_header_spec _ Hw' Hlt') as H.
  destruct (write_header (set_sequence z w)) as [[[]|e] w'].
  - destruct H as (H1 & H2 & H3 & H4 & H5 & H6 & _ & H7 & H8 & H9). cbn in *.
    assert (Ho : w_sequence w' mod 2 = 1) by (rewrite H3; apply Hz).
    split; [by split|]. split; [|done]. exists [w_buf w']. split; [done|]. constructor; [by rewrite H2|constructor].
  - destruct H as (H1 & H2). split; [done|]. exists []. split; [by rewrite app_nil_r|constructor].
Qed.

Lemma entry_store_body off data b : (HEADER_SIZE <= off)%nat -> (off + length data <= length b)%nat ->
  hseq (splice off data b) = hseq b.
Proof. intros H1 H2. unfold hseq. rewrite slice_splice_before; [done|done|]. unfold HEADER_SIZE in H1. lia. Qed.

Lemma write_entry_spec slot e w : critical w ->
  match write_entry_at_slot slot e w with
  | (Ret _, w') => critical w' /\ odd_ext w w' /\
      (entry_offset slot + ENTRY_SIZE <= length (w_buf w))%nat /\
      exists data, pack_entry e = Some data /\ w_buf w' = splice (entry_offset slot) data (w_buf w) /\
        w' = set_buf (w_buf w') w
  | (Raise _, w') => w' = w
  end.
Proof.
  intros [[Hc Hl Hs] Hq Ho]. unfold write_entry_at_slot, mbind, ST_bind, st_opt.
  destruct (pack_entry e) as [data|] eqn:Ep; [|done]. unfold store.
  pose proof (length_pack_entry e data Ep) as Hd.
  destruct (Nat.ltb_spec (length (w_buf w)) (entry_offset slot + length data)) as [Hlt|Hge]; [done|].
  assert (Hoff : (HEADER_SIZE <= entry_offset slot)%nat) by (unfold entry_offset; lia).
  pose proof (entry_store_body _ _ _ Hoff Hge) as Hh.
  assert (Hlen : length (splice (entry_offset slot) data (w_buf w)) = length (w_buf w)) by (apply length_splice; lia).
  split.
  { split; [split|..]; cbn [w_trace set_buf w_buf w_sequence]; rewrite ?Hh, ?Hlen; try done.
    apply (chain_snoc _ _ (w_buf w)); [done|]. split; [done|]. right. split; [done|]. left. by rewrite Hq. }
  split.
  { exists [splice (entry_offset slot) data (w_buf w)]. split; [done|]. constructor; [by rewrite Hh, Hq|constructor]. }
  split; [lia|]. by exists data.
Qed.

(** An entry store leaves the other slots alone. *)
Lemma entry_store_other slot slot' data b : slot <> slot' -> length data = ENTRY_SIZE ->
  (entry_offset slot + ENTRY_SIZE <= length b)%nat ->
  unpack_entry (splice (entry_offset slot) data b) slot' = unpack_entry b slot'.
Proof.
  intros Hne Hd Hl. apply unpack_entry_slice; [apply length_splice; lia|].
  destruct (decide (slot' < slot)%nat) as [Hlt|Hge].
  - apply slice_splice_before; [lia|]. unfold entry_offset. unfold ENTRY_SIZE. lia.
  - apply slice_splice_after; [lia|]. rewrite Hd. unfold entry_offset, ENTRY_SIZE. lia.
Qed.

Lemma write_entries_spec l : forall slot w, critical w ->
  match write_entries slot l w with
  | (Ret _, w') => critical w' /\ odd_ext w w' /\ length (w_buf w') = length (w_buf w) /\
      w' = {| w_buf := w_buf w'; w_trace := w_trace w'; w_max := w_max w; w_slot_map := w_slot_map w;
              w_sequence := w_sequence w; w_role_seq := w_role_seq w; w_role_members := w_role_members w;
              w_count := w_count w; w_version := w_version w; w_heartbeat := w_heartbeat w |} /\
      (forall k e, l !! k = Some e -> is_float64 (e_tokens e) = true -> unpack_entry (w_buf w') (slot + k) = Some e) /\
      (forall k, (k < slot)%nat -> unpack_entry (w_buf w') k = unpack_entry (w_buf w) k)
  | (Raise _, w') => writer_inv w' /\ odd_ext w w'
  end.
Proof.
  induction l as [|e l IH]; intros slot w Hw; cbn [write_entries].
  { split; [done|]. split; [apply odd_ext_refl|]. split; [done|]. split; [by destruct w|]. done. }
  unfold mbind, ST_bind. pose proof (write_entry_spec slot e w Hw) as H1.
  destruct (write_entry_at_slot slot e w) as [[[]|err] w1]; [|subst w1; split; [apply Hw|apply odd_ext_refl]].
  destruct H1 as (Hc1 & Ho1 & Hfit & data & Hp & Hb & Hw1). pose proof (length_pack_entry _ _ Hp) as Hd.
  specialize (IH (S slot) w1 Hc1). destruct (write_entries (S slot) l w1) as [[[]|err] w2].
  - destruct IH as (Hc2 & Ho2 & Hl2 & Hw2 & Hin2 & Hout2).
    assert (Hl1 : length (w_buf w1) = length (w_buf w)) by (rewrite Hb; apply length_splice; lia).
    split; [done|]. split; [by eapply odd_ext_trans|]. split; [congruence|]. split.
    { rewrite Hw2, Hw1. done. }
    split.
    + intros [|k] e' Hk Hf.
      * injection Hk as ->. rewrite Nat.add_0_r, Hout2, Hb by lia. by apply unpack_entry_written.
      * replace (slot + S k)%nat with (S slot + k)%nat by lia. by apply Hin2.
    + intros k Hk. rewrite Hout2, Hb by lia. apply entry_store_other; [lia|done|done].
  - destruct IH as [H1 H2]. split; [done|]. by eapply odd_ext_trans.
Qed.

(** The stores of a whole operation: only the last may leave an even
    sequence. *)
Definition op_ext (w w' : Writer) : Prop :=
  exists new, w_trace w' = w_trace w ++ new /\ Forall (fun b => hseq b mod 2 = 1 \/ b = w_buf w') new.

Lemma odd_op_ext w w' : odd_ext w w' -> op_ext w w'.
Proof. intros (new & H & F). exists new. split; [done|]. eapply Forall_impl; [exact F|]. cbn. auto. Qed.

Lemma odd_snoc_op_ext w w1 w' : odd_ext w w1 -> w_trace w' = w_trace w1 ++ [w_buf w'] -> op_ext w w'.
Proof.
  intros (new & H & F) H'. exists (new ++ [w_buf w']). split; [by rewrite H', H, app_assoc|].
  apply Forall_app. split; [|constructor; [by right|constructor]]. eapply Forall_impl; [exact F|]. cbn. auto.
Qed.

Lemma end_write_spec w w0 : critical w -> odd_ext w0 w ->
  match end_write w with
  | (Ret _, w') => writer_inv w' /\ op_ext w0 w' /\ body (w_buf w') = body (w_buf w) /\
      length (w_buf w') = length (w_buf w) /\ unpack_header (w_buf w') = Some (normalized (header_of w')) /\
      w_sequence w' mod 2 = 0 /\ w_count w' = w_count w /\ w_max w' = w_max w /\ w_role_seq w' = w_role_seq w
  | (Raise _, w') => writer_inv w' /\ op_ext w0 w'
  end.
Proof.
  intros [Hw Hq Ho] Hext. unfold end_write, mbind, ST_bind, st_modify.
  assert (Hif : (w_sequence w mod 2 =? 1) = true) by (rewrite Ho; done). rewrite Hif.
  destruct (set_sequence_inv (w_sequence w + 1) w ltac:(lia) Hw) as [Hw' Hlt'].
  pose proof (write_header_spec _ Hw' Hlt') as H.
  destruct (write_header (set_sequence (w_sequence w + 1) w)) as [[[]|e] w'].
  - destruct H as (H1 & H2 & H3 & H4 & H5 & H6 & H7 & H8 & H9 & _ & H10). split; [done|].
    split; [by eapply odd_snoc_op_ext|]. do 3 (split; [done|]). split; [|done].
    rewrite H3. cbn. rewrite Z.add_mod, Ho by lia. done.
  - destruct H as (H1 & H2). split; [done|]. apply odd_op_ext. destruct Hext as (new & E & F). exists new.
    by rewrite H2.
Qed.

(** Changes of the writer's own fields. *)
Lemma fields_critical w w' : w_buf w' = w_buf w -> w_trace w' = w_trace w -> w_sequence w' = w_sequence w ->
  critical w -> critical w'.
Proof. intros E1 E2 E3 [[Hc Hl Hs] Hq Ho]. split; [split|..]; by rewrite ?E1, ?E2, ?E3. Qed.
Lemma fields_inv w w' : w_buf w' = w_buf w -> w_trace w' = w_trace w -> w_sequence w' = w_sequence w ->
  writer_inv w -> writer_inv w'.
Proof. intros E1 E2 E3 [Hc Hl Hs]. split; by rewrite ?E1, ?E2, ?E3. Qed.
Lemma fields_odd_ext w0 w w' : w_trace w' = w_trace w -> odd_ext w0 w -> odd_ext w0 w'.
Proof. intros E (new & H & F). exists new. by rewrite E. Qed.

Lemma unpack_entry_body b b' slot : length b' = length b -> body b' = body b -> unpack_entry b' slot = unpack_entry b slot.
Proof.
  intros Hl Hb. apply unpack_entry_slice; [done|]. unfold slice, body, entry_offset in *.
  rewrite <- !drop_drop. by rewrite Hb.
Qed.

Lemma write_snapshot_spec s w : writer_inv w ->
  match write_snapshot s w with
  | (Ret _, w') => writer_inv w' /\ op_ext w w' /\
      let entries := (collect_entries_and_slot_map s (w_max w)).1 in
      unpack_header (w_buf w') = Some (normalized (header_of w')) /\ w_count w' = length entries /\
      w_max w' = w_max w /\ w_sequence w' mod 2 = 0 /\
      forall k e, entries !! k = Some e -> is_float64 (e_tokens e) = true -> unpack_entry (w_buf w') k = Some e
  | (Raise _, w') => writer_inv w' /\ op_ext w w'
  end.
Proof.
  intros Hw. unfold write_snapshot. destruct (collect_entries_and_slot_map s (w_max w)) as [entries slots].
  unfold mbind, ST_bind, st_modify. set (w0 := set_slots slots (length entries) w).
  assert (Hw0 : writer_inv w0) by by apply (fields_inv w).
  pose proof (begin_write_spec w0 Hw0) as H1.
  destruct (begin_write w0) as [[[]|e] w1]; [|destruct H1 as [? H1]; split; [done|by apply odd_op_ext]].
  destruct H1 as (Hc1 & Ho1 & Hb1 & Hl1 & Hn1 & Hm1 & Hs1 & _).
  pose proof (write_entries_spec entries 0 w1 Hc1) as H2.
  destruct (write_entries 0 entries w1) as [[[]|e] w2];
    [|destruct H2 as [? H2]; split; [done|apply odd_op_ext; by apply (odd_ext_trans w0 w1)]].
  destruct H2 as (Hc2 & Ho2 & Hl2 & Hw2 & Hin2 & _).
  set (w3 := set_version _ _).
  assert (Hc3 : critical w3) by by apply (fields_critical w2).
  assert (Ho3 : odd_ext w w3).
  { apply (fields_odd_ext w w2); [done|]. apply (odd_ext_trans w w1); [exact Ho1|exact Ho2]. }
  pose proof (end_write_spec w3 w Hc3 Ho3) as H3.
  destruct (end_write w3) as [[[]|e] w4]; [|done].
  destruct H3 as (Hi4 & He4 & Hb4 & Hl4 & Hu4 & Hq4 & Hn4 & Hm4 & _).
  split; [done|]. split; [done|]. cbn zeta. split; [done|]. split.
  { rewrite Hn4. change (w_count w2 = length entries). rewrite Hw2. cbn. by rewrite Hn1. }
  split; [rewrite Hm4; change (w_max w2 = w_max w); rewrite Hw2; exact Hm1|].
  split; [done|]. intros k e Hk Hf. rewrite (unpack_entry_body (w_buf w3)) by done. by apply (Hin2 k e).
Qed.

Lemma write_single_spec id ep rw s w : writer_inv w ->
  writer_inv (write_single_entry_from_workload id ep rw s w).2 /\
  op_ext w (write_single_entry_from_workload id ep rw s w).2.
Proof.
  intros Hw. unfold write_single_entry_from_workload.
  destruct (dget (id, ep) (w_slot_map w)) as [slot|].
  2:{ pose proof (write_snapshot_spec s w Hw) as H. destruct (write_snapshot s w) as [[[]|e] w']; [|done].
      destruct H as (H1 & H2 & _). done. }
  destruct rw as [[role wl]|]; [|split; [done|apply odd_op_ext, odd_ext_refl]].
  unfold mbind, ST_bind, st_modify. pose proof (begin_write_spec w Hw) as H1.
  destruct (begin_write w) as [[[]|e] w1]; [|destruct H1 as [? H1]; split; [done|by apply odd_op_ext]].
  destruct H1 as (Hc1 & Ho1 & _).
  match goal with |- context [write_entry_at_slot slot ?en w1] => pose proof (write_entry_spec slot en w1 Hc1) as H2;
    destruct (write_entry_at_slot slot en w1) as [[[]|e] w2] end; [|subst w2; split; [apply Hc1|by apply odd_op_ext]].
  destruct H2 as (Hc2 & Ho2 & _).
  assert (Hc3 : critical (bump_role_sequence role w2)) by (apply (fields_critical w2); by destruct role).
  assert (Ho3 : odd_ext w (bump_role_sequence role w2)).
  { apply (fields_odd_ext w w2); [by destruct role|]. by eapply odd_ext_trans. }
  pose proof (end_write_spec _ w Hc3 Ho3) as H3.
  destruct (end_write (bump_role_sequence role w2)) as [[[]|e] w4]; [|done].
  destruct H3 as (H3 & H4 & _). done.
Qed.

Lemma write_single_done id ep role wl s slot w w' : writer_inv w -> dget (id, ep) (w_slot_map w) = Some slot ->
  write_single_entry_from_workload id ep (Some (role, wl)) s w = (Ret tt, w') ->
  unpack_header (w_buf w') = Some (normalized (header_of w')) /\ w_sequence w' mod 2 = 0 /\
  w_count w' = w_count w /\ w_role_seq w' = w_role_seq (bump_role_sequence role w) /\
  (is_float64 (active_tokens wl) = true -> unpack_entry (w_buf w') slot =
     Some {| e_instance := id; e_endpoint := ep; e_role := pdrole_to_shm_role role; e_tokens := active_tokens wl |}).
Proof.
  intros Hw Hs. unfold write_single_entry_from_workload. rewrite Hs.
  unfold mbind, ST_bind, st_modify. pose proof (begin_write_spec w Hw) as H1.
  destruct (begin_write w) as [[[]|e] w1]; [|done].
  destruct H1 as (Hc1 & Ho1 & _ & _ & Hn1 & _ & _ & Hr1). set (en := Build_WorkloadShmEntry _ _ _ _).
  pose proof (write_entry_spec slot en w1 Hc1) as H2. destruct (write_entry_at_slot slot en w1) as [[[]|e] w2]; [|done].
  destruct H2 as (Hc2 & Ho2 & Hfit & data & Hp & Hb2 & Hw2).
  set (w3 := bump_role_sequence role w2).
  assert (Hc3 : critical w3) by (apply (fields_critical w2); by destruct role).
  assert (Ho3 : odd_ext w2 w3) by (apply (fields_odd_ext w2 w2); [by destruct role|apply odd_ext_refl]).
  pose proof (end_write_spec w3 w2 Hc3 Ho3) as H3. destruct (end_write w3) as [[[]|e] w4]; [|done].
  destruct H3 as (_ & _ & Hb4 & Hl4 & Hu4 & Hq4 & Hn4 & _ & Hr4). intros H. apply (inj2 pair) in H as [_ <-].
  assert (E3 : w_buf w3 = w_buf w2 /\ w_count w3 = w_count w2) by by destruct role. destruct E3 as [E3 E3'].
  split; [done|]. split; [done|]. split; [rewrite Hn4, E3', Hw2; exact Hn1|]. split.
  { rewrite Hr4. unfold w3. rewrite Hw2. unfold bump_role_sequence.
    destruct (role_seq_key role); cbn [w_role_seq set_roles set_buf]; by rewrite Hr1. }
  intros Hf. rewrite (unpack_entry_body (w_buf w3)) by done. rewrite E3, Hb2. by apply unpack_entry_written.
Qed.

Lemma write_heartbeat_spec w : writer_inv w -> writer_inv (write_heartbeat w).2 /\ op_ext w (write_heartbeat w).2.
Proof.
  intros Hw. unfold write_heartbeat, mbind, ST_bind, st_modify, st_get, st_opt.
  set (w1 := set_heartbeat _ w). assert (Hw1 : writer_inv w1) by by apply (fields_inv w).
  assert (Hx : op_ext w w1) by (apply odd_op_ext, (fields_odd_ext w w); [done|apply odd_ext_refl]).
  destruct (pack_u 8 (w_heartbeat w1)) as [data|] eqn:Ep; [|done].
  apply pack_u_spec in Ep as (_ & Hd & _). unfold store.
  destruct Hw1 as [Hc Hl Hs].
  destruct (Nat.ltb_spec (length (w_buf w1)) (HEARTBEAT_OFFSET + length data)) as [Hlt|Hge]; [done|]. cbn [snd].
  assert (Hq : hseq (splice HEARTBEAT_OFFSET data (w_buf w1)) = hseq (w_buf w1)).
  { unfold hseq. rewrite slice_splice_before; [done|lia|]. unfold HEARTBEAT_OFFSET. lia. }
  assert (Hb : stable_eq (w_buf w1) (splice HEARTBEAT_OFFSET data (w_buf w1))).
  { unfold stable_eq, splice. rewrite take_app_length' by (rewrite length_take; lia). split; [done|].
    rewrite drop_app_ge by (rewrite length_take; lia). rewrite length_take, drop_app_ge by lia.
    rewrite drop_drop. f_equal. lia. }
  assert (Hlen : length (splice HEARTBEAT_OFFSET data (w_buf w1)) = length (w_buf w1)) by (apply length_splice; lia).
  split.
  - split; cbn [w_trace set_buf w_buf w_sequence]; rewrite ?Hq, ?Hlen; try done.
    apply (chain_snoc _ _ (w_buf w1)); [done|]. split; [done|]. right. split; [done|by right].
  - apply (odd_snoc_op_ext w w1); [|done]. apply (fields_odd_ext w w); [done|apply odd_ext_refl].
Qed.
End Discipline.

(** ** Runs of the writer *)

Inductive writer_op :=
  | OpSnapshot (s : Pools)
  | OpSingle (id ep : Z) (rw : option (PDRole * Workload)) (s : Pools)
  | OpHeartbeat.

(** An operation that raises leaves what it had done. *)
Definition writer_exec (w : Writer) (o : writer_op) : Writer :=
  match o with
  | OpSnapshot s => (write_snapshot s w).2
  | OpSingle id ep rw s => (write_single_entry_from_workload id ep rw s w).2
  | OpHeartbeat => (write_heartbeat w).2
  end.

Definition writer_run (max_entries : nat) (ops : list writer_op) : Writer := foldl writer_exec (writer_init max_entries) ops.

(** Every buffer the segment ever held. *)
Definition history (max_entries : nat) (ops : list writer_op) : list bytes :=
  replicate (total_size max_entries) 0 :: w_trace (writer_run max_entries ops).

Lemma writer_exec_spec b0 w o : writer_inv b0 w -> writer_inv b0 (writer_exec w o) /\ op_ext w (writer_exec w o).
Proof.
  intros Hw. destruct o as [s|id ep rw s|]; cbn [writer_exec].
  - pose proof (write_snapshot_spec b0 s w Hw) as H. destruct (write_snapshot s w) as [[[]|e] w']; [|done].
    destruct H as (H1 & H2 & _). done.
  - by apply write_single_spec.
  - by apply write_heartbeat_spec.
Qed.

Lemma writer_run_snoc n ops o : writer_run n (ops ++ [o]) = writer_exec (writer_run n ops) o.
Proof. unfold writer_run. by rewrite foldl_app. Qed.

Lemma writer_run_inv n ops : writer_inv (replicate (total_size n) 0) (writer_run n ops).
Proof.
  induction ops as [|o ops IH] using rev_ind.
  - split; [done| |].
    + cbn [w_buf writer_run foldl writer_init]. rewrite length_replicate. unfold total_size. lia.
    + cbn [w_buf w_sequence writer_run foldl writer_init]. unfold hseq, slice, total_size.
      rewrite drop_replicate, take_replicate. unfold HEADER_SIZE.
      replace (8 `min` (64 + n * ENTRY_SIZE - 8))%nat with 8%nat by lia. done.
  - rewrite writer_run_snoc. by apply writer_exec_spec.
Qed.

(** A stable buffer of the history is the buffer after some prefix of the
    operations. *)
Lemma stable_is_boundary n ops b : b ∈ history n ops -> hseq b mod 2 = 0 ->
  exists k, b = w_buf (writer_run n (take k ops)).
Proof.
  unfold history. revert b. induction ops as [|o ops IH] using rev_ind; intros b Hb He.
  - exists 0%nat. apply elem_of_cons in Hb as [->|Hb]; [done|by apply not_elem_of_nil in Hb].
  - destruct (writer_exec_spec _ _ o (writer_run_inv n ops)) as [_ (new & Ht & Hf)].
    rewrite writer_run_snoc, Ht in Hb. rewrite app_comm_cons, elem_of_app in Hb. destruct Hb as [Hb|Hb].
    + destruct (IH b Hb He) as [k Hk]. exists (k `min` length ops)%nat.
      rewrite take_app_le by lia. rewrite Hk. f_equal. f_equal.
      destruct (decide (k <= length ops)%nat); [by rewrite Nat.min_l by lia|].
      rewrite Nat.min_r, firstn_all by lia. by rewrite take_ge by lia.
    + rewrite Forall_forall in Hf. destruct (Hf b Hb) as [Ho|Heq]; [lia|].
      exists (length ops + 1)%nat. rewrite take_ge by (rewrite length_app; cbn; lia). by rewrite writer_run_snoc.
Qed.

(** ** What a reader can see *)

Lemma chain_mono l : forall b last i j x y, chain b l last -> (b :: l) !! i = Some x -> (b :: l) !! j = Some y ->
  (i <= j)%nat -> length y = length x /\ hseq x <= hseq y /\ (hseq x = hseq y -> hseq x mod 2 = 0 -> stable_eq x y).
Proof.
  induction l as [|c l IH]; intros b last i j x y Hc Hi Hj Hij.
  - destruct i as [|i], j as [|j]; try done; try lia. simplify_eq/=. by repeat split.
  - destruct Hc as [(Hl & Hs) Hc]. destruct j as [|j]; [assert (i = 0)%nat as -> by lia; simplify_eq/=; by repeat split|].
    destruct i as [|i]; [|apply (IH c last i j x y); try done; lia].
    cbn in Hi, Hj. apply (inj Some) in Hi as ->.
    destruct (IH c last 0%nat j c y Hc eq_refl Hj ltac:(lia)) as (H1 & H2 & H3).
    split; [congruence|]. split; [destruct Hs as [Hs|[Hs _]]; lia|].
    intros He Hev. destruct Hs as [Hs|[Hs [Hs'|[Ht Hd]]]]; [lia|lia|].
    destruct H3 as [Ht' Hd']; [congruence|congruence|]. split; congruence.
Qed.

(** What depends on the heartbeat alone. *)
Lemma stable_eq_slice b b' k m : stable_eq b b' -> (k + m <= HEARTBEAT_OFFSET)%nat -> slice k m b' = slice k m b.
Proof.
  intros [Ht _] Hk. assert (H : forall c : bytes, slice k m c = slice k m (take HEARTBEAT_OFFSET c)).
  { intros c. unfold slice. rewrite !take_drop_commute, take_take. by rewrite Nat.min_l by lia. }
  rewrite H, (H b). by rewrite Ht.
Qed.
Lemma stable_eq_slice_after b b' k m : stable_eq b b' -> (HEARTBEAT_OFFSET + 8 <= k)%nat -> slice k m b' = slice k m b.
Proof.
  intros [_ Hd] Hk. unfold slice. remember (HEARTBEAT_OFFSET + 8)%nat as o.
  replace k with (o + (k - o))%nat by lia. rewrite <- !drop_drop. by rewrite Hd.
Qed.

Lemma stable_eq_entry b b' slot : length b' = length b -> stable_eq b b' -> unpack_entry b' slot = unpack_entry b slot.
Proof.
  intros Hl Hs. apply unpack_entry_slice; [done|]. apply stable_eq_slice_after; [done|].
  unfold entry_offset, HEADER_SIZE, HEARTBEAT_OFFSET. lia.
Qed.

Definition same_but_heartbeat (h h' : WorkloadShmHeader) : Prop :=
  h' = {| h_magic := h_magic h; h_schema := h_schema h; h_sequence := h_sequence h; h_count := h_count h;
          h_max := h_max h; h_version := h_version h; h_heartbeat := h_heartbeat h'; h_prefill := h_prefill h;
          h_decode := h_decode h; h_hybrid := h_hybrid h |}.

Lemma stable_eq_header b b' h h' : stable_eq b b' -> unpack_header b = Some h -> unpack_header b' = Some h' ->
  same_but_heartbeat h h'.
Proof.
  unfold unpack_header. intros Hs. destruct (length b <? HEADER_SIZE)%nat; [done|].
  destruct (length b' <? HEADER_SIZE)%nat; [done|]. intros H H'. apply (inj Some) in H as <-, H' as <-.
  unfold same_but_heartbeat. cbn [h_magic h_schema h_sequence h_count h_max h_version h_heartbeat h_prefill h_decode h_hybrid].
  f_equal; f_equal;
    solve [apply stable_eq_slice; [done|unfold HEARTBEAT_OFFSET; lia]
          |apply stable_eq_slice_after; [done|unfold HEARTBEAT_OFFSET; lia]].
Qed.

Lemma unpack_header_seq b h : unpack_header b = Some h -> h_sequence h = hseq b.
Proof. unfold unpack_header. destruct (_ <? _)%nat; [done|]. intros H. by apply (inj Some) in H as <-. Qed.

(** The loads of a reader: load [t] sees the [tau t]-th buffer of the history,
    and time does not run backwards. *)
Section Reading.
Context (n : nat) (ops : list writer_op) (mem : nat -> bytes) (tau : nat -> nat).
Hypothesis Hmono : forall i j, (i <= j)%nat -> (tau i <= tau j)%nat.
Hypothesis Hmem : forall t, history n ops !! tau t = Some (mem t).

Lemma mem_mono i j : (i <= j)%nat ->
  length (mem j) = length (mem i) /\ hseq (mem i) <= hseq (mem j) /\
  (hseq (mem i) = hseq (mem j) -> hseq (mem i) mod 2 = 0 -> stable_eq (mem i) (mem j)).
Proof. intros Hij. destruct (writer_run_inv n ops) as [Hc _ _]. by eapply chain_mono; eauto. Qed.

(** Equal stable sequences: the same buffer up to the heartbeat, also at every
    load in between. *)
Lemma mem_between i j k : (i <= j)%nat -> (j <= k)%nat -> hseq (mem i) = hseq (mem k) -> hseq (mem i) mod 2 = 0 ->
  hseq (mem j) = hseq (mem i) /\ stable_eq (mem i) (mem j) /\ stable_eq (mem j) (mem k).
Proof.
  intros Hij Hjk He Hev. destruct (mem_mono i j Hij) as (_ & H1 & H2), (mem_mono j k Hjk) as (_ & H3 & H4).
  assert (E : hseq (mem j) = hseq (mem i)) by lia. split; [done|]. split; [by apply H2|]. apply H4; [congruence|]. by rewrite E.
Qed.

Lemma load_entries_spec m : forall t slot l, load_entries mem t slot m = Some l ->
  hseq (mem t) = hseq (mem (t + m)) -> hseq (mem t) mod 2 = 0 ->
  load_entries (fun _ => mem (t + m)) 0 slot m = Some l.
Proof.
  induction m as [|m IH]; intros t slot l Hl He Hev; [done|]. cbn [load_entries] in *.
  destruct (mem_between t (S t) (t + S m) ltac:(lia) ltac:(lia) He Hev) as (E1 & _ & _).
  destruct (mem_between t t (t + S m) ltac:(lia) ltac:(lia) He Hev) as (_ & _ & Hs).
  destruct (mem_mono t (t + S m) ltac:(lia)) as (Hlen & _).
  rewrite (stable_eq_entry _ _ slot Hlen Hs). replace (t + S m)%nat with (S t + m)%nat in * by lia.
  destruct (unpack_entry (mem t) slot) as [e|]; [|done]. cbn [mbind option_bind] in *.
  destruct (load_entries mem (S t) (S slot) m) as [l'|] eqn:E; [|done]. cbn [mbind option_bind] in Hl.
  assert (H : load_entries (fun _ => mem (S t + m)) 0 (S slot) m = Some l') by (apply IH; [done|congruence|congruence]).
  assert (Hc : forall t', load_entries (fun _ => mem (S t + m)) t' (S slot) m = load_entries (fun _ => mem (S t + m)) 0 (S slot) m).
  { clear. generalize (S slot). generalize (mem (S t + m)). intros b. induction m as [|m IH]; intros sl t'; [done|].
    cbn [load_entries]. by rewrite (IH (S sl) (S t')), (IH (S sl) 1%nat). }
  by rewrite Hc, H.
Qed.

Lemma headers_match_seq h h' : headers_match h h' = true -> h_sequence h' = h_sequence h /\ h_sequence h mod 2 = 0.
Proof.
  unfold headers_match. intros H. repeat (apply andb_true_iff in H as [H ?]). rewrite <- !Z.eqb_eq.
  destruct (Z.eqb_spec (h_sequence h') (h_sequence h)) as [E|]; [|done]. by rewrite <- E.
Qed.

(** Two loads of a header with the same stable sequence agree on every check. *)
Lemma same_header_checks size h h' role rd : same_but_heartbeat h h' -> is_valid_header size h = true ->
  h_sequence h mod 2 = 0 ->
  is_valid_header size h' = true /\ headers_match h h' = true /\ headers_match h' h' = true /\
  role_cache_is_current h' role rd = role_cache_is_current h role rd.
Proof.
  intros -> Hv He. split; [done|].
  assert (Hm : (h_magic h =? MAGIC) = true).
  { unfold is_valid_header in Hv. repeat (apply andb_true_iff in Hv as [Hv _]). done. }
  unfold headers_match, role_sequences_supported. cbn [h_magic h_schema h_sequence h_count h_version h_prefill h_decode h_hybrid].
  rewrite Hm, !Z.eqb_refl, He, orb_true_r. done.
Qed.

Lemma load_entries_const b : forall m t t' slot, load_entries (fun _ => b) t slot m = load_entries (fun _ => b) t' slot m.
Proof.
  induction m as [|m IH]; intros t t' slot; [done|]. cbn [load_entries]. by rewrite (IH (S t) (S t')).
Qed.

(** A second header that the reader accepts against the first. *)
Lemma accepted t i h0 h' role rd : (t <= i)%nat -> unpack_header (mem t) = Some h0 ->
  is_valid_header (length (mem t)) h0 = true -> unpack_header (mem i) = Some h' -> headers_match h0 h' = true ->
  hseq (mem t) = hseq (mem i) /\ hseq (mem t) mod 2 = 0 /\ h_count h' = h_count h0 /\
  (h_sequence h' mod 2 =? 1) = false /\ is_valid_header (length (mem i)) h' = true /\ headers_match h' h' = true /\
  role_cache_is_current h' role rd = role_cache_is_current h0 role rd.
Proof.
  intros Hi E0 Ev Eu Hm. apply headers_match_seq in Hm as [Hm Hev].
  pose proof (unpack_header_seq _ _ E0) as Hq0. pose proof (unpack_header_seq _ _ Eu) as Hq.
  assert (E : hseq (mem t) = hseq (mem i)) by congruence. destruct (mem_mono t i Hi) as (Hl & _ & Hs).
  assert (Hsh : same_but_heartbeat h0 h') by (eapply stable_eq_header; [apply Hs; [done|congruence]|done|done]).
  destruct (same_header_checks _ _ _ role rd Hsh Ev Hev) as (Hv & _ & Hm' & Hr).
  split; [done|]. split; [congruence|]. split; [by rewrite Hsh|]. split; [by rewrite Hm, Hev|]. by rewrite Hl.
Qed.

(** What the reader does alone on a stable buffer. *)
Lemma solo_scan b h l role rd : unpack_header b = Some h -> is_valid_header (length b) h = true ->
  (h_sequence h mod 2 =? 1) = false -> headers_match h h = true -> role_cache_is_current h role rd = false ->
  load_entries (fun _ => b) 0 0 (Z.to_nat (h_count h)) = Some l ->
  read_loop STABLE_SNAPSHOT_READ_ATTEMPTS (fun _ => b) 0 role rd = R_snapshot h (Some l).
Proof.
  intros Eu Ev Eo Em Ec El. unfold STABLE_SNAPSHOT_READ_ATTEMPTS. cbn [read_loop].
  by rewrite Eu, Ev, Eo, Ec, (load_entries_const _ _ 1 0), El, Em.
Qed.
Lemma solo_cached b h role rd : unpack_header b = Some h -> is_valid_header (length b) h = true ->
  (h_sequence h mod 2 =? 1) = false -> headers_match h h = true -> role_cache_is_current h role rd = true ->
  read_loop STABLE_SNAPSHOT_READ_ATTEMPTS (fun _ => b) 0 role rd = R_snapshot h None.
Proof.
  intros Eu Ev Eo Em Ec. unfold STABLE_SNAPSHOT_READ_ATTEMPTS. cbn [read_loop]. by rewrite Eu, Ev, Eo, Ec, Em.
Qed.

(** The linearisation point of a read: a load that saw a stable buffer on
    which the reader, alone, gets the same result. *)
Definition lin_point (role : option PDRole) (rd : Reader) (res : read_result) : Prop :=
  exists i, hseq (mem i) mod 2 = 0 /\ read_loop STABLE_SNAPSHOT_READ_ATTEMPTS (fun _ => mem i) 0 role rd = res.

Lemma scan_accepted t t1 h0 h l role rd : (t < t1)%nat -> unpack_header (mem t) = Some h0 ->
  is_valid_header (length (mem t)) h0 = true -> role_cache_is_current h0 role rd = false ->
  load_entries mem t1 0 (Z.to_nat (h_count h0)) = Some l ->
  unpack_header (mem (t1 + Z.to_nat (h_count h0))) = Some h -> headers_match h0 h = true ->
  lin_point role rd (R_snapshot h (Some l)).
Proof.
  set (m := Z.to_nat (h_count h0)). intros Ht E0 Ev Ec El E1 Em.
  destruct (accepted t (t1 + m) h0 h role rd ltac:(lia) E0 Ev E1 Em) as (Es & Hev & Hn & Ho & Hv & Hm & Hr).
  destruct (mem_between t t1 (t1 + m) ltac:(lia) ltac:(lia) Es Hev) as (Et1 & _ & _).
  exists (t1 + m)%nat. split; [congruence|]. apply solo_scan; try done; [congruence|].
  rewrite Hn. fold m. apply load_entries_spec; [done|congruence|congruence].
Qed.

(** A current cache whose second header did not match: no later header
    matches either. *)
Lemma mismatch_is_final t i h0 h1 h role rd : (S t <= i)%nat -> unpack_header (mem t) = Some h0 ->
  is_valid_header (length (mem t)) h0 = true -> unpack_header (mem (S t)) = Some h1 -> headers_match h0 h1 = false ->
  unpack_header (mem i) = Some h -> headers_match h0 h = true -> role_cache_is_current h0 role rd = false.
Proof.
  intros Hi E0 Ev E1 Hno Eu Hm. exfalso.
  destruct (accepted t i h0 h role rd ltac:(lia) E0 Ev Eu Hm) as (Es & Hev & _).
  destruct (mem_between t (S t) i ltac:(lia) Hi Es Hev) as (_ & Hst & _).
  pose proof (stable_eq_header _ _ _ _ Hst E0 E1) as Hsh. rewrite <- (unpack_header_seq _ _ E0) in Hev.
  destruct (same_header_checks _ _ _ role rd Hsh Ev Hev) as (_ & H' & _). by rewrite Hno in H'.
Qed.

Lemma read_loop_spec a : forall t role rd h r, read_loop a mem t role rd = R_snapshot h r ->
  lin_point role rd (R_snapshot h r).
Proof.
  induction a as [|a IH]; intros t role rd h r; [done|]. cbn [read_loop].
  destruct (unpack_header (mem t)) as [h0|] eqn:E0; [|done].
  destruct (is_valid_header (length (mem t)) h0) eqn:Ev; cbn [negb]; [|done].
  destruct (h_sequence h0 mod 2 =? 1) eqn:Eo; [by apply IH|].
  destruct (role_cache_is_current h0 role rd) eqn:Ec.
  - destruct (unpack_header (mem (S t))) as [h1|] eqn:E1; [|done]. destruct (headers_match h0 h1) eqn:Em.
    + intros H. simplify_eq.
      destruct (accepted t (S t) h0 h role rd ltac:(lia) E0 Ev E1 Em) as (Es & Hev & Hn & Ho & Hv & Hm & Hr).
      exists (S t). split; [congruence|]. apply solo_cached; try done. congruence.
    + destruct (load_entries mem (S (S t)) 0 _) as [l|] eqn:El; [|done].
      destruct (unpack_header (mem (S (S t) + _))) as [h2|] eqn:E2; [|done].
      destruct (headers_match h0 h2) eqn:Em2; [|by apply IH]. intros H. simplify_eq.
      pose proof (mismatch_is_final t (S (S t) + Z.to_nat (h_count h0)) h0 h1 h role rd ltac:(lia) E0 Ev E1 Em E2 Em2). congruence.
  - destruct (load_entries mem (S t) 0 _) as [l|] eqn:El; [|done].
    destruct (unpack_header (mem (S t + _))) as [h2|] eqn:E2; [|done].
    destruct (headers_match h0 h2) eqn:Em2; [|by apply IH]. intros H. simplify_eq.
    by eapply (scan_accepted t (S t)); eauto.
Qed.
End Reading.

(** ** Reading back a snapshot *)

(** The workloads of the schedulable endpoints, pool by pool. *)
Definition live_workloads (s : Pools) : list (Z * Z * PDRole * pyfloat) :=
  concat (map (fun role => concat (map (fun r =>
    map (fun ep => (ins_id (obj s r), ep_id ep, role, active_tokens (workload ep))) (all_eps (obj s r)))
    (dvalues (get_available_instances (Some role) s)))) [ROLE_E; ROLE_P; ROLE_D; ROLE_U]).

Definition entry_patch (e : WorkloadShmEntry) : Z * Z * PDRole * pyfloat :=
  (e_instance e, e_endpoint e, shm_role_to_pdrole (e_role e), e_tokens e).

Lemma shm_role_roundtrip r : shm_role_to_pdrole (pdrole_to_shm_role r) = r.
Proof. by destruct r. Qed.

Lemma collected_patches s m :
  map entry_patch (collect_entries_and_slot_map s m).1 = take m (live_workloads s).
Proof.
  cbn [fst collect_entries_and_slot_map]. unfold live_workloads. rewrite <- firstn_map, concat_map, map_map.
  f_equal. f_equal. apply map_ext. intros role. unfold pool_entries. rewrite concat_map, map_map. f_equal.
  apply map_ext. intros r. rewrite map_map. apply map_ext. intros ep. unfold entry_patch. cbn. by rewrite shm_role_roundtrip.
Qed.

Lemma collected_length s m : (length (collect_entries_and_slot_map s m).1 <= m)%nat.
Proof. cbn [fst collect_entries_and_slot_map]. rewrite length_take. lia. Qed.

Lemma patch_entries_all l : patch_entries l None = map entry_patch l.
Proof. induction l as [|e l IH]; [done|]. cbn. unfold patch_entries in IH. by rewrite IH. Qed.

(** Entries that are all there load. *)
Lemma load_entries_list b l : forall slot, (forall k e, l !! k = Some e -> unpack_entry b (slot + k) = Some e) ->
  load_entries (fun _ => b) 0 slot (length l) = Some l.
Proof.
  induction l as [|e l IH]; intros slot H; [done|]. cbn [length load_entries].
  rewrite <- (Nat.add_0_r slot) at 1. rewrite (H 0%nat e eq_refl). cbn [mbind option_bind].
  rewrite (load_entries_const _ _ 1 0), (IH (S slot)); [done|].
  intros k e' Hk. replace (S slot + k)%nat with (slot + S k)%nat by lia. by apply H.
Qed.

(** ** The shape of the segment *)

(** The buffer has room for [max_entries], and the slots handed out are
    entries. *)
Record writer_shape (w : Writer) : Prop := {
  ws_len : length (w_buf w) = total_size (w_max w);
  ws_count : (w_count w <= w_max w)%nat;
  ws_slots : forall k slot, dget k (w_slot_map w) = Some slot -> (slot < w_count w)%nat }.

Lemma slot_map_from_range l : forall slot m k v, dget k (slot_map_from slot l m) = Some v ->
  dget k m = Some v \/ (slot <= v < slot + length l)%nat.
Proof.
  induction l as [|e l IH]; intros slot m k v H; [by left|]. cbn [slot_map_from length] in *.
  destruct (IH _ _ _ _ H) as [H'|H']; [|right; lia]. rewrite dget_dset in H'.
  case_decide; [simplify_eq; right; lia|by left].
Qed.

Lemma collected_slots s m k v : dget k (collect_entries_and_slot_map s m).2 = Some v ->
  (v < length (collect_entries_and_slot_map s m).1)%nat.
Proof. cbn. intros H. apply slot_map_from_range in H as [H|H]; [done|lia]. Qed.

(** Steps that keep the shape: stores keep the length, the rest changes other
    fields. *)
Lemma shape_store off data : st_preserves writer_shape (store off data).
Proof.
  intros w [H1 H2 H3]. unfold store. destruct (Nat.ltb_spec (length (w_buf w)) (off + length data)); [done|].
  split; [|done|done]. cbn [snd w_buf set_buf w_max]. by rewrite length_splice by lia.
Qed.
Lemma shape_opt {A} e (x : option A) : st_preserves writer_shape (st_opt (E := ShmError) e x).
Proof. intros w Hw. by destruct x. Qed.
Lemma shape_fields f : (forall w, w_buf (f w) = w_buf w /\ w_max (f w) = w_max w /\ w_count (f w) = w_count w /\
    w_slot_map (f w) = w_slot_map w) -> st_preserves writer_shape (st_modify (E := ShmError) f).
Proof.
  intros Hf w [H1 H2 H3]. destruct (Hf w) as (E1 & E2 & E3 & E4). cbn [st_modify snd].
  by split; rewrite ?E1, ?E2, ?E3, ?E4.
Qed.
#[local] Hint Resolve shape_store shape_opt : motor.

Lemma shape_header : st_preserves writer_shape write_header.
Proof.
  intros w Hw. unfold write_header. destruct (_ <? _)%nat; [done|]. set (w1 := set_heartbeat _ w).
  assert (Hw1 : writer_shape w1) by by destruct Hw. revert w1 Hw1. generalize (pack_header (header_of (set_heartbeat (Z.max (w_heartbeat w) (unpack_u (slice HEARTBEAT_OFFSET 8 (w_buf w)))) w))).
  intros x w1 Hw1. apply (st_preserves_bind writer_shape); [auto with motor|auto with motor|done].
Qed.
#[local] Hint Resolve shape_header : motor.

Lemma shape_begin : st_preserves writer_shape begin_write.
Proof. apply st_preserves_bind; [by apply shape_fields|auto with motor]. Qed.
Lemma shape_end : st_preserves writer_shape end_write.
Proof. apply st_preserves_bind; [by apply shape_fields|auto with motor]. Qed.
Lemma shape_entry slot e : st_preserves writer_shape (write_entry_at_slot slot e).
Proof. apply st_preserves_bind; auto with motor. Qed.
#[local] Hint Resolve shape_begin shape_end shape_entry : motor.
Lemma shape_entries l : forall slot, st_preserves writer_shape (write_entries slot l).
Proof. induction l as [|e l IH]; intros slot; cbn [write_entries]; auto with motor. Qed.
#[local] Hint Resolve shape_entries : motor.

Lemma shape_snapshot s : st_preserves writer_shape (write_snapshot s).
Proof.
  intros w Hw. unfold write_snapshot. pose proof (collected_length s (w_max w)) as Hl.
  pose proof (collected_slots s (w_max w)) as Hs. destruct (collect_entries_and_slot_map s (w_max w)) as [l m].
  cbn [fst snd] in Hl, Hs. set (w0 := set_slots m (length l) w). assert (Hw0 : writer_shape w0) by (destruct Hw; by split).
  match goal with |- writer_shape ((st_modify _ ≫= ?k) w).2 => change (writer_shape (k tt w0).2) end.
  revert w0 Hw0. apply st_preserves_bind; [auto with motor|intros _].
  apply st_preserves_bind; [auto with motor|intros _]. apply st_preserves_bind; [by apply shape_fields|intros _].
  apply st_preserves_bind; [by apply shape_fields|auto with motor].
Qed.

Lemma bump_role_fields role w : w_buf (bump_role_sequence role w) = w_buf w /\ w_max (bump_role_sequence role w) = w_max w /\
  w_count (bump_role_sequence role w) = w_count w /\ w_slot_map (bump_role_sequence role w) = w_slot_map w.
Proof. unfold bump_role_sequence. by destruct (role_seq_key role). Qed.

Lemma shape_single id ep rw s : st_preserves writer_shape (write_single_entry_from_workload id ep rw s).
Proof.
  intros w Hw. unfold write_single_entry_from_workload. destruct (dget _ _) as [slot|]; [|by apply shape_snapshot].
  destruct rw as [[role wl]|]; [|done]. revert w Hw. apply st_preserves_bind; [auto with motor|intros _].
  apply st_preserves_bind; [auto with motor|intros _].
  apply st_preserves_bind; [apply shape_fields, bump_role_fields|auto with motor].
Qed.
Lemma shape_heartbeat : st_preserves writer_shape write_heartbeat.
Proof.
  apply st_preserves_bind; [by apply shape_fields|intros _]. apply st_preserves_bind; [by intros w Hw|auto with motor].
Qed.

Lemma writer_run_shape n ops : writer_shape (writer_run n ops).
Proof.
  induction ops as [|o ops IH] using rev_ind.
  - split; [cbn; by rewrite length_replicate|cbn; lia|done].
  - rewrite writer_run_snoc. destruct o; cbn [writer_exec]; [by apply shape_snapshot|by apply shape_single|by apply shape_heartbeat].
Qed.

(** A buffer that is long enough loads. *)
Lemma load_entries_total b m : forall slot, (entry_offset (slot + m) <= length b)%nat ->
  exists l, load_entries (fun _ => b) 0 slot m = Some l /\
    forall k, (k < m)%nat -> l !! k = unpack_entry b (slot + k).
Proof.
  induction m as [|m IH]; intros slot Hl; [exists []; split; [done|lia]|]. cbn [load_entries].
  destruct (unpack_entry b slot) as [e|] eqn:E.
  - destruct (IH (S slot)) as (l & Hl' & Hk); [by replace (S slot + m)%nat with (slot + S m)%nat by lia|].
    exists (e :: l). cbn [mbind option_bind]. rewrite (load_entries_const _ _ 1 0), Hl'. split; [done|].
    intros [|k] H; [by rewrite Nat.add_0_r|]. cbn. rewrite Hk by lia. by replace (slot + S k)%nat with (S slot + k)%nat by lia.
  - unfold unpack_entry in E. unfold entry_offset in *.
    destruct (Nat.ltb_spec (length b) (HEADER_SIZE + slot * ENTRY_SIZE + ENTRY_SIZE)); [|done]. nia.
Qed.

Lemma shape_fits w m : writer_shape w -> (m <= w_max w)%nat -> (entry_offset m <= length (w_buf w))%nat.
Proof. intros [Hl _ _] Hm. rewrite Hl. unfold entry_offset, total_size. nia. Qed.

Lemma shape_header_valid w : writer_shape w -> is_valid_header (length (w_buf w)) (normalized (header_of w)) = true.
Proof.
  intros Hw. pose proof (shape_fits w (w_count w) Hw (ws_count w Hw)) as Hf. destruct Hw as [Hl Hc _].
  unfold is_valid_header. cbn [h_magic h_schema h_count h_max normalized header_of].
  rewrite !Z.eqb_refl. cbn [andb]. unfold entry_offset in Hf.
  destruct (Z.ltb_spec (Z.of_nat (w_count w)) 0); [lia|].
  destruct (Z.ltb_spec (Z.of_nat (w_max w)) (Z.of_nat (w_count w))); [lia|]. cbn [orb negb andb]. apply Z.leb_le. lia.
Qed.

Lemma norm64_mod z : norm64 z = z mod 2 ^ 64.
Proof.
  unfold norm64. destruct ((z <? 0) || (2 ^ 64 - 1 <? z)) eqn:E; [done|].
  apply orb_false_iff in E as [E1 E2]. symmetry. apply Z.mod_small. lia.
Qed.
Lemma bump64_changes z : norm64 (bump64 z) <> norm64 z.
Proof.
  rewrite !norm64_mod. unfold bump64. rewrite Z.mod_mod by lia.
  pose proof (Z.mod_pos_bound z (2 ^ 64) ltac:(lia)). rewrite <- (Z.add_mod_idemp_l z 1) by lia.
  destruct (decide (z mod 2 ^ 64 + 1 < 2 ^ 64)).
  - rewrite Z.mod_small by lia. lia.
  - replace (z mod 2 ^ 64 + 1) with (2 ^ 64) by lia. rewrite Z.mod_same by lia. lia.
Qed.

(** The role's sequence in the header the writer leaves. *)
Lemma header_role_sequence w role k : role_seq_key role = Some k ->
  role_sequence_from_header (normalized (header_of w)) (Some role) = Some (norm64 (w_role_seq w k)).
Proof. destruct role; cbn; intros H; by simplify_eq. Qed.

(** ** Theorems *)

(** What a read that finds no stable header gives. *)
Definition no_read : read_outcome := {| ro_version := None; ro_stale := false; ro_patches := [] |}.

(** C27: the sequence lock.  A worker's [read_and_patch_cache] runs while the
    scheduler's writer performs any operations (snapshots, single entries,
    heartbeats, operations that raise half way), each load of the reader
    seeing whatever buffer the segment held at that moment.  The read either
    gives nothing and leaves the reader as it was, or it is exactly, in the
    version, the staleness, the patches and the reader's new state, the read
    of one buffer the writer left between two operations: no patch ever mixes
    two writes. *)
Theorem reader_never_torn (n : nat) (ops : list writer_op) (mem : nat -> bytes) (tau : nat -> nat)
    (Hmono : forall i j, (i <= j)%nat -> (tau i <= tau j)%nat)
    (Hmem : forall t, history n ops !! tau t = Some (mem t)) now role rd :
  read_and_patch_cache mem now role rd = (no_read, rd) \/
  exists k, read_and_patch_cache mem now role rd =
            read_and_patch_cache (fun _ => w_buf (writer_run n (take k ops))) now role rd.
Proof.
  unfold read_and_patch_cache.
  destruct (read_loop STABLE_SNAPSHOT_READ_ATTEMPTS mem 0 role rd) as [| |h r] eqn:E; [by left|by left|right].
  apply (read_loop_spec n ops mem tau Hmono Hmem) in E as (i & Hev & Hi).
  destruct (stable_is_boundary n ops (mem i)) as [k Hk]; [|done|].
  { apply list_elem_of_lookup. by exists (tau i). }
  exists k. rewrite <- Hk, Hi. done.
Qed.

Lemma outcome_eta {A B} (x : A * B) a : x.1 = a -> x = (a, x.2).
Proof. destruct x. by intros <-. Qed.

(** Witness data: a snapshot and a heartbeat, and a reader whose loads follow
    the stores one by one. *)
Definition shm_ex_ops : list writer_op := [OpSnapshot ex_pools; OpHeartbeat].
Definition shm_ex_mem (t : nat) : bytes := default [] (history 4 shm_ex_ops !! (t `min` 7)%nat).

Lemma reader_never_torn_witness :
  read_and_patch_cache shm_ex_mem f0 None reader_init = (no_read, reader_init) \/
  exists k, read_and_patch_cache shm_ex_mem f0 None reader_init =
            read_and_patch_cache (fun _ => w_buf (writer_run 4 (take k shm_ex_ops))) f0 None reader_init.
Proof.
  apply (reader_never_torn 4 shm_ex_ops shm_ex_mem (fun t => t `min` 7)%nat).
  - intros i j Hij. lia.
  - intros t. unfold shm_ex_mem.
    destruct (lookup_lt_is_Some_2 (history 4 shm_ex_ops) (t `min` 7)) as [b Hb]; [|by rewrite Hb].
    replace (length (history 4 shm_ex_ops)) with 8%nat by by vm_compute. lia.
Defined.

(** C28: a snapshot is read back exactly.  Whatever the writer did before, after
    a [write_snapshot] that returns, a worker that reads without a role filter
    gets, in one attempt, the new instance version and one patch per
    schedulable endpoint (up to [max_entries]), in pool order, with its
    instance, endpoint, role and active tokens. *)
Theorem snapshot_read_back (n : nat) (ops : list writer_op) (s : Pools) (w : Writer) now rd
    (Hok : write_snapshot s (writer_run n ops) = (Ret tt, w))
    (Hfl : forall x, x ∈ live_workloads s -> is_float64 x.2 = true) :
  let r := (read_and_patch_cache (fun _ => w_buf w) now None rd).1 in
  ro_version r = Some (norm64 (w_version w)) /\ ro_patches r = take (w_max w) (live_workloads s).
Proof.
  pose proof (write_snapshot_spec _ s _ (writer_run_inv n ops)) as H. rewrite Hok in H.
  destruct H as (_ & _ & H). cbn zeta in H. destruct H as (Hu & Hc & Hm & Hev & Hin). rewrite <- Hm in Hc, Hin.
  pose proof (collected_patches s (w_max w)) as Hp.
  set (l := (collect_entries_and_slot_map s (w_max w)).1) in *.
  assert (Hin' : forall k e, l !! k = Some e -> unpack_entry (w_buf w) k = Some e).
  { intros k e Hk. apply Hin; [done|]. apply (Hfl (entry_patch e)).
    apply (subseteq_take (w_max w)). rewrite <- Hp. apply list_elem_of_fmap.
    exists e. split; [done|]. by apply list_elem_of_lookup_2 in Hk. }
  assert (Hw : writer_shape w).
  { replace w with (write_snapshot s (writer_run n ops)).2 by by rewrite Hok. apply shape_snapshot, writer_run_shape. }
  pose proof (shape_header_valid w Hw) as Hv.
  assert (Hload : load_entries (fun _ => w_buf w) 0 0 (Z.to_nat (h_count (normalized (header_of w)))) = Some l).
  { cbn [h_count normalized header_of]. rewrite Nat2Z.id, Hc. by apply load_entries_list. }
  unfold read_and_patch_cache. rewrite (solo_scan (w_buf w) _ l None rd Hu Hv); [..|done].
  - cbn [fst snd]. destruct (update_heartbeat_and_check_stale now _ rd) as [stale rd'].
    cbn [fst ro_version ro_patches]. split; [done|]. by rewrite patch_entries_all.
  - cbn [h_sequence normalized header_of]. by rewrite Hev.
  - eapply (same_header_checks _ _ _ None rd); [|exact Hv|exact Hev]. by destruct (normalized (header_of w)).
  - done.
Qed.

Lemma snapshot_read_back_witness :
  ro_patches (read_and_patch_cache (fun _ => w_buf (writer_run 3 [OpSnapshot ex_pools])) f0 None reader_init).1 =
  take 3 (live_workloads ex_pools).
Proof.
  eapply (snapshot_read_back 3 [] ex_pools (writer_run 3 [OpSnapshot ex_pools]) f0 reader_init).
  - vm_compute. reflexivity.
  - intros x Hx. assert (H : forallb (fun x => is_float64 x.2) (live_workloads ex_pools) = true) by by vm_compute.
    rewrite forallb_True' in H. by apply H.
Defined.

(** C29: an incremental write reaches the role's readers.  When the writer
    updates one endpoint (role prefill, decode or hybrid) in place, a worker
    whose cache of that role was current before the write does not take the
    short cut of the role sequence: its next read patches the endpoint with
    the new active tokens. *)
Theorem single_write_seen (n : nat) (ops : list writer_op) id ep role wl s slot k (w : Writer) now rd
    (Hslot : dget (id, ep) (w_slot_map (writer_run n ops)) = Some slot)
    (Hok : write_single_entry_from_workload id ep (Some (role, wl)) s (writer_run n ops) = (Ret tt, w))
    (Hf : is_float64 (active_tokens wl) = true)
    (Hk : role_seq_key role = Some k)
    (Hcur : dget role (rd_role_seq rd) = Some (norm64 (w_role_seq (writer_run n ops) k))) :
  (id, ep, role, active_tokens wl) ∈ ro_patches (read_and_patch_cache (fun _ => w_buf w) now (Some role) rd).1.
Proof.
  destruct (write_single_done _ _ _ _ _ _ _ _ _ (writer_run_inv n ops) Hslot Hok) as (Hu & Hev & Hc & Hr & Hin).
  assert (Hw : writer_shape w).
  { replace w with (write_single_entry_from_workload id ep (Some (role, wl)) s (writer_run n ops)).2 by by rewrite Hok.
    apply shape_single, writer_run_shape. }
  pose proof (shape_header_valid w Hw) as Hv.
  pose proof (shape_fits w (w_count w) Hw (ws_count w Hw)) as Hfit.
  destruct (load_entries_total (w_buf w) (w_count w) 0 Hfit) as (l & Hl & Hlk).
  assert (Hsl : l !! slot = unpack_entry (w_buf w) slot).
  { apply Hlk. rewrite Hc. apply (ws_slots _ (writer_run_shape n ops) _ _ Hslot). }
  assert (Hnc : role_cache_is_current (normalized (header_of w)) (Some role) rd = false).
  { unfold role_cache_is_current. rewrite (header_role_sequence w role k Hk), Hcur. apply bool_decide_eq_false.
    rewrite Hr. unfold bump_role_sequence. rewrite Hk. cbn [w_role_seq set_roles]. rewrite decide_True by done.
    intros [=E]. by apply (bump64_changes (w_role_seq (writer_run n ops) k)). }
  unfold read_and_patch_cache. rewrite (solo_scan (w_buf w) _ l (Some role) rd Hu Hv); [..|done|].
  - destruct (update_heartbeat_and_check_stale now _ rd) as [stale rd']. cbn [fst ro_patches].
    unfold patch_entries. apply list_elem_of_omap. eexists. split.
    + apply list_elem_of_lookup_2 with slot. rewrite Hsl. by apply Hin.
    + cbn [e_role e_instance e_endpoint e_tokens]. rewrite shm_role_roundtrip.
      destruct role; try done; by rewrite bool_decide_eq_true_2.
  - cbn [h_sequence normalized header_of]. by rewrite Hev.
  - eapply (same_header_checks _ _ _ None rd); [|exact Hv|exact Hev]. by destruct (normalized (header_of w)).
  - cbn [h_count normalized header_of]. by rewrite Nat2Z.id.
Qed.

Lemma single_write_seen_witness :
  (2, 1, ROLE_D, float_lit 7 0) ∈
  ro_patches (read_and_patch_cache
    (fun _ => w_buf (writer_exec (writer_run 4 shm_ex_ops)
                       (OpSingle 2 1 (Some (ROLE_D, {| active_tokens := float_lit 7 0 |})) ex_pools)))
    f0 (Some ROLE_D)
    {| rd_sequence := None; rd_role_seq := [(ROLE_D, 1)]; rd_hb_value := 0; rd_hb_time := f0 |}).1.
Proof.
  apply (single_write_seen 4 shm_ex_ops 2 1 ROLE_D {| active_tokens := float_lit 7 0 |} ex_pools 3 K_decode).
  - vm_compute. reflexivity.
  - cbn [writer_exec]. apply outcome_eta. vm_compute. reflexivity.
  - vm_compute. reflexivity.
  - reflexivity.
  - vm_compute. reflexivity.
Defined.
