(* ===== verification/Policies.v ===== *)
(** * Scheduling policies

    [motor/coordinator/scheduler/policy/load_balance.py], [round_robin.py] and
    [base.py], [motor/coordinator/domain/scheduling_pin.py] and
    [motor/coordinator/domain/workload_calculator.py].

    The policies read instances and endpoints; the tuple that
    [get_all_endpoints] memoises in an instance is not kept here, since
    [Resources] shows that no later call can tell.  [heapq.nsmallest] is the
    sorted prefix its documentation promises. *)

From Stdlib Require Import Sorting.Sorted.
From S2P Require Import Prelude PyDict PyNum Resources InstancePool.

(** ** Load balancing *)

(** [0.05] *)
Definition DEFAULT_ENDPOINT_INSTANCE_SCORE_WEIGHT : pyfloat := float_lit 3602879701896397 (-56).

Definition finf : pyfloat := SpecFloat.S754_infinity false.

Record EndpointCandidate := {
  c_instance : Instance_;
  c_endpoint : Endpoint;
  c_score : pyfloat }.

(** What the policies see of [instance.get_all_endpoints()]. *)
Definition eps_of (i : Instance_) : list Endpoint := (get_all_endpoints false i).1.

(** [float / int]: the divisor is converted; [None] is an exception. *)
Definition fdiv_int (x : pyfloat) (n : Z) : option pyfloat :=
  if n =? 0 then None else (fun y => SpecFloat.SFdiv prec emax x y) <$> float_of_Z n.

Definition calculate_endpoint_score (i : Instance_) (ep : Endpoint) (role : option PDRole) (weight : pyfloat)
    : option pyfloat :=
  let score_role := match role with Some r => Some (PDRole_value r) | None => Some (ins_role i) end in
  endpoint_score ← calculate_workload_score (workload ep) score_role;
  if fleb weight f0 then Some endpoint_score
  else
    let endpoint_count := Z.max 1 (Z.of_nat (length (eps_of i))) in
    instance_score ← calculate_workload_score (gathered_workload i) score_role;
    avg ← fdiv_int instance_score endpoint_count;
    Some (fadd endpoint_score (fmul weight avg)).

(** [max(0.0, float(weight))]: the first argument unless the second is larger. *)
Definition fmax (x y : pyfloat) : pyfloat := if fltb x y then y else x.
Definition fmin (x y : pyfloat) : pyfloat := if fltb y x then y else x.
Definition set_endpoint_instance_score_weight (weight : pyfloat) : pyfloat := fmax f0 weight.

(** [instances[(start_index + i) % n] for i in range(n)] *)
Definition rotated {A} (start_index : Z) (l : list A) : list A :=
  omap (fun i => l !! Z.to_nat ((start_index + Z.of_nat i) mod Z.of_nat (length l))) (seq 0 (length l)).

(** The scoring loops: the entries of [scored] without their position, which
    is [tie_order]. *)
Definition score_instance (role : option PDRole) (weight : pyfloat) (is_blocked : option (Z -> bool)) (i : Instance_)
    : list EndpointCandidate :=
  omap (fun ep =>
    if match is_blocked with Some f => f (ins_id i) | None => false end then None
    else s ← calculate_endpoint_score i ep role weight;
         Some {| c_instance := i; c_endpoint := ep; c_score := s |}) (eps_of i).

Definition scored (instances : list Instance_) (role : option PDRole) (weight : pyfloat) (is_blocked : option (Z -> bool))
    : list EndpointCandidate :=
  concat (map (score_instance role weight is_blocked) instances).

(** [(score, tie_order)] tuples in Python's order: equal first components are
    skipped. *)
Definition feqb (x y : pyfloat) : bool := fleb x y && fleb y x.
Definition key_ltb (x y : pyfloat * nat) : bool :=
  if feqb x.1 y.1 then (x.2 <? y.2)%nat else fltb x.1 y.1.

Section Sorting.
Context {A : Type} (key : A -> pyfloat * nat).

Fixpoint insert_by (x : A) (l : list A) : list A :=
  match l with
  | [] => [x]
  | y :: l' => if key_ltb (key y) (key x) then y :: insert_by x l' else x :: l
  end.
Definition sorted_by (l : list A) : list A := foldr insert_by [] l.

(** [heapq.nsmallest(k, l, key=key)] *)
Definition nsmallest (k : nat) (l : list A) : list A := take k (sorted_by l).
End Sorting.

Definition enumerate {A} (l : list A) : list (nat * A) := zip (seq 0 (length l)) l.

Definition select_endpoint_candidates_from_list (instances : list Instance_) (role : option PDRole) (top_k : Z)
    (weight : pyfloat) (start_index : Z) (is_blocked : option (Z -> bool)) : list EndpointCandidate :=
  if top_k <=? 0 then []
  else
    match instances with
    | [] => []
    | _ =>
        let items := enumerate (scored (rotated start_index instances) role weight is_blocked) in
        snd <$> nsmallest (fun item => (c_score item.2, item.1)) (Z.to_nat top_k) items
    end.

Definition select_endpoint_from_list (instances : list Instance_) (role : option PDRole) (start_index : Z)
    (weight : pyfloat) : option (Instance_ * Endpoint) :=
  match select_endpoint_candidates_from_list instances role 1 weight start_index None with
  | [] => None
  | c :: _ => Some (c_instance c, c_endpoint c)
  end.

(** The single pass of both scans: strictly smaller scores replace; a failing
    score is skipped. *)
Definition min_step {A} (score : A -> option pyfloat) (acc : pyfloat * option A) (x : A) : pyfloat * option A :=
  let '(min_workload, selected) := acc in
  match score x with
  | Some s => if fltb s min_workload then (s, Some x) else (min_workload, selected)
  | None => (min_workload, selected)
  end.
Definition min_scan {A} (score : A -> option pyfloat) (l : list A) : option A :=
  (foldl (min_step score) (finf, None) l).2.

Definition select_instance_from_list (instances : list Instance_) (start_index : Z) : option Instance_ :=
  let score i := calculate_workload_score (gathered_workload i) (Some (ins_role i)) in
  if negb (start_index =? 0) then
    match instances with
    | [] => None
    | _ => min_scan score (rotated start_index instances)
    end
  else min_scan score instances.

Definition lb_select_endpoint_from_instance (i : Instance_) : option Endpoint :=
  match eps_of i with
  | [] => None
  | eps => min_scan (fun ep => calculate_workload_score (workload ep) (Some (ins_role i))) eps
  end.

(** [active] is [self._instance_provider.get_available_instances(role)]. *)
Definition lb_select_instance_and_endpoint (weight : pyfloat) (active : list Instance_) (role : option PDRole)
    : option (Instance_ * Endpoint) :=
  match active with
  | [] => None
  | _ => select_endpoint_from_list active role 0 weight
  end.

Definition lb_select_instance_and_endpoint_from_list (weight : pyfloat) (instances : list Instance_)
    (role : option PDRole) : option (Instance_ * Endpoint) :=
  select_endpoint_from_list instances role 0 weight.

Definition lb_select_instance (active : list Instance_) : option Instance_ :=
  match active with
  | [] => None
  | _ => select_instance_from_list active 0
  end.

(** ** Round robin *)

Record RoundRobin := {
  rr_instance : dict (option PDRole) Z;
  rr_endpoint : dict Z Z }.
Definition rr_init : RoundRobin := {| rr_instance := []; rr_endpoint := [] |}.

Definition rr_select_instance_from_list (instances : list Instance_) (counter : Z) : option Instance_ * Z :=
  match instances with
  | [] => (None, counter)
  | _ => (instances !! Z.to_nat (counter mod Z.of_nat (length instances)), counter + 1)
  end.

Definition rr_select_endpoint_from_instance (i : Instance_) (is_blocked : option (Z -> bool)) (counters : dict Z Z)
    : option Endpoint * dict Z Z :=
  let all_endpoints := eps_of i in
  let all_endpoints := match is_blocked with
                       | Some f => base.filter (fun _ => f (ins_id i) = false) all_endpoints
                       | None => all_endpoints
                       end in
  match all_endpoints with
  | [] => (None, counters)
  | _ =>
      let n := Z.of_nat (length all_endpoints) in
      let c := default 0 (dget (ins_id i) counters) in
      (all_endpoints !! Z.to_nat (c mod n), dset (ins_id i) ((c + 1) mod n) counters)
  end.

(** [_select_instance]: [active] is what the provider returns. *)
Definition rr_select_instance (active : list Instance_) (role : option PDRole) (p : RoundRobin)
    : option Instance_ * RoundRobin :=
  match active with
  | [] => (None, p)
  | _ =>
      let counter := default 0 (dget role (rr_instance p)) in
      let '(selected, next_counter) := rr_select_instance_from_list active counter in
      (selected, {| rr_instance := dset role (next_counter mod Z.of_nat (length active)) (rr_instance p);
                    rr_endpoint := rr_endpoint p |})
  end.

Definition rr_select_endpoint (i : Instance_) (p : RoundRobin) : option Endpoint * RoundRobin :=
  match eps_of i with
  | [] => (None, p)
  | _ =>
      let '(ep, counters) := rr_select_endpoint_from_instance i None (rr_endpoint p) in
      (ep, {| rr_instance := rr_instance p; rr_endpoint := counters |})
  end.

(** [BaseSchedulingPolicy.select_instance_and_endpoint]. *)
Definition rr_select_instance_and_endpoint (active : list Instance_) (role : option PDRole) (p : RoundRobin)
    : option (Instance_ * Endpoint) * RoundRobin :=
  match rr_select_instance active role p with
  | (None, p) => (None, p)
  | (Some i, p) => let '(ep, p) := rr_select_endpoint i p in ((fun e => (i, e)) <$> ep, p)
  end.

Definition rr_select_instance_and_endpoint_from_list (instances : list Instance_) (role : option PDRole) (p : RoundRobin)
    : option (Instance_ * Endpoint) * RoundRobin :=
  match instances with
  | [] => (None, p)
  | _ =>
      let counter := default 0 (dget role (rr_instance p)) in
      let '(selected, next_counter) := rr_select_instance_from_list instances counter in
      let p := {| rr_instance := dset role (next_counter mod Z.of_nat (length instances)) (rr_instance p);
                  rr_endpoint := rr_endpoint p |} in
      match selected with
      | None => (None, p)
      | Some i =>
          let '(ep, counters) := rr_select_endpoint_from_instance i None (rr_endpoint p) in
          ((fun e => (i, e)) <$> ep, {| rr_instance := rr_instance p; rr_endpoint := counters |})
      end
  end.

(** ** Pinned instances *)

Definition resolve_pinned_instance (instances : dict Z Instance_) (target : Z) : option Instance_ := dget target instances.

Inductive SchedulerType := ROUND_ROBIN | LOAD_BALANCE | KV_CACHE_AFFINITY.
#[export] Instance SchedulerType_eq_dec : EqDecision SchedulerType.
Proof. solve_decision. Defined.

Definition select_endpoint_for_instance (i : Instance_) (t : SchedulerType) (counters : dict Z Z)
    (is_blocked : option (Z -> bool)) : option Endpoint * dict Z Z :=
  let blocked := match is_blocked with Some f => f (ins_id i) | None => false end in
  match t with
  | LOAD_BALANCE | KV_CACHE_AFFINITY =>
      let ep := lb_select_endpoint_from_instance i in
      let ep := if blocked then None else ep in
      match ep with
      | Some e => (Some e, counters)
      | None => (if blocked then None else head (eps_of i), counters)
      end
  | ROUND_ROBIN => rr_select_endpoint_from_instance i is_blocked counters
  end.

(** ** Demand of a request *)

Section Demand.
(** [get_mul_token]: the tokens of an image, which decodes it. *)
Context (get_mul_token : string -> Z).

(** [content] of a message: a list of parts (their [type] and image URL) or
    anything else. *)
Inductive content_item := Item (type : option string) (url : string).
Inductive message := Msg (content : option (list content_item)).

Record ReqInfo := {
  req_id : string;
  req_len : Z;
  token_ids : option (list Z);
  messages : list message }.

Definition item_tokens (req_len : Z) (it : content_item) : Z :=
  let '(Item type url) := it in
  match type with
  | None => 0
  | Some t => if decide (t = "image_url") then get_mul_token url
              else if decide (t = "video_url") then req_len * 32 else 0
  end.

Definition calculate_encode_scores (r : ReqInfo) : Z :=
  foldl (fun acc m =>
    match m with
    | Msg None => acc
    | Msg (Some items) => foldl (fun acc it => acc + item_tokens (req_len r) it) acc items
    end) 0 (messages r).

(** [request_length / 4.0 * 0.0345 + 120.0745] *)
Definition calculate_prefill_scores (request_length : Z) : option pyfloat :=
  x ← float_of_Z request_length;
  let length_score := SpecFloat.SFdiv prec emax x (float_lit 4 0) in
  Some (fadd (fmul length_score (float_lit 4971973988617028 (-57))) (float_lit 8449491772760916 (-46))).

Definition calculate_decode_scores (request_length : Z) : option pyfloat := float_of_Z request_length.

Definition prefill_load_score (r : ReqInfo) : option pyfloat :=
  match token_ids r with
  | Some (t :: ts) => float_of_Z (Z.of_nat (length (t :: ts)))
  | _ => calculate_prefill_scores (req_len r)
  end.

(** [Workload(active_tokens=...)]; [None] is an exception of a conversion. *)
Definition calculate_demand_workload (role : PDRole) (r : ReqInfo) : option Workload :=
  Build_Workload <$>
    match role with
    | ROLE_E => float_of_Z (calculate_encode_scores r)
    | ROLE_P | ROLE_U => prefill_load_score r
    | ROLE_D => calculate_decode_scores (req_len r)
    end.
End Demand.

Definition calculate_committed_workload (isl matched_tokens : pyfloat) : Workload :=
  let isl_f := fmax f0 isl in
  let matched := fmin (fmax f0 matched_tokens) isl_f in
  {| active_tokens := fsub isl_f matched |}.

Example prefill_score_1000 : calculate_prefill_scores 1000 = Some (float_lit 4528211095646634 (-45)).
Proof. reflexivity. Qed.

(** ** Order of floats *)

Definition not_nan (x : pyfloat) : Prop := is_nan (float_val x) = false.

Lemma fltb_false x y : not_nan x -> not_nan y -> fltb x y = false -> fleb y x = true.
Proof. apply xltb_false_leb. Qed.
Lemma fleb_trans x y z : fleb x y = true -> fleb y z = true -> fleb x z = true.
Proof. apply xleb_trans. Qed.
Lemma fltb_fleb x y : fltb x y = true -> fleb x y = true.
Proof. apply xltb_leb. Qed.
Lemma fltb_asym x y : fltb x y = true -> fleb y x = false.
Proof. apply xltb_asym. Qed.
Lemma fleb_refl x : not_nan x -> fleb x x = true.
Proof. apply xleb_refl. Qed.

(** A smaller minimum keeps the elements that were not below the old one. *)
Lemma fltb_lower s m t : fltb s m = true -> fltb t m = false -> fltb t s = false.
Proof.
  intros Hs Ht. destruct (fltb t s) eqn:E; [exfalso|done].
  pose proof (fltb_fleb _ _ E) as H1. destruct (xleb_not_nan _ _ H1) as [Hnt _].
  destruct (xleb_not_nan _ _ (fltb_fleb _ _ Hs)) as [_ Hnm].
  pose proof (fltb_false _ _ Hnt Hnm Ht) as H2. pose proof (fltb_asym _ _ Hs) as H3.
  by rewrite (fleb_trans _ _ _ H2 H1) in H3.
Qed.

(** ** The scans for a minimum *)

Lemma min_scan_spec {A} (score : A -> option pyfloat) l :
  match min_scan score l with
  | None => forall x s, x ∈ l -> score x = Some s -> fltb s finf = false
  | Some x => exists s, x ∈ l /\ score x = Some s /\ fltb s finf = true /\
      forall y t, y ∈ l -> score y = Some t -> fltb t s = false
  end.
Proof.
  unfold min_scan. set (step := min_step score).
  assert (H : match foldl step (finf, None) l with
    | (m, None) => m = finf /\ forall x s, x ∈ l -> score x = Some s -> fltb s finf = false
    | (m, Some x) => x ∈ l /\ score x = Some m /\ fltb m finf = true /\
        forall y t, y ∈ l -> score y = Some t -> fltb t m = false
    end); [|destruct (foldl step (finf, None) l) as [m [x|]]; cbn; [by exists m|by destruct H]].
  induction l as [|x l IH] using rev_ind; [split; [done|]; intros x s H; by apply not_elem_of_nil in H|].
  rewrite foldl_app. cbn [foldl]. destruct (foldl step (finf, None) l) as [m sel]. unfold step, min_step.
  assert (Hin : forall (P : A -> pyfloat -> Prop), (forall y t, y ∈ l -> score y = Some t -> P y t) ->
    (forall t, score x = Some t -> P x t) -> forall y t, y ∈ l ++ [x] -> score y = Some t -> P y t).
  { intros P H1 H2 y t [Hy| ->%list_elem_of_singleton]%elem_of_app; auto. }
  destruct (score x) as [s|] eqn:Es; [destruct (fltb s m) eqn:El|].
  - split; [apply elem_of_app; right; by apply list_elem_of_singleton|]. split; [done|].
    assert (Hinf : forall t, fltb t t = false).
    { intros t. destruct (fltb t t) eqn:E; [|done]. pose proof (fltb_asym _ _ E). by rewrite (fltb_fleb _ _ E) in H. }
    destruct sel as [x0|].
    + destruct IH as (_ & _ & Hm & Hall). split.
      * destruct (fltb s finf) eqn:E; [done|]. exfalso. destruct (xleb_not_nan _ _ (fltb_fleb _ _ El)) as [Hn _].
        pose proof (fltb_false s finf Hn eq_refl E) as H1. pose proof (fltb_asym _ _ Hm) as H2.
        by rewrite (fleb_trans _ _ _ H1 (fltb_fleb _ _ El)) in H2.
      * apply Hin; [|intros t ?; simplify_eq; apply Hinf]. intros y t Hy Ht. apply (fltb_lower s m); eauto.
    + destruct IH as [-> Hall]. split; [done|]. apply Hin; [|intros t ?; simplify_eq; apply Hinf].
      intros y t Hy Ht. apply (fltb_lower s finf); eauto.
  - destruct sel as [x0|].
    + destruct IH as (H1 & H2 & H3 & H4). split; [apply elem_of_app; by left|]. do 2 (split; [done|]).
      apply Hin; [done|]. intros t ?. by simplify_eq.
    + destruct IH as [-> H]. split; [done|]. apply Hin; [done|]. intros t ?. by simplify_eq.
  - destruct sel as [x0|].
    + destruct IH as (H1 & H2 & H3 & H4). split; [apply elem_of_app; by left|]. do 2 (split; [done|]). by apply Hin.
    + destruct IH as [-> H]. split; [done|]. by apply Hin.
Qed.

(** ** Rotation *)

Lemma omap_seq {A} (f g : nat -> option A) m : forall a b,
  (forall i, (i < m)%nat -> f (a + i)%nat = g (b + i)%nat) -> omap f (seq a m) = omap g (seq b m).
Proof.
  induction m as [|m IH]; intros a b H; [done|]. cbn. pose proof (H 0%nat ltac:(lia)) as H0.
  rewrite !Nat.add_0_r in H0. rewrite H0. rewrite (IH (S a) (S b)); [done|].
  intros i Hi. replace (S a + i)%nat with (a + S i)%nat by lia. replace (S b + i)%nat with (b + S i)%nat by lia. apply H. lia.
Qed.

Lemma omap_lookup_seq {A} (l : list A) m : forall a, omap (fun i => l !! i) (seq a m) = take m (drop a l).
Proof.
  induction m as [|m IH]; intros a; [done|]. cbn. destruct (l !! a) as [x|] eqn:E.
  - rewrite (drop_S _ _ _ E). cbn. by rewrite IH.
  - rewrite IH. apply lookup_ge_None in E. by rewrite !drop_ge, !take_nil by lia.
Qed.

Lemma rotated_split {A} (s : Z) (l : list A) : l <> [] ->
  let k := Z.to_nat (s mod Z.of_nat (length l)) in rotated s l = drop k l ++ take k l.
Proof.
  intros Hl k. assert (Hn : (0 < length l)%nat) by (destruct l; [done|cbn; lia]).
  pose proof (Z.mod_pos_bound s (Z.of_nat (length l)) ltac:(lia)) as Hb. unfold rotated.
  assert (Hs : seq 0 (length l) = seq 0 (length l - k) ++ seq (length l - k) k).
  { replace (length l) with ((length l - k) + k)%nat at 1 by lia. by rewrite seq_app. }
  rewrite Hs, omap_app. f_equal.
  - rewrite (omap_seq _ (fun i => l !! i) _ 0 k), omap_lookup_seq; [by rewrite take_ge by (rewrite length_drop; lia)|].
    intros i Hi. f_equal. rewrite Nat.add_0_l. rewrite <- Z.add_mod_idemp_l by lia. rewrite Z.mod_small by lia. lia.
  - rewrite (omap_seq _ (fun i => l !! i) _ _ 0), omap_lookup_seq; [by rewrite drop_0|].
    intros i Hi. f_equal. rewrite Nat.add_0_l. rewrite <- Z.add_mod_idemp_l by lia.
    replace (s mod Z.of_nat (length l) + Z.of_nat (length l - k + i)) with (Z.of_nat i + 1 * Z.of_nat (length l)) by lia.
    rewrite Z.mod_add, Z.mod_small by lia. lia.
Qed.

Lemma rotated_perm {A} (s : Z) (l : list A) : rotated s l ≡ₚ l.
Proof.
  destruct (decide (l = [])) as [->|Hl]; [done|]. rewrite rotated_split by done.
  rewrite Permutation_app_comm. by rewrite take_drop.
Qed.

(** ** Sorting *)

Lemma StronglySorted_app_l {A} (R : relation A) l1 l2 : StronglySorted R (l1 ++ l2) -> StronglySorted R l1.
Proof.
  induction l1 as [|x l1 IH]; cbn; intros H; [constructor|]. apply StronglySorted_inv in H as [H Hx].
  constructor; [by apply IH|]. by apply Forall_app in Hx as [Hx _].
Qed.

Section SortingLemmas.
Context {A : Type} (key : A -> pyfloat * nat).

(** Ordered by score. *)
Definition sle (x y : A) : Prop := fleb (key x).1 (key y).1 = true.

Lemma key_ltb_sle x y : key_ltb (key x) (key y) = true -> sle x y.
Proof.
  unfold key_ltb, feqb, sle. destruct (fleb (key x).1 (key y).1) eqn:E; [done|]. cbn. intros H.
  by rewrite (fltb_fleb _ _ H) in E.
Qed.
Lemma key_ltb_false_sle x y : not_nan (key x).1 -> not_nan (key y).1 -> key_ltb (key x) (key y) = false -> sle y x.
Proof.
  unfold key_ltb, feqb, sle. intros Hx Hy. destruct (fleb (key y).1 (key x).1) eqn:E; [done|].
  rewrite andb_false_r. intros H. by rewrite (fltb_false _ _ Hx Hy H) in E.
Qed.

Lemma insert_by_perm x l : insert_by key x l ≡ₚ x :: l.
Proof.
  induction l as [|y l IH]; [done|]. cbn. destruct (key_ltb _ _); [|done]. rewrite IH. apply Permutation_swap.
Qed.
Lemma sorted_by_perm l : sorted_by key l ≡ₚ l.
Proof. induction l as [|x l IH]; [done|]. cbn. rewrite insert_by_perm. by rewrite IH. Qed.

Lemma insert_by_sorted x l : Forall (fun y => not_nan (key y).1) (x :: l) ->
  StronglySorted sle l -> StronglySorted sle (insert_by key x l).
Proof.
  intros [Hx Hn]%Forall_cons. induction l as [|y l IH]; intros Hs; [by repeat constructor|].
  apply StronglySorted_inv in Hs as [Hs Hy]. apply Forall_cons in Hn as [Hny Hn]. cbn.
  destruct (key_ltb (key y) (key x)) eqn:E.
  - constructor; [by apply IH|]. rewrite insert_by_perm. constructor; [by apply key_ltb_sle|done].
  - pose proof (key_ltb_false_sle _ _ Hny Hx E) as Hxy. constructor; [by constructor|].
    constructor; [done|]. eapply Forall_impl; [exact Hy|]. intros z Hz. by eapply fleb_trans.
Qed.
Lemma sorted_by_sorted l : Forall (fun y => not_nan (key y).1) l -> StronglySorted sle (sorted_by key l).
Proof.
  induction l as [|x l IH]; intros H; [constructor|]. apply Forall_cons in H as [Hx H].
  change (sorted_by key (x :: l)) with (insert_by key x (sorted_by key l)). apply insert_by_sorted; [|by apply IH]. constructor; [done|]. by rewrite sorted_by_perm.
Qed.

Lemma StronglySorted_app_rel l1 l2 x y : StronglySorted sle (l1 ++ l2) -> x ∈ l1 -> y ∈ l2 -> sle x y.
Proof.
  induction l1 as [|z l1 IH]; cbn; intros Hs Hx Hy; [by apply not_elem_of_nil in Hx|].
  apply StronglySorted_inv in Hs as [Hs Hz]. apply elem_of_cons in Hx as [->|Hx]; [|by apply IH].
  rewrite Forall_forall in Hz. apply Hz, elem_of_app. by right.
Qed.

(** How many elements have a score below [v]. *)
Definition below (v : pyfloat) (l : list A) : nat := length (base.filter (fun x => fltb (key x).1 v = true) l).

Lemma below_perm v l1 l2 : l1 ≡ₚ l2 -> below v l1 = below v l2.
Proof. intros H. unfold below. by rewrite H. Qed.

(** In a sorted list the number of elements below [v] is an index. *)
Lemma below_sorted_le l : forall k y, StronglySorted sle l -> l !! k = Some y -> not_nan (key y).1 ->
  (below (key y).1 l <= k)%nat.
Proof.
  induction l as [|x l IH]; intros k y Hs Hk Hn; [done|]. apply StronglySorted_inv in Hs as [Hs Hx].
  unfold below. rewrite filter_cons. destruct k as [|k]; cbn in Hk.
  - simplify_eq. assert (Hf : forall l', Forall (sle y) l' -> base.filter (fun z => fltb (key z).1 (key y).1 = true) l' = []).
    { intros l' Hl'. induction Hl' as [|z l' Hz _ IH']; [done|]. rewrite filter_cons, decide_False; [done|].
      intros Hlt. pose proof (fltb_asym _ _ Hlt). congruence. }
    rewrite decide_False; [by rewrite Hf|]. intros Hlt. pose proof (fltb_asym _ _ Hlt) as H.
    by rewrite fleb_refl in H.
  - specialize (IH k y Hs Hk Hn). unfold below in IH. destruct (decide _); cbn; lia.
Qed.
Lemma below_sorted_gt l : forall k x v, StronglySorted sle l -> l !! k = Some x -> fltb (key x).1 v = true ->
  (k < below v l)%nat.
Proof.
  induction l as [|y l IH]; intros k x v Hs Hk Hlt; [done|]. apply StronglySorted_inv in Hs as [Hs Hy].
  assert (Hyv : fltb (key y).1 v = true).
  { destruct k as [|k]; cbn in Hk; [by simplify_eq|]. apply list_elem_of_lookup_2 in Hk.
    rewrite Forall_forall in Hy. specialize (Hy x Hk). unfold sle in Hy.
    destruct (fltb (key y).1 v) eqn:E; [done|exfalso]. destruct (xleb_not_nan _ _ Hy) as [Hny _].
    destruct (xleb_not_nan _ _ (fltb_fleb _ _ Hlt)) as [_ Hnv]. pose proof (fltb_false _ _ Hny Hnv E) as H1.
    pose proof (fltb_asym _ _ Hlt) as H2. by rewrite (fleb_trans _ _ _ H1 Hy) in H2. }
  unfold below. rewrite filter_cons, decide_True by done. cbn. destruct k as [|k]; [lia|].
  specialize (IH k x v Hs Hk Hlt). unfold below in IH. lia.
Qed.

(** Sorted permutations have the same scores, position by position. *)
Lemma sorted_same_scores l1 l2 : l1 ≡ₚ l2 -> StronglySorted sle l1 -> StronglySorted sle l2 ->
  Forall (fun y => not_nan (key y).1) l1 -> Forall2 (fun x y => feqb (key x).1 (key y).1 = true) l1 l2.
Proof.
  intros Hp H1 H2 Hn. apply Forall2_same_length_lookup. split; [by apply Permutation_length|].
  assert (Hlt : forall la lb, la ≡ₚ lb -> StronglySorted sle la -> StronglySorted sle lb ->
    forall k x y, la !! k = Some x -> lb !! k = Some y -> not_nan (key y).1 -> fltb (key x).1 (key y).1 = false).
  { intros la lb Hab Ha Hb k x y Hx Hy Hny. destruct (fltb (key x).1 (key y).1) eqn:E; [exfalso|done].
    pose proof (below_sorted_gt la k x _ Ha Hx E). pose proof (below_sorted_le lb k y Hb Hy Hny).
    rewrite (below_perm _ _ _ Hab) in *. lia. }
  intros k x y Hx Hy. assert (Hn2 : Forall (fun y => not_nan (key y).1) l2) by by rewrite <- Hp.
  rewrite Forall_forall in Hn, Hn2. pose proof (Hn x (list_elem_of_lookup_2 _ _ _ Hx)) as Hnx.
  pose proof (Hn2 y (list_elem_of_lookup_2 _ _ _ Hy)) as Hny. unfold feqb. apply andb_true_intro. split.
  - apply fltb_false; [done|done|]. by eapply (Hlt l2 l1).
  - apply fltb_false; [done|done|]. by eapply (Hlt l1 l2).
Qed.
End SortingLemmas.

(** ** What the load balancer selects *)

Section Candidates.
Context (instances : list Instance_) (role : option PDRole) (weight : pyfloat) (is_blocked : option (Z -> bool)).

(** An endpoint the policy may choose, with its score. *)
Definition eligible (c : EndpointCandidate) : Prop :=
  c_instance c ∈ instances /\
  match is_blocked with Some f => f (ins_id (c_instance c)) = false | None => True end /\
  c_endpoint c ∈ eps_of (c_instance c) /\
  calculate_endpoint_score (c_instance c) (c_endpoint c) role weight = Some (c_score c).

Lemma elem_of_scored c : c ∈ scored instances role weight is_blocked <-> eligible c.
Proof.
  unfold scored, score_instance, eligible. rewrite list_elem_of_In, in_concat. split.
  - intros (l & (i & <- & Hi)%in_map_iff & Hc). apply list_elem_of_In in Hi, Hc.
    apply list_elem_of_omap in Hc as (ep & Hep & Hc).
    destruct (match is_blocked with Some f => f (ins_id i) | None => false end) eqn:Hb; [done|].
    destruct (calculate_endpoint_score i ep role weight) eqn:Es; [|done]. cbn in Hc. simplify_eq. cbn.
    split; [done|]. split; [by destruct is_blocked|done].
  - intros (Hi & Hb & Hep & Hs). exists (score_instance role weight is_blocked (c_instance c)).
    rewrite in_map_iff, <- !list_elem_of_In. split; [exists (c_instance c); by rewrite <- list_elem_of_In|].
    unfold score_instance. apply list_elem_of_omap. exists (c_endpoint c). split; [done|].
    replace (match is_blocked with Some f => f (ins_id (c_instance c)) | None => false end) with false by by destruct is_blocked.
    rewrite Hs. by destruct c.
Qed.

Lemma scored_perm l1 l2 : l1 ≡ₚ l2 -> scored l1 role weight is_blocked ≡ₚ scored l2 role weight is_blocked.
Proof.
  unfold scored. induction 1 as [|x l1 l2 _ IH|x y l|l1 l2 l3 _ IH1 _ IH2]; cbn; [done|by rewrite IH| |by rewrite IH1].
  rewrite !app_assoc. by rewrite (Permutation_app_comm (score_instance _ _ _ y)).
Qed.

Lemma snd_enumerate {A} (l : list A) : snd <$> enumerate l = l.
Proof. unfold enumerate. apply snd_zip. rewrite length_seq. lia. Qed.

(** The sorted candidates for a start index; the selection is a prefix. *)
Definition ranking (start_index : Z) : list (nat * EndpointCandidate) :=
  sorted_by (fun item => (c_score item.2, item.1)) (enumerate (scored (rotated start_index instances) role weight is_blocked)).

Lemma select_is_prefix k start : 0 < k ->
  select_endpoint_candidates_from_list instances role k weight start is_blocked = snd <$> take (Z.to_nat k) (ranking start).
Proof.
  intros Hk. unfold select_endpoint_candidates_from_list. destruct (Z.leb_spec k 0); [lia|].
  unfold ranking. destruct instances as [|i l]; [|done]. cbn. by rewrite take_nil.
Qed.

Lemma ranking_perm start : snd <$> ranking start ≡ₚ scored instances role weight is_blocked.
Proof. unfold ranking. rewrite sorted_by_perm, snd_enumerate. apply scored_perm, rotated_perm. Qed.

Hypothesis Hnan : forall c, eligible c -> not_nan (c_score c).

Lemma ranking_not_nan start : Forall (fun item => not_nan (c_score item.2)) (ranking start).
Proof.
  apply Forall_forall. intros item Hi. apply Hnan, elem_of_scored. rewrite <- (ranking_perm start).
  apply list_elem_of_fmap. by exists item.
Qed.

Lemma ranking_sorted start :
  StronglySorted (fun c d => fleb (c_score c) (c_score d) = true) (snd <$> ranking start).
Proof.
  assert (H : StronglySorted (sle (fun item : nat * EndpointCandidate => (c_score item.2, item.1))) (ranking start)).
  { apply sorted_by_sorted. pose proof (ranking_not_nan start) as H. unfold ranking in H. by rewrite sorted_by_perm in H. }
  induction H as [|item l _ IH Hx]; cbn; constructor; [done|]. rewrite Forall_fmap. exact Hx.
Qed.
End Candidates.

(** ** Runs of the round-robin policy *)

(** A scheduling request: through the provider or from a filtered list. *)
Inductive rr_call :=
  | CallSelect (role : option PDRole) (active : list Instance_)
  | CallFromList (role : option PDRole) (instances : list Instance_).
Definition call_role (c : rr_call) : option PDRole := match c with CallSelect r _ | CallFromList r _ => r end.
Definition call_list (c : rr_call) : list Instance_ := match c with CallSelect _ l | CallFromList _ l => l end.

Definition rr_exec (c : rr_call) (p : RoundRobin) : option (Instance_ * Endpoint) * RoundRobin :=
  match c with
  | CallSelect r l => rr_select_instance_and_endpoint l r p
  | CallFromList r l => rr_select_instance_and_endpoint_from_list l r p
  end.

Fixpoint rr_run (cs : list rr_call) (p : RoundRobin) : list (option (Instance_ * Endpoint)) * RoundRobin :=
  match cs with
  | [] => ([], p)
  | c :: cs => let '(x, p) := rr_exec c p in let '(xs, p) := rr_run cs p in (x :: xs, p)
  end.

(** The instances a role was given, in order. *)
Definition picks_of (role : option PDRole) (cs : list rr_call) (xs : list (option (Instance_ * Endpoint))) : list (option Instance_) :=
  omap (fun cx : rr_call * option (Instance_ * Endpoint) =>
          if decide (call_role cx.1 = role) then Some (fst <$> cx.2) else None) (zip cs xs).

Definition counter (role : option PDRole) (p : RoundRobin) : Z := default 0 (dget role (rr_instance p)).

(** One call on a list whose instances all have endpoints. *)
Lemma rr_exec_spec c p : call_list c <> [] -> (forall i, i ∈ call_list c -> eps_of i <> []) ->
  let n := Z.of_nat (length (call_list c)) in
  (fst <$> (rr_exec c p).1) = call_list c !! Z.to_nat (counter (call_role c) p mod n) /\
  is_Some (rr_exec c p).1 /\
  counter (call_role c) (rr_exec c p).2 = (counter (call_role c) p + 1) mod n /\
  forall r, r <> call_role c -> counter r (rr_exec c p).2 = counter r p.
Proof.
  intros Hl He n. set (k := counter (call_role c) p).
  assert (Hn : 0 < n) by (unfold n; destruct (call_list c); [done|cbn; lia]).
  destruct (lookup_lt_is_Some_2 (call_list c) (Z.to_nat (k mod n))) as [i Hi].
  { pose proof (Z.mod_pos_bound k n Hn). unfold n in *. lia. }
  pose proof (He i (list_elem_of_lookup_2 _ _ _ Hi)) as Hne. rewrite Hi.
  assert (Hep : exists e, (eps_of i) !! Z.to_nat (default 0 (dget (ins_id i) (rr_endpoint p)) mod Z.of_nat (length (eps_of i))) = Some e).
  { apply lookup_lt_is_Some_2. assert (0 < length (eps_of i))%nat by (destruct (eps_of i); [done|cbn; lia]).
    pose proof (Z.mod_pos_bound (default 0 (dget (ins_id i) (rr_endpoint p))) (Z.of_nat (length (eps_of i))) ltac:(lia)). lia. }
  destruct Hep as [e Hep].
  assert (Hsel : rr_select_endpoint_from_instance i None (rr_endpoint p) = (Some e, dset (ins_id i)
    ((default 0 (dget (ins_id i) (rr_endpoint p)) + 1) mod Z.of_nat (length (eps_of i))) (rr_endpoint p))).
  { unfold rr_select_endpoint_from_instance. destruct (eps_of i); [done|]. by rewrite Hep. }
  assert (Hx : exists ep, rr_exec c p = (Some (i, e), {| rr_instance := dset (call_role c) ((k + 1) mod n) (rr_instance p); rr_endpoint := ep |})).
  { destruct c as [r l|r l]; cbn [rr_exec call_role call_list] in *;
      [unfold rr_select_instance_and_endpoint, rr_select_instance|unfold rr_select_instance_and_endpoint_from_list];
      (destruct l as [|i0 l]; [done|]); fold (counter r p); fold k; unfold rr_select_instance_from_list; cbv zeta iota beta;
      unfold n in Hi; rewrite Hi; unfold rr_select_endpoint; cbn [rr_endpoint]; rewrite Hsel; [|by eexists].
    destruct (eps_of i); [done|]. by eexists. }
  destruct Hx as [ep ->]. cbn [fst snd fmap option_fmap option_map]. split; [done|]. split; [by eexists|].
  unfold counter. cbn [rr_instance]. split; [by rewrite dget_dset_eq|]. intros r Hr. by rewrite dget_dset_ne by congruence.
Qed.

(** The picks of a role go around its list. *)
Lemma rr_run_picks role L cs : L <> [] -> (forall c, c ∈ cs -> call_list c <> [] /\ (forall i, i ∈ call_list c -> eps_of i <> []) /\
    (call_role c = role -> call_list c = L)) -> forall p,
  exists m, picks_of role cs (rr_run cs p).1 =
    map (fun j => L !! Z.to_nat ((counter role p + Z.of_nat j) mod Z.of_nat (length L))) (seq 0 m).
Proof.
  intros HL. assert (Hn : 0 < Z.of_nat (length L)) by (destruct L; [done|cbn; lia]).
  induction cs as [|c cs IH]; intros Hcs p; [by exists 0%nat|]. cbn [rr_run].
  destruct (Hcs c) as (H1 & H2 & H3); [by left|]. pose proof (rr_exec_spec c p H1 H2) as (Hi & Hs & Hc & Ho).
  destruct (rr_exec c p) as [x p'] eqn:Ex. cbn [fst snd] in *.
  destruct (IH (fun c' H => Hcs c' (list_elem_of_further _ _ _ H)) p') as [m Hm].
  destruct (rr_run cs p') as [xs p'']. cbn [fst snd] in *. unfold picks_of in *. cbn [zip zip_with omap list_omap fst snd].
  destruct (decide (call_role c = role)) as [Hr|Hr]; [|exists m; rewrite Hm, Ho by congruence; done].
  exists (S m). rewrite Hm. cbn [seq map]. rewrite H3 in Hi, Hc by done. rewrite Hr in Hi, Hc. rewrite Hi, Hc, Z.add_0_r. f_equal.
  rewrite <- seq_shift, map_map. apply map_ext. intros j. f_equal. f_equal.
  rewrite Z.add_mod_idemp_l by lia. f_equal. lia.
Qed.

Lemma rr_window L c m j : (j + length L <= m)%nat ->
  take (length L) (drop j (map (fun j => L !! Z.to_nat ((c + Z.of_nat j) mod Z.of_nat (length L))) (seq 0 m))) ≡ₚ (Some <$> L : list (option Instance_)).
Proof.
  intros Hm. rewrite skipn_map, firstn_map, drop_seq, take_seq, Nat.min_l by lia. rewrite Nat.add_0_l.
  transitivity (Some <$> rotated (c + Z.of_nat j) L); [|by rewrite rotated_perm]. unfold rotated.
  destruct (decide (L = [])) as [->|HL]; [done|].
  assert (Hn : 0 < Z.of_nat (length L)) by (destruct L; [done|cbn; lia]).
  assert (H : forall k a, map (fun j0 => L !! Z.to_nat ((c + Z.of_nat j0) mod Z.of_nat (length L))) (seq (j + a) k) =
    Some <$> omap (fun i => L !! Z.to_nat ((c + Z.of_nat j + Z.of_nat i) mod Z.of_nat (length L))) (seq a k)).
  { induction k as [|k IH]; intros a; [done|]. cbn.
    destruct (lookup_lt_is_Some_2 L (Z.to_nat ((c + Z.of_nat (j + a)) mod Z.of_nat (length L)))) as [x Hx].
    { pose proof (Z.mod_pos_bound (c + Z.of_nat (j + a)) (Z.of_nat (length L)) Hn). lia. }
    replace (c + Z.of_nat j + Z.of_nat a) with (c + Z.of_nat (j + a)) by lia. rewrite Hx. cbn. f_equal.
    rewrite <- IH. f_equal. f_equal. lia. }
  pose proof (H (length L) 0%nat) as H'. rewrite Nat.add_0_r in H'. by rewrite H'.
Qed.

(** ** Clamped differences *)

Lemma fmax0_cases x : x <> finf ->
  fmax f0 x = f0 \/ (exists m e, fmax f0 x = SpecFloat.S754_finite false m e) .
Proof.
  intros Hx. unfold fmax. destruct (fltb f0 x) eqn:E; [|by left].
  destruct x as [[]|[]| |[] m e]; try done; try (by right; eauto).
  exfalso. unfold fltb, xltb in E. cbn in E. unfold dyadic_compare in E. rewrite Z.mul_0_l in E.
  assert (0 < 2 ^ (e - Z.min 0 e)) by (apply Z.pow_pos_nonneg; lia).
  match type of E with context [(0 ?= ?a)] => destruct (Z.compare_spec 0 a) end; try done. nia.
Qed.

(** Equal finite numbers cancel. *)
Lemma fsub_feqb_zero x y : feqb x y = true -> (forall s, y <> SpecFloat.S754_infinity s) -> feqb (fsub x y) f0 = true.
Proof.
  intros [H1 H2]%andb_true_iff Hy. unfold fleb, xleb in H1, H2. rewrite (xcompare_antisym (float_val x)) in H2.
  destruct (xcompare (float_val x) (float_val y)) as [[]|] eqn:E; try done. clear H1 H2.
  destruct x as [sx|sx| |sx mx ex], y as [sy|sy| |sy my ey]; try done; try (by destruct (Hy sy));
    try (by destruct sx, sy); try (by destruct sx).
  - exfalso. cbn [float_val xcompare] in E. unfold dyadic_compare in E. apply (inj Some), Z.compare_eq in E.
    assert (0 < 2 ^ (ey - Z.min 0 ey)) by (apply Z.pow_pos_nonneg; lia). destruct sy; cbn in E; nia.
  - exfalso. cbn [float_val xcompare] in E. unfold dyadic_compare in E. apply (inj Some), Z.compare_eq in E.
    assert (0 < 2 ^ (ex - Z.min ex 0)) by (apply Z.pow_pos_nonneg; lia). destruct sx; cbn in E; nia.
  - by apply fsub_eq_zero in E as [s ->].
Qed.

(** ** Theorems *)

(** C30: the load balancer returns the [top_k] least loaded endpoints.  On
    instances whose loads are numbers, for every role, weight, start index and
    set of blocked instances: the candidates are endpoints of unblocked
    instances with their scores, in ascending order, as many as asked for or
    as there are, and no endpoint that was left out has a smaller score than
    one that was chosen. *)
Theorem lb_candidates_optimal (instances : list Instance_) role (k : Z) weight start is_blocked
    (Hk : 0 < k)
    (Hnan : forall c, eligible instances role weight is_blocked c -> not_nan (c_score c)) :
  let all := scored instances role weight is_blocked in
  let res := select_endpoint_candidates_from_list instances role k weight start is_blocked in
  (forall c, c ∈ all <-> eligible instances role weight is_blocked c) /\
  length res = (Z.to_nat k `min` length all)%nat /\
  StronglySorted (fun c d => fleb (c_score c) (c_score d) = true) res /\
  exists rest, res ++ rest ≡ₚ all /\ forall c d, c ∈ res -> d ∈ rest -> fleb (c_score c) (c_score d) = true.
Proof.
  cbn zeta. rewrite select_is_prefix by done. rewrite fmap_take.
  pose proof (ranking_perm instances role weight is_blocked start) as Hp.
  pose proof (ranking_sorted instances role weight is_blocked Hnan start) as Hs.
  set (r := snd <$> ranking instances role weight is_blocked start) in *.
  split; [intros c; apply elem_of_scored|]. split; [by rewrite length_take, (Permutation_length Hp)|].
  rewrite <- (take_drop (Z.to_nat k) r) in Hs. split; [by apply StronglySorted_app_l in Hs|].
  exists (drop (Z.to_nat k) r). split; [by rewrite take_drop|]. intros c d Hc Hd.
  apply (StronglySorted_app_rel (fun c => (c_score c, 0%nat)) _ _ c d Hs Hc Hd).
Qed.

(** Witness data: three instances with two endpoints, one of them loaded. *)
Definition ex_loaded : Instance_ :=
  ins_set_gathered {| active_tokens := float_lit 3 0 |}
    (add_endpoints "10.0.0.1" (Some [(0, ep_set_workload {| active_tokens := float_lit 3 0 |} (ex_ep_w 0)); (1, ex_ep_w 1)])
       (Instance_new "p-1" "m" None [] 2 "prefill" true)).
Definition ex_list : list Instance_ := [ex_instance 1 "p-0" "prefill"; ex_loaded; ex_instance 3 "p-2" "prefill"].

Lemma ex_list_numbers b c : eligible ex_list (Some ROLE_P) DEFAULT_ENDPOINT_INSTANCE_SCORE_WEIGHT b c -> not_nan (c_score c).
Proof.
  rewrite <- elem_of_scored. intros H. assert (Hs : forallb (fun c => negb (is_nan (float_val (c_score c))))
    (scored ex_list (Some ROLE_P) DEFAULT_ENDPOINT_INSTANCE_SCORE_WEIGHT None) = true) by by vm_compute.
  rewrite forallb_True' in Hs. apply negb_true_iff, Hs. apply elem_of_scored in H as (H1 & _ & H2 & H3).
  apply elem_of_scored. by repeat split.
Qed.

Lemma lb_candidates_optimal_witness :
  length (select_endpoint_candidates_from_list ex_list (Some ROLE_P) 2 DEFAULT_ENDPOINT_INSTANCE_SCORE_WEIGHT 1
            (Some (fun id => id =? 1))) = 2%nat.
Proof.
  destruct (lb_candidates_optimal ex_list (Some ROLE_P) 2 DEFAULT_ENDPOINT_INSTANCE_SCORE_WEIGHT 1 (Some (fun id => id =? 1)))
    as (_ & H & _); [lia|intros c; apply ex_list_numbers|]. rewrite H. vm_compute. reflexivity.
Defined.

(** C31: [start_index] only breaks ties: two selections that differ in the
    start index return the same number of candidates with equal scores in
    every position. *)
Theorem lb_start_index_only_ties (instances : list Instance_) role (k : Z) weight s1 s2 is_blocked
    (Hk : 0 < k)
    (Hnan : forall c, eligible instances role weight is_blocked c -> not_nan (c_score c)) :
  Forall2 (fun c d => feqb (c_score c) (c_score d) = true)
    (select_endpoint_candidates_from_list instances role k weight s1 is_blocked)
    (select_endpoint_candidates_from_list instances role k weight s2 is_blocked).
Proof.
  rewrite !select_is_prefix, !fmap_take by done. apply Forall2_take.
  apply (sorted_same_scores (fun c => (c_score c, 0%nat))).
  - by rewrite !ranking_perm.
  - by apply ranking_sorted.
  - by apply ranking_sorted.
  - rewrite Forall_fmap. by apply (ranking_not_nan instances role weight is_blocked Hnan).
Qed.

Lemma lb_start_index_only_ties_witness :
  Forall2 (fun c d => feqb (c_score c) (c_score d) = true)
    (select_endpoint_candidates_from_list ex_list (Some ROLE_P) 4 DEFAULT_ENDPOINT_INSTANCE_SCORE_WEIGHT 0 None)
    (select_endpoint_candidates_from_list ex_list (Some ROLE_P) 4 DEFAULT_ENDPOINT_INSTANCE_SCORE_WEIGHT 2 None).
Proof. apply lb_start_index_only_ties; [lia|intros c; apply ex_list_numbers]. Defined.

(** C32: [select_instance_from_list] picks a least loaded instance, whatever the
    start index: none is returned only when no instance has a load below
    infinity, and no instance of the list has a smaller load than the one that
    is returned. *)
Theorem least_loaded_instance (instances : list Instance_) (start : Z) :
  match select_instance_from_list instances start with
  | None => forall i, i ∈ instances -> fltb (active_tokens (gathered_workload i)) finf = false
  | Some i => i ∈ instances /\ fltb (active_tokens (gathered_workload i)) finf = true /\
      forall j, j ∈ instances -> fltb (active_tokens (gathered_workload j)) (active_tokens (gathered_workload i)) = false
  end.
Proof.
  unfold select_instance_from_list.
  set (score i := calculate_workload_score (gathered_workload i) (Some (ins_role i))).
  assert (H : forall l, l ≡ₚ instances -> match min_scan score l with
    | None => forall i, i ∈ instances -> fltb (active_tokens (gathered_workload i)) finf = false
    | Some i => i ∈ instances /\ fltb (active_tokens (gathered_workload i)) finf = true /\
        forall j, j ∈ instances -> fltb (active_tokens (gathered_workload j)) (active_tokens (gathered_workload i)) = false
    end).
  { intros l Hl. pose proof (min_scan_spec score l) as H. destruct (min_scan score l) as [i|].
    - destruct H as (s & Hi & [= <-] & Hs & Hmin). split; [by rewrite <- Hl|]. split; [done|].
      intros j Hj. apply (Hmin j); [by rewrite Hl|done].
    - intros i Hi. apply (H i); [by rewrite Hl|done]. }
  destruct (start =? 0); cbn [negb]; [by apply H|]. destruct instances as [|i l]; [intros i Hi; by apply not_elem_of_nil in Hi|].
  apply H, rotated_perm.
Qed.

(** C33: the round robin is fair.  In any sequence of scheduling calls (of any
    roles, through the provider or from a list), on instances that have
    endpoints: if a role always sees the same [n] instances, then any [n]
    consecutive requests of that role are served by [n] different positions of
    the list, each exactly once, whatever the other roles do in between. *)
Theorem rr_fair (role : option PDRole) (L : list Instance_) (cs : list rr_call) (p : RoundRobin) (j : nat)
    (HL : L <> [])
    (Hcs : forall c, c ∈ cs -> call_list c <> [] /\ (forall i, i ∈ call_list c -> eps_of i <> []) /\
             (call_role c = role -> call_list c = L))
    (Hj : (j + length L <= length (picks_of role cs (rr_run cs p).1))%nat) :
  take (length L) (drop j (picks_of role cs (rr_run cs p).1)) ≡ₚ (Some <$> L : list (option Instance_)).
Proof.
  destruct (rr_run_picks role L cs HL Hcs p) as [m Hm]. rewrite Hm in Hj |- *.
  rewrite length_map, length_seq in Hj. by apply rr_window.
Qed.

Definition ex_calls : list rr_call :=
  [CallFromList (Some ROLE_P) ex_list; CallSelect (Some ROLE_D) [ex_loaded]; CallSelect (Some ROLE_P) ex_list;
   CallFromList (Some ROLE_P) ex_list; CallFromList (Some ROLE_P) ex_list].

Lemma rr_fair_witness :
  take 3 (drop 1 (picks_of (Some ROLE_P) ex_calls (rr_run ex_calls rr_init).1)) ≡ₚ (Some <$> ex_list : list (option Instance_)).
Proof.
  apply (rr_fair (Some ROLE_P) ex_list ex_calls rr_init 1).
  - done.
  - assert (He : forall i, i ∈ ex_list -> eps_of i <> []).
    { intros i Hi. assert (H : forallb (fun i => negb (bool_decide (eps_of i = []))) ex_list = true) by by vm_compute.
      rewrite forallb_True' in H. specialize (H i Hi). by apply negb_true_iff, bool_decide_eq_false in H. }
    intros c Hc. repeat (apply elem_of_cons in Hc as [->|Hc]; [split; [done|]; split; [|done]; cbn [call_list]; try exact He|]).
    + intros i ->%list_elem_of_singleton. apply He. right. by left.
    + by apply not_elem_of_nil in Hc.
  - vm_compute. lia.
Defined.

(** C34: the load committed after an affinity selection.  For every prompt
    length that is not infinite and any number of matched tokens (also
    negative, infinite or not a number) the committed load is a non-negative
    number; without a match it is the prompt length (at least zero), and it is
    zero when the match covers the prompt. *)
Theorem committed_workload_spec (isl matched : pyfloat) (Hisl : isl <> finf) :
  let w := active_tokens (calculate_committed_workload isl matched) in
  let isl_f := fmax f0 isl in
  fleb f0 w = true /\
  (fltb f0 matched = false -> w = isl_f) /\
  (fleb isl_f (fmax f0 matched) = true -> feqb w f0 = true).
Proof.
  unfold calculate_committed_workload. cbn zeta. cbn [active_tokens].
  set (x := fmax f0 isl). set (m := fmax f0 matched).
  assert (Hx : x = f0 \/ exists a e, x = SpecFloat.S754_finite false a e) by by apply fmax0_cases.
  assert (Hxnn : not_nan x) by (destruct Hx as [->|(a & e & ->)]; done).
  assert (Hmnn : not_nan m).
  { unfold m, fmax. destruct (fltb f0 matched) eqn:E; [|done]. by apply fltb_fleb, xleb_not_nan in E as [_ E]. }
  assert (Hmin : fleb (fmin m x) x = true).
  { unfold fmin. destruct (fltb x m) eqn:E; [by apply fleb_refl|]. by apply fltb_false. }
  assert (Hfin : forall s, fmin m x <> SpecFloat.S754_infinity s).
  { intros [] H; rewrite H in Hmin; [|by destruct Hx as [->|(a & e & ->)]].
    unfold fmin in H. destruct (fltb x m); [by destruct Hx as [Hx|(a & e & Hx)]; rewrite Hx in H|].
    unfold m, fmax in H. destruct (fltb f0 matched) eqn:E; [|done]. by rewrite H in E. }
  split; [by apply fsub_nonneg|]. split.
  - intros Hm. assert (m = f0) as -> by (unfold m, fmax; by rewrite Hm).
    unfold fmin. destruct Hx as [->|(a & e & ->)]; [done|].
    destruct (fltb (SpecFloat.S754_finite false a e) f0) eqn:E; [|done].
    exfalso. apply fltb_asym in E. cbn in E. unfold fleb, xleb in E. cbn in E. unfold dyadic_compare in E.
    rewrite Z.mul_0_l in E. match type of E with context [(0 ?= ?b)] => destruct (Z.compare_spec 0 b) end; try done.
    assert (0 < 2 ^ (e - Z.min 0 e)) by (apply Z.pow_pos_nonneg; lia). nia.
  - intros Hle. assert (Heq : feqb x (fmin m x) = true).
    { unfold feqb. rewrite Hmin, andb_true_r. unfold fmin. destruct (fltb x m); [by apply fleb_refl|done]. }
    by apply fsub_feqb_zero.
Qed.

Lemma committed_workload_spec_witness :
  feqb (active_tokens (calculate_committed_workload (float_lit 100 0) (float_lit 120 0))) f0 = true.
Proof.
  destruct (committed_workload_spec (float_lit 100 0) (float_lit 120 0)) as (_ & _ & H); [done|].
  apply H. vm_compute. reflexivity.
Defined.
