(* ===== verification/Precision.v ===== *)
(** * Precision alarms of the scheduler

    The part of [motor/coordinator/scheduler/scheduler.py] that keeps, for each
    pair of a prefill and a decode instance, the streaks of bad and good
    samples and the raise or clear action under way: [confirm_sample_exit],
    [record_precision_result], [finish_precision_action] and
    [dismiss_precision_alarm_state].  The eight dictionaries of the class are
    the model's state; each method runs under the key's lock without a
    suspension point, so it is one step.  The token a method draws from [uuid4]
    is an argument. *)

From S2P Require Import Prelude PyNum.

(** ** State *)

(** A PD group: the prefill instance, if any, and the decode instance. *)
Definition pd_key : Type := option Z * Z.

Record Precision := {
  exit_last_time : gmap pd_key pyfloat;
  streak_counts : gmap pd_key Z;
  raise_probing : gmap pd_key bool;
  raise_tokens : gmap pd_key string;
  clear_probing : gmap pd_key bool;
  clear_tokens : gmap pd_key string;
  alarm_active : gmap pd_key bool;
  alarm_moi : gmap pd_key string;
  normal_streak_counts : gmap pd_key Z }.

Definition precision_init : Precision :=
  {| exit_last_time := ∅; streak_counts := ∅; raise_probing := ∅; raise_tokens := ∅; clear_probing := ∅;
     clear_tokens := ∅; alarm_active := ∅; alarm_moi := ∅; normal_streak_counts := ∅ |}.

Definition set_exit (f : gmap pd_key pyfloat) (s : Precision) : Precision :=
  {| exit_last_time := f; streak_counts := streak_counts s; raise_probing := raise_probing s;
     raise_tokens := raise_tokens s; clear_probing := clear_probing s; clear_tokens := clear_tokens s;
     alarm_active := alarm_active s; alarm_moi := alarm_moi s; normal_streak_counts := normal_streak_counts s |}.
Definition set_streak (f : gmap pd_key Z) (s : Precision) : Precision :=
  {| exit_last_time := exit_last_time s; streak_counts := f; raise_probing := raise_probing s;
     raise_tokens := raise_tokens s; clear_probing := clear_probing s; clear_tokens := clear_tokens s;
     alarm_active := alarm_active s; alarm_moi := alarm_moi s; normal_streak_counts := normal_streak_counts s |}.
Definition set_raise (b : gmap pd_key bool) (t : gmap pd_key string) (s : Precision) : Precision :=
  {| exit_last_time := exit_last_time s; streak_counts := streak_counts s; raise_probing := b;
     raise_tokens := t; clear_probing := clear_probing s; clear_tokens := clear_tokens s;
     alarm_active := alarm_active s; alarm_moi := alarm_moi s; normal_streak_counts := normal_streak_counts s |}.
Definition set_clear (b : gmap pd_key bool) (t : gmap pd_key string) (s : Precision) : Precision :=
  {| exit_last_time := exit_last_time s; streak_counts := streak_counts s; raise_probing := raise_probing s;
     raise_tokens := raise_tokens s; clear_probing := b; clear_tokens := t;
     alarm_active := alarm_active s; alarm_moi := alarm_moi s; normal_streak_counts := normal_streak_counts s |}.
Definition set_alarm (b : gmap pd_key bool) (m : gmap pd_key string) (s : Precision) : Precision :=
  {| exit_last_time := exit_last_time s; streak_counts := streak_counts s; raise_probing := raise_probing s;
     raise_tokens := raise_tokens s; clear_probing := clear_probing s; clear_tokens := clear_tokens s;
     alarm_active := b; alarm_moi := m; normal_streak_counts := normal_streak_counts s |}.
Definition set_normal (f : gmap pd_key Z) (s : Precision) : Precision :=
  {| exit_last_time := exit_last_time s; streak_counts := streak_counts s; raise_probing := raise_probing s;
     raise_tokens := raise_tokens s; clear_probing := clear_probing s; clear_tokens := clear_tokens s;
     alarm_active := alarm_active s; alarm_moi := alarm_moi s; normal_streak_counts := f |}.

(** ** Operations *)

(** [self._d.get(key)] as a condition, and [self._d.get(key, 0)]. *)
Definition flag (k : pd_key) (d : gmap pd_key bool) : bool := default false (d !! k).
Definition count (k : pd_key) (d : gmap pd_key Z) : Z := default 0 (d !! k).

Definition confirm_sample_exit (k : pd_key) (now interval : pyfloat) (s : Precision) : bool * Precision :=
  let last_exit := default (SpecFloat.S754_zero false) (exit_last_time s !! k) in
  if fleb interval (fsub now last_exit) then (true, set_exit (<[k := now]> (exit_last_time s)) s) else (false, s).

Definition clear_precision_group_state (k : pd_key) (s : Precision) : Precision :=
  {| exit_last_time := exit_last_time s; streak_counts := delete k (streak_counts s);
     raise_probing := delete k (raise_probing s); raise_tokens := delete k (raise_tokens s);
     clear_probing := delete k (clear_probing s); clear_tokens := delete k (clear_tokens s);
     alarm_active := delete k (alarm_active s); alarm_moi := delete k (alarm_moi s);
     normal_streak_counts := delete k (normal_streak_counts s) |}.

Definition dismiss_precision_alarm_state (k : pd_key) (s : Precision) : bool * Precision :=
  (true, clear_precision_group_state k s).

Record precision_result := {
  pr_skip : bool;
  pr_threshold_hit : bool;
  pr_clear_threshold_hit : bool;
  pr_consecutive : Z;
  pr_token : option string;
  pr_moi : option string }.

Definition plain_result (skip : bool) (consecutive : Z) : precision_result :=
  {| pr_skip := skip; pr_threshold_hit := false; pr_clear_threshold_hit := false; pr_consecutive := consecutive;
     pr_token := None; pr_moi := None |}.

Definition record_precision_result (k : pd_key) (has_issue : bool) (threshold clear_threshold : Z) (check_valid : bool)
    (uuid : string) (s : Precision) : precision_result * Precision :=
  let consecutive := if flag k (alarm_active s) then count k (normal_streak_counts s) else count k (streak_counts s) in
  if flag k (raise_probing s) || flag k (clear_probing s) then (plain_result true consecutive, s)
  else if negb check_valid then (plain_result false consecutive, s)
  else if flag k (alarm_active s) then
    if has_issue then (plain_result false 0, set_normal (<[k := 0]> (normal_streak_counts s)) s)
    else
      let c := count k (normal_streak_counts s) + 1 in
      let s := set_normal (<[k := c]> (normal_streak_counts s)) s in
      if clear_threshold <=? c then
        let s := set_clear (<[k := true]> (clear_probing s)) (<[k := uuid]> (clear_tokens s)) s in
        let moi := default EmptyString (alarm_moi s !! k) in
        ({| pr_skip := false; pr_threshold_hit := false; pr_clear_threshold_hit := true; pr_consecutive := c;
            pr_token := Some uuid; pr_moi := Some moi |}, s)
      else (plain_result false c, s)
  else if has_issue then
    let c := count k (streak_counts s) + 1 in
    let s := set_streak (<[k := c]> (streak_counts s)) s in
    if threshold <=? c then
      let s := set_raise (<[k := true]> (raise_probing s)) (<[k := uuid]> (raise_tokens s)) s in
      ({| pr_skip := false; pr_threshold_hit := true; pr_clear_threshold_hit := false; pr_consecutive := c;
          pr_token := Some uuid; pr_moi := None |}, s)
    else (plain_result false c, s)
  else (plain_result false 0, set_streak (<[k := 0]> (streak_counts s)) s).

(** [not expected or expected != action_token] *)
Definition token_matches (expected : option string) (token : string) : bool :=
  match expected with
  | None => false
  | Some e => negb (bool_decide (e = EmptyString)) && bool_decide (e = token)
  end.

(** [action_type] is ["clear"] or anything else. *)
Definition finish_precision_action (k : pd_key) (token : string) (action_type : string) (success : bool)
    (moi : option string) (auto_recovery_cleared : bool) (s : Precision) : bool * Precision :=
  if bool_decide (action_type = "clear") then
    if negb (token_matches (clear_tokens s !! k) token) then (false, s)
    else
      let s := set_clear (<[k := false]> (clear_probing s)) (delete k (clear_tokens s)) s in
      if success then (true, clear_precision_group_state k s)
      else (true, set_normal (<[k := 0]> (normal_streak_counts s)) s)
  else if auto_recovery_cleared then (true, clear_precision_group_state k s)
  else if negb (token_matches (raise_tokens s !! k) token) then (false, s)
  else
    let s := set_raise (<[k := false]> (raise_probing s)) (delete k (raise_tokens s)) s in
    if negb success then
      (true, set_normal (<[k := 0]> (normal_streak_counts s)) (set_streak (<[k := 0]> (streak_counts s)) s))
    else
      let s := set_alarm (<[k := true]> (alarm_active s))
                 (match moi with
                  | Some m => if decide (m = EmptyString) then alarm_moi s else <[k := m]> (alarm_moi s)
                  | None => alarm_moi s
                  end) s in
      (true, set_normal (<[k := 0]> (normal_streak_counts s)) (set_streak (<[k := 0]> (streak_counts s)) s)).

(** ** The abstract machine of one group

    Watching for bad samples with the length of the current streak; raising an
    alarm under a token; alarmed, with the streak of good samples; clearing
    the alarm under a token. *)

Inductive phase :=
  | Watching (issues : Z)
  | Raising (issues : Z) (token : string)
  | Alarmed (normals : Z) (moi : string)
  | Clearing (normals : Z) (token moi : string).

Definition spec_record (has_issue : bool) (threshold clear_threshold : Z) (check_valid : bool) (uuid : string) (p : phase)
    : precision_result * phase :=
  match p with
  | Raising c _ | Clearing c _ _ => (plain_result true c, p)
  | Watching c =>
      if negb check_valid then (plain_result false c, p)
      else if negb has_issue then (plain_result false 0, Watching 0)
      else if threshold <=? c + 1 then
        ({| pr_skip := false; pr_threshold_hit := true; pr_clear_threshold_hit := false; pr_consecutive := c + 1;
            pr_token := Some uuid; pr_moi := None |}, Raising (c + 1) uuid)
      else (plain_result false (c + 1), Watching (c + 1))
  | Alarmed n moi =>
      if negb check_valid then (plain_result false n, p)
      else if has_issue then (plain_result false 0, Alarmed 0 moi)
      else if clear_threshold <=? n + 1 then
        ({| pr_skip := false; pr_threshold_hit := false; pr_clear_threshold_hit := true; pr_consecutive := n + 1;
            pr_token := Some uuid; pr_moi := Some moi |}, Clearing (n + 1) uuid moi)
      else (plain_result false (n + 1), Alarmed (n + 1) moi)
  end.

Definition spec_finish (token action_type : string) (success : bool) (moi : option string) (auto_recovery_cleared : bool)
    (p : phase) : bool * phase :=
  if bool_decide (action_type = "clear") then
    match p with
    | Clearing _ t m =>
        if bool_decide (t = token) then (true, if success then Watching 0 else Alarmed 0 m) else (false, p)
    | _ => (false, p)
    end
  else if auto_recovery_cleared then (true, Watching 0)
  else
    match p with
    | Raising _ t =>
        if bool_decide (t = token) then (true, if success then Alarmed 0 (default EmptyString moi) else Watching 0)
        else (false, p)
    | _ => (false, p)
    end.

(** *** Operations and runs *)

Inductive precision_op :=
  | OpRecord (k : pd_key) (has_issue : bool) (threshold clear_threshold : Z) (check_valid : bool) (uuid : string)
  | OpFinish (k : pd_key) (token action_type : string) (success : bool) (moi : option string) (auto_cleared : bool)
  | OpDismiss (k : pd_key)
  | OpExit (k : pd_key) (now interval : pyfloat).

(** What [uuid4] promises of a token. *)
Definition op_ok (o : precision_op) : Prop := match o with OpRecord _ _ _ _ _ u => u <> EmptyString | _ => True end.

Definition precision_exec (o : precision_op) (s : Precision) : (precision_result + bool) * Precision :=
  match o with
  | OpRecord k i t c v u => let '(r, s) := record_precision_result k i t c v u s in (inl r, s)
  | OpFinish k t a ok m ac => let '(b, s) := finish_precision_action k t a ok m ac s in (inr b, s)
  | OpDismiss k => let '(b, s) := dismiss_precision_alarm_state k s in (inr b, s)
  | OpExit k now iv => let '(b, s) := confirm_sample_exit k now iv s in (inr b, s)
  end.

(** The abstract scheduler: a phase and the last exit of each group. *)
Record SpecState := { sp_phase : pd_key -> phase; sp_exit : pd_key -> pyfloat }.
Definition spec_init : SpecState := {| sp_phase := fun _ => Watching 0; sp_exit := fun _ => SpecFloat.S754_zero false |}.
Definition upd {A} (k : pd_key) (a : A) (f : pd_key -> A) : pd_key -> A := fun k' => if decide (k' = k) then a else f k'.

Definition spec_exec (o : precision_op) (s : SpecState) : (precision_result + bool) * SpecState :=
  match o with
  | OpRecord k i t c v u =>
      let '(r, p) := spec_record i t c v u (sp_phase s k) in (inl r, {| sp_phase := upd k p (sp_phase s); sp_exit := sp_exit s |})
  | OpFinish k t a ok m ac =>
      let '(b, p) := spec_finish t a ok m ac (sp_phase s k) in (inr b, {| sp_phase := upd k p (sp_phase s); sp_exit := sp_exit s |})
  | OpDismiss k => (inr true, {| sp_phase := upd k (Watching 0) (sp_phase s); sp_exit := sp_exit s |})
  | OpExit k now iv =>
      if fleb iv (fsub now (sp_exit s k)) then (inr true, {| sp_phase := sp_phase s; sp_exit := upd k now (sp_exit s) |})
      else (inr false, s)
  end.

Fixpoint run {S A B} (exec : A -> S -> B * S) (ops : list A) (s : S) : list B * S :=
  match ops with
  | [] => ([], s)
  | o :: ops => let '(b, s) := exec o s in let '(bs, s) := run exec ops s in (b :: bs, s)
  end.

(** ** Refinement *)

(** The dictionaries at one key represent a phase. *)
Definition represents (k : pd_key) (s : Precision) (p : phase) : Prop :=
  match p with
  | Watching c =>
      flag k (alarm_active s) = false /\ flag k (raise_probing s) = false /\ flag k (clear_probing s) = false /\
      raise_tokens s !! k = None /\ clear_tokens s !! k = None /\ alarm_moi s !! k = None /\
      count k (streak_counts s) = c /\ count k (normal_streak_counts s) = 0
  | Raising c t =>
      flag k (alarm_active s) = false /\ flag k (raise_probing s) = true /\ flag k (clear_probing s) = false /\
      raise_tokens s !! k = Some t /\ t <> EmptyString /\ clear_tokens s !! k = None /\ alarm_moi s !! k = None /\
      count k (streak_counts s) = c /\ count k (normal_streak_counts s) = 0
  | Alarmed n m =>
      flag k (alarm_active s) = true /\ flag k (raise_probing s) = false /\ flag k (clear_probing s) = false /\
      raise_tokens s !! k = None /\ clear_tokens s !! k = None /\ default EmptyString (alarm_moi s !! k) = m /\
      count k (streak_counts s) = 0 /\ count k (normal_streak_counts s) = n
  | Clearing n t m =>
      flag k (alarm_active s) = true /\ flag k (raise_probing s) = false /\ flag k (clear_probing s) = true /\
      raise_tokens s !! k = None /\ clear_tokens s !! k = Some t /\ t <> EmptyString /\
      default EmptyString (alarm_moi s !! k) = m /\ count k (streak_counts s) = 0 /\ count k (normal_streak_counts s) = n
  end.

Record refines (s : Precision) (a : SpecState) : Prop := {
  rf_phase : forall k, represents k s (sp_phase a k);
  rf_exit : forall k, default (SpecFloat.S754_zero false) (exit_last_time s !! k) = sp_exit a k }.

(** Lookups at the key that changed and at the others. *)
Lemma flag_insert k b d : flag k (<[k := b]> d) = b.
Proof. unfold flag. by rewrite lookup_insert_eq. Qed.
Lemma count_insert k c d : count k (<[k := c]> d) = c.
Proof. unfold count. by rewrite lookup_insert_eq. Qed.
Lemma flag_delete k d : flag k (delete k d) = false.
Proof. unfold flag. by rewrite lookup_delete_eq. Qed.
Lemma count_delete k d : count k (delete k d) = 0.
Proof. unfold count. by rewrite lookup_delete_eq. Qed.

Definition same_at (k : pd_key) (s s' : Precision) : Prop :=
  streak_counts s' !! k = streak_counts s !! k /\ raise_probing s' !! k = raise_probing s !! k /\
  raise_tokens s' !! k = raise_tokens s !! k /\ clear_probing s' !! k = clear_probing s !! k /\
  clear_tokens s' !! k = clear_tokens s !! k /\ alarm_active s' !! k = alarm_active s !! k /\
  alarm_moi s' !! k = alarm_moi s !! k /\ normal_streak_counts s' !! k = normal_streak_counts s !! k.

Lemma represents_same k s s' p : same_at k s s' -> represents k s p -> represents k s' p.
Proof.
  intros (H1 & H2 & H3 & H4 & H5 & H6 & H7 & H8). unfold represents, flag, count.
  by rewrite H1, H2, H3, H4, H5, H6, H7, H8.
Qed.

Ltac fields := cbn [exit_last_time streak_counts raise_probing raise_tokens clear_probing clear_tokens alarm_active alarm_moi
  normal_streak_counts set_exit set_streak set_raise set_clear set_alarm set_normal clear_precision_group_state fst snd] in *.

(** The lookups of another key after updates of [k]. *)
Ltac frame := unfold same_at; fields; repeat split; rewrite ?lookup_insert_ne, ?lookup_delete_ne by congruence; try done;
  repeat case_match; rewrite ?lookup_insert_ne by congruence; done.

Lemma record_frame k i t c v u s k' : k' <> k -> same_at k' s (record_precision_result k i t c v u s).2.
Proof. intros Hk. unfold record_precision_result. repeat case_match; frame. Qed.
Lemma finish_frame k t a ok m ac s k' : k' <> k -> same_at k' s (finish_precision_action k t a ok m ac s).2.
Proof. intros Hk. unfold finish_precision_action. repeat case_match; frame. Qed.
Lemma clear_frame k s k' : k' <> k -> same_at k' s (clear_precision_group_state k s).
Proof. intros Hk. frame. Qed.

Lemma clear_represents k s : represents k (clear_precision_group_state k s) (Watching 0).
Proof. cbn. fields. by rewrite !flag_delete, !count_delete, !lookup_delete_eq. Qed.

(** One method at its own key. *)
Ltac at_key := cbn [represents fst snd]; fields; rewrite ?flag_insert, ?count_insert, ?flag_delete, ?count_delete, ?lookup_insert_eq, ?lookup_delete_eq;
  repeat split; try done; try congruence.

Lemma record_simulates k i t c v u s p : u <> EmptyString -> represents k s p ->
  (record_precision_result k i t c v u s).1 = (spec_record i t c v u p).1 /\
  represents k (record_precision_result k i t c v u s).2 (spec_record i t c v u p).2.
Proof.
  intros Hu Hp. unfold record_precision_result, spec_record. destruct p as [n|n tk|n m|n tk m].
  - pose proof Hp as (Ha & Hr & Hc & Ht & Hct & Hm & Hn & Hs). rewrite Ha, Hr, Hc, Hn. cbn [orb].
    destruct v; cbn [negb]; [|done]. destruct i; cbn [negb]; [|by at_key]. destruct (t <=? n + 1); by at_key.
  - pose proof Hp as (Ha & Hr & Hc & Ht & Hte & Hct & Hm & Hn & Hs). rewrite Ha, Hr, Hn. cbn [orb]. done.
  - pose proof Hp as (Ha & Hr & Hc & Ht & Hct & Hm & Hn & Hs). rewrite Ha, Hr, Hc, Hs. cbn [orb].
    destruct v; cbn [negb]; [|done]. destruct i; [by at_key|]. destruct (c <=? n + 1); by at_key.
  - pose proof Hp as (Ha & Hr & Hc & Ht & Hct & Hte & Hm & Hn & Hs). rewrite Ha, Hr, Hc, Hs. cbn [orb]. done.
Qed.

Lemma token_matches_some t token : t <> EmptyString -> token_matches (Some t) token = bool_decide (t = token).
Proof. intros Ht. cbn. by rewrite (bool_decide_eq_false_2 (t = EmptyString)). Qed.

Lemma finish_simulates k t a ok m ac s p : represents k s p ->
  (finish_precision_action k t a ok m ac s).1 = (spec_finish t a ok m ac p).1 /\
  represents k (finish_precision_action k t a ok m ac s).2 (spec_finish t a ok m ac p).2.
Proof.
  intros Hp. unfold finish_precision_action, spec_finish. destruct (bool_decide (a = "clear")).
  - destruct p as [n|n tk|n mo|n tk mo].
    1-3: assert (Hct : clear_tokens s !! k = None) by apply Hp; by rewrite Hct.
    destruct Hp as (Ha & Hr & Hc & Ht & Hct & Hte & Hm & Hn & Hs). rewrite Hct, token_matches_some by done.
    destruct (bool_decide (tk = t)); cbn [negb]; [|by repeat split]. destruct ok; [split; [done|apply clear_represents]|].
    by at_key.
  - destruct ac; [split; [done|apply clear_represents]|]. destruct p as [n|n tk|n mo|n tk mo].
    1,3,4: assert (Hct : raise_tokens s !! k = None) by apply Hp; by rewrite Hct.
    destruct Hp as (Ha & Hr & Hc & Ht & Hte & Hct & Hm & Hn & Hs). rewrite Ht, token_matches_some by done.
    destruct (bool_decide (tk = t)); cbn [negb]; [|by repeat split]. destruct ok; cbn [negb]; [|by at_key].
    at_key. destruct m as [mo|]; cbn; [|by rewrite Hm]. case_decide; [subst mo; by rewrite Hm|by rewrite lookup_insert_eq].
Qed.

Lemma refines_update k s s' a p : refines s a -> represents k s' p -> (forall k', k' <> k -> same_at k' s s') ->
  exit_last_time s' = exit_last_time s -> refines s' {| sp_phase := upd k p (sp_phase a); sp_exit := sp_exit a |}.
Proof.
  intros [Hp He] Hk Hf Hx. split; cbn [sp_phase sp_exit]; [|intros k'; rewrite Hx; apply He]. intros k'. unfold upd.
  case_decide; [by subst|]. eapply represents_same; [by apply Hf|apply Hp].
Qed.

Lemma precision_exec_simulates o s a : op_ok o -> refines s a ->
  (precision_exec o s).1 = (spec_exec o a).1 /\ refines (precision_exec o s).2 (spec_exec o a).2.
Proof.
  intros Hok Hr. destruct o as [k i t c v u|k t ty ok m ac|k|k now iv]; cbn [precision_exec spec_exec].
  - destruct (record_simulates k i t c v u s _ Hok (rf_phase s a Hr k)) as [H1 H2].
    pose proof (record_frame k i t c v u s) as Hf.
    assert (Hx : exit_last_time (record_precision_result k i t c v u s).2 = exit_last_time s)
      by (unfold record_precision_result; by repeat case_match).
    destruct (record_precision_result k i t c v u s) as [r s'], (spec_record i t c v u (sp_phase a k)) as [r' p].
    cbn [fst snd] in *. subst r'. split; [done|]. by apply (refines_update k s).
  - destruct (finish_simulates k t ty ok m ac s _ (rf_phase s a Hr k)) as [H1 H2].
    pose proof (finish_frame k t ty ok m ac s) as Hf.
    assert (Hx : exit_last_time (finish_precision_action k t ty ok m ac s).2 = exit_last_time s)
      by (unfold finish_precision_action; by repeat case_match).
    destruct (finish_precision_action k t ty ok m ac s) as [r s'], (spec_finish t ty ok m ac (sp_phase a k)) as [r' p].
    cbn [fst snd] in *. subst r'. split; [done|]. by apply (refines_update k s).
  - split; [done|]. apply (refines_update k s); [done|apply clear_represents|apply clear_frame|done].
  - unfold confirm_sample_exit. rewrite (rf_exit s a Hr k). destruct (fleb iv _); [|done]. split; [done|].
    destruct Hr as [Hp He]. split; [done|]. intros k'. cbn. unfold upd. case_decide; [subst; by rewrite lookup_insert_eq|].
    by rewrite lookup_insert_ne by congruence.
Qed.

Lemma init_refines : refines precision_init spec_init.
Proof. split; intros k; [cbn; unfold flag, count; by rewrite !lookup_empty|cbn; by rewrite lookup_empty]. Qed.

(** ** Theorems *)

(** C35: the precision bookkeeping of the scheduler, eight dictionaries under
    per-group locks, is the four-phase machine: for every sequence of results,
    finished actions, dismissals and sampling exits of any groups, every
    method returns what the machine returns.  In particular an alarm is raised
    only at the threshold of consecutive bad samples, cleared only at the
    threshold of consecutive good ones, samples are ignored while an action is
    under way, and an action with a stale token changes nothing. *)
Theorem precision_refines_spec (ops : list precision_op) (Hops : Forall op_ok ops) :
  (run precision_exec ops precision_init).1 = (run spec_exec ops spec_init).1.
Proof.
  assert (H : forall s a, refines s a -> (run precision_exec ops s).1 = (run spec_exec ops a).1); [|apply H, init_refines].
  induction Hops as [|o ops Ho _ IH]; intros s a Hr; [done|]. cbn.
  destruct (precision_exec_simulates o s a Ho Hr) as [H1 H2].
  destruct (precision_exec o s) as [b s'], (spec_exec o a) as [b' a']. cbn [fst snd] in *. subst b'.
  specialize (IH s' a' H2). destruct (run precision_exec ops s'), (run spec_exec ops a'). cbn in *. by subst.
Qed.

(** A bad streak, an action with a stale token, a raised alarm, a good streak. *)
Definition ex_precision_ops : list precision_op :=
  let k : pd_key := (Some 1, 2) in
  [OpRecord k true 2 1 true "a"; OpRecord k true 2 1 true "b"; OpFinish k "z" "raise" true None false;
   OpFinish k "b" "raise" true (Some "moi") false; OpRecord k false 2 1 true "c"].

Lemma precision_refines_spec_witness :
  (run precision_exec ex_precision_ops precision_init).1 = (run spec_exec ex_precision_ops spec_init).1.
Proof. apply precision_refines_spec. by repeat constructor. Defined.
