(* ===== verification/Scheduler.v ===== *)
(** * The in-process scheduler

    [Scheduler] of [motor/coordinator/scheduler/scheduler.py]: selection of an
    instance and endpoint for a request and the allocation of its workload in
    the ledger of the instance pools ([WorkloadLedgerMixin] of
    [scheduler/policy/base.py]).  The policies come in behind the interface
    [SchedulingPolicy]; the theorems use only what it promises. *)

From S2P Require Import Prelude PyDict PyNum Resources InstancePool Policies.

(** ** Policies behind one interface *)

(** What [Scheduler] calls of a policy: the selection from a list, and whether
    the policy has [update_workload]; a policy returns an endpoint of an
    instance of the list it was given. *)
Class SchedulingPolicy (P : Type) := {
  policy_type : SchedulerType;
  tracks_workload : bool;
  select_from_list : list Instance_ -> option PDRole -> P -> option (Instance_ * Endpoint) * P;
  select_from_list_sound : forall l role p i e, (select_from_list l role p).1 = Some (i, e) -> i ∈ l /\ e ∈ eps_of i }.

Lemma rr_from_list_sound l role p i e :
  (rr_select_instance_and_endpoint_from_list l role p).1 = Some (i, e) -> i ∈ l /\ e ∈ eps_of i.
Proof.
  unfold rr_select_instance_and_endpoint_from_list, rr_select_instance_from_list, rr_select_endpoint_from_instance.
  destruct l as [|i0 l]; [done|]. destruct ((i0 :: l) !! _) as [i1|] eqn:Hi; [|done]. cbv zeta iota beta.
  destruct (eps_of i1) as [|e0 es] eqn:He; [done|]. destruct ((e0 :: es) !! _) as [e1|] eqn:Hep; [|done].
  cbn [fst fmap option_fmap option_map]. intros [= <- <-]. split; [by apply list_elem_of_lookup_2 in Hi|].
  rewrite He. by apply list_elem_of_lookup_2 in Hep.
Qed.

#[export] Instance RoundRobinPolicy : SchedulingPolicy RoundRobin := {
  policy_type := ROUND_ROBIN;
  tracks_workload := false;
  select_from_list := rr_select_instance_and_endpoint_from_list;
  select_from_list_sound := rr_from_list_sound }.

(** The load balancer's state is its weight. *)
Record LoadBalance := { lb_weight : pyfloat }.
Definition lb_select (l : list Instance_) (role : option PDRole) (p : LoadBalance) : option (Instance_ * Endpoint) * LoadBalance :=
  (lb_select_instance_and_endpoint_from_list (lb_weight p) l role, p).

Lemma lb_from_list_sound l role p i e : (lb_select l role p).1 = Some (i, e) -> i ∈ l /\ e ∈ eps_of i.
Proof.
  cbn [lb_select fst]. unfold lb_select_instance_and_endpoint_from_list, select_endpoint_from_list.
  rewrite select_is_prefix by lia.
  destruct (snd <$> take (Z.to_nat 1) (ranking l role (lb_weight p) None 0)) as [|c cs] eqn:E; [done|].
  intros [= <- <-]. assert (Hc : c ∈ scored l role (lb_weight p) None).
  { rewrite <- (ranking_perm l role (lb_weight p) None 0). apply (subseteq_take (Z.to_nat 1)).
    rewrite <- fmap_take, E. by left. }
  apply elem_of_scored in Hc as (H1 & _ & H2 & _). done.
Qed.

#[export] Instance LoadBalancePolicy : SchedulingPolicy LoadBalance := {
  policy_type := LOAD_BALANCE;
  tracks_workload := true;
  select_from_list := lb_select;
  select_from_list_sound := lb_from_list_sound }.

(** ** Engine types *)

(** [s.strip().lower()], on ASCII text. *)
Definition is_space (c : Ascii.ascii) : bool :=
  let n := Ascii.nat_of_ascii c in ((9 <=? n) && (n <=? 13) || (28 <=? n) && (n <=? 32))%nat.
Definition lower_char (c : Ascii.ascii) : Ascii.ascii :=
  let n := Ascii.nat_of_ascii c in if ((65 <=? n) && (n <=? 90))%nat then Ascii.ascii_of_nat (n + 32) else c.
Fixpoint strip_left (l : list Ascii.ascii) : list Ascii.ascii :=
  match l with [] => [] | c :: l' => if is_space c then strip_left l' else l end.
Definition strip_lower (s : string) : list Ascii.ascii :=
  map lower_char (reverse (strip_left (reverse (strip_left (String.list_ascii_of_string s))))).

(** [str(getattr(instance, "engine_type", "")).strip().lower() == normalized] *)
Definition engine_matches (required : string) (i : Instance_) : bool :=
  bool_decide (strip_lower (default "None" (engine_type i)) = strip_lower required).

Example engine_matches_case : engine_matches " VLLM" (Instance_new "j" "m" (Some "vllm") [] 1 "prefill" true) = true.
Proof. reflexivity. Qed.

(** ** The scheduler *)

Section Scheduler.
Context {P : Type} `{SchedulingPolicy P} (get_mul_token : string -> Z).

Record Scheduler := { sc_pools : Pools; sc_policy : P }.

(** An exception of the pools, or of the conversion of a demand. *)
Inductive SchedError := PoolError (e : PyError) | DemandError.

(** [update_workload_sync]: success, role and the endpoint's new workload. *)
Definition update_workload_sync (id ep : Z) (role : PDRole) (change : Workload)
    : ST Scheduler SchedError (bool * option PDRole * option Workload) := fun s =>
  if tracks_workload then
    match update_instance_workload_sync id ep change (sc_pools s) with
    | (Ret (Some (r, w)), pools) => (Ret (true, Some r, Some w), {| sc_pools := pools; sc_policy := sc_policy s |})
    | (Ret None, pools) => (Ret (false, None, None), {| sc_pools := pools; sc_policy := sc_policy s |})
    | (Raise e, pools) => (Raise (PoolError e), {| sc_pools := pools; sc_policy := sc_policy s |})
    end
  else (Ret (true, Some role, None), s).

(** [update_workload]: always true; the ledger result is dropped. *)
Definition update_workload (id ep : Z) (role : PDRole) (change : Workload) : ST Scheduler SchedError bool :=
  _ ← update_workload_sync id ep role change;
  mret true.

Definition allocate_selected (i : Instance_) (ep : Endpoint) (role : PDRole) (req : ReqInfo)
    : ST Scheduler SchedError (option (Instance_ * Endpoint * Workload)) := fun s =>
  match (if tracks_workload then calculate_demand_workload get_mul_token role req else Some Workload_default) with
  | None => (Raise DemandError, s)
  | Some w =>
      (r ← update_workload_sync (ins_id i) (ep_id ep) role w;
       mret (if r.1.1 : bool then Some (i, ep, w) else None)) s
  end.

(** The pool of a role: the objects in the order of the dictionary. *)
Definition pool_of (role : PDRole) (s : Scheduler) : dict Z Instance_ :=
  (fun kv : Z * nat => (kv.1, obj (sc_pools s) kv.2)) <$> get_available_instances (Some role) (sc_pools s).

Definition filter_engine (required : option string) (pool : dict Z Instance_) : dict Z Instance_ :=
  match required with
  | None => pool
  | Some e => base.filter (fun kv : Z * Instance_ => engine_matches e kv.2 = true) pool
  end.

Definition select_and_allocate (role : PDRole) (req : ReqInfo) (target : option Z) (required_engine_type : option string)
    : ST Scheduler SchedError (option (Instance_ * Endpoint * Workload)) := fun s =>
  let pool := filter_engine required_engine_type (pool_of role s) in
  match target with
  | Some id =>
      match resolve_pinned_instance pool id with
      | None => (Ret None, s)
      | Some i =>
          match (select_endpoint_for_instance i policy_type [] None).1 with
          | None => (Ret None, s)
          | Some ep => allocate_selected i ep role req s
          end
      end
  | None =>
      let '(r, p) := select_from_list (dvalues pool) (Some role) (sc_policy s) in
      let s := {| sc_pools := sc_pools s; sc_policy := p |} in
      match r with
      | None => (Ret None, s)
      | Some (i, ep) => allocate_selected i ep role req s
      end
  end.
End Scheduler.
Arguments Scheduler P : clear implicits.

(** ** Lemmas *)

Lemma dget_fmap_vals {A B} (f : A -> B) (k : Z) (d : dict Z A) :
  dget k ((fun kv : Z * A => (kv.1, f kv.2)) <$> d : dict Z B) = f <$> dget k d.
Proof. induction d as [|[k' v] d IH]; [done|]. cbn. case_decide; [done|exact IH]. Qed.

Lemma elem_of_eps i e : e ∈ eps_of i -> exists p, resolve i p = Some e.
Proof.
  unfold eps_of, get_all_endpoints. destruct (cache_valid i) as [t|]; cbn [fst];
    intros (p & _ & Hp)%list_elem_of_omap; by exists p.
Qed.

(** The endpoint index has an entry for every endpoint of the table. *)
Lemma endpoint_cache_complete r i p e : resolve i p = Some e -> is_Some (dget (ep_id e) (endpoint_cache r i)).
Proof.
  unfold resolve. destruct (dget p.1 (endpoints i)) as [eps|] eqn:E1; [|done]. cbn. intros E2.
  apply dget_elem in E1, E2. unfold endpoint_cache.
  assert (Hkeep : forall (pod : string) (l : dict Z Endpoint) acc k, is_Some (dget k acc) ->
    is_Some (dget k (foldl (fun (acc : dict Z (nat * ep_path)) '((k0, ep) : Z * Endpoint) => dset (ep_id ep) (r, (pod, k0)) acc) acc l))).
  { intros pod l. induction l as [|[k0 x] l IH]; intros acc k Hk; [done|]. cbn. apply IH. rewrite dget_dset.
    case_decide; [by eexists|done]. }
  assert (Hkeep' : forall l acc k, is_Some (dget k acc) -> is_Some (dget k (foldl (fun (acc : dict Z (nat * ep_path)) '((pod_ip, eps) : string * dict Z Endpoint) =>
    foldl (fun acc '(k, ep) => dset (ep_id ep) (r, (pod_ip, k)) acc) acc eps) acc l))).
  { induction l as [|[pod l0] l IH]; intros acc k Hk; [done|]. cbn. by apply IH, Hkeep. }
  generalize (@nil (Z * (nat * ep_path))). induction (endpoints i) as [|[pod l0] l IH]; intros acc; [by apply not_elem_of_nil in E1|].
  cbn. apply elem_of_cons in E1 as [[= _ <-]|E1]; [|by apply IH]. apply Hkeep'. clear IH Hkeep'.
  revert acc. induction eps as [|[k0 x] eps IH]; intros acc; [by apply not_elem_of_nil in E2|]. cbn.
  apply elem_of_cons in E2 as [[= _ <-]|E2]; [|by apply IH]. apply Hkeep. rewrite dget_dset_eq. by eexists.
Qed.

(** The endpoints of an instance after a ledger update at [p]. *)
Lemma effect_resolve p w b change i e q : resolve i p = Some e ->
  resolve (workload_effect p w b change i) q =
  (if b then fmap clamp_ep else id) (if decide (p = q) then Some (ep_set_workload w e) else resolve i q).
Proof.
  intros He. pose proof (resolve_ep_update p (ep_set_workload w) i e q He) as Hq. unfold workload_effect. destruct b; [|exact Hq].
  unfold rebuild_instance_workload. cbn [fst]. etrans; [apply (resolve_dmap clamp_ep)|]. by rewrite Hq.
Qed.

Lemma clamp_ep_id e : fltb (active_tokens (workload e)) f0 = false -> clamp_ep e = e.
Proof. intros He. unfold clamp_ep, clamp_workload_floor. rewrite He. by destruct e. Qed.

Section SchedulerLemmas.
Context {P : Type} `{SchedulingPolicy P} (get_mul_token : string -> Z).

(** What an allocation of [w] does to the ledger: one endpoint of the instance
    object [r], one with the id of the selected endpoint, gets the load; the
    other endpoints and all other objects stay. *)
Definition charged (r : nat) (ep : Z) (w : Workload) (s s' : Pools) : Prop :=
  exists p e, resolve (obj s r) p = Some e /\ ep_id e = ep /\
    resolve (obj s' r) p = Some (ep_set_workload (clamp_workload_floor (Workload_iadd (workload e) w)).1 e) /\
    (forall x, x <> r -> obj s' x = obj s x) /\
    (fltb (active_tokens (Workload_iadd (workload e) w)) f0 = false -> forall q, q <> p -> resolve (obj s' r) q = resolve (obj s r) q).

Lemma update_charges id r ep e change s : pools_inv s -> objs_wf s -> dget id (available s) = Some r ->
  e ∈ eps_of (obj s r) -> ep_id e = ep ->
  exists role w s', update_instance_workload_sync id ep change s = (Ret (Some (role, w)), s') /\ charged r ep change s s'.
Proof.
  intros Hinv Hwf Hr He Hid. pose proof (update_workload_cases id ep change s Hinv Hwf) as Hc. rewrite Hr in Hc.
  destruct Hc as (s1 & _ & Ho & _ & Hc). assert (Hobj : forall x, obj s1 x = obj s x) by (intros x; unfold obj; by rewrite Ho).
  apply elem_of_eps in He as [p0 Hp0]. pose proof (endpoint_cache_complete r _ _ _ Hp0) as [[er p] Hc']. rewrite Hid in Hc'.
  rewrite Hc' in Hc. destruct Hc as (e1 & role & He1 & Hid1 & Hrole & Hc).
  pose proof (clamp_floor (Workload_iadd (workload e1) change)) as [Hfl Hcl].
  destruct (clamp_workload_floor (Workload_iadd (workload e1) change)) as [w b] eqn:Ecl. cbn [fst snd] in Hfl, Hcl.
  eexists _, w, _. split; [exact Hc|]. exists p, e1. do 2 (split; [done|]). rewrite Ecl. cbn [fst].
  rewrite obj_set, decide_True by done. split; [|split].
  - rewrite (effect_resolve _ _ _ _ _ _ _ He1), decide_True by done. destruct b; [|done]. cbn. f_equal. by apply clamp_ep_id.
  - intros x Hx. rewrite !obj_set, !decide_False by done. apply Hobj.
  - rewrite <- Hcl. intros -> q Hq. rewrite (effect_resolve _ _ _ _ _ _ _ He1). by rewrite decide_False.
Qed.

(** The instances of the filtered pool. *)
Lemma elem_of_pool role required (s : Scheduler P) id i : (id, i) ∈ filter_engine required (pool_of role s) ->
  exists r, (id, r) ∈ role_pool role (sc_pools s) /\ i = obj (sc_pools s) r /\
    match required with Some e => engine_matches e i = true | None => True end.
Proof.
  unfold filter_engine, pool_of. destruct required as [e|].
  - intros [He Hin]%list_elem_of_filter. apply list_elem_of_fmap in Hin as ([id' r] & [= -> ->] & Hin). by exists r.
  - intros Hin. apply list_elem_of_fmap in Hin as ([id' r] & [= -> ->] & Hin). by exists r.
Qed.

(** What one call of [select_and_allocate] may give. *)
Definition allocation_ok (role : PDRole) (req : ReqInfo) (target : option Z) (required : option string)
    (s : Scheduler P) (res : outcome SchedError (option (Instance_ * Endpoint * Workload)) * Scheduler P) : Prop :=
  match res with
  | (Ret (Some (i, ep, w)), s') => exists r,
      dget (ins_id i) (role_pool role (sc_pools s)) = Some r /\ i = obj (sc_pools s) r /\
      match required with Some e => engine_matches e i = true | None => True end /\
      match target with Some id => ins_id i = id | None => True end /\
      ep ∈ eps_of i /\
      if tracks_workload
      then calculate_demand_workload get_mul_token role req = Some w /\ charged r (ep_id ep) w (sc_pools s) (sc_pools s')
      else w = Workload_default /\ sc_pools s' = sc_pools s
  | (Ret None, s') => sc_pools s' = sc_pools s
  | (Raise e, s') => e = DemandError /\ sc_pools s' = sc_pools s /\ calculate_demand_workload get_mul_token role req = None
  end.

Lemma allocate_ok role req target required s0 s id r i ep : pools_inv (sc_pools s0) -> objs_wf (sc_pools s0) ->
  sc_pools s = sc_pools s0 -> (id, r) ∈ role_pool role (sc_pools s0) -> i = obj (sc_pools s0) r -> ep ∈ eps_of i ->
  match required with Some e => engine_matches e i = true | None => True end ->
  match target with Some t => t = id | None => True end ->
  allocation_ok role req target required s0 (allocate_selected get_mul_token i ep role req s).
Proof.
  intros Hinv Hwf Hs Hin -> Hep Heng Htar. apply elem_dget in Hin; [|apply (po_wf_r _ (pi_ok _ Hinv))].
  destruct (po_role _ (pi_ok _ Hinv) _ _ _ Hin) as [Hav _]. destruct (po_avail _ (pi_ok _ Hinv) _ _ Hav) as [Hid _].
  unfold allocate_selected, update_workload_sync, allocation_ok. destruct tracks_workload eqn:Et.
  - destruct (calculate_demand_workload get_mul_token role req) as [w|] eqn:Ed; [|done].
    destruct (update_charges id r (ep_id ep) ep w _ Hinv Hwf Hav Hep eq_refl) as (role' & w' & s' & Hu & Hc).
    unfold mbind, ST_bind, mret, ST_ret. rewrite Hs, Hid, Hu. exists r. rewrite Hid. do 3 (split; [done|]).
    split; [by destruct target|]. done.
  - unfold mbind, ST_bind, mret, ST_ret. exists r. rewrite Hid. do 3 (split; [done|]). split; [by destruct target|].
    split; [done|]. split; [done|]. exact Hs.
Qed.
End SchedulerLemmas.

(** The endpoint of a pinned instance is one of its endpoints. *)
Lemma pinned_endpoint_sound i t counters blocked ep :
  (select_endpoint_for_instance i t counters blocked).1 = Some ep -> ep ∈ eps_of i.
Proof.
  assert (Hlb : forall e, lb_select_endpoint_from_instance i = Some e -> e ∈ eps_of i).
  { intros e. unfold lb_select_endpoint_from_instance. destruct (eps_of i) as [|e0 es] eqn:E; [done|].
    pose proof (min_scan_spec (fun ep => calculate_workload_score (workload ep) (Some (ins_role i))) (e0 :: es)) as Hm.
    intros Hs. rewrite Hs in Hm. by destruct Hm as (s & Hin & _). }
  assert (Hhd : forall e, head (eps_of i) = Some e -> e ∈ eps_of i).
  { intros e. destruct (eps_of i); [done|]. intros [= ->]. by left. }
  assert (Hrr : forall e, (rr_select_endpoint_from_instance i blocked counters).1 = Some e -> e ∈ eps_of i).
  { intros e. unfold rr_select_endpoint_from_instance. set (l := match blocked with Some f => _ | None => _ end).
    assert (Hsub : forall x, x ∈ l -> x ∈ eps_of i).
    { unfold l. destruct blocked; [|done]. intros x Hx. by apply list_elem_of_filter in Hx as [_ Hx]. }
    clearbody l. destruct l as [|e0 es]; [done|]. cbn [fst]. intros Hl. by apply Hsub, (list_elem_of_lookup_2 _ _ _ Hl). }
  unfold select_endpoint_for_instance. destruct t; [apply Hrr| |];
    (destruct (if match blocked with Some f => f (ins_id i) | None => false end then None else _) as [e|] eqn:E; cbn [fst];
     [intros [= <-]; apply Hlb; by destruct (match blocked with Some f => _ | None => _ end)
     |destruct (match blocked with Some f => _ | None => _ end); [done|apply Hhd]]).
Qed.

(** ** The ledger counts exactly *)

(** Integer changes of the ledgers of one instance, in order. *)
Definition ledger_run (id : Z) (changes : list (Z * Z)) (s : Pools) : Pools :=
  foldl (fun s '(ep, z) => (update_instance_workload_sync id ep {| active_tokens := int_float z |} s).2) s changes.

(** The sum of the changes of one endpoint. *)
Fixpoint total (ep : Z) (changes : list (Z * Z)) : Z :=
  match changes with
  | [] => 0
  | (ep', z) :: l => (if decide (ep' = ep) then z else 0) + total ep l
  end.

Lemma int_float_nonneg n : 0 <= n -> small n -> fltb (int_float n) f0 = false.
Proof.
  intros Hn Hs. destruct (Z.eq_dec n 0) as [->|Hz]; [done|].
  destruct (int_float_canonical n Hs Hz) as (m & e & -> & Hm & He & _). destruct (Z.ltb_spec n 0); [lia|].
  unfold fltb, xltb. cbn [float_val f0 xcompare SpecFloat.cond_Zopp]. unfold dyadic_compare. rewrite Z.mul_0_l.
  assert (0 < 2 ^ (e - Z.min e 0)) by (apply Z.pow_pos_nonneg; lia).
  destruct (Z.compare_spec (Zpos (Z.to_pos m) * 2 ^ (e - Z.min e 0)) 0); try done; nia.
Qed.

(** One endpoint of an available instance, found through the index, with an
    integer load. *)
Record tracked (id : Z) (r : nat) (p : ep_path) (ep n : Z) (s : Pools) : Prop := {
  tr_inv : pools_inv s;
  tr_wf : objs_wf s;
  tr_avail : dget id (available s) = Some r;
  tr_index : dget ep (endpoint_cache r (obj s r)) = Some (r, p);
  tr_load : exists e, resolve (obj s r) p = Some e /\ active_tokens (workload e) = int_float n }.

Lemma tracked_step id r p ep n ep' z s : tracked id r p ep n s -> 0 <= n -> small n -> small z ->
  0 <= (if decide (ep' = ep) then n + z else n) -> small (if decide (ep' = ep) then n + z else n) ->
  tracked id r p ep (if decide (ep' = ep) then n + z else n)
    (update_instance_workload_sync id ep' {| active_tokens := int_float z |} s).2.
Proof.
  intros [Hinv Hwf Hav Hix (e & He & Hload)] Hn Hsn Hsz Hn' Hsn'.
  pose proof (update_workload_inv id ep' {| active_tokens := int_float z |} s Hinv Hwf) as [Hinv' Hwf'].
  pose proof (update_workload_cases id ep' {| active_tokens := int_float z |} s Hinv Hwf) as Hc. rewrite Hav in Hc.
  destruct Hc as (s1 & _ & Ho & Ha & Hc). assert (Hobj : obj s1 r = obj s r) by (unfold obj; by rewrite Ho).
  destruct (dget ep' (endpoint_cache r (obj s r))) as [[er p']|] eqn:Ep'.
  2:{ rewrite Hc in *. cbn [snd] in *. destruct (decide (ep' = ep)); [congruence|].
      split; [done|done|congruence|by rewrite Hobj|rewrite Hobj; eauto]. }
  destruct Hc as (e' & role & He' & Hid' & _ & Hc). destruct (clamp_workload_floor _) as [w b] eqn:Ecl. rewrite Hc in *. cbn [snd] in *.
  assert (Hfin : obj (set_obj r (workload_effect p' w b {| active_tokens := int_float z |} (obj s r))
      (set_obj r (ep_update p' (ep_set_workload w) (obj s r)) s1)) r = workload_effect p' w b {| active_tokens := int_float z |} (obj s r))
    by by rewrite obj_set, decide_True.
  pose proof (workload_effect_similar p' w b {| active_tokens := int_float z |} (obj s r)) as (_ & _ & _ & Hcache).
  split; [done|done|cbn; by rewrite Ha|by rewrite Hfin, Hcache|]. rewrite Hfin, (effect_resolve _ _ _ _ _ _ _ He').
  destruct (endpoint_cache_sound r (obj s r) ep r p (Hwf r) Hix) as (_ & e0 & He0 & Hid0). assert (e0 = e) as -> by congruence.
  destruct (decide (ep' = ep)) as [->|Hne].
  - assert (p' = p) as -> by congruence. assert (e' = e) as -> by congruence. rewrite decide_True by done.
    unfold clamp_workload_floor, Workload_iadd in Ecl. cbn [active_tokens] in Ecl. rewrite Hload, fadd_int in Ecl by done.
    rewrite int_float_nonneg in Ecl by done. injection Ecl as <- <-. by eexists.
  - rewrite decide_False by congruence. rewrite He. destruct b; [|by eexists]. exists (clamp_ep e). split; [done|].
    rewrite clamp_ep_id; [done|]. rewrite Hload. by apply int_float_nonneg.
Qed.

(** ** Theorems *)

(** C36: every call of [select_and_allocate], with any policy that keeps the
    interface, on reachable pools: an allocation is for an available instance
    of the role that satisfies the engine type and the pin, on one of its
    endpoints, and charges exactly the demand of the request to the ledger of
    that endpoint's id (policies without a ledger charge nothing); a refusal
    and an exception leave the pools as they were, and the only exception is
    that of the demand. *)
Theorem select_and_allocate_exact {P} `{SchedulingPolicy P} get_mul_token role req target required (s : Scheduler P)
    (Hreach : pool_reach (sc_pools s)) :
  allocation_ok get_mul_token role req target required s (select_and_allocate get_mul_token role req target required s).
Proof.
  apply pool_reach_inv in Hreach as [Hinv Hwf]. unfold select_and_allocate. destruct target as [id|].
  - destruct (resolve_pinned_instance _ id) as [i|] eqn:Ei; [|done].
    apply dget_elem, elem_of_pool in Ei as (r & Hin & Hi & Heng).
    destruct (select_endpoint_for_instance i policy_type [] None) as [[ep|] c] eqn:Ee; cbn [fst]; [|done].
    eapply allocate_ok; eauto. apply (pinned_endpoint_sound i policy_type [] None). by rewrite Ee.
  - pose proof (select_from_list_sound (dvalues (filter_engine required (pool_of role s))) (Some role) (sc_policy s)) as Hs.
    destruct (select_from_list _ (Some role) (sc_policy s)) as [[[i ep]|] p]; [|done].
    destruct (Hs i ep eq_refl) as [Hin Hep]. apply elem_of_dvalues in Hin as [id Hin].
    apply elem_of_pool in Hin as (r & Hin & Hi & Heng). by eapply allocate_ok.
Qed.

Lemma select_and_allocate_exact_witness :
  let s := {| sc_pools := ex_pools; sc_policy := {| lb_weight := f0 |} |} in
  let req := {| req_id := "r"; req_len := 40; token_ids := Some [1; 2; 3]; messages := [] |} in
  allocation_ok (fun _ => 0) ROLE_P req None None s (select_and_allocate (fun _ => 0) ROLE_P req None None s).
Proof. apply select_and_allocate_exact. apply ex_pools_reach. Defined.

(** C37: the ledger neither leaks nor invents load.  On reachable pools, for an
    available instance and an endpoint of it whose load is an integer: after
    any interleaving of integer allocations (positive) and releases (negative)
    on the endpoints of the instance, during which the outstanding load of
    this endpoint stays between 0 and [2 ^ 53], its ledger is exactly the
    initial load plus all changes, with no rounding error; whatever floors the
    other endpoints hit.  When everything is released it is back exactly where
    it started. *)
Theorem ledger_conserved (id : Z) (r : nat) (p : ep_path) (ep n : Z) (changes : list (Z * Z)) (s : Pools)
    (Hreach : pool_reach s)
    (Hav : dget id (available s) = Some r)
    (Hix : dget ep (endpoint_cache r (obj s r)) = Some (r, p))
    (Hload : exists e, resolve (obj s r) p = Some e /\ active_tokens (workload e) = int_float n)
    (Hz : Forall (fun '(_, z) => small z) changes)
    (Hout : forall k, 0 <= n + total ep (take k changes) <= 2 ^ 53) :
  exists e, resolve (obj (ledger_run id changes s) r) p = Some e /\
    active_tokens (workload e) = int_float (n + total ep changes).
Proof.
  apply pool_reach_inv in Hreach as [Hinv Hwf].
  assert (Ht : tracked id r p ep n s) by by split. clear Hinv Hwf Hav Hix Hload.
  revert n s Ht Hout. induction Hz as [|[ep' z] l Hz _ IH]; intros n s Ht Hout; cbn [ledger_run foldl total].
  - rewrite Z.add_0_r. apply (tr_load _ _ _ _ _ _ Ht).
  - assert (Hn : forall k, 0 <= (if decide (ep' = ep) then n + z else n) + total ep (take k l) <= 2 ^ 53).
    { intros k. specialize (Hout (S k)). cbn [firstn total] in Hout. destruct (decide (ep' = ep)); lia. }
    pose proof (Hout 0%nat) as H0. pose proof (Hn 0%nat) as H1.
    rewrite take_0 in H0, H1. cbn [total] in H0, H1. rewrite Z.add_0_r in H0, H1.
    pose proof (tracked_step id r p ep n ep' z s Ht ltac:(lia) ltac:(unfold small; lia) Hz ltac:(lia) ltac:(unfold small; lia)) as Hs.
    destruct (IH _ _ Hs Hn) as (e & He & Hl). exists e. split; [exact He|]. rewrite Hl. f_equal. destruct (decide (ep' = ep)); lia.
Qed.

Lemma ledger_conserved_witness :
  exists e, resolve (obj (ledger_run 1 [(0, 100); (1, 7); (0, 23); (1, -9); (0, -100); (0, -23)] ex_pools) 0) ("10.0.0.1", 0) = Some e /\
    active_tokens (workload e) = int_float 0.
Proof.
  apply (ledger_conserved 1 0 ("10.0.0.1", 0) 0 0 [(0, 100); (1, 7); (0, 23); (1, -9); (0, -100); (0, -23)] ex_pools).
  - apply ex_pools_reach.
  - vm_compute. reflexivity.
  - vm_compute. reflexivity.
  - eexists. split; [vm_compute; reflexivity|]. vm_compute. reflexivity.
  - repeat constructor; unfold small; lia.
  - intros k. do 7 (destruct k as [|k]; [vm_compute; split; discriminate|]). vm_compute. split; discriminate.
Defined.
